(** * SendNonSendable: region-based Sendable checking

    A shallow embedding of [lib/SILOptimizer/Mandatory/SendNonSendable.cpp]:
    the translation of SIL instructions to [PartitionOp]s, the per-block
    dataflow state, the fixpoint solver, the race tracer with its
    accumulator, and the pass entry point.

    Conventions.
    - [unsigned] is a 32-bit value kept in [N]; increments are wrapped.
    - A failed [assert], an out-of-range [getResult]/[getOperand]/[at] stop
      the run: they are the [Abort] outcome of the monads below.
    - Loops without a structural bound ([while (anyNeedUpdate)], the BFS
      queue, the memoised recursion of the tracer) take a fuel argument;
      [OutOfFuel] is the outcome of a run that used it up. *)

From stdpp Require Import gmap list sorting.
From Stdlib Require Import NArith ZArith Lia.

Set Default Proof Using "Type".
Set Warnings "-clear-no-such-hyp".

(** ** Outcomes of code that can stop on an assertion *)

Inductive Failure :=
| AssertionFailure   (* an [assert] did not hold *)
| OutOfRange.        (* an index past the end of results, operands or a vector *)

Inductive Outcome (A : Type) :=
| Done (a : A)
| Abort (f : Failure)
| OutOfFuel.
Arguments Done {A} a.
Arguments Abort {A} f.
Arguments OutOfFuel {A}.

(** Code over a state [S] that may stop early. *)
Definition Run (S A : Type) : Type := S → Outcome (A * S).

#[global] Instance Run_ret {S} : MRet (Run S) :=
  λ A a s, Done (a, s).
#[global] Instance Run_bind {S} : MBind (Run S) :=
  λ A B f m s,
    match m s with
    | Done (a, s') => f a s'
    | Abort e => Abort e
    | OutOfFuel => OutOfFuel
    end.

Definition assert_ {S} (b : bool) : Run S unit :=
  λ s, if b then Done (tt, s) else Abort AssertionFailure.

Definition lift_outcome {S A} (o : Outcome A) : Run S A :=
  λ s, match o with
       | Done a => Done (a, s)
       | Abort e => Abort e
       | OutOfFuel => OutOfFuel
       end.

Definition get_state {S} : Run S S := λ s, Done (s, s).
Definition put_state {S} (s' : S) : Run S unit := λ _, Done (tt, s').
Definition modify_state {S} (f : S → S) : Run S unit := λ s, Done (tt, f s).

(** [v.at(i)] *)
Definition at_ {S A} (l : list A) (i : nat) : Run S A :=
  lift_outcome (match l !! i with Some a => Done a | None => Abort OutOfRange end).

(** [for (x : xs) body(x)] *)
Fixpoint for_each {S A} (xs : list A) (body : A → Run S unit) : Run S unit :=
  match xs with
  | [] => mret tt
  | x :: xs' => _ ← body x; for_each xs' body
  end.

#[global] Instance Failure_eq_dec : EqDecision Failure.
Proof. solve_decision. Defined.

Definition unsigned_max : N := 2 ^ 32.
Definition wrap32 (n : N) : N := n mod unsigned_max.

(** ** The SIL values and instructions the pass looks at *)

Abbreviation SILValue := N.
Abbreviation BlockId := nat.
Abbreviation ID := N.
Abbreviation Expr := N.

Inductive IsolationCrossing := MkIsolationCrossing.

Record ApplyExpr := { getIsolationCrossing : option IsolationCrossing }.

Inductive SILInstructionKind :=
| AllocBoxInst | AllocRefInst | AllocStackInst | LiteralInst
| AddressToPointerInst | BeginAccessInst | BeginBorrowInst | CopyValueInst
| ConvertEscapeToNoEscapeInst | ConvertFunctionInst | IndexAddrInst
| InitExistentialAddrInst | LoadInst | LoadBorrowInst | LoadWeakInst
| PointerToAddressInst | RefElementAddrInst | StrongCopyUnownedValueInst
| TailAddrInst | UncheckedAddrCastInst | UncheckedOwnershipConversionInst
| UncheckedRefCastInst
| CopyAddrInst | ExplicitCopyAddrInst | StoreInst | StoreBorrowInst
| StoreWeakInst
| ApplyInst | TryApplyInst | PartialApplyInst | BuiltinInst
| DestructureTupleInst
| ReturnInst
| ClassMethodInst | DeallocBoxInst | DebugValueInst | DestroyAddrInst
| DestroyValueInst | EndAccessInst | EndBorrowInst | EndLifetimeInst
| HopToExecutorInst | MetatypeInst | DeallocStackInst
| FunctionRefInst
| OtherInst.

(** An instruction: [instAddr] stands for the address of the C++ object (two
    instructions are the same one iff they have the same address),
    [instApplyExpr] is [getLoc().getAsASTNode<ApplyExpr>()], [instExpr] is
    [getLoc().getAsASTNode<Expr>()], [instParent] is [getParent()]. *)
Record SILInstruction := {
  instAddr : N;
  instKind : SILInstructionKind;
  instOperands : list SILValue;
  instResults : list SILValue;
  instApplyExpr : option ApplyExpr;
  instExpr : option Expr;
  instParent : BlockId
}.

#[global] Instance IsolationCrossing_eq_dec : EqDecision IsolationCrossing.
Proof. solve_decision. Defined.
#[global] Instance ApplyExpr_eq_dec : EqDecision ApplyExpr.
Proof. solve_decision. Defined.
#[global] Instance SILInstructionKind_eq_dec : EqDecision SILInstructionKind.
Proof. solve_decision. Defined.
#[global] Instance SILInstruction_eq_dec : EqDecision SILInstruction.
Proof. solve_decision. Defined.

Record AccessStorage := {
  getRoot : SILValue;
  storageIsUniquelyIdentified : bool
}.

(** What the pass asks of the rest of the compiler.  [getAccessStorageFromAddr]
    is [AccessStorage::compute] followed by the look-through of roots defined by
    [init_existential_addr] and [copy_value]; [definedByMethodOrFunctionRef v]
    is [isa<ClassMethodInst, FunctionRefInst>(v.getDefiningInstruction())];
    [typeIsBuiltinNativeObject] and [typeMissesSendable] are the two tests of
    [isNonSendableType] on the type of a value. *)
Class SILOracles := {
  isAddress : SILValue → bool;
  getUnderlyingObject : SILValue → SILValue;
  getAccessStorageFromAddr : SILValue → option AccessStorage;
  definedByMethodOrFunctionRef : SILValue → bool;
  typeIsBuiltinNativeObject : SILValue → bool;
  typeMissesSendable : SILValue → bool
}.

Definition SILApplyCrossesIsolation (inst : SILInstruction) : bool :=
  match instApplyExpr inst with
  | None => false
  | Some apply => bool_decide (is_Some (getIsolationCrossing apply))
  end.

Definition getResult (inst : SILInstruction) (i : nat) : Outcome SILValue :=
  match instResults inst !! i with
  | Some v => Done v
  | None => Abort OutOfRange
  end.

Definition getOperand (inst : SILInstruction) (i : nat) : Outcome SILValue :=
  match instOperands inst !! i with
  | Some v => Done v
  | None => Abort OutOfRange
  end.

(** ** PartitionOp *)

Inductive PartitionOpKind :=
| KAssign | KAssignFresh | KConsume | KMerge | KRequire.

#[global] Instance PartitionOpKind_eq_dec : EqDecision PartitionOpKind.
Proof. solve_decision. Defined.

Module PartitionOp.
(** Modelled from the spec: the [PartitionOp] class of
    [swift/SILOptimizer/Utils/PartitionUtils.h] is not among the sources.
    A tagged operation, one of AssignFresh(id), Assign(dst, src),
    Merge(a, b), Consume(id), Require(id), each with a back-reference to
    the source instruction (absent for the synthetic op of the tracer). *)
Inductive t :=
| AssignFresh (tgt : ID) (sourceInst : option SILInstruction)
| Assign (tgt src : ID) (sourceInst : option SILInstruction)
| Merge (fst snd : ID) (sourceInst : option SILInstruction)
| Consume (tgt : ID) (sourceInst : option SILInstruction)
| Require (tgt : ID) (sourceInst : option SILInstruction).

Definition getKind (op : t) : PartitionOpKind :=
  match op with
  | AssignFresh _ _ => KAssignFresh
  | Assign _ _ _ => KAssign
  | Merge _ _ _ => KMerge
  | Consume _ _ => KConsume
  | Require _ _ => KRequire
  end.

Definition sourceInst (op : t) : option SILInstruction :=
  match op with
  | AssignFresh _ i | Assign _ _ i | Merge _ _ i | Consume _ i
  | Require _ i => i
  end.

(** [getSourceInst(true)]: asserts that the instruction is not null. *)
Definition getSourceInst (op : t) : Outcome SILInstruction :=
  match sourceInst op with
  | Some i => Done i
  | None => Abort AssertionFailure
  end.
End PartitionOp.

#[global] Instance PartitionOp_eq_dec : EqDecision PartitionOp.t.
Proof. solve_decision. Defined.

(** Codes for instructions and ops, to use them where a countable type is
    asked for. *)
Definition kindCode (k : SILInstructionKind) : nat :=
  match k with
  | AllocBoxInst => 0 | AllocRefInst => 1 | AllocStackInst => 2
  | LiteralInst => 3 | AddressToPointerInst => 4 | BeginAccessInst => 5
  | BeginBorrowInst => 6 | CopyValueInst => 7
  | ConvertEscapeToNoEscapeInst => 8 | ConvertFunctionInst => 9
  | IndexAddrInst => 10 | InitExistentialAddrInst => 11 | LoadInst => 12
  | LoadBorrowInst => 13 | LoadWeakInst => 14 | PointerToAddressInst => 15
  | RefElementAddrInst => 16 | StrongCopyUnownedValueInst => 17
  | TailAddrInst => 18 | UncheckedAddrCastInst => 19
  | UncheckedOwnershipConversionInst => 20 | UncheckedRefCastInst => 21
  | CopyAddrInst => 22 | ExplicitCopyAddrInst => 23 | StoreInst => 24
  | StoreBorrowInst => 25 | StoreWeakInst => 26 | ApplyInst => 27
  | TryApplyInst => 28 | PartialApplyInst => 29 | BuiltinInst => 30
  | DestructureTupleInst => 31 | ReturnInst => 32 | ClassMethodInst => 33
  | DeallocBoxInst => 34 | DebugValueInst => 35 | DestroyAddrInst => 36
  | DestroyValueInst => 37 | EndAccessInst => 38 | EndBorrowInst => 39
  | EndLifetimeInst => 40 | HopToExecutorInst => 41 | MetatypeInst => 42
  | DeallocStackInst => 43 | FunctionRefInst => 44 | OtherInst => 45
  end.

Definition kindOfCode (n : nat) : SILInstructionKind :=
  nth n
    [AllocBoxInst; AllocRefInst; AllocStackInst; LiteralInst;
     AddressToPointerInst; BeginAccessInst; BeginBorrowInst; CopyValueInst;
     ConvertEscapeToNoEscapeInst; ConvertFunctionInst; IndexAddrInst;
     InitExistentialAddrInst; LoadInst; LoadBorrowInst; LoadWeakInst;
     PointerToAddressInst; RefElementAddrInst; StrongCopyUnownedValueInst;
     TailAddrInst; UncheckedAddrCastInst; UncheckedOwnershipConversionInst;
     UncheckedRefCastInst; CopyAddrInst; ExplicitCopyAddrInst; StoreInst;
     StoreBorrowInst; StoreWeakInst; ApplyInst; TryApplyInst;
     PartialApplyInst; BuiltinInst; DestructureTupleInst; ReturnInst;
     ClassMethodInst; DeallocBoxInst; DebugValueInst; DestroyAddrInst;
     DestroyValueInst; EndAccessInst; EndBorrowInst; EndLifetimeInst;
     HopToExecutorInst; MetatypeInst; DeallocStackInst; FunctionRefInst]
    OtherInst.

#[global] Instance SILInstructionKind_countable : Countable SILInstructionKind.
Proof. apply (inj_countable' kindCode kindOfCode). by intros []. Defined.

#[global] Instance SILInstruction_countable : Countable SILInstruction.
Proof.
  apply (inj_countable'
           (λ i, (instAddr i, instKind i, instOperands i, instResults i,
                  (λ a, bool_decide (is_Some (getIsolationCrossing a)))
                    <$> instApplyExpr i,
                  instExpr i, instParent i))
           (λ '(a, k, o, r, ae, e, p),
              {| instAddr := a; instKind := k; instOperands := o;
                 instResults := r;
                 instApplyExpr :=
                   (λ b : bool,
                      {| getIsolationCrossing :=
                           if b then Some MkIsolationCrossing else None |})
                     <$> ae;
                 instExpr := e; instParent := p |})).
  intros [a k o r [[[[]|]]|] e p]; reflexivity.
Defined.

#[global] Instance PartitionOp_countable : Countable PartitionOp.t.
Proof.
  apply (inj_countable'
           (λ op, match op with
                  | PartitionOp.AssignFresh v i => (0, v, 0%N, i)
                  | PartitionOp.Assign a b i => (1, a, b, i)
                  | PartitionOp.Merge a b i => (2, a, b, i)
                  | PartitionOp.Consume v i => (3, v, 0%N, i)
                  | PartitionOp.Require v i => (4, v, 0%N, i)
                  end)
           (λ '(c, a, b, i),
              match c with
              | 0 => PartitionOp.AssignFresh a i
              | 1 => PartitionOp.Assign a b i
              | 2 => PartitionOp.Merge a b i
              | 3 => PartitionOp.Consume a i
              | _ => PartitionOp.Require a i
              end)).
  by intros [].
Defined.

(** ** PartitionOpTranslator *)

Record TranslatorState := {
  nodeIDMap : gmap SILValue ID;
  nextNodeID : N;
  capturedUIValues : gset SILValue;
  currentInstruction : option SILInstruction;
  translationIndex : Z
}.

(** Translator code: reads and writes the translator's fields, may abort. *)
Abbreviation Translate := (Run TranslatorState).

Module PartitionOpTranslator.
Section Translator.
Context `{SILOracles}.

Definition isApplyInst (inst : SILInstruction) : bool :=
  match instKind inst with
  | ApplyInst | TryApplyInst | PartialApplyInst | BuiltinInst => true
  | _ => false
  end.

Definition simplifyVal (val : SILValue) : SILValue :=
  if negb (isAddress val) then getUnderlyingObject val
  else match getAccessStorageFromAddr val with
       | Some accessStorage => getRoot accessStorage
       | None => val
       end.

Definition isNonSendableType (v : SILValue) : bool :=
  if typeIsBuiltinNativeObject v then true else typeMissesSendable v.

Definition isNonSendable (value : SILValue) : bool :=
  let value := simplifyVal value in
  if definedByMethodOrFunctionRef value then false
  else isNonSendableType value.

Definition isUniquelyIdentified (val : SILValue) : Translate bool :=
  s ← get_state;
  let val := simplifyVal val in
  if negb (isAddress val) then mret false
  else match getAccessStorageFromAddr val with
       | Some accessStorage =>
           mret (storageIsUniquelyIdentified accessStorage
                 && negb (bool_decide
                            (simplifyVal val ∈ capturedUIValues s)))
       | None => mret false
       end.

Definition nodeHasID (value : SILValue) : Translate bool :=
  let value := simplifyVal value in
  _ ← assert_ (isNonSendable value);
  s ← get_state;
  mret (bool_decide (is_Some (nodeIDMap s !! value))).

(** [lookupNodeID]: the ID of the canonical value, minted on first use. *)
Definition lookupNodeID (value : SILValue) : Translate ID :=
  let value := simplifyVal value in
  _ ← assert_ (isNonSendable value);
  s ← get_state;
  match nodeIDMap s !! value with
  | Some i => mret i
  | None =>
      _ ← put_state
            {| nodeIDMap := <[value := nextNodeID s]> (nodeIDMap s);
               nextNodeID := wrap32 (nextNodeID s + 1);
               capturedUIValues := capturedUIValues s;
               currentInstruction := currentInstruction s;
               translationIndex := translationIndex s |};
      mret (nextNodeID s)
  end.

Definition getCurrentInstruction : Translate (option SILInstruction) :=
  s ← get_state;
  mret (currentInstruction s).

(** The helpers that build ops from the current instruction.  The two
    operands of [==] and the arguments of one call are evaluated left to
    right; where the source value is asserted to have an ID its lookup
    does not write, so the other orders give the same result. *)
Definition AssignFresh (value : SILValue) : Translate (list PartitionOp.t) :=
  i ← lookupNodeID value;
  ci ← getCurrentInstruction;
  mret [PartitionOp.AssignFresh i ci].

Definition Assign (tgt src : SILValue) : Translate (list PartitionOp.t) :=
  b ← nodeHasID src;
  _ ← assert_ b;
  t ← lookupNodeID tgt;
  r ← lookupNodeID src;
  if bool_decide (t = r) then mret []
  else
    t ← lookupNodeID tgt;
    r ← lookupNodeID src;
    ci ← getCurrentInstruction;
    mret [PartitionOp.Assign t r ci].

Definition Consume (value : SILValue) : Translate (list PartitionOp.t) :=
  b ← nodeHasID value;
  _ ← assert_ b;
  i ← lookupNodeID value;
  ci ← getCurrentInstruction;
  mret [PartitionOp.Consume i ci].

Definition Merge (fst snd : SILValue) : Translate (list PartitionOp.t) :=
  b1 ← nodeHasID fst;
  b2 ← (if b1 then nodeHasID snd else mret false);
  _ ← assert_ (b1 && b2);
  f ← lookupNodeID fst;
  g ← lookupNodeID snd;
  if bool_decide (f = g) then mret []
  else
    f ← lookupNodeID fst;
    g ← lookupNodeID snd;
    ci ← getCurrentInstruction;
    mret [PartitionOp.Merge f g ci].

Definition Require (value : SILValue) : Translate (list PartitionOp.t) :=
  b ← nodeHasID value;
  _ ← assert_ b;
  i ← lookupNodeID value;
  ci ← getCurrentInstruction;
  mret [PartitionOp.Require i ci].

(** [for (x : xs) add_to_translation(f(x))] *)
Fixpoint translate_each {A} (f : A → Translate (list PartitionOp.t))
    (xs : list A) : Translate (list PartitionOp.t) :=
  match xs with
  | [] => mret []
  | x :: xs' =>
      ops ← f x;
      rest ← translate_each f xs';
      mret (ops ++ rest)
  end.

Definition nonSendableOperandsOf (inst : SILInstruction) : list SILValue :=
  filter (λ v, isNonSendable v = true) (instOperands inst).

Definition translateSILApply (applyInst : SILInstruction)
  : Translate (list PartitionOp.t) :=
  let nonSendableOperands := nonSendableOperandsOf applyInst in
  res0 ← lift_outcome (getResult applyInst 0);
  let nonSendableResult := isNonSendable res0 in
  if SILApplyCrossesIsolation applyInst then
    consumed ← translate_each Consume nonSendableOperands;
    fresh ← (if nonSendableResult then AssignFresh res0 else mret []);
    mret (consumed ++ fresh)
  else if bool_decide (nonSendableOperands = []) then
    if nonSendableResult then AssignFresh res0 else mret []
  else
    merged ←
      (if bool_decide (length nonSendableOperands = 1) then
         front ← at_ nonSendableOperands 0;
         Require front
       else
         translate_each
           (λ i, a ← at_ nonSendableOperands (i - 1);
                 b ← at_ nonSendableOperands i;
                 Merge a b)
           (seq 1 (length nonSendableOperands - 1)));
    assigned ←
      (if nonSendableResult then
         front ← at_ nonSendableOperands 0;
         Assign res0 front
       else mret []);
    mret (merged ++ assigned).

Definition translateSILAssign (tgt src : SILValue)
  : Translate (list PartitionOp.t) :=
  if negb (isNonSendable tgt) then mret []
  else if isNonSendable src then Assign tgt src
  else AssignFresh tgt.

Definition translateSILAssignFresh (fresh : SILValue)
  : Translate (list PartitionOp.t) :=
  if isNonSendable fresh then AssignFresh fresh else mret [].

Definition translateSILMerge (fst snd : SILValue)
  : Translate (list PartitionOp.t) :=
  if isNonSendable fst && isNonSendable snd then Merge fst snd
  else mret [].

Definition translateSILStore (tgt src : SILValue)
  : Translate (list PartitionOp.t) :=
  ui ← isUniquelyIdentified tgt;
  if (ui : bool) then translateSILAssign tgt src else translateSILMerge tgt src.

Definition translateSILRequire (val : SILValue)
  : Translate (list PartitionOp.t) :=
  if isNonSendable val then Require val else mret [].

Definition enterInstruction (instruction : SILInstruction) : Translate unit :=
  s ← get_state;
  put_state {| nodeIDMap := nodeIDMap s;
                    nextNodeID := nextNodeID s;
                    capturedUIValues := capturedUIValues s;
                    currentInstruction := Some instruction;
                    translationIndex := (translationIndex s + 1)%Z |}.

Definition translateSILInstruction (instruction : SILInstruction)
  : Translate (list PartitionOp.t) :=
  _ ← enterInstruction instruction;
  match instKind instruction with
  | AllocBoxInst | AllocRefInst | AllocStackInst | LiteralInst =>
      r ← lift_outcome (getResult instruction 0);
      translateSILAssignFresh r
  | AddressToPointerInst | BeginAccessInst | BeginBorrowInst | CopyValueInst
  | ConvertEscapeToNoEscapeInst | ConvertFunctionInst | IndexAddrInst
  | InitExistentialAddrInst | LoadInst | LoadBorrowInst | LoadWeakInst
  | PointerToAddressInst | RefElementAddrInst | StrongCopyUnownedValueInst
  | TailAddrInst | UncheckedAddrCastInst | UncheckedOwnershipConversionInst
  | UncheckedRefCastInst =>
      r ← lift_outcome (getResult instruction 0);
      o ← lift_outcome (getOperand instruction 0);
      translateSILAssign r o
  | CopyAddrInst | ExplicitCopyAddrInst | StoreInst | StoreBorrowInst
  | StoreWeakInst =>
      o1 ← lift_outcome (getOperand instruction 1);
      o0 ← lift_outcome (getOperand instruction 0);
      translateSILStore o1 o0
  | ApplyInst | TryApplyInst | PartialApplyInst | BuiltinInst =>
      translateSILApply instruction
  | DestructureTupleInst =>
      translate_each
        (λ result, o ← lift_outcome (getOperand instruction 0);
                   translateSILAssign result o)
        (instResults instruction)
  | ReturnInst =>
      o ← lift_outcome (getOperand instruction 0);
      translateSILRequire o
  | ClassMethodInst | DeallocBoxInst | DebugValueInst | DestroyAddrInst
  | DestroyValueInst | EndAccessInst | EndBorrowInst | EndLifetimeInst
  | HopToExecutorInst | MetatypeInst | DeallocStackInst => mret []
  | FunctionRefInst | OtherInst => mret []
  end.

Definition translateSILBasicBlock (basicBlock : list SILInstruction)
  : Translate (list PartitionOp.t) :=
  translate_each translateSILInstruction basicBlock.

End Translator.
End PartitionOpTranslator.

(** ** What [translateSILApply] is claimed to emit, and what it emits *)

Section ApplySpec.
Context `{SILOracles}.
Import PartitionOpTranslator.

(** The ID a value has in state [s], or the one it would be given next. *)
Definition idOf (s : TranslatorState) (v : SILValue) : ID :=
  default (nextNodeID s) (nodeIDMap s !! simplifyVal v).

(** The state after [lookupNodeID v] returned. *)
Definition mintState (s : TranslatorState) (v : SILValue) : TranslatorState :=
  match nodeIDMap s !! simplifyVal v with
  | Some _ => s
  | None =>
      {| nodeIDMap := <[simplifyVal v := nextNodeID s]> (nodeIDMap s);
         nextNodeID := wrap32 (nextNodeID s + 1);
         capturedUIValues := capturedUIValues s;
         currentInstruction := currentInstruction s;
         translationIndex := translationIndex s |}
  end.

(** The value passes the assertions of [Consume], [Merge], [Require] and of
    the source of [Assign]: it is non-Sendable once canonical, and has an
    ID already. *)
Definition encountered (s : TranslatorState) (v : SILValue) : Prop :=
  isNonSendable (simplifyVal v) = true ∧ is_Some (nodeIDMap s !! simplifyVal v).

(** The sequence as the specification words it: every adjacent pair of
    operands is merged and the result is assigned to the first operand. *)
Fixpoint claimed_merges (ci : option SILInstruction) (prev : ID)
    (rest : list ID) : list PartitionOp.t :=
  match rest with
  | [] => []
  | b :: rest' => PartitionOp.Merge prev b ci :: claimed_merges ci b rest'
  end.

Definition claimed_apply_ops (ci : option SILInstruction) (crosses : bool)
    (ops : list ID) (r : option ID) : list PartitionOp.t :=
  if crosses then
    map (λ o, PartitionOp.Consume o ci) ops
    ++ match r with Some r => [PartitionOp.AssignFresh r ci] | None => [] end
  else
    match ops with
    | [] => match r with Some r => [PartitionOp.AssignFresh r ci] | None => [] end
    | [o] => PartitionOp.Require o ci
             :: match r with Some r => [PartitionOp.Assign r o ci] | None => [] end
    | o :: rest =>
        claimed_merges ci o rest
        ++ match r with Some r => [PartitionOp.Assign r o ci] | None => [] end
    end.

(** The sequence the code emits: a merge or an assignment between two equal
    IDs is left out. *)
Fixpoint emitted_merges (ci : option SILInstruction) (prev : ID)
    (rest : list ID) : list PartitionOp.t :=
  match rest with
  | [] => []
  | b :: rest' =>
      (if bool_decide (prev = b) then [] else [PartitionOp.Merge prev b ci])
      ++ emitted_merges ci b rest'
  end.

Definition emitted_assign (ci : option SILInstruction) (r : option ID)
    (o : ID) : list PartitionOp.t :=
  match r with
  | Some r => if bool_decide (r = o) then [] else [PartitionOp.Assign r o ci]
  | None => []
  end.

Definition emitted_apply_ops (ci : option SILInstruction) (crosses : bool)
    (ops : list ID) (r : option ID) : list PartitionOp.t :=
  if crosses then
    map (λ o, PartitionOp.Consume o ci) ops
    ++ match r with Some r => [PartitionOp.AssignFresh r ci] | None => [] end
  else
    match ops with
    | [] => match r with Some r => [PartitionOp.AssignFresh r ci] | None => [] end
    | [o] => PartitionOp.Require o ci :: emitted_assign ci r o
    | o :: rest => emitted_merges ci o rest ++ emitted_assign ci r o
    end.
End ApplySpec.

(** ** Ordered containers

    [std::map] and [std::set] keep their entries in ascending key order and
    are walked in that order; they are lists kept sorted by the comparison
    [ltb].  Two keys neither of which is below the other are the same key. *)

Section Ordered.
Context {K : Type} (ltb : K → K → bool).

(** [m.count(k)] / [m.at(k)] *)
Fixpoint omap_lookup {V} (k : K) (m : list (K * V)) : option V :=
  match m with
  | [] => None
  | (k', v) :: m' =>
      if ltb k k' then None
      else if ltb k' k then omap_lookup k m'
      else Some v
  end.

(** [m[k] = v] *)
Fixpoint omap_insert {V} (k : K) (v : V) (m : list (K * V)) : list (K * V) :=
  match m with
  | [] => [(k, v)]
  | (k', v') :: m' =>
      if ltb k k' then (k, v) :: m
      else if ltb k' k then (k', v') :: omap_insert k v m'
      else (k', v) :: m'
  end.

(** [s.insert(x)] *)
Fixpoint oset_insert (x : K) (s : list K) : list K :=
  match s with
  | [] => [x]
  | y :: s' =>
      if ltb x y then x :: s
      else if ltb y x then y :: oset_insert x s'
      else s
  end.
End Ordered.

(** ** Partition *)

(** The calls [Partition::apply] makes on the two closures it is given. *)
Inductive ApplyCallback :=
| RequireFailed (op : PartitionOp.t) (v : ID)
| ConsumedNonConsumable (op : PartitionOp.t) (v : ID).

Module Partition.
(** Modelled from the spec: class [Partition] of
    [swift/SILOptimizer/Utils/PartitionUtils.h] is not among the sources;
    this is its interface as the pass uses it.  [empty] is the default
    constructor, [apply] the state change of both forms of
    [Partition::apply], and [callbacks p op nonConsumables] the calls the
    four-argument form makes on its closures when it applies [op] to [p]. *)
Class Ops (P : Type) := {
  empty : P;
  singleRegion : list ID → P;
  apply : P → PartitionOp.t → P;
  callbacks : P → PartitionOp.t → list ID → list ApplyCallback;
  join : P → P → P;
  equals : P → P → bool;
  isConsumed : P → ID → bool;
  isTracked : P → ID → bool;
  getConsumedVals : P → list ID;
  getNonConsumedRegions : P → list (list ID)
}.
End Partition.

(** Modelled from the spec: [operator<] of [PartitionOp], a total ordering
    that is stable within one run; it belongs to the missing header. *)
Class PartitionOpOrder := {
  PartitionOp_ltb : PartitionOp.t → PartitionOp.t → bool
}.

(** ** The function under analysis *)

Inductive DeclContext := MkDeclContext.
Inductive ProtocolDecl := MkProtocolDecl.

Record SILBasicBlock := {
  blockInstructions : list SILInstruction;
  getPredecessorBlocks : list BlockId;
  getSuccessorBlocks : list BlockId
}.

(** Block [b] is the [b]-th element of [fnBlocks]; the entry block is the
    first.  [hasDeferredSendableChecking] is
    [LangOpts.hasFeature(Feature::DeferredSendableChecking)] and
    [getSendableProtocol] is [getProtocol(KnownProtocolKind::Sendable)] of the
    function's AST context. *)
Record SILFunction := {
  fnBlocks : list SILBasicBlock;
  getArguments : list SILValue;
  getSelfArgument : option SILValue;
  getDeclContext : option DeclContext;
  hasDeferredSendableChecking : bool;
  getSendableProtocol : option ProtocolDecl
}.

(** ** Reasons and the accumulator *)

Inductive LocalConsumedReasonKind :=
| LocalConsumeInst | LocalNonConsumeInst | NonLocal.

Record LocalConsumedReason := {
  kind : LocalConsumedReasonKind;
  localInst : option PartitionOp.t
}.

#[global] Instance LocalConsumedReasonKind_eq_dec :
  EqDecision LocalConsumedReasonKind.
Proof. solve_decision. Defined.
#[global] Instance LocalConsumedReason_eq_dec : EqDecision LocalConsumedReason.
Proof. solve_decision. Defined.

Module LocalReason.
Definition ConsumeInst (localInst : PartitionOp.t) : LocalConsumedReason :=
  {| kind := LocalConsumeInst; localInst := Some localInst |}.
Definition NonConsumeInst : LocalConsumedReason :=
  {| kind := LocalNonConsumeInst; localInst := None |}.
Definition NonLocal : LocalConsumedReason :=
  {| kind := NonLocal; localInst := None |}.
End LocalReason.

(** [std::map<unsigned, std::vector<PartitionOp>> consumeOps] *)
Record ConsumedReason := { consumeOps : list (N * list PartitionOp.t) }.

Module Reason.
Definition empty : ConsumedReason := {| consumeOps := [] |}.

Definition containsOp (r : ConsumedReason) (op : PartitionOp.t) : bool :=
  existsb (λ '(_, vec), existsb (λ vecOp, bool_decide (op = vecOp)) vec)
    (consumeOps r).

Definition isValid (r : ConsumedReason) : bool :=
  existsb (λ '(_, vec), negb (bool_decide (vec = []))) (consumeOps r).

Definition addConsumeOp (r : ConsumedReason) (consumeOp : PartitionOp.t)
    (distance : N) : Outcome ConsumedReason :=
  if negb (bool_decide (PartitionOp.getKind consumeOp = KConsume))
  then Abort AssertionFailure
  else if containsOp r consumeOp then Abort AssertionFailure
  else
    let old := default [] (omap_lookup N.ltb distance (consumeOps r)) in
    Done {| consumeOps :=
              omap_insert N.ltb distance (old ++ [consumeOp]) (consumeOps r) |}.

Fixpoint addOps (r : ConsumedReason) (ops : list PartitionOp.t)
    (distance : N) : Outcome ConsumedReason :=
  match ops with
  | [] => Done r
  | op :: ops' =>
      match addConsumeOp r op distance with
      | Done r' => addOps r' ops' distance
      | Abort e => Abort e
      | OutOfFuel => OutOfFuel
      end
  end.

Fixpoint addEntries (r : ConsumedReason)
    (entries : list (N * list PartitionOp.t)) (distance : N)
  : Outcome ConsumedReason :=
  match entries with
  | [] => Done r
  | (otherDistance, ops) :: entries' =>
      match addOps r ops (wrap32 (distance + otherDistance)) with
      | Done r' => addEntries r' entries' distance
      | Abort e => Abort e
      | OutOfFuel => OutOfFuel
      end
  end.

Definition addOtherReasonAtDistance (r otherReason : ConsumedReason)
    (distance : N) : Outcome ConsumedReason :=
  addEntries r (consumeOps otherReason) distance.
End Reason.

Record PartitionOpAtDistance := {
  partitionOp : PartitionOp.t;
  distance : N
}.

(** The calls [forEachConsumeRequire] makes on its two closures. *)
Inductive AccumulatorCallback :=
| ProcessConsumeOp (consumeOp : PartitionOp.t) (numProcessed numSkipped : N)
| ProcessRequireOp (requireOp : PartitionOp.t).

Module Accumulator.
Section Accumulator.
Context `{PartitionOpOrder}.

(** [PartitionOpAtDistance::operator<] *)
Definition atDistance_ltb (a b : PartitionOpAtDistance) : bool :=
  if negb (bool_decide (distance a = distance b))
  then (distance a <? distance b)%N
  else PartitionOp_ltb (partitionOp a) (partitionOp b).

(** [std::map<PartitionOp, std::set<PartitionOpAtDistance>>] *)
Definition t := list (PartitionOp.t * list PartitionOpAtDistance).

Definition empty : t := [].

Definition insertRequirement (acc : t) (consumeOp requireOp : PartitionOp.t)
    (distance : N) : t :=
  let old := default [] (omap_lookup PartitionOp_ltb consumeOp acc) in
  omap_insert PartitionOp_ltb consumeOp
    (oset_insert atDistance_ltb
       {| partitionOp := requireOp; distance := distance |} old)
    acc.

Definition accumulateConsumedReason (acc : t) (requireOp : PartitionOp.t)
    (consumedReason : ConsumedReason) : t :=
  foldl (λ acc '(distance, consumeOps),
           foldl (λ acc consumeOp,
                    insertRequirement acc consumeOp requireOp distance)
             acc consumeOps)
    acc (consumeOps consumedReason).

(** The sizes are [size_t] values; [numProcessed] and [numSkipped] are
    passed as [unsigned]. *)
Definition forEachConsumeRequire (numRequiresPerConsume : N) (acc : t)
  : list AccumulatorCallback :=
  flat_map
    (λ '(consumeOp, requireOps),
       let size := N.of_nat (length requireOps) in
       let numProcessed := wrap32 (N.min size numRequiresPerConsume) in
       ProcessConsumeOp consumeOp numProcessed (wrap32 (size - numProcessed))
       :: map (λ r, ProcessRequireOp (partitionOp r))
            (take (N.to_nat numRequiresPerConsume) requireOps))
    acc.
End Accumulator.
End Accumulator.

(** ** BlockPartitionState, RaceTracer and PartitionAnalysis: the records *)

(** [basicBlock] is the block the state belongs to; the reference to the
    translator is the [translator] field of the analysis. *)
Record BlockPartitionState (P : Type) := {
  needsUpdate : bool;
  reached : bool;
  entryPartition : P;
  exitPartition : P;
  basicBlock : BlockId;
  blockPartitionOpsPopulated : bool;
  blockPartitionOps : list PartitionOp.t
}.
Arguments needsUpdate {P} _.
Arguments reached {P} _.
Arguments entryPartition {P} _.
Arguments exitPartition {P} _.
Arguments basicBlock {P} _.
Arguments blockPartitionOpsPopulated {P} _.
Arguments blockPartitionOps {P} _.

Record RaceTracer := {
  consumedAtEntryReasons : gmap (BlockId * ID) ConsumedReason;
  consumedAtExitReasons : gmap (BlockId * ID) LocalConsumedReason;
  accumulator : list (PartitionOp.t * list PartitionOpAtDistance)
}.

Inductive Diagnostic :=
| consumption_yields_race (loc : Expr) (numDisplayed : N)
    (displayedPlural hasHidden : bool) (numHidden : N)
| possible_racy_access_site (loc : Expr)
| arg_region_consumed (loc : Expr).

#[global] Instance Diagnostic_eq_dec : EqDecision Diagnostic.
Proof. solve_decision. Defined.

(** [diagnostics] is what was handed to [Diags.diagnose], oldest first. *)
Record PartitionAnalysis (P : Type) := {
  translator : TranslatorState;
  blockStates : list (BlockPartitionState P);
  raceTracer : RaceTracer;
  function : SILFunction;
  solved : bool;
  diagnostics : list Diagnostic
}.
Arguments translator {P} _.
Arguments blockStates {P} _.
Arguments raceTracer {P} _.
Arguments function {P} _.
Arguments solved {P} _.
Arguments diagnostics {P} _.

Section Setters.
Context {P : Type}.

Definition set_needsUpdate (v : bool) (b : BlockPartitionState P) :=
  {| needsUpdate := v; reached := reached b;
     entryPartition := entryPartition b; exitPartition := exitPartition b;
     basicBlock := basicBlock b;
     blockPartitionOpsPopulated := blockPartitionOpsPopulated b;
     blockPartitionOps := blockPartitionOps b |}.

Definition set_reached (v : bool) (b : BlockPartitionState P) :=
  {| needsUpdate := needsUpdate b; reached := v;
     entryPartition := entryPartition b; exitPartition := exitPartition b;
     basicBlock := basicBlock b;
     blockPartitionOpsPopulated := blockPartitionOpsPopulated b;
     blockPartitionOps := blockPartitionOps b |}.

Definition set_entryPartition (v : P) (b : BlockPartitionState P) :=
  {| needsUpdate := needsUpdate b; reached := reached b;
     entryPartition := v; exitPartition := exitPartition b;
     basicBlock := basicBlock b;
     blockPartitionOpsPopulated := blockPartitionOpsPopulated b;
     blockPartitionOps := blockPartitionOps b |}.

Definition set_exitPartition (v : P) (b : BlockPartitionState P) :=
  {| needsUpdate := needsUpdate b; reached := reached b;
     entryPartition := entryPartition b; exitPartition := v;
     basicBlock := basicBlock b;
     blockPartitionOpsPopulated := blockPartitionOpsPopulated b;
     blockPartitionOps := blockPartitionOps b |}.

Definition set_blockPartitionOps (v : list PartitionOp.t)
    (b : BlockPartitionState P) :=
  {| needsUpdate := needsUpdate b; reached := reached b;
     entryPartition := entryPartition b; exitPartition := exitPartition b;
     basicBlock := basicBlock b;
     blockPartitionOpsPopulated := true;
     blockPartitionOps := v |}.

Definition set_translator (v : TranslatorState) (a : PartitionAnalysis P) :=
  {| translator := v; blockStates := blockStates a;
     raceTracer := raceTracer a; function := function a;
     solved := solved a; diagnostics := diagnostics a |}.

Definition set_blockStates (v : list (BlockPartitionState P))
    (a : PartitionAnalysis P) :=
  {| translator := translator a; blockStates := v;
     raceTracer := raceTracer a; function := function a;
     solved := solved a; diagnostics := diagnostics a |}.

Definition set_raceTracer (v : RaceTracer) (a : PartitionAnalysis P) :=
  {| translator := translator a; blockStates := blockStates a;
     raceTracer := v; function := function a;
     solved := solved a; diagnostics := diagnostics a |}.

Definition set_solved (v : bool) (a : PartitionAnalysis P) :=
  {| translator := translator a; blockStates := blockStates a;
     raceTracer := raceTracer a; function := function a;
     solved := v; diagnostics := diagnostics a |}.

Definition add_diagnostic (d : Diagnostic) (a : PartitionAnalysis P) :=
  {| translator := translator a; blockStates := blockStates a;
     raceTracer := raceTracer a; function := function a;
     solved := solved a; diagnostics := diagnostics a ++ [d] |}.

Definition set_consumedAtEntryReasons
    (v : gmap (BlockId * ID) ConsumedReason) (t : RaceTracer) :=
  {| consumedAtEntryReasons := v;
     consumedAtExitReasons := consumedAtExitReasons t;
     accumulator := accumulator t |}.

Definition set_consumedAtExitReasons
    (v : gmap (BlockId * ID) LocalConsumedReason) (t : RaceTracer) :=
  {| consumedAtEntryReasons := consumedAtEntryReasons t;
     consumedAtExitReasons := v;
     accumulator := accumulator t |}.

Definition set_accumulator
    (v : list (PartitionOp.t * list PartitionOpAtDistance)) (t : RaceTracer) :=
  {| consumedAtEntryReasons := consumedAtEntryReasons t;
     consumedAtExitReasons := consumedAtExitReasons t;
     accumulator := v |}.

(** Code of the translator run on the [translator] field. *)
Definition liftTranslator {A} (m : Translate A) : Run (PartitionAnalysis P) A :=
  λ a, match m (translator a) with
       | Done (x, t') => Done (x, set_translator t' a)
       | Abort e => Abort e
       | OutOfFuel => OutOfFuel
       end.

(** Code of the tracer run on the [raceTracer] field; the tracer holds a
    [const] reference to [blockStates]. *)
Definition liftTracer {A}
    (m : list (BlockPartitionState P) → Run RaceTracer A)
  : Run (PartitionAnalysis P) A :=
  λ a, match m (blockStates a) (raceTracer a) with
       | Done (x, t') => Done (x, set_raceTracer t' a)
       | Abort e => Abort e
       | OutOfFuel => OutOfFuel
       end.

(** [blockStates[block]] *)
Definition getBlockState (b : BlockId)
  : Run (PartitionAnalysis P) (BlockPartitionState P) :=
  a ← get_state; at_ (blockStates a) b.

Definition modifyBlockState (b : BlockId)
    (f : BlockPartitionState P → BlockPartitionState P)
  : Run (PartitionAnalysis P) unit :=
  a ← get_state;
  st ← at_ (blockStates a) b;
  put_state (set_blockStates (<[b := f st]> (blockStates a)) a).

Definition getBlock (b : BlockId) : Run (PartitionAnalysis P) SILBasicBlock :=
  a ← get_state; at_ (fnBlocks (function a)) b.
End Setters.

(** ** BlockPartitionState: the methods, and the solver *)

Section Solver.
Context {P : Type} `{Partition.Ops P} `{SILOracles}.

(** [for (op : ops) workingPartition.apply(op)] *)
Definition replay (ops : list PartitionOp.t) (workingPartition : P) : P :=
  foldl Partition.apply workingPartition ops.

Definition ensureBlockPartitionOpsPopulated (b : BlockId)
  : Run (PartitionAnalysis P) unit :=
  st ← getBlockState b;
  if blockPartitionOpsPopulated st then mret tt
  else
    block ← getBlock (basicBlock st);
    ops ← liftTranslator
             (PartitionOpTranslator.translateSILBasicBlock
                (blockInstructions block));
    modifyBlockState b (set_blockPartitionOps ops).

Definition recomputeExitFromEntry (b : BlockId)
  : Run (PartitionAnalysis P) bool :=
  _ ← ensureBlockPartitionOpsPopulated b;
  st ← getBlockState b;
  let workingPartition := replay (blockPartitionOps st) (entryPartition st) in
  let exitUpdated :=
    negb (Partition.equals (exitPartition st) workingPartition) in
  _ ← modifyBlockState b (set_exitPartition workingPartition);
  mret exitUpdated.

(** The loop of [solve] over the predecessors of a block: the partition
    joined so far and whether no reached predecessor was seen yet. *)
Fixpoint joinPredecessors (preds : list BlockId) (newEntryPartition : P)
    (firstPred : bool) : Run (PartitionAnalysis P) (P * bool) :=
  match preds with
  | [] => mret (newEntryPartition, firstPred)
  | predBlock :: preds' =>
      predState ← getBlockState predBlock;
      if negb (reached predState) then
        joinPredecessors preds' newEntryPartition firstPred
      else if firstPred then
        joinPredecessors preds' (exitPartition predState) false
      else
        joinPredecessors preds'
          (Partition.join newEntryPartition (exitPartition predState)) false
  end.

(** One turn of the [for] loop of [solve], at block [b]; the result is the
    new value of [anyNeedUpdate]. *)
Definition solveBlock (b : BlockId) (anyNeedUpdate : bool)
  : Run (PartitionAnalysis P) bool :=
  blockState ← getBlockState b;
  if negb (needsUpdate blockState) then mret anyNeedUpdate
  else
    _ ← modifyBlockState b (set_needsUpdate false);
    _ ← modifyBlockState b (set_reached true);
    block ← getBlock b;
    '(newEntryPartition, firstPred) ←
      joinPredecessors (getPredecessorBlocks block) Partition.empty true;
    blockState ← getBlockState b;
    if negb firstPred
       && Partition.equals newEntryPartition (entryPartition blockState)
    then mret anyNeedUpdate
    else
      _ ← (if negb firstPred
           then modifyBlockState b (set_entryPartition newEntryPartition)
           else mret tt);
      exitUpdated ← recomputeExitFromEntry b;
      if (exitUpdated : bool) then
        _ ← for_each (getSuccessorBlocks block)
              (λ succBlock, modifyBlockState succBlock (set_needsUpdate true));
        mret (anyNeedUpdate
              || negb (bool_decide (getSuccessorBlocks block = [])))
      else mret anyNeedUpdate.

(** The [for] loop of [solve] over the blocks still to visit. *)
Fixpoint sweep (blocks : list BlockId) (anyNeedUpdate : bool)
  : Run (PartitionAnalysis P) bool :=
  match blocks with
  | [] => mret anyNeedUpdate
  | b :: blocks' =>
      anyNeedUpdate ← solveBlock b anyNeedUpdate;
      sweep blocks' anyNeedUpdate
  end.

(** [while (anyNeedUpdate)] *)
Fixpoint solveLoop (fuel : nat) : Run (PartitionAnalysis P) unit :=
  match fuel with
  | 0 => λ _, OutOfFuel
  | S fuel' =>
      a ← get_state;
      anyNeedUpdate ← sweep (seq 0 (length (blockStates a))) false;
      if (anyNeedUpdate : bool) then solveLoop fuel' else mret tt
  end.

Definition solve (fuel : nat) : Run (PartitionAnalysis P) unit :=
  a ← get_state;
  _ ← assert_ (negb (solved a));
  _ ← put_state (set_solved true a);
  solveLoop fuel.
End Solver.

(** ** RaceTracer *)

Section Tracer.
Context {P : Type} `{Partition.Ops P} `{PartitionOpOrder}.
Variable fn : SILFunction.
Variable blockStates : list (BlockPartitionState P).

Abbreviation Trace := (Run RaceTracer).

(** The body of the closure given to [forEachPartitionOp] in
    [findLocalConsumedReason], run over the ops left to visit. *)
Fixpoint localReplay (ops : list PartitionOp.t)
    (targetOp : option PartitionOp.t) (consumedVal : ID)
    (workingPartition : P) (consumedReason : option LocalConsumedReason)
  : option LocalConsumedReason :=
  match ops with
  | [] => consumedReason
  | partitionOp :: ops' =>
      if bool_decide (targetOp = Some partitionOp) then consumedReason
      else
        let workingPartition := Partition.apply workingPartition partitionOp in
        let consumedReason :=
          if Partition.isConsumed workingPartition consumedVal
             && negb (bool_decide (is_Some consumedReason))
          then
            if bool_decide (PartitionOp.getKind partitionOp = KConsume)
            then Some (LocalReason.ConsumeInst partitionOp)
            else Some LocalReason.NonConsumeInst
          else consumedReason in
        let consumedReason :=
          if negb (Partition.isConsumed workingPartition consumedVal)
             && bool_decide (is_Some consumedReason)
          then None
          else consumedReason in
        localReplay ops' targetOp consumedVal workingPartition consumedReason
  end.

(** The search of [findLocalConsumedReason] once the cache has been
    consulted: the working partition starts from the entry partition, with
    the value revived when it is consumed there. *)
Definition localSearch (block : BlockPartitionState P) (consumedVal : ID)
    (targetOp : option PartitionOp.t) : option LocalConsumedReason :=
  let workingPartition := entryPartition block in
  let workingPartition :=
    if Partition.isConsumed workingPartition consumedVal
    then Partition.apply workingPartition
           (PartitionOp.AssignFresh consumedVal None)
    else workingPartition in
  let consumedReason :=
    localReplay (blockPartitionOps block) targetOp consumedVal
      workingPartition None in
  if negb (bool_decide (is_Some consumedReason))
     && Partition.isConsumed (entryPartition block) consumedVal
  then Some LocalReason.NonLocal
  else consumedReason.

Definition findLocalConsumedReason (SILBlock : BlockId) (consumedVal : ID)
    (targetOp : option PartitionOp.t) : Trace LocalConsumedReason :=
  t ← get_state;
  match (if bool_decide (is_Some targetOp) then None
         else consumedAtExitReasons t !! (SILBlock, consumedVal)) with
  | Some cached => mret cached
  | None =>
      block ← at_ blockStates SILBlock;
      _ ← assert_ (bool_decide (is_Some targetOp)
                   || Partition.isConsumed (exitPartition block) consumedVal);
      match localSearch block consumedVal targetOp with
      | None => lift_outcome (Abort AssertionFailure)
      | Some consumedReason =>
          if bool_decide (is_Some targetOp) then mret consumedReason
          else
            _ ← modify_state
                  (λ t, set_consumedAtExitReasons
                          (<[(SILBlock, consumedVal) := consumedReason]>
                             (consumedAtExitReasons t)) t);
            mret consumedReason
      end
  end.

(** [findAndAddConsumedReasons], with the recursive call to
    [findConsumedAtEntryReason] passed as [findEntry]; the reason is taken
    and given back in place of the reference parameter. *)
Definition findAndAddConsumedReasons
    (findEntry : BlockId → ID → Trace ConsumedReason)
    (SILBlock : BlockId) (consumedVal : ID) (consumedReason : ConsumedReason)
    (distance : N) (targetOp : option PartitionOp.t) : Trace ConsumedReason :=
  block ← at_ blockStates SILBlock;
  _ ← assert_ (Partition.isConsumed (exitPartition block) consumedVal);
  localReason ← findLocalConsumedReason SILBlock consumedVal targetOp;
  match kind localReason with
  | LocalConsumeInst =>
      match localInst localReason with
      | Some op => lift_outcome (Reason.addConsumeOp consumedReason op distance)
      | None => lift_outcome (Abort AssertionFailure)
      end
  | LocalNonConsumeInst => mret consumedReason
  | NonLocal =>
      other ← findEntry SILBlock consumedVal;
      lift_outcome (Reason.addOtherReasonAtDistance consumedReason other distance)
  end.

(** [consumedInSomePred]: the values tracked at entry to the block that are
    consumed at the exit of some predecessor, with those predecessors. *)
Definition pushPred (m : list (N * list BlockId)) (consumedVal : ID)
    (pred : BlockId) : list (N * list BlockId) :=
  omap_insert N.ltb consumedVal
    (default [] (omap_lookup N.ltb consumedVal m) ++ [pred]) m.

Fixpoint collectConsumedInSomePred (entry : P) (preds : list BlockId)
    (m : list (N * list BlockId)) : Outcome (list (N * list BlockId)) :=
  match preds with
  | [] => Done m
  | pred :: preds' =>
      match blockStates !! pred with
      | None => Abort OutOfRange
      | Some predState =>
          collectConsumedInSomePred entry preds'
            (foldl (λ m consumedVal,
                      if Partition.isTracked entry consumedVal
                      then pushPred m consumedVal pred else m)
               m (Partition.getConsumedVals (exitPartition predState)))
      end
  end.

(** [singleStepJoins]: the pairs of values tracked at entry to the block
    that share a region at the exit of some predecessor. *)
Definition insertJoin (m : list (N * list N)) (fst snd : ID)
  : list (N * list N) :=
  omap_insert N.ltb fst
    (oset_insert N.ltb snd (default [] (omap_lookup N.ltb fst m))) m.

Definition joinsOfRegion (entry : P) (region : list ID)
    (m : list (N * list N)) : list (N * list N) :=
  foldl (λ m fst,
           foldl (λ m snd,
                    if negb (bool_decide (fst = snd))
                       && Partition.isTracked entry fst
                       && Partition.isTracked entry snd
                    then insertJoin m fst snd else m)
             m region)
    m region.

Fixpoint collectSingleStepJoins (entry : P) (preds : list BlockId)
    (m : list (N * list N)) : Outcome (list (N * list N)) :=
  match preds with
  | [] => Done m
  | pred :: preds' =>
      match blockStates !! pred with
      | None => Abort OutOfRange
      | Some predState =>
          collectSingleStepJoins entry preds'
            (foldl (λ m region, joinsOfRegion entry region m)
               m (Partition.getNonConsumedRegions (exitPartition predState)))
      end
  end.

(** The breadth-first search of [findConsumedAtEntryReason]: the queue
    [processValues] and the map [distancesFromTarget]. *)
Fixpoint bfs (fuel : nat) (singleStepJoins : list (N * list N))
    (processValues : list (N * N)) (distancesFromTarget : list (N * N))
  : Outcome (list (N * N)) :=
  match processValues with
  | [] => Done distancesFromTarget
  | (currentTarget, currentDistance) :: processValues' =>
      match fuel with
      | 0 => OutOfFuel
      | S fuel' =>
          let distancesFromTarget :=
            omap_insert N.ltb currentTarget currentDistance
              distancesFromTarget in
          let pushed :=
            filter (λ nextTarget,
                      omap_lookup N.ltb nextTarget distancesFromTarget = None)
              (default [] (omap_lookup N.ltb currentTarget singleStepJoins)) in
          bfs fuel' singleStepJoins
            (processValues'
             ++ map (λ nextTarget, (nextTarget, wrap32 (currentDistance + 1)))
                  pushed)
            distancesFromTarget
      end
  end.

(** The last loop of [findConsumedAtEntryReason]. *)
Fixpoint addReasonsOfPreds
    (findAndAdd : BlockId → ID → ConsumedReason → N → Trace ConsumedReason)
    (predVal : ID) (distanceFromTarget : N) (predBlocks : list BlockId)
    (consumedReason : ConsumedReason) : Trace ConsumedReason :=
  match predBlocks with
  | [] => mret consumedReason
  | predBlock :: predBlocks' =>
      consumedReason ←
        findAndAdd predBlock predVal consumedReason distanceFromTarget;
      addReasonsOfPreds findAndAdd predVal distanceFromTarget predBlocks'
        consumedReason
  end.

Fixpoint addReasonsOfDistances
    (findAndAdd : BlockId → ID → ConsumedReason → N → Trace ConsumedReason)
    (consumedInSomePred : list (N * list BlockId))
    (distances : list (N * N)) (consumedReason : ConsumedReason)
  : Trace ConsumedReason :=
  match distances with
  | [] => mret consumedReason
  | (predVal, distanceFromTarget) :: distances' =>
      consumedReason ←
        addReasonsOfPreds findAndAdd predVal distanceFromTarget
          (default [] (omap_lookup N.ltb predVal consumedInSomePred))
          consumedReason;
      addReasonsOfDistances findAndAdd consumedInSomePred distances'
        consumedReason
  end.

(** [findConsumedAtEntryReason]; [fuel] bounds the depth of the recursion
    and the turns of the breadth-first search.  A fresh key is entered in
    the cache, with the empty reason, before anything else is called. *)
Fixpoint findConsumedAtEntryReason (fuel : nat) (SILBlock : BlockId)
    (consumedVal : ID) : Trace ConsumedReason :=
  block ← at_ blockStates SILBlock;
  _ ← assert_ (Partition.isConsumed (entryPartition block) consumedVal);
  t ← get_state;
  match consumedAtEntryReasons t !! (SILBlock, consumedVal) with
  | Some cached => mret cached
  | None =>
      match fuel with
      | 0 => lift_outcome OutOfFuel
      | S fuel' =>
          _ ← modify_state
                (λ t, set_consumedAtEntryReasons
                        (<[(SILBlock, consumedVal) := Reason.empty]>
                           (consumedAtEntryReasons t)) t);
          silBlock ← at_ (fnBlocks fn) SILBlock;
          let preds := getPredecessorBlocks silBlock in
          consumedInSomePred ←
            lift_outcome
              (collectConsumedInSomePred (entryPartition block) preds []);
          singleStepJoins ←
            lift_outcome
              (collectSingleStepJoins (entryPartition block) preds []);
          distancesFromTarget ←
            lift_outcome (bfs fuel' singleStepJoins [(consumedVal, 0%N)] []);
          consumedReason ←
            addReasonsOfDistances
              (λ predBlock predVal consumedReason distance,
                 findAndAddConsumedReasons (findConsumedAtEntryReason fuel')
                   predBlock predVal consumedReason distance None)
              consumedInSomePred distancesFromTarget Reason.empty;
          _ ← modify_state
                (λ t, set_consumedAtEntryReasons
                        (<[(SILBlock, consumedVal) := consumedReason]>
                           (consumedAtEntryReasons t)) t);
          mret consumedReason
      end
  end.

Definition findConsumedAtOpReason (fuel : nat) (consumedVal : ID)
    (op : PartitionOp.t) : Trace ConsumedReason :=
  sourceInst ← lift_outcome (PartitionOp.getSourceInst op);
  findAndAddConsumedReasons (findConsumedAtEntryReason fuel)
    (instParent sourceInst) consumedVal Reason.empty 0%N (Some op).

Definition traceUseOfConsumedValue (fuel : nat) (use : PartitionOp.t)
    (consumedVal : ID) : Trace unit :=
  consumedReason ← findConsumedAtOpReason fuel consumedVal use;
  modify_state
    (λ t, set_accumulator
            (Accumulator.accumulateConsumedReason (accumulator t) use
               consumedReason) t).
End Tracer.

(** ** PartitionAnalysis: construction, diagnosis, and the pass *)

Section Analysis.
Context {P : Type} `{Partition.Ops P} `{SILOracles} `{PartitionOpOrder}.

Definition NUM_REQUIREMENTS_TO_DIAGNOSE : N := 5.

(** [initCapturedUIValues]: the loop over the operands of one apply
    instruction. *)
Definition captureOperands (operands : list SILValue) : Translate unit :=
  for_each operands
    (λ val,
       if PartitionOpTranslator.isNonSendable val then
         ui ← PartitionOpTranslator.isUniquelyIdentified val;
         if (ui : bool) then
           s ← get_state;
           put_state
             {| nodeIDMap := nodeIDMap s;
                nextNodeID := nextNodeID s;
                capturedUIValues :=
                  {[PartitionOpTranslator.simplifyVal val]}
                  ∪ capturedUIValues s;
                currentInstruction := currentInstruction s;
                translationIndex := translationIndex s |}
         else mret tt
       else mret tt).

Definition initCapturedUIValues (fn : SILFunction) : Translate unit :=
  for_each (fnBlocks fn)
    (λ block,
       for_each (blockInstructions block)
         (λ inst,
            if PartitionOpTranslator.isApplyInst inst
            then captureOperands (instOperands inst)
            else mret tt)).

(** The constructor of [PartitionOpTranslator], from the state of a
    translator whose fields have their initial values. *)
Definition newTranslator (fn : SILFunction) : Outcome TranslatorState :=
  match getSendableProtocol fn with
  | None => Abort AssertionFailure
  | Some _ =>
      match initCapturedUIValues fn
              {| nodeIDMap := ∅; nextNodeID := 0; capturedUIValues := ∅;
                 currentInstruction := None; translationIndex := 0 |} with
      | Done (_, s) => Done s
      | Abort e => Abort e
      | OutOfFuel => OutOfFuel
      end
  end.

Definition getArgIDs (fn : SILFunction) : Translate (list ID) :=
  argIDs ←
    foldl (λ (acc : Translate (list ID)) arg,
             argIDs ← acc;
             if PartitionOpTranslator.isNonSendableType arg then
               i ← PartitionOpTranslator.lookupNodeID arg;
               mret (argIDs ++ [i])
             else mret argIDs)
      (mret []) (getArguments fn);
  match getSelfArgument fn with
  | Some self =>
      if PartitionOpTranslator.isNonSendableType self then
        i ← PartitionOpTranslator.lookupNodeID self;
        mret (argIDs ++ [i])
      else mret argIDs
  | None => mret argIDs
  end.

Definition getEntryPartition (fn : SILFunction) : Translate P :=
  argIDs ← getArgIDs fn;
  mret (Partition.singleRegion argIDs).

Definition getNonConsumables (fn : SILFunction) : Translate (list ID) :=
  argIDs ← getArgIDs fn;
  match argIDs with
  | front :: _ => mret [front]
  | [] => mret []
  end.

(** A block state as [BlockPartitionState]'s constructor leaves it. *)
Definition newBlockState (b : BlockId) : BlockPartitionState P :=
  {| needsUpdate := false; reached := false;
     entryPartition := Partition.empty; exitPartition := Partition.empty;
     basicBlock := b;
     blockPartitionOpsPopulated := false; blockPartitionOps := [] |}.

(** The constructor of [PartitionAnalysis]; the entry block is block 0. *)
Definition newPartitionAnalysis (fn : SILFunction)
  : Outcome (PartitionAnalysis P) :=
  match newTranslator fn with
  | Done t =>
      let a := {| translator := t;
                  blockStates := map newBlockState (seq 0 (length (fnBlocks fn)));
                  raceTracer := {| consumedAtEntryReasons := ∅;
                                   consumedAtExitReasons := ∅;
                                   accumulator := [] |};
                  function := fn;
                  solved := false;
                  diagnostics := [] |} in
      match (_ ← modifyBlockState 0 (set_needsUpdate true);
             entry ← liftTranslator (getEntryPartition fn);
             modifyBlockState 0 (set_entryPartition entry)) a with
      | Done (_, a') => Done a'
      | Abort e => Abort e
      | OutOfFuel => OutOfFuel
      end
  | Abort e => Abort e
  | OutOfFuel => OutOfFuel
  end.

Definition getExprForPartitionOp (op : PartitionOp.t) : Outcome Expr :=
  match PartitionOp.getSourceInst op with
  | Done sourceInstr =>
      match instExpr sourceInstr with
      | Some expr => Done expr
      | None => Abort AssertionFailure
      end
  | Abort e => Abort e
  | OutOfFuel => OutOfFuel
  end.

Definition emit (d : Diagnostic) : Run (PartitionAnalysis P) unit :=
  modify_state (add_diagnostic d).

(** The two closures [diagnose] gives to [diagnoseFailures]. *)
Definition handleFailure (fuel : nat) (partitionOp : PartitionOp.t)
    (consumedVal : ID) : Run (PartitionAnalysis P) unit :=
  a ← get_state;
  liftTracer
    (λ blockStates,
       traceUseOfConsumedValue (function a) blockStates fuel partitionOp
         consumedVal).

Definition handleConsumeNonConsumable (partitionOp : PartitionOp.t)
    (consumedVal : ID) : Run (PartitionAnalysis P) unit :=
  expr ← lift_outcome (getExprForPartitionOp partitionOp);
  emit (arg_region_consumed expr).

Definition runCallback (fuel : nat) (c : ApplyCallback)
  : Run (PartitionAnalysis P) unit :=
  match c with
  | RequireFailed op v => handleFailure fuel op v
  | ConsumedNonConsumable op v => handleConsumeNonConsumable op v
  end.

(** The loop of [diagnoseFailures] over the ops left, from the working
    partition reached so far. *)
Fixpoint diagnoseOps (fuel : nat) (ops : list PartitionOp.t)
    (workingPartition : P) : Run (PartitionAnalysis P) unit :=
  match ops with
  | [] => mret tt
  | partitionOp :: ops' =>
      a ← get_state;
      nonConsumables ← liftTranslator (getNonConsumables (function a));
      _ ← for_each
            (Partition.callbacks workingPartition partitionOp nonConsumables)
            (runCallback fuel);
      diagnoseOps fuel ops' (Partition.apply workingPartition partitionOp)
  end.

Definition diagnoseFailures (fuel : nat) (b : BlockId)
  : Run (PartitionAnalysis P) unit :=
  st ← getBlockState b;
  diagnoseOps fuel (blockPartitionOps st) (entryPartition st).

(** The two closures [diagnose] gives to [forEachConsumeRequire]. *)
Definition runAccumulatorCallback (c : AccumulatorCallback)
  : Run (PartitionAnalysis P) unit :=
  match c with
  | ProcessConsumeOp consumeOp numDisplayed numHidden =>
      expr ← lift_outcome (getExprForPartitionOp consumeOp);
      emit (consumption_yields_race expr numDisplayed
              (negb (bool_decide (numDisplayed = 1%N)))
              (0 <? numHidden)%N numHidden)
  | ProcessRequireOp requireOp =>
      expr ← lift_outcome (getExprForPartitionOp requireOp);
      emit (possible_racy_access_site expr)
  end.

Definition diagnose (fuel : nat) : Run (PartitionAnalysis P) unit :=
  a ← get_state;
  _ ← assert_ (solved a);
  _ ← for_each (seq 0 (length (blockStates a))) (diagnoseFailures fuel);
  a ← get_state;
  for_each
    (Accumulator.forEachConsumeRequire NUM_REQUIREMENTS_TO_DIAGNOSE
       (accumulator (raceTracer a)))
    runAccumulatorCallback.

Definition performForFunction (fuel : nat) (fn : SILFunction)
  : Outcome (PartitionAnalysis P) :=
  match newPartitionAnalysis fn with
  | Done analysis =>
      match (_ ← solve fuel; diagnose fuel) analysis with
      | Done (_, analysis') => Done analysis'
      | Abort e => Abort e
      | OutOfFuel => OutOfFuel
      end
  | Abort e => Abort e
  | OutOfFuel => OutOfFuel
  end.

(** [SendNonSendable::run]: [None] when the pass returns before an
    analysis is constructed. *)
Definition run (fuel : nat) (fn : SILFunction)
  : option (Outcome (PartitionAnalysis P)) :=
  match getDeclContext fn with
  | None => None
  | Some declContext =>
      if negb (hasDeferredSendableChecking fn) then None
      else match getSendableProtocol fn with
           | None => None
           | Some _ => Some (performForFunction fuel fn)
           end
  end.

(** The diagnostics of a run of the pass. *)
Definition diagnosticsOf (r : option (Outcome (PartitionAnalysis P)))
  : list Diagnostic :=
  match r with
  | Some (Done a) => diagnostics a
  | _ => []
  end.
End Analysis.

(** ** A partition following the specification *)

Module SpecPartition.
(** Modelled from the spec: the implementation of [Partition] is not among
    the sources.  A partition is an equivalence over the tracked IDs, kept
    as a label per ID (the least ID of its region), with the set of the IDs
    that lie in a consumed region.  Operations are those of section 4.1 of
    the specification; an op whose source is not tracked leaves the
    partition as it is. *)
Record t := { labels : gmap ID ID; consumedIDs : gset ID }.

#[global] Instance t_eq_dec : EqDecision t.
Proof. solve_decision. Defined.

(** The IDs that carry label [l]. *)
Definition members (m : gmap ID ID) (l : ID) : list ID :=
  (map_to_list (filter (λ kl, kl.2 = l) m)).*1.

Definition least (ids : list ID) (d : ID) : ID :=
  foldr N.min d ids.

(** Every ID is relabelled with the least ID of its region. *)
Definition canonical (m : gmap ID ID) : gmap ID ID :=
  map_imap (λ k l, Some (least (members m l) k)) m.

Definition freshLabel (m : gmap ID ID) (v : ID) : ID :=
  N.succ (foldr N.max v ((map_to_list m).*1 ++ (map_to_list m).*2)).

Definition empty : t := {| labels := ∅; consumedIDs := ∅ |}.

Definition singleRegion (ids : list ID) : t :=
  {| labels := canonical (list_to_map (map (λ i, (i, least ids i)) ids));
     consumedIDs := ∅ |}.

Definition assignFresh (p : t) (v : ID) : t :=
  {| labels := canonical (<[v := freshLabel (labels p) v]> (labels p));
     consumedIDs := consumedIDs p ∖ {[v]} |}.

Definition assign (p : t) (dst src : ID) : t :=
  match labels p !! src with
  | None => p
  | Some l =>
      if bool_decide (labels p !! dst = Some l) then p
      else {| labels := canonical (<[dst := l]> (labels p));
              consumedIDs := if bool_decide (src ∈ consumedIDs p)
                             then {[dst]} ∪ consumedIDs p
                             else consumedIDs p ∖ {[dst]} |}
  end.

Definition merge (p : t) (a b : ID) : t :=
  match labels p !! a, labels p !! b with
  | Some la, Some lb =>
      if bool_decide (la = lb) then p
      else
        let merged := (λ l, if bool_decide (l = lb) then la else l) <$> labels p in
        {| labels := canonical merged;
           consumedIDs :=
             if bool_decide (a ∈ consumedIDs p) || bool_decide (b ∈ consumedIDs p)
             then list_to_set (members merged la) ∪ consumedIDs p
             else consumedIDs p |}
  | _, _ => p
  end.

Definition consume (p : t) (v : ID) : t :=
  match labels p !! v with
  | Some l =>
      {| labels := labels p;
         consumedIDs := list_to_set (members (labels p) l) ∪ consumedIDs p |}
  | None => p
  end.

Definition apply (p : t) (op : PartitionOp.t) : t :=
  match op with
  | PartitionOp.AssignFresh v _ => assignFresh p v
  | PartitionOp.Assign dst src _ => assign p dst src
  | PartitionOp.Merge a b _ => merge p a b
  | PartitionOp.Consume v _ => consume p v
  | PartitionOp.Require v _ => p
  end.

Definition sameRegion (p : t) (a b : ID) : bool :=
  match labels p !! a, labels p !! b with
  | Some la, Some lb => bool_decide (la = lb)
  | _, _ => false
  end.

Definition callbacks (p : t) (op : PartitionOp.t) (nonConsumables : list ID)
  : list ApplyCallback :=
  match op with
  | PartitionOp.Require v _ =>
      if bool_decide (v ∈ consumedIDs p) then [RequireFailed op v] else []
  | PartitionOp.Consume v _ =>
      if existsb (sameRegion p v) nonConsumables
      then [ConsumedNonConsumable op v] else []
  | _ => []
  end.

(** One ID of [q] with its label: both are tracked in the result and their
    regions are made one. *)
Definition joinStep (m : gmap ID ID) (kl : ID * ID) : gmap ID ID :=
  let track (m : gmap ID ID) (v : ID) :=
    match m !! v with
    | Some _ => m
    | None => <[v := freshLabel m v]> m
    end in
  let m := track (track m kl.1) kl.2 in
  match m !! kl.1, m !! kl.2 with
  | Some la, Some lb => (λ l, if bool_decide (l = lb) then la else l) <$> m
  | _, _ => m
  end.

Definition join (p q : t) : t :=
  let m := canonical (foldl joinStep (labels p) (map_to_list (labels q))) in
  let base := consumedIDs p ∪ consumedIDs q in
  let consumedLabels : gset ID :=
    list_to_set (omap (λ v, m !! v) (elements base)) in
  {| labels := m;
     consumedIDs :=
       dom (filter (λ kl, kl.2 ∈ consumedLabels) m) |}.

Definition normal (p : t) : t :=
  {| labels := canonical (labels p); consumedIDs := consumedIDs p |}.

Definition equals (p q : t) : bool := bool_decide (normal p = normal q).

Definition isConsumed (p : t) (v : ID) : bool :=
  bool_decide (v ∈ consumedIDs p).

Definition isTracked (p : t) (v : ID) : bool :=
  bool_decide (is_Some (labels p !! v)).

Definition getConsumedVals (p : t) : list ID := elements (consumedIDs p).

Definition getNonConsumedRegions (p : t) : list (list ID) :=
  let clean := filter (λ kl, kl.1 ∉ consumedIDs p) (labels p) in
  map (members clean)
    (elements (list_to_set (C := gset ID) (map_to_list clean).*2)).

#[global] Instance ops : Partition.Ops t := {|
  Partition.empty := empty;
  Partition.singleRegion := singleRegion;
  Partition.apply := apply;
  Partition.callbacks := callbacks;
  Partition.join := join;
  Partition.equals := equals;
  Partition.isConsumed := isConsumed;
  Partition.isTracked := isTracked;
  Partition.getConsumedVals := getConsumedVals;
  Partition.getNonConsumedRegions := getNonConsumedRegions
|}.
End SpecPartition.

(** ** A small module to run the definitions on

    Values 0 to 9 are objects: 0 is a [function_ref], 8 a
    [Builtin.NativeObject], 9 an [Int]; the others are references to a class
    that is not Sendable.  Values 10 to 19 are borrows or copies of the
    objects 0 to 9.  Values 20 to 29 are addresses into one stack slot, 20. *)

Module Example.
#[global] Instance oracles : SILOracles := {|
  isAddress := λ v, (20 <=? v)%N && (v <? 30)%N;
  getUnderlyingObject := λ v, if (10 <=? v)%N && (v <? 20)%N then (v - 10)%N else v;
  getAccessStorageFromAddr :=
    λ v, if (20 <=? v)%N && (v <? 30)%N
         then Some {| getRoot := 20%N; storageIsUniquelyIdentified := true |}
         else None;
  definedByMethodOrFunctionRef := λ v, bool_decide (v = 0%N);
  typeIsBuiltinNativeObject := λ v, bool_decide (v = 8%N);
  typeMissesSendable := λ v, negb (bool_decide (v = 9%N))
|}.

(** An ordering of the ops for the examples: by their codes as positive
    numbers; it is total and the same all along a run. *)
#[global] Instance order : PartitionOpOrder := {|
  PartitionOp_ltb := λ a b, (encode a <? encode b)%positive
|}.

Definition inst (addr : N) (k : SILInstructionKind) (operands results : list N)
    (crossing : bool) (parent : BlockId) : SILInstruction :=
  {| instAddr := addr; instKind := k; instOperands := operands;
     instResults := results;
     instApplyExpr :=
       Some {| getIsolationCrossing :=
                 if crossing then Some MkIsolationCrossing else None |};
     instExpr := Some addr;
     instParent := parent |}.

(** A translator that has met value 1 and given it ID 0. *)
Definition met1 : TranslatorState :=
  {| nodeIDMap := {[1%N := 0%N]}; nextNodeID := 1;
     capturedUIValues := ∅; currentInstruction := None;
     translationIndex := 0 |}.

(** [%9 = apply %0(%1, %11)]: the callee is a function reference, the two
    arguments are one object and a borrow of it, the result is an [Int]. *)
Definition applySameTwice : SILInstruction :=
  inst 100 ApplyInst [0; 1; 11]%N [9%N] false 0.

(** [try_apply %0(%1)]: no result. *)
Definition tryApply : SILInstruction :=
  inst 101 TryApplyInst [0; 1]%N [] false 0.

(** [%11 = begin_borrow %1] *)
Definition beginBorrow : SILInstruction :=
  inst 102 BeginBorrowInst [1%N] [11%N] false 0.
End Example.

(** ** Instructions translated as one assignment or one merge *)

Section PairInstructions.
Context `{SILOracles}.

(** The list of [isa<...>] of [translateSILInstruction] that leads to
    [translateSILAssign(getResult(0), getOperand(0))]. *)
Definition isAssignKind (k : SILInstructionKind) : bool :=
  match k with
  | AddressToPointerInst | BeginAccessInst | BeginBorrowInst | CopyValueInst
  | ConvertEscapeToNoEscapeInst | ConvertFunctionInst | IndexAddrInst
  | InitExistentialAddrInst | LoadInst | LoadBorrowInst | LoadWeakInst
  | PointerToAddressInst | RefElementAddrInst | StrongCopyUnownedValueInst
  | TailAddrInst | UncheckedAddrCastInst | UncheckedOwnershipConversionInst
  | UncheckedRefCastInst => true
  | _ => false
  end.

(** The list that leads to [translateSILStore(getOperand(1), getOperand(0))]. *)
Definition isStoreKind (k : SILInstructionKind) : bool :=
  match k with
  | CopyAddrInst | ExplicitCopyAddrInst | StoreInst | StoreBorrowInst
  | StoreWeakInst => true
  | _ => false
  end.

(** [inst] is translated as an assignment or a merge between [tgt] and
    [src] alone: a projection, a store or copy, or the destructuring of a
    tuple all of whose results are [tgt]. *)
Definition translatedAsPair (inst : SILInstruction) (tgt src : SILValue)
  : Prop :=
  (isAssignKind (instKind inst) = true
   ∧ instResults inst !! 0 = Some tgt ∧ instOperands inst !! 0 = Some src)
  ∨ (isStoreKind (instKind inst) = true
     ∧ instOperands inst !! 1 = Some tgt ∧ instOperands inst !! 0 = Some src)
  ∨ (instKind inst = DestructureTupleInst
     ∧ Forall (λ r, r = tgt) (instResults inst)
     ∧ instOperands inst !! 0 = Some src).

(** The invariant of [nodeIDMap]: its keys passed the assertion of
    [lookupNodeID], no two of them share an ID, and every ID in use is
    below [nextNodeID]. *)
Record translator_wf (s : TranslatorState) : Prop := {
  wf_nonSendable :
    ∀ k i, nodeIDMap s !! k = Some i →
           PartitionOpTranslator.isNonSendable k = true;
  wf_injective :
    ∀ k1 k2 i, nodeIDMap s !! k1 = Some i → nodeIDMap s !! k2 = Some i →
               k1 = k2;
  wf_below : ∀ k i, nodeIDMap s !! k = Some i → (i < nextNodeID s)%N
}.
End PairInstructions.

Module ExampleFunctions.
(** A function with the feature on and the protocol in reach, and no
    [DeclContext]; its one block requires a consumed value. *)
Definition noDeclContext : SILFunction :=
  {| fnBlocks :=
       [ {| blockInstructions :=
              [ Example.inst 1 AllocRefInst [] [1%N] false 0;
                Example.inst 2 ApplyInst [0; 1]%N [9%N] true 0;
                Example.inst 3 ApplyInst [0; 1]%N [9%N] false 0 ];
            getPredecessorBlocks := [];
            getSuccessorBlocks := [] |} ];
     getArguments := [];
     getSelfArgument := None;
     getDeclContext := None;
     hasDeferredSendableChecking := true;
     getSendableProtocol := Some MkProtocolDecl |}.

(** The same function with a [DeclContext]. *)
Definition sequentialTransfer : SILFunction :=
  {| fnBlocks := fnBlocks noDeclContext;
     getArguments := [];
     getSelfArgument := None;
     getDeclContext := Some MkDeclContext;
     hasDeferredSendableChecking := true;
     getSendableProtocol := Some MkProtocolDecl |}.
End ExampleFunctions.

(** ** What is asked of a comparison, and what the accumulator holds *)

(** A strict total order: the requirement of [std::map] and [std::set] on
    their comparison, with equivalent keys equal. *)
Record StrictTotal {K : Type} (ltb : K → K → bool) : Prop := {
  ltb_irrefl : ∀ x, ltb x x = false;
  ltb_trans : ∀ x y z, ltb x y = true → ltb y z = true → ltb x z = true;
  ltb_total : ∀ x y, ltb x y = false → ltb y x = false → x = y
}.

(** Ascending, without two equal entries. *)
Definition ascending {K : Type} (ltb : K → K → bool) (l : list K) : Prop :=
  StronglySorted (λ a b, ltb a b = true) l.

Section AccumulatorSpec.
Context `{PartitionOpOrder}.

(** The accumulator after a sequence of calls of [accumulateConsumedReason]
    on a new [ConsumeRequireAccumulator]. *)
Definition accumulated (calls : list (PartitionOp.t * ConsumedReason))
  : Accumulator.t :=
  foldl (λ acc '(requireOp, reason),
           Accumulator.accumulateConsumedReason acc requireOp reason)
    Accumulator.empty calls.

(** The insertions those calls make, in the order they make them: the
    consume op, and the require with its distance. *)
Definition insertionsOf (call : PartitionOp.t * ConsumedReason)
  : list (PartitionOp.t * PartitionOpAtDistance) :=
  flat_map (λ '(distance, consumeOps),
              map (λ consumeOp,
                     (consumeOp, {| partitionOp := call.1;
                                    distance := distance |}))
                consumeOps)
    (consumeOps call.2).

Definition insertions (calls : list (PartitionOp.t * ConsumedReason))
  : list (PartitionOp.t * PartitionOpAtDistance) :=
  flat_map insertionsOf calls.

(** The elements of a list in the order of their first occurrence. *)
Fixpoint firstOccurrences (seen l : list PartitionOp.t) : list PartitionOp.t :=
  match l with
  | [] => []
  | x :: l' =>
      if bool_decide (x ∈ seen) then firstOccurrences seen l'
      else x :: firstOccurrences (x :: seen) l'
  end.

(** The consume ops in the order in which they were first inserted. *)
Definition insertionOrder (calls : list (PartitionOp.t * ConsumedReason))
  : list PartitionOp.t :=
  firstOccurrences [] (insertions calls).*1.

(** The consume ops in the order [processConsumeOp] is called on them. *)
Definition consumesVisited (events : list AccumulatorCallback)
  : list PartitionOp.t :=
  omap (λ e, match e with
             | ProcessConsumeOp c _ _ => Some c
             | ProcessRequireOp _ => None
             end) events.

(** The calls made for one consume op with its requires, as C6 words them
    for [k = 5]. *)
Definition claimedGroup (entry : PartitionOp.t * list PartitionOpAtDistance)
  : list AccumulatorCallback :=
  let m := N.of_nat (length entry.2) in
  ProcessConsumeOp entry.1 (N.min m 5) (m - N.min m 5)
  :: map (λ r, ProcessRequireOp (partitionOp r))
       (take (N.to_nat (N.min m 5)) entry.2).
End AccumulatorSpec.

Module ExampleAccumulator.
Import Example.
Definition consume1 : PartitionOp.t :=
  PartitionOp.Consume 1 (Some (inst 201 ApplyInst [0; 1]%N [9%N] true 0)).
Definition consume2 : PartitionOp.t :=
  PartitionOp.Consume 2 (Some (inst 202 ApplyInst [0; 2]%N [9%N] true 0)).
Definition require (n : N) : PartitionOp.t :=
  PartitionOp.Require 1 (Some (inst (300 + n) ApplyInst [0; 1]%N [9%N] false 0)).

(** A use of value 2 is traced to [consume2], then uses of value 1 to
    [consume1]: seven of them, the first at distance 3. *)
Definition calls : list (PartitionOp.t * ConsumedReason) :=
  (PartitionOp.Require 2 (Some (inst 299 ApplyInst [0; 2]%N [9%N] false 0)),
   {| consumeOps := [(0%N, [consume2])] |})
  :: (require 0, {| consumeOps := [(3%N, [consume1])] |})
  :: map (λ n, (require n, {| consumeOps := [(0%N, [consume1])] |}))
       [6; 5; 4; 3; 2; 1]%N.
End ExampleAccumulator.

(** ** One turn of the solver, in words *)

Section SolverSpec.
Context {P : Type} `{Partition.Ops P} `{SILOracles}.

(** The predecessors that have been reached, in the order of the list. *)
Definition reachedPredecessors (states : list (BlockPartitionState P))
    (preds : list BlockId) : list BlockId :=
  filter (λ p, reached <$> states !! p = Some true) preds.

Definition exitOf (states : list (BlockPartitionState P)) (b : BlockId) : P :=
  default Partition.empty (exitPartition <$> states !! b).

(** The join of the exit partitions of the blocks [bs]; the partition of the
    default constructor when there is none. *)
Definition joinOfExits (states : list (BlockPartitionState P))
    (bs : list BlockId) : P :=
  match bs with
  | [] => Partition.empty
  | b :: bs' =>
      foldl (λ acc q, Partition.join acc (exitOf states q)) (exitOf states b) bs'
  end.

(** The ops of a block: those it holds once populated, else the translation
    of its instructions, which moves the translator on. *)
Definition translatedOps (t : TranslatorState) (st : BlockPartitionState P)
    (blk : SILBasicBlock) : Outcome (list PartitionOp.t * TranslatorState) :=
  if blockPartitionOpsPopulated st then Done (blockPartitionOps st, t)
  else PartitionOpTranslator.translateSILBasicBlock (blockInstructions blk) t.

(** [needsUpdate] is set on every block of [succs]. *)
Definition flagSuccessors (succs : list BlockId)
    (states : list (BlockPartitionState P)) : list (BlockPartitionState P) :=
  foldl (λ states succ, alter (set_needsUpdate true) succ states) states succs.

(** The state of a block once the solver has gone through it. *)
Definition solvedBlockState (st : BlockPartitionState P) (entry exit : P)
    (ops : list PartitionOp.t) : BlockPartitionState P :=
  {| needsUpdate := false; reached := true;
     entryPartition := entry; exitPartition := exit;
     basicBlock := basicBlock st;
     blockPartitionOpsPopulated := true; blockPartitionOps := ops |}.
End SolverSpec.

Module ExampleSolver.
(** One block and one argument that is not Sendable: the entry partition of
    the entry block puts the argument in a region. *)
Definition oneArgument : SILFunction :=
  {| fnBlocks :=
       [ {| blockInstructions := [];
            getPredecessorBlocks := [];
            getSuccessorBlocks := [] |} ];
     getArguments := [1%N];
     getSelfArgument := None;
     getDeclContext := Some MkDeclContext;
     hasDeferredSendableChecking := true;
     getSendableProtocol := Some MkProtocolDecl |}.
End ExampleSolver.

Module ExampleSolverStates.
Import ExampleSolver.

Definition entryState : BlockPartitionState SpecPartition.t :=
  {| needsUpdate := true; reached := false;
     entryPartition := SpecPartition.singleRegion [0%N];
     exitPartition := SpecPartition.empty;
     basicBlock := 0;
     blockPartitionOpsPopulated := false; blockPartitionOps := [] |}.

(** The analysis of [oneArgument] as its constructor leaves it. *)
Definition initial : PartitionAnalysis SpecPartition.t :=
  {| translator := Example.met1;
     blockStates := [entryState];
     raceTracer := {| consumedAtEntryReasons := ∅;
                      consumedAtExitReasons := ∅;
                      accumulator := [] |};
     function := oneArgument;
     solved := false;
     diagnostics := [] |}.

(** The same analysis once the solver has gone through the entry block. *)
Definition afterEntry : PartitionAnalysis SpecPartition.t :=
  {| translator := Example.met1;
     blockStates :=
       [solvedBlockState entryState (SpecPartition.singleRegion [0%N])
          (SpecPartition.singleRegion [0%N]) []];
     raceTracer := raceTracer initial;
     function := oneArgument;
     solved := false;
     diagnostics := [] |}.
End ExampleSolverStates.

(** ** The local reason, in words *)

Section LocalReasonSpec.
Context {P : Type} `{Partition.Ops P}.

(** The ops walked by the search: those before the first op equal to the
    target, all of them when there is no target or none is equal to it. *)
Fixpoint visitedOps (ops : list PartitionOp.t) (targetOp : option PartitionOp.t)
  : list PartitionOp.t :=
  match ops with
  | [] => []
  | op :: ops' =>
      if bool_decide (targetOp = Some op) then []
      else op :: visitedOps ops' targetOp
  end.

(** The working partition the search starts from. *)
Definition revived (entry : P) (v : ID) : P :=
  if Partition.isConsumed entry v
  then Partition.apply entry (PartitionOp.AssignFresh v None)
  else entry.

(** Whether [v] is consumed once the first [i] of the ops have been applied. *)
Definition consumedAfter (visited : list PartitionOp.t) (start : P) (v : ID)
    (i : nat) : bool :=
  Partition.isConsumed (replay (take i visited) start) v.

(** The op at index [j] is the surviving candidate: [v] becomes consumed at
    it, and is consumed after every op from it to the last one walked. *)
Definition survives (visited : list PartitionOp.t) (start : P) (v : ID)
    (j : nat) : Prop :=
  j < length visited
  ∧ (j = 0 ∨ consumedAfter visited start v j = false)
  ∧ ∀ k, j ≤ k < length visited → consumedAfter visited start v (S k) = true.

(** The reason a candidate stands for. *)
Definition reasonOfCandidate (op : PartitionOp.t) : LocalConsumedReason :=
  if bool_decide (PartitionOp.getKind op = KConsume)
  then LocalReason.ConsumeInst op
  else LocalReason.NonConsumeInst.

(** What the search is to answer for a block, a value and a target. *)
Definition localReasonIs (block : BlockPartitionState P) (v : ID)
    (targetOp : option PartitionOp.t) (r : LocalConsumedReason) : Prop :=
  let visited := visitedOps (blockPartitionOps block) targetOp in
  let start := revived (entryPartition block) v in
  (∃ j op, survives visited start v j ∧ visited !! j = Some op
           ∧ r = reasonOfCandidate op)
  ∨ ((∀ j, ¬ survives visited start v j)
     ∧ Partition.isConsumed (entryPartition block) v = true
     ∧ r = LocalReason.NonLocal).

(** The entries of [consumedAtExitReasons] are answers of the search for
    the exit of their block. *)
Definition exitCache_ok (blockStates : list (BlockPartitionState P))
    (t : RaceTracer) : Prop :=
  ∀ b v r, consumedAtExitReasons t !! (b, v) = Some r →
    ∃ block, blockStates !! b = Some block
             ∧ Partition.isConsumed (exitPartition block) v = true
             ∧ localSearch block v None = Some r.
End LocalReasonSpec.

(** ** The diagnostics of [diagnose], in words *)

Section DiagnoseSpec.
Context {P : Type} `{Partition.Ops P} `{SILOracles} `{PartitionOpOrder}.

(** The diagnostic a call of one of the closures given to
    [forEachConsumeRequire] emits. *)
Definition diagnosticOfCallback (c : AccumulatorCallback) (d : Diagnostic)
  : Prop :=
  match c with
  | ProcessConsumeOp consumeOp numDisplayed numHidden =>
      ∃ expr, getExprForPartitionOp consumeOp = Done expr
              ∧ d = consumption_yields_race expr numDisplayed
                      (negb (bool_decide (numDisplayed = 1%N)))
                      (0 <? numHidden)%N numHidden
  | ProcessRequireOp requireOp =>
      ∃ expr, getExprForPartitionOp requireOp = Done expr
              ∧ d = possible_racy_access_site expr
  end.

(** Every op recorded in a reason is a [Consume]. *)
Definition reason_consumes (r : ConsumedReason) : Prop :=
  Forall (λ e, Forall (λ op, PartitionOp.getKind op = KConsume) e.2)
    (consumeOps r).

(** The accumulator maps [Consume] ops only. *)
Definition accumulator_consumes
    (acc : list (PartitionOp.t * list PartitionOpAtDistance)) : Prop :=
  Forall (λ e, PartitionOp.getKind e.1 = KConsume) acc.
End DiagnoseSpec.

Module ExampleTracer.
Import Example.
Definition allocOp : PartitionOp.t :=
  PartitionOp.AssignFresh 0 (Some (inst 1 AllocRefInst [] [1%N] false 0)).
Definition consumeOp : PartitionOp.t :=
  PartitionOp.Consume 0 (Some (inst 2 ApplyInst [0; 1]%N [9%N] true 0)).
Definition requireOp : PartitionOp.t :=
  PartitionOp.Require 0 (Some (inst 3 ApplyInst [0; 1]%N [9%N] false 0)).

(** The block of [ExampleFunctions.sequentialTransfer] once solved. *)
Definition block : BlockPartitionState SpecPartition.t :=
  {| needsUpdate := false; reached := true;
     entryPartition := SpecPartition.empty;
     exitPartition :=
       replay [allocOp; consumeOp; requireOp] SpecPartition.empty;
     basicBlock := 0;
     blockPartitionOpsPopulated := true;
     blockPartitionOps := [allocOp; consumeOp; requireOp] |}.

Definition newTracer : RaceTracer :=
  {| consumedAtEntryReasons := ∅; consumedAtExitReasons := ∅;
     accumulator := [] |}.

(** The analysis of [sequentialTransfer] between [solve] and [diagnose]. *)
Definition solvedAnalysis : PartitionAnalysis SpecPartition.t :=
  {| translator :=
       {| nodeIDMap := {[1%N := 0%N]}; nextNodeID := 1;
          capturedUIValues := ∅;
          currentInstruction := Some (inst 3 ApplyInst [0; 1]%N [9%N] false 0);
          translationIndex := 3 |};
     blockStates := [block];
     raceTracer := newTracer;
     function := ExampleFunctions.sequentialTransfer;
     solved := true;
     diagnostics := [] |}.
End ExampleTracer.

(** ** Termination: what is assumed of partitions, and what is shown *)

(** A run that takes fuel settles in state [s] when, from some amount of
    fuel on, it gives one and the same outcome, which is not [OutOfFuel]: it
    stops on a failure or returns, and then [Q] holds of what it returns. *)
Definition settles_with {S A : Type} (Q : A → S → Prop)
    (m : nat → Run S A) (s : S) : Prop :=
  ∃ (N : nat) (r : Outcome (A * S)),
    (∀ fuel, N ≤ fuel → m fuel s = r)
    ∧ match r with
      | Done (x, s') => Q x s'
      | Abort _ => True
      | OutOfFuel => False
      end.

Definition settles {S A : Type} (m : nat → Run S A) (s : S) : Prop :=
  settles_with (λ _ _, True) m s.

(** The refinement order on partitions that the solver relies on: a
    preorder of finite height in which [Partition.empty] is the least
    element, [join] is a least upper bound, every op is monotone and [equals]
    tells whether two partitions are each below the other. *)
Class PartitionLattice (P : Type) `{Partition.Ops P} := {
  below : P → P → Prop;
  height : P → nat;
  maxHeight : nat;
  below_refl : ∀ p, below p p;
  below_trans : ∀ p q r, below p q → below q r → below p r;
  empty_below : ∀ p, below Partition.empty p;
  join_above_l : ∀ p q, below p (Partition.join p q);
  join_above_r : ∀ p q, below q (Partition.join p q);
  join_least : ∀ p q r, below p r → below q r → below (Partition.join p q) r;
  apply_monotone : ∀ p q op,
    below p q → below (Partition.apply p op) (Partition.apply q op);
  equals_below : ∀ p q,
    Partition.equals p q = true ↔ below p q ∧ below q p;
  height_monotone : ∀ p q, below p q → height p ≤ height q;
  height_strict : ∀ p q, below p q → ¬ below q p → height p < height q;
  height_bounded : ∀ p, height p ≤ maxHeight
}.

Section SolverInvariant.
Context {P : Type} `{PartitionLattice P}.

(** Below every partition. *)
Definition isBottom (p : P) : Prop := ∀ q, below p q.

(** What the solver keeps true of a block.  Its exit partition is the least
    one, or is below the replay of its ops from its entry partition. *)
Definition exit_ok (st : BlockPartitionState P) : Prop :=
  isBottom (exitPartition st)
  ∨ (blockPartitionOpsPopulated st = true
     ∧ below (exitPartition st)
         (replay (blockPartitionOps st) (entryPartition st))).

(** Its entry partition is never replaced (the block has no predecessor), or
    is the least one, or is below the join of the exit partitions of its
    reached predecessors. *)
Definition entry_ok (fn : SILFunction) (states : list (BlockPartitionState P))
    (c : BlockId) (st : BlockPartitionState P) : Prop :=
  ∀ blk, fnBlocks fn !! c = Some blk →
    getPredecessorBlocks blk = []
    ∨ isBottom (entryPartition st)
    ∨ (reachedPredecessors states (getPredecessorBlocks blk) ≠ []
       ∧ below (entryPartition st)
           (joinOfExits states
              (reachedPredecessors states (getPredecessorBlocks blk)))).

Definition block_ok (fn : SILFunction) (states : list (BlockPartitionState P))
    (c : BlockId) (st : BlockPartitionState P) : Prop :=
  exit_ok st ∧ entry_ok fn states c st.

Definition solver_ok (a : PartitionAnalysis P) : Prop :=
  ∀ c st, blockStates a !! c = Some st →
          block_ok (function a) (blockStates a) c st.

(** The sum of the heights of the exit partitions. *)
Definition exitHeights (states : list (BlockPartitionState P)) : nat :=
  sum_list (map (λ st, height (exitPartition st)) states).

(** No block needs an update. *)
Definition noneNeedsUpdate (a : PartitionAnalysis P) : Prop :=
  ∀ c st, blockStates a !! c = Some st → needsUpdate st = false.
End SolverInvariant.

(** ** A loop through the entry block *)

Module ExampleLoop.
(** Values 0 to 9 are addresses of separate stack slots or indirect
    arguments, each uniquely identified, holding references to a class that
    is not Sendable; the other values are [Int]s. *)
#[export] Instance slots : SILOracles := {|
  isAddress := λ v, (v <? 10)%N;
  getUnderlyingObject := λ v, v;
  getAccessStorageFromAddr :=
    λ v, if (v <? 10)%N
         then Some {| getRoot := v; storageIsUniquelyIdentified := true |}
         else None;
  definedByMethodOrFunctionRef := λ _, false;
  typeIsBuiltinNativeObject := λ _, false;
  typeMissesSendable := λ v, (v <? 10)%N
|}.

(** Three indirect arguments [%0], [%1], [%2] and a local slot [%3]:
<<
  bb0:  store %10 to %0          // an Int
        br bb1
  bb1:  copy_addr %2 to %3
        copy_addr %0 to %2
        copy_addr %3 to %0
        cond_br _, bb0, bb1
>>
    The entry block is a successor of [bb1]. *)
Definition swapInLoop : SILFunction :=
  {| fnBlocks :=
       [ {| blockInstructions :=
              [ Example.inst 1 StoreInst [10; 0]%N [] false 0 ];
            getPredecessorBlocks := [1];
            getSuccessorBlocks := [1] |};
         {| blockInstructions :=
              [ Example.inst 2 CopyAddrInst [2; 3]%N [] false 1;
                Example.inst 3 CopyAddrInst [0; 2]%N [] false 1;
                Example.inst 4 CopyAddrInst [3; 0]%N [] false 1 ];
            getPredecessorBlocks := [0; 1];
            getSuccessorBlocks := [0; 1] |} ];
     getArguments := [0; 1; 2]%N;
     getSelfArgument := None;
     getDeclContext := Some MkDeclContext;
     hasDeferredSendableChecking := true;
     getSendableProtocol := Some MkProtocolDecl |}.

(** One turn of the [while] loop of [solve]. *)
Definition round (a : PartitionAnalysis SpecPartition.t)
  : Outcome (bool * PartitionAnalysis SpecPartition.t) :=
  sweep (seq 0 (length (blockStates a))) false a.

(** The analysis after [n] turns that each set [anyNeedUpdate]. *)
Fixpoint afterRounds (n : nat) (a : PartitionAnalysis SpecPartition.t)
  : option (PartitionAnalysis SpecPartition.t) :=
  match n with
  | 0 => Some a
  | S n' =>
      match round a with
      | Done (true, a') => afterRounds n' a'
      | _ => None
      end
  end.
End ExampleLoop.

(** ** What the solver keeps of a block, whatever the partitions are *)

Section SolverSound.
Context {P : Type} `{Partition.Ops P} `{SILOracles}.

(** A block state belongs to block [b].  Once it holds ops, the block has
    been reached, the ops are a translation of the instructions of the
    block, and the exit partition is their replay from the entry partition;
    before that it holds no op and its exit partition is the one it was
    constructed with. *)
Definition block_sound (fn : SILFunction) (b : BlockId)
    (st : BlockPartitionState P) : Prop :=
  basicBlock st = b
  ∧ if blockPartitionOpsPopulated st
    then reached st = true
         ∧ exitPartition st
           = replay (blockPartitionOps st) (entryPartition st)
         ∧ ∃ blk t t',
             fnBlocks fn !! b = Some blk
             ∧ PartitionOpTranslator.translateSILBasicBlock
                 (blockInstructions blk) t
               = Done (blockPartitionOps st, t')
    else exitPartition st = Partition.empty ∧ blockPartitionOps st = [].

Definition sound (a : PartitionAnalysis P) : Prop :=
  ∀ b st, blockStates a !! b = Some st → block_sound (function a) b st.

(** What [solve] leaves alone. *)
Definition untouched (a a' : PartitionAnalysis P) : Prop :=
  function a' = function a
  ∧ raceTracer a' = raceTracer a
  ∧ diagnostics a' = diagnostics a
  ∧ length (blockStates a') = length (blockStates a).
End SolverSound.

(** ** Two functions of two blocks *)

Module ExampleTwoBlocks.
Import Example.

(** An object is sent in the entry block and used in the next one:
<<
  bb0:  %1 = alloc_ref $C
        %9 = apply %0(%1)      // crosses isolation
        br bb1
  bb1:  %9 = apply %0(%1)
>> *)
Definition transferThenUse : SILFunction :=
  {| fnBlocks :=
       [ {| blockInstructions :=
              [ inst 1 AllocRefInst [] [1%N] false 0;
                inst 2 ApplyInst [0; 1]%N [9%N] true 0 ];
            getPredecessorBlocks := [];
            getSuccessorBlocks := [1] |};
         {| blockInstructions :=
              [ inst 3 ApplyInst [0; 1]%N [9%N] false 1 ];
            getPredecessorBlocks := [0];
            getSuccessorBlocks := [] |} ];
     getArguments := [];
     getSelfArgument := None;
     getDeclContext := Some MkDeclContext;
     hasDeferredSendableChecking := true;
     getSendableProtocol := Some MkProtocolDecl |}.

(** The same instructions after an entry block that only makes an [Int]:
<<
  bb0:  %9 = integer_literal $Int, 0
        br bb1
  bb1:  %1 = alloc_ref $C
        %9 = apply %0(%1)      // crosses isolation
        %9 = apply %0(%1)
>> *)
Definition quietEntry : SILFunction :=
  {| fnBlocks :=
       [ {| blockInstructions := [ inst 1 LiteralInst [] [9%N] false 0 ];
            getPredecessorBlocks := [];
            getSuccessorBlocks := [1] |};
         {| blockInstructions :=
              [ inst 2 AllocRefInst [] [1%N] false 1;
                inst 3 ApplyInst [0; 1]%N [9%N] true 1;
                inst 4 ApplyInst [0; 1]%N [9%N] false 1 ];
            getPredecessorBlocks := [0];
            getSuccessorBlocks := [] |} ];
     getArguments := [];
     getSelfArgument := None;
     getDeclContext := Some MkDeclContext;
     hasDeferredSendableChecking := true;
     getSendableProtocol := Some MkProtocolDecl |}.

(** The block states of a function once solved, with the partitions of
    [SpecPartition]; none if the analysis stops before. *)
Definition solvedStates (fn : SILFunction)
  : list (BlockPartitionState SpecPartition.t) :=
  match newPartitionAnalysis fn with
  | Done a =>
      match solve 10 a with
      | Done (_, a') => blockStates a'
      | _ => []
      end
  | _ => []
  end.
End ExampleTwoBlocks.

(** ** A partition over one ID *)

Module OneID.
(** Modelled from the spec: the partitions of section 4.1 of the
    specification when ID 0 is the only one: it is not tracked, or it is
    alone in a region that is not consumed, or alone in a consumed region.
    An op on another ID, or on ID 0 while it is not tracked, leaves the
    partition as it is. *)
Inductive t := Untracked | Clean | Consumed.

#[global] Instance t_eq_dec : EqDecision t.
Proof. solve_decision. Defined.

Definition rank (p : t) : nat :=
  match p with Untracked => 0 | Clean => 1 | Consumed => 2 end.

Definition apply (p : t) (op : PartitionOp.t) : t :=
  match op with
  | PartitionOp.AssignFresh N0 _ => Clean
  | PartitionOp.Consume N0 _ =>
      match p with Untracked => Untracked | _ => Consumed end
  | _ => p
  end.

Definition join (p q : t) : t := if rank p <? rank q then q else p.

Definition callbacks (p : t) (op : PartitionOp.t) (nonConsumables : list ID)
  : list ApplyCallback :=
  match op with
  | PartitionOp.Require N0 _ =>
      if bool_decide (p = Consumed) then [RequireFailed op 0%N] else []
  | PartitionOp.Consume N0 _ =>
      if negb (bool_decide (p = Untracked))
         && bool_decide (0%N ∈ nonConsumables)
      then [ConsumedNonConsumable op 0%N] else []
  | _ => []
  end.

#[export] Instance ops : Partition.Ops t := {|
  Partition.empty := Untracked;
  Partition.singleRegion :=
    λ ids, if bool_decide (0%N ∈ ids) then Clean else Untracked;
  Partition.apply := apply;
  Partition.callbacks := callbacks;
  Partition.join := join;
  Partition.equals := λ p q, bool_decide (p = q);
  Partition.isConsumed :=
    λ p v, bool_decide (v = 0%N) && bool_decide (p = Consumed);
  Partition.isTracked :=
    λ p v, bool_decide (v = 0%N) && negb (bool_decide (p = Untracked));
  Partition.getConsumedVals :=
    λ p, if bool_decide (p = Consumed) then [0%N] else [];
  Partition.getNonConsumedRegions :=
    λ p, if bool_decide (p = Clean) then [[0%N]] else []
|}.
End OneID.

(** ** A function that stores to a stack slot it has passed to a call *)

Module ExampleCapture.
Import Example.

End ExampleCapture.

(** ** What a translation keeps and what its ops mention *)

(** The IDs an op mentions. *)
Definition opIDs (op : PartitionOp.t) : list ID :=
  match op with
  | PartitionOp.AssignFresh v _ | PartitionOp.Consume v _
  | PartitionOp.Require v _ => [v]
  | PartitionOp.Assign a b _ | PartitionOp.Merge a b _ => [a; b]
  end.

(** From [s] to [s'] every value that had an ID has kept it, and the set of
    captured values is the same. *)
Definition keepsIDs (s s' : TranslatorState) : Prop :=
  (∀ k i, nodeIDMap s !! k = Some i → nodeIDMap s' !! k = Some i)
  ∧ capturedUIValues s' = capturedUIValues s.

(** The values with an ID are numbered in the order they were met: the next
    ID is the number of values that have one, each ID is below it, and no
    two values share an ID. *)
Definition numbered (s : TranslatorState) : Prop :=
  nextNodeID s = N.of_nat (size (nodeIDMap s))
  ∧ (∀ k i, nodeIDMap s !! k = Some i → (i < nextNodeID s)%N)
  ∧ (∀ k1 k2 i, nodeIDMap s !! k1 = Some i → nodeIDMap s !! k2 = Some i →
                k1 = k2).

(** From [s] to [s'] the numbering is kept, as long as the values of [s']
    are fewer than an [unsigned] can count. *)
Definition keepsNumbering (s s' : TranslatorState) : Prop :=
  (N.of_nat (size (nodeIDMap s')) < unsigned_max)%N → numbered s → numbered s'.

(** The op was made while [ci] was the current instruction, and each ID it
    mentions is the ID of a value in [s']. *)
Definition opFrom (ci : option SILInstruction) (s' : TranslatorState)
    (op : PartitionOp.t) : Prop :=
  PartitionOp.sourceInst op = ci
  ∧ ∀ i, i ∈ opIDs op → ∃ k, nodeIDMap s' !! k = Some i.

(** ** What a reason holds *)

(** The ops of a reason, by ascending distance. *)
Definition allOps (r : ConsumedReason) : list PartitionOp.t :=
  concat (consumeOps r).*2.

(** The reason holds [op] at distance [d]. *)
Definition atDistance (r : ConsumedReason) (d : N) (op : PartitionOp.t) : Prop :=
  ∃ vec, (d, vec) ∈ consumeOps r ∧ op ∈ vec.

(** ** A function whose blocks form a diamond *)

Module ExampleDiamond.
Import Example.

(** An object is sent in the entry block and used where the two branches
    meet:
<<
  bb0:  %1 = alloc_ref $C
        %9 = apply %0(%1)      // crosses isolation
        cond_br bb1, bb2
  bb1:  br bb3
  bb2:  br bb3
  bb3:  %9 = apply %0(%1)
>> *)
Definition diamond : SILFunction :=
  {| fnBlocks :=
       [ {| blockInstructions :=
              [ inst 1 AllocRefInst [] [1%N] false 0;
                inst 2 ApplyInst [0; 1]%N [9%N] true 0 ];
            getPredecessorBlocks := [];
            getSuccessorBlocks := [1; 2] |};
         {| blockInstructions := [];
            getPredecessorBlocks := [0];
            getSuccessorBlocks := [3] |};
         {| blockInstructions := [];
            getPredecessorBlocks := [0];
            getSuccessorBlocks := [3] |};
         {| blockInstructions :=
              [ inst 3 ApplyInst [0; 1]%N [9%N] false 3 ];
            getPredecessorBlocks := [1; 2];
            getSuccessorBlocks := [] |} ];
     getArguments := [];
     getSelfArgument := None;
     getDeclContext := Some MkDeclContext;
     hasDeferredSendableChecking := true;
     getSendableProtocol := Some MkProtocolDecl |}.

(** The op of the call in bb0, and the reason each branch gives for value 0
    being consumed where it ends. *)
Definition sendOp : PartitionOp.t :=
  PartitionOp.Consume 0 (Some (inst 2 ApplyInst [0; 1]%N [9%N] true 0)).

Definition branchReason : ConsumedReason := {| consumeOps := [(0%N, [sendOp])] |}.

(** Whether, once [diamond] is solved, the tracer finds [branchReason] for
    value 0 at the entry of block [b]. *)
Definition findsBranchReason (b : BlockId) : bool :=
  match newPartitionAnalysis (P := SpecPartition.t) diamond with
  | Done a0 =>
      match solve 30 a0 with
      | Done (_, a1) =>
          match findConsumedAtEntryReason (function a1) (blockStates a1) 30
                  b 0%N (raceTracer a1) with
          | Done (r, _) => bool_decide (consumeOps r = consumeOps branchReason)
          | _ => false
          end
      | _ => false
      end
  | _ => false
  end.
End ExampleDiamond.

(** ** What the breadth-first search looks for *)

(** [singleStepJoins[x]] holds [y]. *)
Definition joinsTo (singleStepJoins : list (N * list N)) (x y : N) : Prop :=
  ∃ vs, omap_lookup N.ltb x singleStepJoins = Some vs ∧ y ∈ vs.

(** [y] is [x] or is joined to it through some steps. *)
Definition connected (singleStepJoins : list (N * list N)) : N → N → Prop :=
  rtc (joinsTo singleStepJoins).

(** ** The control flow graph *)

(** [p] is a predecessor of [c] only if [c] is a successor of [p]. *)
Definition predecessorsMatch (fn : SILFunction) : Prop :=
  ∀ c blk p, fnBlocks fn !! c = Some blk → p ∈ getPredecessorBlocks blk →
    ∃ pblk, fnBlocks fn !! p = Some pblk ∧ c ∈ getSuccessorBlocks pblk.

(** [c] is a successor of [p] only if [p] is a predecessor of [c]. *)
Definition successorsMatch (fn : SILFunction) : Prop :=
  ∀ p pblk c, fnBlocks fn !! p = Some pblk → c ∈ getSuccessorBlocks pblk →
    ∃ blk, fnBlocks fn !! c = Some blk ∧ p ∈ getPredecessorBlocks blk.

(** * Properties *)

(** ** The translator *)

Ltac unfold_run :=
  unfold mbind, mret, Run_bind, Run_ret, assert_, at_, lift_outcome,
    get_state, put_state, modify_state in *.

Section TranslatorFacts.
Context `{SILOracles}.
Import PartitionOpTranslator.

Lemma bind_done {A B} (m : Translate A) (f : A → Translate B) s a s' :
  m s = Done (a, s') → (m ≫= f) s = f a s'.
Proof. unfold_run. by intros ->. Qed.

Lemma bind_abort {A B} (m : Translate A) (f : A → Translate B) s e :
  m s = Abort e → (m ≫= f) s = Abort e.
Proof. unfold_run. by intros ->. Qed.

Lemma idOf_known s v i :
  nodeIDMap s !! simplifyVal v = Some i → idOf s v = i.
Proof. unfold idOf. by intros ->. Qed.

Lemma mintState_known s v :
  is_Some (nodeIDMap s !! simplifyVal v) → mintState s v = s.
Proof. unfold mintState. by intros [i ->]. Qed.

Lemma lookupNodeID_run s v :
  isNonSendable (simplifyVal v) = true →
  lookupNodeID v s = Done (idOf s v, mintState s v).
Proof.
  intros Hns. unfold lookupNodeID, idOf, mintState. unfold_run.
  rewrite Hns. by destruct (nodeIDMap s !! simplifyVal v).
Qed.

Lemma lookupNodeID_abort s v :
  isNonSendable (simplifyVal v) = false →
  lookupNodeID v s = Abort AssertionFailure.
Proof.
  intros Hns. unfold lookupNodeID. unfold_run. by rewrite Hns.
Qed.

Lemma lookupNodeID_known s v :
  encountered s v → lookupNodeID v s = Done (idOf s v, s).
Proof.
  intros [Hns Hid]. rewrite lookupNodeID_run by done.
  by rewrite mintState_known.
Qed.

Lemma nodeHasID_run s v :
  isNonSendable (simplifyVal v) = true →
  nodeHasID v s
  = Done (bool_decide (is_Some (nodeIDMap s !! simplifyVal v)), s).
Proof.
  intros Hns. unfold nodeHasID. unfold_run. by rewrite Hns.
Qed.

Lemma nodeHasID_known s v :
  encountered s v → nodeHasID v s = Done (true, s).
Proof.
  intros [Hns Hid]. rewrite nodeHasID_run by done.
  by rewrite bool_decide_eq_true_2.
Qed.

Lemma encountered_mintState s v w :
  encountered s v → encountered (mintState s w) v.
Proof.
  intros [Hns [i Hi]]. split; [done|]. unfold mintState.
  destruct (nodeIDMap s !! simplifyVal w) eqn:Hw; [by eexists|].
  simpl. destruct (decide (simplifyVal w = simplifyVal v)) as [Heq|Hne].
  - congruence.
  - rewrite lookup_insert_ne by done. by eexists.
Qed.

Lemma idOf_mintState_other s v w :
  encountered s v → idOf (mintState s w) v = idOf s v.
Proof.
  intros [Hns [i Hi]]. unfold idOf at 1, mintState.
  destruct (nodeIDMap s !! simplifyVal w) eqn:Hw.
  - by rewrite Hi, (idOf_known _ _ i).
  - simpl. destruct (decide (simplifyVal w = simplifyVal v)) as [Heq|Hne].
    + congruence.
    + rewrite lookup_insert_ne by done. by rewrite Hi, (idOf_known _ _ i).
Qed.

Lemma encountered_mintState_self s v :
  isNonSendable (simplifyVal v) = true → encountered (mintState s v) v.
Proof.
  intros Hns. split; [done|]. unfold mintState.
  destruct (nodeIDMap s !! simplifyVal v) eqn:Hv.
  - rewrite Hv. by eexists.
  - simpl. rewrite lookup_insert_eq. by eexists.
Qed.

Lemma idOf_mintState_self s v :
  idOf (mintState s v) v = idOf s v.
Proof.
  unfold idOf at 1, mintState. unfold idOf.
  destruct (nodeIDMap s !! simplifyVal v) eqn:Hv.
  - by rewrite Hv.
  - simpl. by rewrite lookup_insert_eq.
Qed.

Lemma currentInstruction_mintState s v :
  currentInstruction (mintState s v) = currentInstruction s.
Proof. unfold mintState. by destruct (nodeIDMap s !! simplifyVal v). Qed.

Lemma Consume_known s v :
  encountered s v →
  Consume v s = Done ([PartitionOp.Consume (idOf s v) (currentInstruction s)], s).
Proof.
  intros Hv. unfold Consume.
  rewrite (bind_done _ _ _ _ _ (nodeHasID_known _ _ Hv)).
  rewrite (bind_done (assert_ true) _ s tt s) by done.
  rewrite (bind_done _ _ _ _ _ (lookupNodeID_known _ _ Hv)).
  done.
Qed.

Lemma Require_known s v :
  encountered s v →
  Require v s = Done ([PartitionOp.Require (idOf s v) (currentInstruction s)], s).
Proof.
  intros Hv. unfold Require.
  rewrite (bind_done _ _ _ _ _ (nodeHasID_known _ _ Hv)).
  rewrite (bind_done (assert_ true) _ s tt s) by done.
  rewrite (bind_done _ _ _ _ _ (lookupNodeID_known _ _ Hv)).
  done.
Qed.

Lemma Merge_known s a b :
  encountered s a → encountered s b →
  Merge a b s
  = Done (if bool_decide (idOf s a = idOf s b) then []
          else [PartitionOp.Merge (idOf s a) (idOf s b) (currentInstruction s)],
          s).
Proof.
  intros Ha Hb. unfold Merge.
  rewrite (bind_done _ _ _ _ _ (nodeHasID_known _ _ Ha)).
  rewrite (bind_done _ _ _ _ _ (nodeHasID_known _ _ Hb)).
  rewrite (bind_done (assert_ (true && true)) _ s tt s) by done.
  rewrite (bind_done _ _ _ _ _ (lookupNodeID_known _ _ Ha)).
  rewrite (bind_done _ _ _ _ _ (lookupNodeID_known _ _ Hb)).
  case_bool_decide; [done|].
  rewrite (bind_done _ _ _ _ _ (lookupNodeID_known _ _ Ha)).
  rewrite (bind_done _ _ _ _ _ (lookupNodeID_known _ _ Hb)).
  done.
Qed.

Lemma AssignFresh_run s v :
  isNonSendable (simplifyVal v) = true →
  AssignFresh v s
  = Done ([PartitionOp.AssignFresh (idOf s v) (currentInstruction s)],
          mintState s v).
Proof.
  intros Hv. unfold AssignFresh.
  rewrite (bind_done _ _ _ _ _ (lookupNodeID_run _ _ Hv)).
  unfold getCurrentInstruction. unfold_run.
  by rewrite currentInstruction_mintState.
Qed.

Lemma Assign_run s tgt src :
  isNonSendable (simplifyVal tgt) = true → encountered s src →
  Assign tgt src s
  = Done (if bool_decide (idOf s tgt = idOf s src) then []
          else [PartitionOp.Assign (idOf s tgt) (idOf s src)
                  (currentInstruction s)],
          mintState s tgt).
Proof.
  intros Ht Hs. unfold Assign.
  rewrite (bind_done _ _ _ _ _ (nodeHasID_known _ _ Hs)).
  rewrite (bind_done (assert_ true) _ s tt s) by done.
  rewrite (bind_done _ _ _ _ _ (lookupNodeID_run _ _ Ht)).
  pose proof (encountered_mintState s src tgt Hs) as Hs'.
  pose proof (encountered_mintState_self s tgt Ht) as Ht'.
  rewrite (bind_done _ _ _ _ _ (lookupNodeID_known _ _ Hs')).
  rewrite idOf_mintState_other by done.
  case_bool_decide; [done|].
  rewrite (bind_done _ _ _ _ _ (lookupNodeID_known _ _ Ht')).
  rewrite (bind_done _ _ _ _ _ (lookupNodeID_known _ _ Hs')).
  unfold getCurrentInstruction. unfold_run.
  by rewrite idOf_mintState_self, idOf_mintState_other,
    currentInstruction_mintState.
Qed.

Lemma translate_each_Consume s vs :
  Forall (encountered s) vs →
  translate_each Consume vs s
  = Done (map (λ o, PartitionOp.Consume o (currentInstruction s))
            (map (idOf s) vs), s).
Proof.
  induction 1 as [|v vs Hv Hvs IH]; [done|]. simpl.
  rewrite (bind_done _ _ _ _ _ (Consume_known _ _ Hv)).
  by rewrite (bind_done _ _ _ _ _ IH).
Qed.

Lemma translate_each_Merge s (vs : list SILValue) k :
  Forall (encountered s) vs → 0 < k →
  translate_each
    (λ i, a ← at_ vs (i - 1); b ← at_ vs i; Merge a b)
    (seq k (length vs - k)) s
  = Done (match map (idOf s) (drop (k - 1) vs) with
          | [] => []
          | a :: rest => emitted_merges (currentInstruction s) a rest
          end, s).
Proof.
  intros Hvs. remember (length vs - k) as n eqn:Hn.
  revert k Hn. induction n as [|n IH]; intros k Hn Hk.
  - simpl. destruct (drop (k - 1) vs) as [|a rest] eqn:Hd; [done|].
    destruct rest as [|b rest]; [done|].
    apply (f_equal length) in Hd. rewrite length_drop in Hd. simpl in Hd. lia.
  - simpl.
    assert (is_Some (vs !! (k - 1))) as [a Ha] by (apply lookup_lt_is_Some; lia).
    assert (is_Some (vs !! k)) as [b Hb] by (apply lookup_lt_is_Some; lia).
    rewrite (bind_done (at_ vs (k - 1) ≫= _) _ s
               (if bool_decide (idOf s a = idOf s b) then []
                else [PartitionOp.Merge (idOf s a) (idOf s b)
                        (currentInstruction s)]) s).
    2:{ rewrite (bind_done (at_ vs (k - 1)) _ s a s)
          by (unfold at_; by rewrite Ha).
        rewrite (bind_done (at_ vs k) _ s b s) by (unfold at_; by rewrite Hb).
        apply Merge_known.
        - eapply Forall_lookup_1; eauto.
        - eapply Forall_lookup_1; eauto. }
    rewrite (bind_done _ _ _ _ _ (IH (S k) ltac:(lia) ltac:(lia))).
    unfold_run. f_equal. f_equal.
    rewrite (drop_S _ a (k - 1)) by done. simpl.
    replace (S (k - 1)) with k by lia.
    replace (k - 0) with k by lia.
    destruct (drop k vs) as [|b' rest] eqn:Hd.
    { apply (f_equal length) in Hd. rewrite length_drop in Hd. simpl in Hd.
      lia. }
    assert (b' = b) as ->.
    { assert (drop k vs !! 0 = Some b) as Hb'
        by (rewrite lookup_drop; by replace (k + 0) with k by lia).
      rewrite Hd in Hb'. simpl in Hb'. congruence. }
    done.
Qed.
End TranslatorFacts.

Section ApplyTheorems.
Context `{SILOracles}.
Import PartitionOpTranslator.

Lemma emitted_assign_run s r front :
  (isNonSendable r = true → isNonSendable (simplifyVal r) = true) →
  encountered s front →
  (if isNonSendable r then Assign r front else mret []) s
  = Done (emitted_assign (currentInstruction s)
            (if isNonSendable r then Some (idOf s r) else None)
            (idOf s front),
          if isNonSendable r then mintState s r else s).
Proof.
  intros Hr Hf. destruct (isNonSendable r); [|done].
  by rewrite Assign_run by auto.
Qed.

(** C1, as the code has it: with every non-Sendable operand already given
    an ID and a result at index 0, [translateSILApply] returns the consumes
    and a fresh region for a crossing call, and otherwise the require or
    the merges of adjacent operands followed by the assignment of the
    result, where a merge or an assignment between equal IDs is left out. *)
Theorem translateSILApply_emits (inst : SILInstruction)
    (s : TranslatorState) (r : SILValue) :
  instResults inst !! 0 = Some r →
  Forall (encountered s) (nonSendableOperandsOf inst) →
  (isNonSendable r = true → isNonSendable (simplifyVal r) = true) →
  translateSILApply inst s
  = Done (emitted_apply_ops (currentInstruction s)
            (SILApplyCrossesIsolation inst)
            (map (idOf s) (nonSendableOperandsOf inst))
            (if isNonSendable r then Some (idOf s r) else None),
          if isNonSendable r then mintState s r else s).
Proof.
  intros Hres Hops Hr. unfold translateSILApply, emitted_apply_ops.
  rewrite (bind_done _ _ s r s) by (unfold getResult, lift_outcome; by rewrite Hres).
  destruct (SILApplyCrossesIsolation inst).
  - rewrite (bind_done _ _ _ _ _ (translate_each_Consume _ _ Hops)).
    destruct (isNonSendable r) eqn:Hns.
    + by rewrite (bind_done _ _ _ _ _ (AssignFresh_run _ _ (Hr eq_refl))).
    + unfold_run. by rewrite app_nil_r.
  - case_bool_decide as Hnil.
    { rewrite Hnil. simpl. destruct (isNonSendable r) eqn:Hns; [|done].
      by rewrite AssignFresh_run by auto. }
    destruct (nonSendableOperandsOf inst) as [|a rest] eqn:Hl; [done|].
    assert (encountered s a) as Ha by (by inversion Hops).
    destruct rest as [|b rest].
    + simpl. rewrite (bind_done _ _ s
               [PartitionOp.Require (idOf s a) (currentInstruction s)] s).
      2:{ rewrite (bind_done (at_ [a] 0) _ s a s) by done.
          by apply Require_known. }
      assert ((if isNonSendable r
               then front ← at_ [a] 0; Assign r front else mret []) s
              = (if isNonSendable r then Assign r a else mret []) s) as Heq
        by (by destruct (isNonSendable r)).
      rewrite (bind_done _ _ _ _ _
                 (eq_trans Heq (emitted_assign_run s r a Hr Ha))).
      done.
    + rewrite bool_decide_eq_false_2 by (simpl; lia).
      pose proof (translate_each_Merge s (a :: b :: rest) 1 Hops
                    ltac:(lia)) as Hm.
      rewrite (bind_done _ _ _ _ _ Hm).
      assert ((if isNonSendable r
               then front ← at_ (a :: b :: rest) 0; Assign r front
               else mret []) s
              = (if isNonSendable r then Assign r a else mret []) s) as Heq
        by (by destruct (isNonSendable r)).
      rewrite (bind_done _ _ _ _ _
                 (eq_trans Heq (emitted_assign_run s r a Hr Ha))).
      done.
Qed.
End ApplyTheorems.

(** ** The result of an apply is read unconditionally *)

Create HintDb in_range.

Section NoOutOfRange.
Context `{SILOracles}.
Import PartitionOpTranslator.

(** The run does not stop on an index out of range. *)
Definition in_range {A} (m : Translate A) : Prop :=
  ∀ s, m s ≠ Abort OutOfRange.

Lemma in_range_bind {A B} (m : Translate A) (f : A → Translate B) :
  in_range m → (∀ a, in_range (f a)) → in_range (m ≫= f).
Proof.
  intros Hm Hf s. unfold mbind, Run_bind.
  destruct (m s) as [[a s']| e |] eqn:Hms; [apply Hf| |done].
  intros [= ->]. by apply (Hm s).
Qed.

Lemma in_range_bind_at {A B} (l : list A) i (f : A → Translate B) :
  i < length l → (∀ a, in_range (f a)) → in_range (at_ l i ≫= f).
Proof.
  intros Hi Hf. apply in_range_bind; [|done].
  intros s. unfold at_, lift_outcome.
  destruct (lookup_lt_is_Some_2 l i Hi) as [a ->]. done.
Qed.

Lemma in_range_ret {A} (a : A) : in_range (mret a : Translate A).
Proof. by intros s. Qed.

Lemma in_range_assert b : in_range (assert_ b).
Proof. intros s. unfold assert_. by destruct b. Qed.

Lemma in_range_get : in_range (get_state : Translate _).
Proof. by intros s. Qed.

Lemma in_range_put s' : in_range (put_state s' : Translate _).
Proof. by intros s. Qed.

Hint Resolve in_range_ret in_range_assert in_range_get in_range_put : in_range.

Ltac in_range_step :=
  repeat first
    [ apply in_range_bind; [|intros ?]
    | progress eauto with in_range
    | match goal with |- in_range (if ?b then _ else _) => destruct b end
    | match goal with |- in_range (match ?x with _ => _ end) => destruct x end ].

Lemma in_range_nodeHasID v : in_range (nodeHasID v).
Proof. unfold nodeHasID. in_range_step. Qed.

Lemma in_range_lookupNodeID v : in_range (lookupNodeID v).
Proof. unfold lookupNodeID. in_range_step. Qed.

Hint Resolve in_range_nodeHasID in_range_lookupNodeID : in_range.

Lemma in_range_getCurrentInstruction : in_range getCurrentInstruction.
Proof. unfold getCurrentInstruction. in_range_step. Qed.

Hint Resolve in_range_getCurrentInstruction : in_range.

Lemma in_range_AssignFresh v : in_range (AssignFresh v).
Proof. unfold AssignFresh. in_range_step. Qed.

Lemma in_range_Assign a b : in_range (Assign a b).
Proof. unfold Assign. in_range_step. Qed.

Lemma in_range_Consume v : in_range (Consume v).
Proof. unfold Consume. in_range_step. Qed.

Lemma in_range_Merge a b : in_range (Merge a b).
Proof. unfold Merge. in_range_step. Qed.

Lemma in_range_Require v : in_range (Require v).
Proof. unfold Require. in_range_step. Qed.

Hint Resolve in_range_AssignFresh in_range_Assign in_range_Consume
  in_range_Merge in_range_Require : in_range.

Lemma in_range_translate_each {A} (f : A → Translate (list PartitionOp.t)) xs :
  Forall (λ x, in_range (f x)) xs → in_range (translate_each f xs).
Proof.
  induction 1 as [|x xs Hx Hxs IH]; simpl; in_range_step.
Qed.

(** C9: [translateSILApply] reads result 0 before it looks at anything
    else, so it stops on an index out of range exactly when the
    instruction has no result; with a result, no lookup of a result or
    an operand can miss. *)
Theorem translateSILApply_reads_result (inst : SILInstruction)
    (s : TranslatorState) :
  translateSILApply inst s = Abort OutOfRange ↔ instResults inst = [].
Proof.
  split.
  - destruct (instResults inst) as [|r rs] eqn:Hres; [done|].
    intros Habs. exfalso. revert Habs. revert s.
    change (in_range (translateSILApply inst)).
    unfold translateSILApply, getResult. rewrite Hres. simpl.
    apply in_range_bind; [by intros s|]. intros res0.
    destruct (SILApplyCrossesIsolation inst).
    { apply in_range_bind; [|intros ?; in_range_step].
      apply in_range_translate_each, Forall_forall. eauto with in_range. }
    case_bool_decide as Hnil; [in_range_step|].
    assert (0 < length (nonSendableOperandsOf inst))
      by (destruct (nonSendableOperandsOf inst); simpl; [done|lia]).
    apply in_range_bind.
    + case_bool_decide as Hone.
      * apply in_range_bind_at; [done|]. eauto with in_range.
      * apply in_range_translate_each, Forall_forall.
        intros i [Hi1 Hi2]%elem_of_seq.
        apply in_range_bind_at; [lia|]. intros a.
        apply in_range_bind_at; [lia|]. eauto with in_range.
    + intros ?. apply in_range_bind; [|intros ?; in_range_step].
      destruct (isNonSendable res0); [|in_range_step].
      apply in_range_bind_at; [done|]. eauto with in_range.
  - intros Hres. unfold translateSILApply, getResult. rewrite Hres.
    done.
Qed.
End NoOutOfRange.

(** ** Pairs of values with one ID *)

Section SameID.
Context `{SILOracles}.
Import PartitionOpTranslator.

Lemma translator_wf_initial cap ci ti :
  translator_wf {| nodeIDMap := ∅; nextNodeID := 0; capturedUIValues := cap;
                   currentInstruction := ci; translationIndex := ti |}.
Proof. split; simpl; intros *; by rewrite lookup_empty. Qed.

(** The invariant survives [lookupNodeID] as long as the counter does not
    wrap around. *)
Lemma translator_wf_mintState s v :
  translator_wf s → isNonSendable (simplifyVal v) = true →
  (nextNodeID s + 1 < unsigned_max)%N →
  translator_wf (mintState s v).
Proof.
  intros [Hns Hinj Hlt] Hv Hmax. unfold mintState.
  destruct (nodeIDMap s !! simplifyVal v) eqn:Hlook; [done|].
  assert (wrap32 (nextNodeID s + 1) = (nextNodeID s + 1)%N) as Hwrap
    by (unfold wrap32; by apply N.mod_small).
  split; simpl.
  - intros k i. rewrite lookup_insert. case_decide; [by intros _; subst|].
    apply Hns.
  - intros k1 k2 i. rewrite !lookup_insert.
    repeat case_decide; subst; try done.
    + intros [= <-] Hk2. apply Hlt in Hk2. lia.
    + intros Hk1 [= <-]. apply Hlt in Hk1. lia.
    + apply Hinj.
  - intros k i. rewrite Hwrap, lookup_insert. case_decide.
    + intros [= <-]. lia.
    + intros Hk%Hlt. lia.
Qed.

Section pair.
Variables (s : TranslatorState) (a b : SILValue) (i : ID).
Hypothesis Hwf : translator_wf s.
Hypothesis Ha : nodeIDMap s !! simplifyVal a = Some i.
Hypothesis Hb : nodeIDMap s !! simplifyVal b = Some i.

Lemma same_id_canonical : simplifyVal a = simplifyVal b.
Proof using Hwf Ha Hb. eapply wf_injective; eauto. Qed.

Lemma same_id_sendability : isNonSendable a = isNonSendable b.
Proof using Hwf Ha Hb. unfold isNonSendable. by rewrite same_id_canonical. Qed.

Lemma same_id_encountered_l : encountered s a.
Proof using Hwf Ha. split; [eapply wf_nonSendable; eauto|by eexists]. Qed.

Lemma same_id_encountered_r : encountered s b.
Proof using Hwf Hb. split; [eapply wf_nonSendable; eauto|by eexists]. Qed.

Lemma same_id_Merge : Merge a b s = Done ([], s).
Proof using Hwf Ha Hb.
  rewrite Merge_known
    by eauto using same_id_encountered_l, same_id_encountered_r.
  rewrite (idOf_known _ _ _ Ha), (idOf_known _ _ _ Hb).
  by rewrite bool_decide_eq_true_2.
Qed.

Lemma same_id_Assign : Assign a b s = Done ([], s).
Proof using Hwf Ha Hb.
  rewrite Assign_run; [|eapply wf_nonSendable; eauto
                       |apply same_id_encountered_r].
  rewrite (idOf_known _ _ _ Ha), (idOf_known _ _ _ Hb).
  rewrite bool_decide_eq_true_2 by done.
  rewrite mintState_known; [done|by eexists].
Qed.

Lemma same_id_translateSILAssign : translateSILAssign a b s = Done ([], s).
Proof using Hwf Ha Hb.
  unfold translateSILAssign. rewrite <- same_id_sendability.
  destruct (isNonSendable a); simpl; [apply same_id_Assign|done].
Qed.

Lemma same_id_translateSILMerge : translateSILMerge a b s = Done ([], s).
Proof using Hwf Ha Hb.
  unfold translateSILMerge.
  destruct (isNonSendable a && isNonSendable b); [apply same_id_Merge|done].
Qed.

Lemma same_id_translateSILStore : translateSILStore a b s = Done ([], s).
Proof using Hwf Ha Hb.
  unfold translateSILStore, isUniquelyIdentified. unfold_run.
  destruct (negb (isAddress (simplifyVal a))); simpl.
  { apply same_id_translateSILMerge. }
  destruct (getAccessStorageFromAddr (simplifyVal a)); simpl.
  - destruct (_ && _).
    + apply same_id_translateSILAssign.
    + apply same_id_translateSILMerge.
  - apply same_id_translateSILMerge.
Qed.
End pair.

Lemma same_id_destructure s b i rs :
  translator_wf s →
  nodeIDMap s !! simplifyVal b = Some i →
  Forall (λ r, nodeIDMap s !! simplifyVal r = Some i) rs →
  translate_each (λ result, translateSILAssign result b) rs s = Done ([], s).
Proof.
  intros Hwf Hb. induction 1 as [|r rs Hr Hrs IH]; [done|]. simpl.
  rewrite (bind_done _ _ _ _ _
             (same_id_translateSILAssign s r b i Hwf Hr Hb)).
  by rewrite (bind_done _ _ _ _ _ IH).
Qed.

(** C10: in a translator state that satisfies the invariant of the ID map,
    for two values that have the same ID, every translation of the pair
    (as an assignment, as a merge, as a store, as a merge of two call
    operands) returns no op and leaves the translator as it is; an
    instruction that is translated as this pair alone yields no op and
    keeps the ID map, and replaying what it yields leaves every partition
    as it is. *)
Theorem same_id_emits_nothing {P : Type} `{Partition.Ops P}
    (s : TranslatorState) (a b : SILValue) (i : ID) :
  translator_wf s →
  nodeIDMap s !! simplifyVal a = Some i →
  nodeIDMap s !! simplifyVal b = Some i →
  translateSILAssign a b s = Done ([], s)
  ∧ translateSILMerge a b s = Done ([], s)
  ∧ translateSILStore a b s = Done ([], s)
  ∧ Merge a b s = Done ([], s)
  ∧ ∀ inst, translatedAsPair inst a b →
      ∃ s', translateSILInstruction inst s = Done ([], s')
            ∧ nodeIDMap s' = nodeIDMap s
            ∧ nextNodeID s' = nextNodeID s
            ∧ ∀ ops s'' (p : P),
                translateSILInstruction inst s = Done (ops, s'') →
                replay ops p = p.
Proof.
  intros Hwf Ha Hb.
  split; [by eapply same_id_translateSILAssign|].
  split; [by eapply same_id_translateSILMerge|].
  split; [by eapply same_id_translateSILStore|].
  split; [by eapply same_id_Merge|].
  intros inst Hpair.
  set (s1 := {| nodeIDMap := nodeIDMap s; nextNodeID := nextNodeID s;
                capturedUIValues := capturedUIValues s;
                currentInstruction := Some inst;
                translationIndex := (translationIndex s + 1)%Z |}).
  assert (translator_wf s1) as Hwf1 by (destruct Hwf; by split).
  assert (translateSILInstruction inst s = Done ([], s1)) as Hrun.
  { unfold translateSILInstruction.
    rewrite (bind_done (enterInstruction inst) _ s tt s1) by done.
    destruct Hpair as [(Hk & Hr & Ho)|[(Hk & Ho1 & Ho0)|(Hk & Hrs & Ho)]].
    - assert ((r ← lift_outcome (getResult inst 0);
               o ← lift_outcome (getOperand inst 0);
               translateSILAssign r o) s1 = Done ([], s1)) as Hgo.
      { unfold getResult, getOperand. rewrite Hr, Ho. simpl.
        by eapply (same_id_translateSILAssign s1). }
      destruct (instKind inst); try discriminate Hk; by apply Hgo.
    - assert ((o1 ← lift_outcome (getOperand inst 1);
               o0 ← lift_outcome (getOperand inst 0);
               translateSILStore o1 o0) s1 = Done ([], s1)) as Hgo.
      { unfold getOperand. rewrite Ho1, Ho0. simpl.
        by eapply (same_id_translateSILStore s1). }
      destruct (instKind inst); try discriminate Hk; by apply Hgo.
    - rewrite Hk.
      assert (∀ rs, Forall (λ r, r = a) rs →
                translate_each
                  (λ result, o ← lift_outcome (getOperand inst 0);
                             translateSILAssign result o) rs s1
                = Done ([], s1)) as Hgo.
      { induction 1 as [|r rs -> Hrs' IH]; [done|]. simpl.
        rewrite (bind_done _ _ s1 [] s1).
        - by rewrite (bind_done _ _ _ _ _ IH).
        - unfold getOperand. rewrite Ho. simpl.
          by eapply (same_id_translateSILAssign s1). }
      by apply Hgo. }
  exists s1. repeat split; [done|].
  intros ops s'' p. rewrite Hrun. by intros [= <- <-].
Qed.
End SameID.

(** ** The translator on the small module *)

Lemma met1_wf : translator_wf Example.met1.
Proof.
  split; simpl.
  - intros k i [<- _]%lookup_singleton_Some. reflexivity.
  - intros k1 k2 i [<- _]%lookup_singleton_Some [<- _]%lookup_singleton_Some.
    reflexivity.
  - intros k i [_ <-]%lookup_singleton_Some. reflexivity.
Qed.

(** C1 at [%9 = apply %0(%1, %11)]: the two non-Sendable operands have one
    ID, and nothing is emitted. *)
Lemma translateSILApply_emits_witness :
  PartitionOpTranslator.translateSILApply Example.applySameTwice Example.met1
  = Done ([], Example.met1).
Proof.
  refine (eq_trans
            (translateSILApply_emits Example.applySameTwice Example.met1 9%N
               _ _ _) _).
  - reflexivity.
  - change (Forall (encountered Example.met1) [1%N; 11%N]).
    repeat constructor; by exists 0%N.
  - intros Hns. vm_compute in Hns. discriminate Hns.
  - reflexivity.
Defined.

(** C1 as worded fails there: the words ask for [Merge(0, 0)]. *)
Lemma translateSILApply_not_as_claimed :
  ∃ ops s',
    PartitionOpTranslator.translateSILApply Example.applySameTwice Example.met1
    = Done (ops, s')
    ∧ ops ≠ claimed_apply_ops (currentInstruction Example.met1)
              (SILApplyCrossesIsolation Example.applySameTwice)
              (map (idOf Example.met1)
                 (PartitionOpTranslator.nonSendableOperandsOf
                    Example.applySameTwice))
              None.
Proof.
  exists [], Example.met1. split; [reflexivity|].
  vm_compute. discriminate.
Qed.

(** C10 at [%11 = begin_borrow %1]. *)
Lemma same_id_emits_nothing_witness :
  PartitionOpTranslator.translateSILAssign 11%N 1%N Example.met1
  = Done ([], Example.met1)
  ∧ ∃ s', PartitionOpTranslator.translateSILInstruction Example.beginBorrow
            Example.met1 = Done ([], s')
          ∧ nodeIDMap s' = nodeIDMap Example.met1.
Proof.
  destruct (same_id_emits_nothing (P := SpecPartition.t) Example.met1
              11%N 1%N 0%N met1_wf eq_refl eq_refl)
    as (Hassign & _ & _ & _ & Hinst).
  split; [exact Hassign|].
  destruct (Hinst Example.beginBorrow) as (s' & Hrun & Hmap & _).
  { left. repeat split. }
  exists s'. split; [exact Hrun|exact Hmap].
Defined.

(** ** The pass entry point *)

Section Gating.
Context {P : Type} `{Partition.Ops P} `{SILOracles} `{PartitionOpOrder}.

(** C8: a function without a [DeclContext] is left alone, whatever the
    feature flag and the Sendable protocol are: no analysis is built and
    no diagnostic is emitted.  The analysis is built exactly when the
    function has a [DeclContext], the feature is on and the protocol is
    present. *)
Theorem run_without_declContext (fuel : nat) (fn : SILFunction) :
  getDeclContext fn = None →
  run (P := P) fuel fn = None
  ∧ diagnosticsOf (run (P := P) fuel fn) = []
  ∧ ∀ fn', is_Some (run (P := P) fuel fn')
           ↔ is_Some (getDeclContext fn')
             ∧ hasDeferredSendableChecking fn' = true
             ∧ is_Some (getSendableProtocol fn').
Proof.
  intros Hctx. unfold run. rewrite Hctx.
  split; [done|]. split; [done|]. intros fn'.
  destruct (getDeclContext fn') as [c|];
    destruct (hasDeferredSendableChecking fn');
    destruct (getSendableProtocol fn') as [p|]; simpl;
    split; try (intros [? [=]]); try (intros ([? [=]] & ? & ?));
    try (intros (? & [=] & ?)); try (intros (? & ? & [? [=]]));
    by eauto.
Qed.
End Gating.

(** C8 on a function that would be diagnosed if it had a [DeclContext]. *)
Lemma run_without_declContext_witness :
  run (P := SpecPartition.t) 10 ExampleFunctions.noDeclContext = None
  ∧ diagnosticsOf (run (P := SpecPartition.t) 10
                     ExampleFunctions.sequentialTransfer)
    = [consumption_yields_race 2 1 false false 0; possible_racy_access_site 3].
Proof.
  split.
  - exact (proj1 (run_without_declContext (P := SpecPartition.t) 10
                    ExampleFunctions.noDeclContext eq_refl)).
  - vm_compute. reflexivity.
Defined.

(** ** Ordered containers *)

Section OrderedFacts.
Context {K : Type} (ltb : K → K → bool) (Hlt : StrictTotal ltb).

Lemma ltb_asym x y : ltb x y = true → ltb y x = false.
Proof using Hlt.
  intros Hxy. destruct (ltb y x) eqn:Hyx; [|done].
  pose proof (ltb_trans ltb Hlt _ _ _ Hxy Hyx) as Hxx.
  by rewrite (ltb_irrefl ltb Hlt) in Hxx.
Qed.

Lemma elem_of_oset_insert x y s :
  y ∈ oset_insert ltb x s ↔ y = x ∨ y ∈ s.
Proof using Hlt.
  induction s as [|z s IH]; simpl.
  - rewrite list_elem_of_singleton. set_solver.
  - destruct (ltb x z) eqn:Hxz; [set_solver|].
    destruct (ltb z x) eqn:Hzx.
    + rewrite !elem_of_cons, IH. naive_solver.
    + assert (x = z) as -> by by apply (ltb_total ltb Hlt). set_solver.
Qed.

Lemma oset_insert_ascending x s :
  ascending ltb s → ascending ltb (oset_insert ltb x s).
Proof using Hlt.
  unfold ascending. induction s as [|z s IH]; simpl; intros Hs.
  - repeat constructor.
  - apply StronglySorted_inv in Hs as [Hs Hz].
    destruct (ltb x z) eqn:Hxz.
    + constructor; [by constructor|]. constructor; [done|].
      eapply Forall_impl; [exact Hz|]. intros w Hw. simpl in *.
      by eapply (ltb_trans ltb Hlt).
    + destruct (ltb z x) eqn:Hzx; [|by constructor].
      constructor; [by apply IH|].
      apply Forall_forall. intros w [->|Hw]%elem_of_oset_insert; [done|].
      by eapply Forall_forall in Hz.
Qed.

Lemma oset_insert_length x s :
  length s ≤ length (oset_insert ltb x s).
Proof.
  induction s as [|z s IH]; simpl; [lia|].
  destruct (ltb x z); simpl; [lia|]. destruct (ltb z x); simpl; lia.
Qed.

Lemma omap_insert_keys {V} k (v : V) m :
  ∀ k', k' ∈ (omap_insert ltb k v m).*1 ↔ k' = k ∨ k' ∈ m.*1.
Proof using Hlt.
  intros k'. induction m as [|[z w] m IH]; simpl.
  - rewrite list_elem_of_singleton. set_solver.
  - destruct (ltb k z) eqn:Hkz; [simpl; set_solver|].
    destruct (ltb z k) eqn:Hzk; simpl.
    + rewrite !elem_of_cons, IH. naive_solver.
    + assert (k = z) as -> by by apply (ltb_total ltb Hlt). set_solver.
Qed.

Lemma omap_insert_ascending {V} k (v : V) m :
  ascending ltb m.*1 → ascending ltb (omap_insert ltb k v m).*1.
Proof using Hlt.
  unfold ascending. induction m as [|[z w] m IH]; simpl; intros Hs.
  - repeat constructor.
  - apply StronglySorted_inv in Hs as [Hs Hz].
    destruct (ltb k z) eqn:Hkz; simpl.
    + constructor; [by constructor|]. constructor; [done|].
      eapply Forall_impl; [exact Hz|]. intros x Hx. simpl in *.
      by eapply (ltb_trans ltb Hlt).
    + destruct (ltb z k) eqn:Hzk; simpl; [|by constructor].
      constructor; [by apply IH|].
      apply Forall_forall. intros x [->|Hx]%omap_insert_keys; [done|].
      by eapply Forall_forall in Hz.
Qed.

Lemma omap_lookup_None_below {V} k (m : list (K * V)) :
  Forall (λ z, ltb k z = true) m.*1 → omap_lookup ltb k m = None.
Proof.
  destruct m as [|[z w] m]; simpl; [done|].
  intros [Hz _]%Forall_cons. by rewrite Hz.
Qed.

Lemma omap_lookup_Some {V} k (v : V) m :
  ascending ltb m.*1 → omap_lookup ltb k m = Some v ↔ (k, v) ∈ m.
Proof using Hlt.
  unfold ascending. induction m as [|[z w] m IH]; simpl; intros Hs.
  - split; [done|]. by intros ?%elem_of_nil.
  - apply StronglySorted_inv in Hs as [Hs Hz].
    destruct (ltb k z) eqn:Hkz.
    + split; [done|]. intros [[= -> ->]|Hin]%elem_of_cons.
      * by rewrite (ltb_irrefl ltb Hlt) in Hkz.
      * assert (ltb z k = true) as Hzk.
        { eapply Forall_forall in Hz; [exact Hz|].
          apply list_elem_of_fmap. by exists (k, v). }
        by rewrite (ltb_asym _ _ Hzk) in Hkz.
    + destruct (ltb z k) eqn:Hzk.
      * rewrite IH by done. split; [set_solver|].
        intros [[= -> ->]|Hin]%elem_of_cons; [|done].
        by rewrite (ltb_irrefl ltb Hlt) in Hzk.
      * assert (k = z) as -> by by apply (ltb_total ltb Hlt).
        split; [intros [= ->]; set_solver|].
        intros [[= ->]|Hin]%elem_of_cons; [done|].
        assert (ltb z z = true) as Hzz.
        { eapply Forall_forall in Hz; [exact Hz|].
          apply list_elem_of_fmap. by exists (z, v). }
        by rewrite (ltb_irrefl ltb Hlt) in Hzz.
Qed.

Lemma elem_of_omap_insert {V} k (v : V) m k' v' :
  ascending ltb m.*1 →
  (k', v') ∈ omap_insert ltb k v m
  ↔ (k' = k ∧ v' = v) ∨ (k' ≠ k ∧ (k', v') ∈ m).
Proof using Hlt.
  unfold ascending. induction m as [|[z w] m IH]; simpl; intros Hs.
  - rewrite list_elem_of_singleton. split; [intros [= -> ->]; by left|].
    intros [[-> ->]|[_ ?%elem_of_nil]]; done.
  - apply StronglySorted_inv in Hs as [Hs Hz].
    assert (∀ x y, (x, y) ∈ m → ltb z x = true) as Hbelow.
    { intros x y Hin. eapply Forall_forall in Hz; [exact Hz|].
      apply list_elem_of_fmap. by exists (x, y). }
    destruct (ltb k z) eqn:Hkz.
    + rewrite elem_of_cons. split.
      * intros [[= -> ->]|Hin]; [by left|]. right. split; [|done].
        intros ->. apply elem_of_cons in Hin as [[= -> ->]|Hin].
        -- by rewrite (ltb_irrefl ltb Hlt) in Hkz.
        -- apply Hbelow in Hin. by rewrite (ltb_asym _ _ Hin) in Hkz.
      * intros [[-> ->]|[_ Hin]]; [by left|by right].
    + destruct (ltb z k) eqn:Hzk.
      * rewrite !elem_of_cons, IH by done. split.
        -- intros [[= -> ->]|[?|[? ?]]]; [|by left|by right; split; [|right]].
           right. split; [|by left]. intros ->.
           by rewrite (ltb_irrefl ltb Hlt) in Hzk.
        -- intros [?|[Hne [[= -> ->]|Hin]]]; [by right; left|by left|].
           right. by right.
      * assert (k = z) as -> by by apply (ltb_total ltb Hlt).
        rewrite !elem_of_cons. split.
        -- intros [[= -> ->]|Hin]; [by left|]. right. split; [|by right].
           intros ->. apply Hbelow in Hin.
           by rewrite (ltb_irrefl ltb Hlt) in Hin.
        -- intros [[-> ->]|[Hne [[= -> ->]|Hin]]]; [by left|done|by right].
Qed.

Lemma ascending_NoDup (l : list K) : ascending ltb l → NoDup l.
Proof using Hlt.
  unfold ascending. induction 1 as [|x l Hl IH Hx]; constructor; [|done].
  intros Hin. eapply Forall_forall in Hx; [|exact Hin].
  by rewrite (ltb_irrefl ltb Hlt) in Hx.
Qed.

Lemma ascending_take_drop (l : list K) n x y :
  ascending ltb l → x ∈ take n l → y ∈ drop n l → ltb x y = true.
Proof.
  unfold ascending. intros Hl Hx Hy. rewrite <- (take_drop n l) in Hl.
  eapply (StronglySorted_app_1_elem_of _ _ _ _ _ Hl Hx Hy).
Qed.
End OrderedFacts.

(** ** The accumulator *)

Lemma Example_order_StrictTotal : StrictTotal (PartitionOp_ltb (PartitionOpOrder := Example.order)).
Proof.
  split; simpl.
  - intros x. apply Pos.ltb_irrefl.
  - intros x y z Hxy%Pos.ltb_lt Hyz%Pos.ltb_lt. apply Pos.ltb_lt. lia.
  - intros x y Hxy%Pos.ltb_ge Hyx%Pos.ltb_ge.
    apply (inj encode). lia.
Qed.

Section AccumulatorFacts.
Context `{PartitionOpOrder}.
Hypothesis Hlt : StrictTotal PartitionOp_ltb.
Import Accumulator.

Lemma atDistance_StrictTotal : StrictTotal atDistance_ltb.
Proof using Hlt.
  split; unfold atDistance_ltb.
  - intros x. rewrite bool_decide_eq_true_2 by done. simpl.
    apply (ltb_irrefl _ Hlt).
  - intros x y z. repeat case_bool_decide; simpl;
      rewrite ?N.ltb_lt; try lia.
    apply (ltb_trans _ Hlt).
  - intros [x dx] [y dy]. simpl. repeat case_bool_decide; simpl;
      rewrite ?N.ltb_ge; try lia; try congruence.
    intros Hxy Hyx. subst. f_equal. by apply (ltb_total _ Hlt).
Qed.

(** The invariant of the accumulator. *)
Definition acc_wf (acc : Accumulator.t) : Prop :=
  ascending PartitionOp_ltb acc.*1
  ∧ ∀ c reqs, (c, reqs) ∈ acc → ascending atDistance_ltb reqs.

(** [r] is among the requires of [c]. *)
Definition holds (acc : Accumulator.t) (c : PartitionOp.t)
    (r : PartitionOpAtDistance) : Prop :=
  ∃ reqs, (c, reqs) ∈ acc ∧ r ∈ reqs.

Lemma acc_wf_empty : acc_wf Accumulator.empty.
Proof.
  split; [constructor|]. by intros c reqs ?%elem_of_nil.
Qed.

Lemma insertRequirement_wf acc c r d :
  acc_wf acc → acc_wf (insertRequirement acc c r d).
Proof using Hlt.
  intros [Hkeys Hreqs]. unfold insertRequirement. split.
  - by apply omap_insert_ascending.
  - intros c' reqs' Hin.
    apply (elem_of_omap_insert _ Hlt) in Hin as [[-> ->]|[Hne Hin]];
      [|by eauto|done].
    apply oset_insert_ascending; [apply atDistance_StrictTotal|].
    destruct (omap_lookup PartitionOp_ltb c acc) as [old|] eqn:Hold; simpl.
    + apply (omap_lookup_Some _ Hlt) in Hold; eauto.
    + constructor.
Qed.

Lemma insertRequirement_holds acc c r d c' r' :
  acc_wf acc →
  holds (insertRequirement acc c r d) c' r'
  ↔ (c' = c ∧ r' = {| partitionOp := r; distance := d |}) ∨ holds acc c' r'.
Proof using Hlt.
  intros [Hkeys Hreqs]. unfold insertRequirement, holds. split.
  - intros (reqs & Hin & Hr).
    apply (elem_of_omap_insert _ Hlt) in Hin as [[-> ->]|[Hne Hin]];
      [|by eauto|done].
    apply (elem_of_oset_insert _ atDistance_StrictTotal) in Hr as [->|Hr];
      [by left|]. right.
    destruct (omap_lookup PartitionOp_ltb c acc) as [old|] eqn:Hold; simpl in *.
    + apply (omap_lookup_Some _ Hlt) in Hold; eauto.
    + by apply elem_of_nil in Hr.
  - intros [[-> ->]|(reqs & Hin & Hr)].
    + eexists. split.
      * apply (elem_of_omap_insert _ Hlt); [done|]. by left.
      * apply (elem_of_oset_insert _ atDistance_StrictTotal). by left.
    + destruct (decide (c' = c)) as [->|Hne].
      * eexists. split.
        -- apply (elem_of_omap_insert _ Hlt); [done|]. by left.
        -- apply (elem_of_oset_insert _ atDistance_StrictTotal). right.
           apply (omap_lookup_Some _ Hlt) in Hin as ->; done.
      * exists reqs. split; [|done].
        apply (elem_of_omap_insert _ Hlt); [done|]. by right.
Qed.

(** The accumulator is filled insertion by insertion. *)
Definition insertAll (acc : Accumulator.t)
    (ins : list (PartitionOp.t * PartitionOpAtDistance)) : Accumulator.t :=
  foldl (λ acc '(c, r), insertRequirement acc c (partitionOp r) (distance r))
    acc ins.

Lemma accumulateConsumedReason_insertAll acc requireOp reason :
  accumulateConsumedReason acc requireOp reason
  = insertAll acc (insertionsOf (requireOp, reason)).
Proof.
  unfold accumulateConsumedReason, insertAll, insertionsOf. simpl.
  destruct reason as [entries]. simpl. revert acc.
  induction entries as [|[d ops] entries IH]; intros acc; simpl; [done|].
  rewrite foldl_app, IH. f_equal.
  clear IH. revert acc. induction ops as [|op ops IH]; intros acc; simpl; [done|].
  by rewrite IH.
Qed.

Lemma accumulated_insertAll calls :
  accumulated calls = insertAll Accumulator.empty (insertions calls).
Proof.
  unfold accumulated, insertions.
  generalize Accumulator.empty.
  induction calls as [|[req reason] calls IH]; intros acc; simpl; [done|].
  rewrite IH, accumulateConsumedReason_insertAll.
  unfold insertAll. by rewrite foldl_app.
Qed.

Lemma insertAll_wf acc ins : acc_wf acc → acc_wf (insertAll acc ins).
Proof using Hlt.
  revert acc. induction ins as [|[c r] ins IH]; intros acc Hacc; simpl; [done|].
  apply IH. by apply insertRequirement_wf.
Qed.

Lemma insertAll_holds acc ins c r :
  acc_wf acc →
  holds (insertAll acc ins) c r ↔ (c, r) ∈ ins ∨ holds acc c r.
Proof using Hlt.
  revert acc. induction ins as [|[c' r'] ins IH]; intros acc Hacc; simpl.
  - split; [by right|]. by intros [?%elem_of_nil|?].
  - rewrite IH by by apply insertRequirement_wf.
    rewrite insertRequirement_holds by done. rewrite elem_of_cons.
    destruct r'. simpl. naive_solver.
Qed.

Lemma accumulated_wf calls : acc_wf (accumulated calls).
Proof using Hlt.
  rewrite accumulated_insertAll. apply insertAll_wf, acc_wf_empty.
Qed.

Lemma accumulated_holds calls c r :
  holds (accumulated calls) c r ↔ (c, r) ∈ insertions calls.
Proof using Hlt.
  rewrite accumulated_insertAll, insertAll_holds by apply acc_wf_empty.
  split; [|by left]. intros [?|(reqs & ?%elem_of_nil & _)]; done.
Qed.

Lemma consumesVisited_forEach k (acc : Accumulator.t) :
  consumesVisited (forEachConsumeRequire k acc) = acc.*1.
Proof.
  unfold forEachConsumeRequire, consumesVisited.
  induction acc as [|[c reqs] acc IH]; simpl; [done|].
  rewrite omap_app, IH. f_equal.
  generalize (take (N.to_nat k) reqs). intros l.
  induction l as [|r l IHl]; simpl; [done|]. exact IHl.
Qed.

Lemma forEachConsumeRequire_claimedGroup (acc : Accumulator.t) :
  (∀ c reqs, (c, reqs) ∈ acc → (N.of_nat (length reqs) < unsigned_max)%N) →
  forEachConsumeRequire 5 acc = flat_map claimedGroup acc.
Proof.
  unfold forEachConsumeRequire.
  induction acc as [|[c reqs] acc IH]; intros Hacc; [done|].
  cbn [flat_map].
  f_equal; [|apply IH; intros c' reqs' Hin; apply (Hacc c' reqs'); by right].
  unfold claimedGroup. cbn [fst snd].
  pose proof (Hacc c reqs ltac:(by left)) as Hm.
  unfold wrap32, unsigned_max in *.
  rewrite (N.mod_small (N.min _ 5)) by lia.
  rewrite N.mod_small by lia.
  f_equal. f_equal.
  destruct (decide (length reqs ≤ 5)) as [Hle|Hgt].
  - rewrite !take_ge; [done|lia|]. change (N.to_nat 5) with 5%nat. lia.
  - f_equal. lia.
Qed.

(** C6: after any sequence of calls of [accumulateConsumedReason], and with
    fewer than 2^32 requires for each consume op, [forEachConsumeRequire]
    with [k = 5] makes, for each consume op with its [m] pairs of a require
    and a distance, one call of the consume closure with [min(m, 5)] and
    [m - min(m, 5)], followed by one call of the require closure on each of
    the first [min(m, 5)] pairs.  No consume op comes twice; the pairs of a
    consume op are those inserted for it, each once; and the first five are
    below all the others in the order by distance, then by op. *)
Theorem forEachConsumeRequire_groups
    (calls : list (PartitionOp.t * ConsumedReason)) :
  (∀ c reqs, (c, reqs) ∈ accumulated calls →
             (N.of_nat (length reqs) < unsigned_max)%N) →
  forEachConsumeRequire 5 (accumulated calls)
  = flat_map claimedGroup (accumulated calls)
  ∧ NoDup (accumulated calls).*1
  ∧ ∀ c reqs, (c, reqs) ∈ accumulated calls →
      (∀ r, r ∈ reqs ↔ (c, r) ∈ insertions calls)
      ∧ NoDup reqs
      ∧ ∀ r r', r ∈ take 5 reqs → r' ∈ drop 5 reqs →
                atDistance_ltb r r' = true.
Proof using Hlt.
  intros Hsize. pose proof (accumulated_wf calls) as [Hkeys Hreqs].
  split; [|split].
  - by apply forEachConsumeRequire_claimedGroup.
  - by apply (ascending_NoDup _ Hlt).
  - intros c reqs Hin. split; [|split].
    + intros r. rewrite <- accumulated_holds. split.
      * intros Hr. by exists reqs.
      * intros (reqs' & Hin' & Hr).
        apply (omap_lookup_Some _ Hlt) in Hin, Hin'; [|done..]. congruence.
    + apply (ascending_NoDup _ atDistance_StrictTotal). eauto.
    + intros r r'. apply ascending_take_drop. eauto.
Qed.

(** C7, as the code has it: [forEachConsumeRequire] visits the consume ops
    in ascending order of the comparison of [PartitionOp], each op that was
    inserted once; the order in which they were inserted plays no part. *)
Theorem forEachConsumeRequire_visits_ascending
    (calls : list (PartitionOp.t * ConsumedReason)) (k : N) :
  ascending PartitionOp_ltb
    (consumesVisited (forEachConsumeRequire k (accumulated calls)))
  ∧ NoDup (consumesVisited (forEachConsumeRequire k (accumulated calls)))
  ∧ ∀ c, c ∈ consumesVisited (forEachConsumeRequire k (accumulated calls))
         ↔ c ∈ (insertions calls).*1.
Proof using Hlt.
  rewrite consumesVisited_forEach.
  pose proof (accumulated_wf calls) as [Hkeys Hreqs].
  split; [done|]. split; [by apply (ascending_NoDup _ Hlt)|].
  intros c. rewrite accumulated_insertAll.
  generalize (insertions calls). intros ins.
  assert (∀ acc, acc_wf acc →
            c ∈ (insertAll acc ins).*1 ↔ c ∈ ins.*1 ∨ c ∈ acc.*1) as Hgo.
  { induction ins as [|[c' r'] ins IH]; intros acc Hacc; simpl.
    - split; [by right|]. by intros [?%elem_of_nil|?].
    - rewrite IH by by apply insertRequirement_wf.
      unfold insertRequirement. rewrite (omap_insert_keys _ Hlt).
      rewrite elem_of_cons. naive_solver. }
  rewrite Hgo by apply acc_wf_empty. simpl. split; [|by left].
  by intros [?|?%elem_of_nil].
Qed.
End AccumulatorFacts.

(** C6 on two consume ops, one with seven requires. *)
Lemma forEachConsumeRequire_groups_witness :
  Accumulator.forEachConsumeRequire 5 (accumulated ExampleAccumulator.calls)
  = flat_map claimedGroup (accumulated ExampleAccumulator.calls)
  ∧ (length <$> (accumulated ExampleAccumulator.calls).*2) = [7; 1].
Proof.
  split.
  - refine (proj1 (forEachConsumeRequire_groups Example_order_StrictTotal
                     ExampleAccumulator.calls _)).
    intros c reqs Hin.
    assert (forallb (λ e, length e.2 <=? 7)
              (accumulated ExampleAccumulator.calls) = true) as Hall
      by (vm_compute; reflexivity).
    rewrite forallb_forall in Hall.
    apply list_elem_of_In, Hall, Nat.leb_le in Hin. simpl in Hin.
    unfold unsigned_max. lia.
  - vm_compute. reflexivity.
Defined.

(** C7 as worded fails: [consume2] is inserted first and visited last. *)
Lemma forEachConsumeRequire_not_in_insertion_order :
  consumesVisited
    (Accumulator.forEachConsumeRequire 5 (accumulated ExampleAccumulator.calls))
  ≠ insertionOrder ExampleAccumulator.calls.
Proof. vm_compute. discriminate. Qed.

(** C7 as amended, on the same calls. *)
Lemma forEachConsumeRequire_visits_ascending_witness :
  consumesVisited
    (Accumulator.forEachConsumeRequire 5 (accumulated ExampleAccumulator.calls))
  = [ExampleAccumulator.consume1; ExampleAccumulator.consume2]
  ∧ ascending PartitionOp_ltb
      (consumesVisited
         (Accumulator.forEachConsumeRequire 5
            (accumulated ExampleAccumulator.calls))).
Proof.
  split; [vm_compute; reflexivity|].
  exact (proj1 (forEachConsumeRequire_visits_ascending
                  Example_order_StrictTotal ExampleAccumulator.calls 5)).
Defined.

(** ** One turn of the solver *)

Section SolverStep.
Context {P : Type} `{Partition.Ops P} `{SILOracles}.
Implicit Types (a : PartitionAnalysis P) (st : BlockPartitionState P).

Lemma run_bind_done {S A B} (m : Run S A) (f : A → Run S B) s x s' :
  m s = Done (x, s') → (m ≫= f) s = f x s'.
Proof. unfold mbind, Run_bind. by intros ->. Qed.

Lemma getBlockState_run a b st :
  blockStates a !! b = Some st → getBlockState b a = Done (st, a).
Proof. intros Hb. unfold getBlockState. unfold_run. by rewrite Hb. Qed.

Lemma modifyBlockState_run a b st f :
  blockStates a !! b = Some st →
  modifyBlockState b f a
  = Done (tt, set_blockStates (<[b := f st]> (blockStates a)) a).
Proof. intros Hb. unfold modifyBlockState. unfold_run. by rewrite Hb. Qed.

Lemma getBlock_run a b blk :
  fnBlocks (function a) !! b = Some blk → getBlock b a = Done (blk, a).
Proof. intros Hb. unfold getBlock. unfold_run. by rewrite Hb. Qed.

Lemma joinPredecessors_run a preds acc first :
  Forall (λ p, p < length (blockStates a)) preds →
  joinPredecessors preds acc first a
  = Done (match reachedPredecessors (blockStates a) preds with
          | [] => (acc, first)
          | p :: ps =>
              (foldl (λ acc q, Partition.join acc (exitOf (blockStates a) q))
                 (if first then exitOf (blockStates a) p
                  else Partition.join acc (exitOf (blockStates a) p)) ps,
               false)
          end, a).
Proof.
  intros Hpreds. revert acc first.
  induction Hpreds as [|p preds Hp Hpreds IH]; intros acc first; [done|].
  destruct (lookup_lt_is_Some_2 _ _ Hp) as [pst Hpst].
  cbn [joinPredecessors].
  rewrite (run_bind_done _ _ _ _ _ (getBlockState_run _ _ _ Hpst)).
  unfold reachedPredecessors. rewrite filter_cons.
  fold (reachedPredecessors (blockStates a) preds).
  rewrite Hpst. simpl.
  destruct (reached pst) eqn:Hreached; simpl.
  - assert (exitOf (blockStates a) p = exitPartition pst) as Hexit
      by (unfold exitOf; by rewrite Hpst).
    destruct first; rewrite IH; rewrite Hexit;
      by destruct (reachedPredecessors (blockStates a) preds).
  - apply IH.
Qed.

Lemma joinPredecessors_joinOfExits a preds :
  Forall (λ p, p < length (blockStates a)) preds →
  joinPredecessors preds Partition.empty true a
  = Done ((joinOfExits (blockStates a)
             (reachedPredecessors (blockStates a) preds),
           bool_decide (reachedPredecessors (blockStates a) preds = [])), a).
Proof.
  intros Hpreds. rewrite joinPredecessors_run by done.
  by destruct (reachedPredecessors (blockStates a) preds).
Qed.

Lemma flagSuccessors_length succs (states : list (BlockPartitionState P)) :
  length (flagSuccessors succs states) = length states.
Proof.
  revert states. induction succs as [|s succs IH]; intros states; [done|].
  simpl. by rewrite IH, length_alter.
Qed.

(** Which flags [flagSuccessors] sets. *)
Lemma flagSuccessors_lookup succs (states : list (BlockPartitionState P)) c :
  flagSuccessors succs states !! c
  = (λ st, if bool_decide (c ∈ succs) then set_needsUpdate true st else st)
      <$> states !! c.
Proof.
  revert states. induction succs as [|s succs IH]; intros states; simpl.
  - by destruct (states !! c).
  - rewrite IH. destruct (decide (s = c)) as [->|Hne].
    + rewrite list_lookup_alter_eq. destruct (states !! c) as [st|]; [|done].
      simpl. rewrite (bool_decide_eq_true_2 (c ∈ c :: succs)) by set_solver.
      by case_bool_decide.
    + rewrite list_lookup_alter_ne by done.
      destruct (states !! c) as [st|]; [|done]. simpl.
      repeat case_bool_decide; set_solver.
Qed.

Lemma insert_as_alter {A} (l : list A) i x f :
  l !! i = Some x → <[i := f x]> l = alter f i l.
Proof.
  intros Hi. apply list_eq. intros j. destruct (decide (i = j)) as [->|Hne].
  - rewrite list_lookup_alter_eq, Hi.
    apply list_lookup_insert_eq. by eapply lookup_lt_Some.
  - by rewrite list_lookup_insert_ne, list_lookup_alter_ne.
Qed.

Lemma for_each_flag a succs :
  Forall (λ s, s < length (blockStates a)) succs →
  for_each succs (λ succBlock, modifyBlockState succBlock (set_needsUpdate true)) a
  = Done (tt, set_blockStates (flagSuccessors succs (blockStates a)) a).
Proof.
  revert a. induction succs as [|s succs IH]; intros a Hsuccs.
  - by destruct a.
  - apply Forall_cons in Hsuccs as [Hs Hsuccs].
    destruct (lookup_lt_is_Some_2 _ _ Hs) as [sst Hsst].
    cbn [for_each].
    rewrite (run_bind_done _ _ _ _ _ (modifyBlockState_run _ _ _ _ Hsst)).
    rewrite IH by (simpl; by rewrite length_insert).
    simpl. by rewrite (insert_as_alter _ _ _ _ Hsst).
Qed.
End SolverStep.

Section SolverStepTheorem.
Context {P : Type} `{Partition.Ops P} `{SILOracles}.
Implicit Types (a : PartitionAnalysis P) (st : BlockPartitionState P).

Lemma liftTranslator_run {A} (m : Translate A) a x t' :
  m (translator a) = Done (x, t') →
  liftTranslator m a = Done (x, set_translator t' a).
Proof. unfold liftTranslator. by intros ->. Qed.

Lemma ensureBlockPartitionOpsPopulated_run a b st blk ops t' :
  blockStates a !! b = Some st →
  fnBlocks (function a) !! basicBlock st = Some blk →
  translatedOps (translator a) st blk = Done (ops, t') →
  ensureBlockPartitionOpsPopulated b a
  = Done (tt, set_blockStates
                (<[b := set_blockPartitionOps ops st]> (blockStates a))
                (set_translator t' a)).
Proof.
  intros Hb Hblk Hops. unfold ensureBlockPartitionOpsPopulated, translatedOps in *.
  rewrite (run_bind_done _ _ _ _ _ (getBlockState_run _ _ _ Hb)).
  destruct (blockPartitionOpsPopulated st) eqn:Hpop.
  - injection Hops as <- <-. unfold_run. f_equal. f_equal.
    destruct a as [t states tr fn sv dg]. unfold set_blockStates, set_translator.
    simpl in *. f_equal. symmetry. apply list_insert_id.
    rewrite Hb. f_equal. destruct st. simpl in *. by subst.
  - rewrite (run_bind_done _ _ _ _ _ (getBlock_run _ _ _ Hblk)).
    rewrite (run_bind_done _ _ _ _ _ (liftTranslator_run _ _ _ _ Hops)).
    by rewrite (modifyBlockState_run _ _ st).
Qed.

Lemma recomputeExitFromEntry_run a b st blk ops t' :
  blockStates a !! b = Some st →
  fnBlocks (function a) !! basicBlock st = Some blk →
  translatedOps (translator a) st blk = Done (ops, t') →
  recomputeExitFromEntry b a
  = Done (negb (Partition.equals (exitPartition st)
                  (replay ops (entryPartition st))),
          set_blockStates
            (<[b := set_exitPartition (replay ops (entryPartition st))
                      (set_blockPartitionOps ops st)]> (blockStates a))
            (set_translator t' a)).
Proof.
  intros Hb Hblk Hops. unfold recomputeExitFromEntry.
  rewrite (run_bind_done _ _ _ _ _
             (ensureBlockPartitionOpsPopulated_run _ _ _ _ _ _ Hb Hblk Hops)).
  assert (b < length (blockStates a)) as Hlt by by eapply lookup_lt_Some.
  set (a' := set_blockStates _ _).
  assert (blockStates a' !! b = Some (set_blockPartitionOps ops st)) as Hb'
    by (simpl; by apply list_lookup_insert_eq).
  rewrite (run_bind_done _ _ _ _ _ (getBlockState_run _ _ _ Hb')).
  rewrite (run_bind_done _ _ _ _ _ (modifyBlockState_run _ _ _ _ Hb')).
  unfold_run. simpl. by rewrite list_insert_insert_eq.
Qed.

(** C2, as the code has it: at a block that needs an update, with its
    predecessors and successors among the blocks and its translation not
    stopped by an assertion, the solver clears [needsUpdate] and sets
    [reached], then joins the exit partitions of the predecessors that are
    reached (the block itself among them if it is its own predecessor).
    If one is reached and the join equals the entry partition, nothing else
    changes.  Otherwise the entry partition becomes the join when a
    predecessor is reached and stays as it is when none is; the exit
    partition is recomputed from it; and when the exit partition changed,
    [needsUpdate] is set on every successor and, if there is one,
    [anyNeedUpdate] is set. *)
Theorem solveBlock_step a b st blk ops t' (anyNeedUpdate : bool) :
  blockStates a !! b = Some st →
  needsUpdate st = true →
  basicBlock st = b →
  fnBlocks (function a) !! b = Some blk →
  Forall (λ p, p < length (blockStates a)) (getPredecessorBlocks blk) →
  Forall (λ s, s < length (blockStates a)) (getSuccessorBlocks blk) →
  translatedOps (translator a) st blk = Done (ops, t') →
  let visited := set_reached true (set_needsUpdate false st) in
  let states := <[b := visited]> (blockStates a) in
  let reachedPreds := reachedPredecessors states (getPredecessorBlocks blk) in
  let newEntry := joinOfExits states reachedPreds in
  if bool_decide (reachedPreds ≠ [])
     && Partition.equals newEntry (entryPartition st)
  then
    solveBlock b anyNeedUpdate a
    = Done (anyNeedUpdate, set_blockStates states a)
  else
    let entry := if bool_decide (reachedPreds = []) then entryPartition st
                 else newEntry in
    let exit := replay ops entry in
    let exitUpdated := negb (Partition.equals (exitPartition st) exit) in
    let states' := <[b := solvedBlockState st entry exit ops]> states in
    solveBlock b anyNeedUpdate a
    = Done (anyNeedUpdate
            || exitUpdated
               && negb (bool_decide (getSuccessorBlocks blk = [])),
            set_blockStates
              (if exitUpdated
               then flagSuccessors (getSuccessorBlocks blk) states'
               else states')
              (set_translator t' a)).
Proof.
  intros Hb Hneeds Hbb Hblk Hpreds Hsuccs Hops. cbv zeta.
  assert (b < length (blockStates a)) as Hlt by by eapply lookup_lt_Some.
  set (visited := set_reached true (set_needsUpdate false st)).
  set (states := <[b := visited]> (blockStates a)).
  set (a1 := set_blockStates states a).
  assert (blockStates a1 !! b = Some visited) as Hb1
    by (simpl; by apply list_lookup_insert_eq).
  assert (length states = length (blockStates a)) as Hlen
    by (unfold states; by rewrite length_insert).
  unfold solveBlock.
  rewrite (run_bind_done _ _ _ _ _ (getBlockState_run _ _ _ Hb)).
  rewrite Hneeds. cbn [negb].
  rewrite (run_bind_done _ _ _ _ _ (modifyBlockState_run _ _ _ _ Hb)).
  rewrite (run_bind_done _ _ _ tt a1).
  2:{ rewrite (modifyBlockState_run _ _ (set_needsUpdate false st))
        by (simpl; by apply list_lookup_insert_eq).
      simpl. unfold a1, states, set_blockStates. simpl.
      by rewrite list_insert_insert_eq. }
  rewrite (run_bind_done _ _ _ _ _ (getBlock_run a1 _ _ Hblk)).
  rewrite (run_bind_done _ _ _ _ _
             (joinPredecessors_joinOfExits a1 (getPredecessorBlocks blk)
                ltac:(simpl; by rewrite Hlen))).
  cbn [blockStates a1 set_blockStates].
  rewrite (run_bind_done _ _ _ _ _ (getBlockState_run _ _ _ Hb1)).
  set (reachedPreds := reachedPredecessors states (getPredecessorBlocks blk)).
  set (newEntry := joinOfExits states reachedPreds).
  change (entryPartition visited) with (entryPartition st).
  replace (negb (bool_decide (reachedPreds = [])))
    with (bool_decide (reachedPreds ≠ []))
    by (by repeat case_bool_decide).
  destruct (bool_decide (reachedPreds ≠ [])
            && Partition.equals newEntry (entryPartition st)) eqn:Hskip;
    [done|].
  set (entry := if bool_decide (reachedPreds = []) then entryPartition st
                else newEntry).
  set (visited' := set_entryPartition entry visited).
  set (a2 := set_blockStates (<[b := visited']> states) a).
  rewrite (run_bind_done _ _ _ tt a2).
  2:{ unfold a2, visited', entry.
      destruct (decide (reachedPreds = [])) as [Hnone|Hsome].
      - rewrite (bool_decide_eq_true_2 _ Hnone).
        rewrite bool_decide_eq_false_2 by (by intros ?).
        unfold_run. unfold a1, set_blockStates. simpl.
        rewrite (list_insert_id states b
                   (set_entryPartition (entryPartition st) visited)); [done|].
        unfold states. rewrite list_lookup_insert_eq by done.
        by destruct st.
      - rewrite (bool_decide_eq_false_2 _ Hsome).
        rewrite bool_decide_eq_true_2 by done.
        rewrite (modifyBlockState_run _ _ _ _ Hb1). simpl.
        unfold a1, states, set_blockStates. simpl.
        by rewrite list_insert_insert_eq. }
  assert (blockStates a2 !! b = Some visited') as Hb2
    by (simpl; apply list_lookup_insert_eq; by rewrite Hlen).
  rewrite (run_bind_done _ _ _ _ _
             (recomputeExitFromEntry_run a2 b visited' blk ops t' Hb2
                ltac:(by rewrite <- Hbb in Hblk) Hops)).
  change (exitPartition visited') with (exitPartition st).
  change (entryPartition visited') with entry.
  set (exit := replay ops entry).
  assert (set_exitPartition exit (set_blockPartitionOps ops visited')
          = solvedBlockState st entry exit ops) as -> by done.
  assert (<[b := solvedBlockState st entry exit ops]> (blockStates a2)
          = <[b := solvedBlockState st entry exit ops]> states) as ->
    by (simpl; by rewrite list_insert_insert_eq).
  destruct (negb (Partition.equals (exitPartition st) exit)); cbn [andb orb].
  - match goal with |- (for_each _ _ ≫= _) ?x = _ => set (a3 := x) end.
    assert (Forall (λ s, s < length (blockStates a3)) (getSuccessorBlocks blk))
      as Hs3 by (simpl; by rewrite length_insert, Hlen).
    by rewrite (run_bind_done _ _ _ _ _ (for_each_flag a3 _ Hs3)).
  - unfold_run. by rewrite orb_false_r.
Qed.
End SolverStepTheorem.

Lemma ExampleSolver_initial :
  newPartitionAnalysis (P := SpecPartition.t) ExampleSolver.oneArgument
  = Done ExampleSolverStates.initial.
Proof. vm_compute. reflexivity. Qed.

(** C2 at the entry block of a function with one argument: no predecessor
    is reached, the entry partition stays, the exit partition is computed. *)
Lemma solveBlock_step_witness :
  solveBlock 0 false ExampleSolverStates.initial
  = Done (false, ExampleSolverStates.afterEntry).
Proof.
  pose proof (solveBlock_step ExampleSolverStates.initial 0
                ExampleSolverStates.entryState
                {| blockInstructions := []; getPredecessorBlocks := [];
                   getSuccessorBlocks := [] |}
                [] Example.met1 false
                eq_refl eq_refl eq_refl eq_refl
                (Forall_nil_2 _) (Forall_nil_2 _) eq_refl) as Hstep.
  exact Hstep.
Defined.

(** C2 as worded fails there: the step is not skipped, and the entry
    partition it leaves is not the join of the exit partitions of the
    reached predecessors, which is the empty partition. *)
Lemma solveBlock_entry_not_the_join :
  ∃ anyNeedUpdate a' st blk,
    solveBlock 0 false ExampleSolverStates.initial = Done (anyNeedUpdate, a')
    ∧ blockStates a' !! 0 = Some st
    ∧ fnBlocks (function a') !! 0 = Some blk
    ∧ Partition.equals (entryPartition st)
        (joinOfExits (blockStates a')
           (reachedPredecessors (blockStates a') (getPredecessorBlocks blk)))
      = false.
Proof.
  exists false, ExampleSolverStates.afterEntry.
  eexists. eexists. split; [vm_compute; reflexivity|].
  split; [reflexivity|]. split; [reflexivity|].
  vm_compute. reflexivity.
Qed.

(** ** The local reason *)

Section LocalReason.
Context {P : Type} `{Partition.Ops P}.
Implicit Types (w : P) (visited : list PartitionOp.t).

Lemma localReplay_visitedOps ops targetOp v w cand :
  localReplay ops targetOp v w cand
  = localReplay (visitedOps ops targetOp) None v w cand.
Proof.
  revert w cand. induction ops as [|op ops IH]; intros w cand; [done|].
  cbn [localReplay visitedOps]. case_bool_decide; [done|].
  cbn [localReplay].
  rewrite (bool_decide_eq_false_2 (None = Some op)) by done. apply IH.
Qed.

(** The walked ops are a prefix that stops at the target. *)
Lemma visitedOps_prefix ops targetOp :
  ∃ rest, ops = visitedOps ops targetOp ++ rest
          ∧ Forall (λ op, targetOp ≠ Some op) (visitedOps ops targetOp)
          ∧ (rest = [] ∨ ∃ rest', targetOp = Some (hd (PartitionOp.Require 0 None) rest)
                                  ∧ rest = hd (PartitionOp.Require 0 None) rest :: rest').
Proof.
  induction ops as [|op ops (rest & Heq & Hall & Hrest)]; simpl.
  - exists []. repeat split; [constructor|by left].
  - case_bool_decide as Ht.
    + exists (op :: ops). split; [done|]. split; [constructor|].
      right. by exists ops.
    + exists rest. split; [simpl; by rewrite <- Heq|].
      split; [by constructor|done].
Qed.

Lemma visitedOps_None ops : visitedOps ops None = ops.
Proof. induction ops as [|op ops IH]; simpl; [done|]. by rewrite IH. Qed.

Lemma replay_snoc ops op w :
  replay (ops ++ [op]) w = Partition.apply (replay ops w) op.
Proof. unfold replay. by rewrite foldl_app. Qed.

Lemma consumedAfter_app visited op w v i :
  i ≤ length visited →
  consumedAfter (visited ++ [op]) w v i = consumedAfter visited w v i.
Proof.
  intros Hi. unfold consumedAfter. by rewrite take_app_le.
Qed.

Lemma consumedAfter_all visited w v :
  consumedAfter visited w v (length visited)
  = Partition.isConsumed (replay visited w) v.
Proof. unfold consumedAfter. by rewrite firstn_all. Qed.

(** When [v] is consumed after the last op, some op is the candidate. *)
Lemma survives_exists visited w v :
  visited ≠ [] →
  Partition.isConsumed (replay visited w) v = true →
  ∃ j, survives visited w v j.
Proof.
  intros Hne Hlast.
  assert (∀ j, j < length visited →
            (∀ k, j ≤ k < length visited →
                  consumedAfter visited w v (S k) = true) →
            ∃ j', survives visited w v j') as Hdown.
  { induction j as [|j IH]; intros Hj Hrun.
    - exists 0. split; [done|]. split; [by left|done].
    - destruct (consumedAfter visited w v (S j)) eqn:Hc.
      + apply IH; [lia|]. intros k Hk.
        destruct (decide (k = j)) as [->|]; [done|]. apply Hrun. lia.
      + exists (S j). split; [done|]. split; [by right|done]. }
  destruct visited as [|op visited _] using rev_ind; [done|].
  rewrite length_app in Hdown. simpl in Hdown.
  apply (Hdown (length visited)); [lia|].
  intros k Hk. assert (k = length visited) as -> by lia.
  rewrite <- Hlast, <- consumedAfter_all. f_equal.
  rewrite length_app. simpl. lia.
Qed.

(** What the candidate stands for when a prefix has been walked. *)
Definition candidate_ok visited w v (cand : option LocalConsumedReason) : Prop :=
  match cand with
  | Some r => ∃ j op, survives visited w v j ∧ visited !! j = Some op
                      ∧ r = reasonOfCandidate op
  | None => ∀ j, ¬ survives visited w v j
  end.

Lemma candidate_ok_step visited op w v cand :
  candidate_ok visited w v cand →
  let w' := Partition.apply (replay visited w) op in
  let cand1 :=
    if Partition.isConsumed w' v && negb (bool_decide (is_Some cand))
    then if bool_decide (PartitionOp.getKind op = KConsume)
         then Some (LocalReason.ConsumeInst op)
         else Some LocalReason.NonConsumeInst
    else cand in
  let cand2 :=
    if negb (Partition.isConsumed w' v) && bool_decide (is_Some cand1)
    then None else cand1 in
  candidate_ok (visited ++ [op]) w v cand2.
Proof.
  intros Hcand. cbv zeta.
  assert (consumedAfter (visited ++ [op]) w v (S (length visited))
          = Partition.isConsumed (Partition.apply (replay visited w) op) v)
    as Hlast.
  { rewrite <- replay_snoc, <- consumedAfter_all. f_equal.
    rewrite length_app. simpl. lia. }
  destruct (Partition.isConsumed (Partition.apply (replay visited w) op) v)
    eqn:Hc; cbn [negb andb].
  - destruct cand as [r|].
    + rewrite (bool_decide_eq_true_2 (is_Some (Some r))) by by eexists.
      cbn [negb]. destruct Hcand as (j & op' & (Hj & Hstart & Hrun) & Hop & ->).
      exists j, op'. split; [|split; [by apply lookup_app_l_Some|done]].
      split; [rewrite length_app; simpl; lia|].
      split.
      * destruct Hstart as [->|Hstart]; [by left|right].
        by rewrite consumedAfter_app by lia.
      * intros k Hk. rewrite length_app in Hk. simpl in Hk.
        destruct (decide (k = length visited)) as [->|Hne]; [by rewrite Hlast|].
        rewrite consumedAfter_app by lia. apply Hrun. lia.
    + rewrite (bool_decide_eq_false_2 (is_Some None)) by by intros [? ?].
      cbn [negb].
      assert (candidate_ok (visited ++ [op]) w v (Some (reasonOfCandidate op)))
        as Hnew.
      { exists (length visited), op.
        split; [|split; [by apply list_lookup_middle|done]].
        split; [rewrite length_app; simpl; lia|]. split.
        - destruct (decide (length visited = 0)) as [?|Hpos]; [by left|right].
          rewrite consumedAfter_app by lia. rewrite consumedAfter_all.
          destruct (Partition.isConsumed (replay visited w) v) eqn:Hprev; [|done].
          destruct (survives_exists visited w v) as [j Hj]; [|done|].
          + intros ->. by apply Hpos.
          + by apply Hcand in Hj.
        - intros k Hk. rewrite length_app in Hk. simpl in Hk.
          assert (k = length visited) as -> by lia. by rewrite Hlast. }
      unfold reasonOfCandidate in Hnew. by case_bool_decide.
  - assert (∀ j, ¬ survives (visited ++ [op]) w v j) as Hnone.
    { intros j (Hj & _ & Hrun). rewrite length_app in Hj, Hrun. simpl in *.
      specialize (Hrun (length visited) ltac:(lia)). congruence. }
    destruct cand as [r|]; [|done].
    by rewrite (bool_decide_eq_true_2 (is_Some (Some r))) by by eexists.
Qed.

Lemma localReplay_candidate walked rest w v cand :
  candidate_ok walked w v cand →
  candidate_ok (walked ++ rest) w v
    (localReplay rest None v (replay walked w) cand).
Proof.
  revert walked cand. induction rest as [|op rest IH]; intros walked cand Hcand.
  - by rewrite app_nil_r.
  - cbn [localReplay].
    rewrite (bool_decide_eq_false_2 (None = Some op)) by done.
    rewrite <- replay_snoc. rewrite (cons_middle op walked rest), app_assoc.
    apply IH. rewrite replay_snoc.
    by apply (candidate_ok_step walked op w v cand).
Qed.

Lemma survives_unique visited w v j j' :
  survives visited w v j → survives visited w v j' → j = j'.
Proof.
  assert (∀ i i', survives visited w v i → survives visited w v i' → ¬ i < i')
    as Hlt.
  { intros i i' (Hi & _ & Hrun) (Hi' & Hstart' & _) Hii'.
    destruct Hstart' as [->|Hstart']; [lia|].
    destruct i' as [|i']; [lia|].
    rewrite Hrun in Hstart' by lia. done. }
  intros Hj Hj'. pose proof (Hlt _ _ Hj Hj'). pose proof (Hlt _ _ Hj' Hj). lia.
Qed.

(** The search answers as [localReasonIs] says, and has no answer only when
    no candidate survives and the value is not consumed at entry. *)
Lemma localSearch_spec (block : BlockPartitionState P) v targetOp :
  (∀ r, localSearch block v targetOp = Some r ↔ localReasonIs block v targetOp r)
  ∧ (localSearch block v targetOp = None
     ↔ (∀ j, ¬ survives (visitedOps (blockPartitionOps block) targetOp)
               (revived (entryPartition block) v) v j)
       ∧ Partition.isConsumed (entryPartition block) v = false).
Proof.
  unfold localSearch, localReasonIs. fold (revived (entryPartition block) v).
  rewrite localReplay_visitedOps.
  set (visited := visitedOps (blockPartitionOps block) targetOp).
  set (start := revived (entryPartition block) v).
  pose proof (localReplay_candidate [] visited start v None
                ltac:(intros j (Hj & _); simpl in Hj; lia)) as Hcand.
  simpl in Hcand. change (replay [] start) with start in Hcand.
  destruct (localReplay visited None v start None) as [r0|] eqn:Hres;
    cbn [candidate_ok] in Hcand.
  - rewrite (bool_decide_eq_true_2 (is_Some (Some r0))) by by eexists.
    cbn [negb andb]. split.
    + intros r. split.
      * intros [= <-]. by left.
      * intros [(j & op & Hj & Hop & ->)|(Hnone & _)].
        -- destruct Hcand as (j' & op' & Hj' & Hop' & ->).
           pose proof (survives_unique _ _ _ _ _ Hj Hj') as ->. congruence.
        -- destruct Hcand as (j' & op' & Hj' & _). by apply Hnone in Hj'.
    + split; [done|]. intros [Hnone _].
      destruct Hcand as (j' & op' & Hj' & _). by apply Hnone in Hj'.
  - rewrite (bool_decide_eq_false_2 (is_Some None)) by by intros [? ?].
    cbn [negb andb].
    destruct (Partition.isConsumed (entryPartition block) v) eqn:Hentry.
    + split.
      * intros r. split.
        -- intros [= <-]. by right.
        -- intros [(j & op & Hj & _)|(_ & _ & ->)]; [by apply Hcand in Hj|done].
      * split; [done|]. by intros [_ ?].
    + split.
      * intros r. split; [done|].
        intros [(j & op & Hj & _)|(_ & ? & _)]; [by apply Hcand in Hj|done].
      * done.
Qed.
End LocalReason.

Section LocalReasonTheorem.
Context {P : Type} `{Partition.Ops P}.

Lemma localReasonIs_kinds (block : BlockPartitionState P) v targetOp r :
  localReasonIs block v targetOp r →
  let visited := visitedOps (blockPartitionOps block) targetOp in
  let start := revived (entryPartition block) v in
  (kind r = LocalConsumeInst
   ↔ ∃ j op, survives visited start v j ∧ visited !! j = Some op
             ∧ PartitionOp.getKind op = KConsume ∧ localInst r = Some op)
  ∧ (kind r = LocalNonConsumeInst
     ↔ ∃ j op, survives visited start v j ∧ visited !! j = Some op
               ∧ PartitionOp.getKind op ≠ KConsume)
  ∧ (kind r = NonLocal
     ↔ (∀ j, ¬ survives visited start v j)
       ∧ Partition.isConsumed (entryPartition block) v = true).
Proof.
  intros [(j & op & Hj & Hop & ->)|(Hnone & Hentry & ->)]; cbv zeta.
  - unfold reasonOfCandidate. case_bool_decide as Hk; simpl.
    + split; [|split].
      * split; [|done]. intros _. by exists j, op.
      * split; [done|]. intros (j' & op' & Hj' & Hop' & Hk').
        pose proof (survives_unique _ _ _ _ _ Hj Hj') as ->. congruence.
      * split; [done|]. intros [Hnone _]. by apply Hnone in Hj.
    + split; [|split].
      * split; [done|]. by intros (? & ? & ? & ? & ? & ?).
      * split; [|done]. intros _. by exists j, op.
      * split; [done|]. intros [Hnone _]. by apply Hnone in Hj.
  - simpl. split; [|split].
    + split; [done|]. by intros (? & ? & ? & ? & ? & ?).
    + split; [done|]. intros (j & ? & Hj & _). by apply Hnone in Hj.
    + done.
Qed.

(** C4: for a block of the function, a value and an optional target, and a
    cache whose entries are answers of the search, [findLocalConsumedReason]
    answers [r] exactly when [r] is the reason that the replay described in
    words gives: the ops before the target (all of them without a target)
    are applied in turn to the entry partition, in which the value is first
    made fresh if it is consumed; the candidate is the op at which the value
    becomes consumed and after which it stays consumed to the end of the
    walk; the answer is [LocalConsumeInst] with that op iff the candidate is
    a [Consume], [LocalNonConsumeInst] iff it is another op, and [NonLocal]
    iff there is no candidate and the value is consumed at entry.  Without a
    target the value must be consumed at the exit of the block; the run
    needs no fuel and keeps the cache sound. *)
Theorem findLocalConsumedReason_spec
    (blockStates : list (BlockPartitionState P)) (b : BlockId)
    (block : BlockPartitionState P) (v : ID) (targetOp : option PartitionOp.t)
    (t : RaceTracer) :
  blockStates !! b = Some block →
  exitCache_ok blockStates t →
  (is_Some targetOp ∨ Partition.isConsumed (exitPartition block) v = true) →
  let visited := visitedOps (blockPartitionOps block) targetOp in
  let start := revived (entryPartition block) v in
  (∀ r, (∃ t', findLocalConsumedReason blockStates b v targetOp t = Done (r, t'))
        ↔ localReasonIs block v targetOp r)
  ∧ (∀ r t', findLocalConsumedReason blockStates b v targetOp t = Done (r, t') →
       exitCache_ok blockStates t'
       ∧ consumedAtEntryReasons t' = consumedAtEntryReasons t
       ∧ accumulator t' = accumulator t
       ∧ (kind r = LocalConsumeInst
          ↔ ∃ j op, survives visited start v j ∧ visited !! j = Some op
                    ∧ PartitionOp.getKind op = KConsume
                    ∧ localInst r = Some op)
       ∧ (kind r = LocalNonConsumeInst
          ↔ ∃ j op, survives visited start v j ∧ visited !! j = Some op
                    ∧ PartitionOp.getKind op ≠ KConsume)
       ∧ (kind r = NonLocal
          ↔ (∀ j, ¬ survives visited start v j)
            ∧ Partition.isConsumed (entryPartition block) v = true))
  ∧ findLocalConsumedReason blockStates b v targetOp t ≠ OutOfFuel.
Proof.
  intros Hblock Hcache Hexit. cbv zeta.
  destruct (localSearch_spec block v targetOp) as [Hsome Hnone].
  assert (∃ t', exitCache_ok blockStates t'
                ∧ consumedAtEntryReasons t' = consumedAtEntryReasons t
                ∧ accumulator t' = accumulator t
                ∧ findLocalConsumedReason blockStates b v targetOp t
                  = match localSearch block v targetOp with
                    | Some r => Done (r, t')
                    | None => Abort AssertionFailure
                    end) as (t' & Hcache' & Hentry' & Hacc' & Hrun).
  { unfold findLocalConsumedReason.
    rewrite (run_bind_done get_state _ t t t) by done.
    destruct targetOp as [target|].
    - rewrite (bool_decide_eq_true_2 (is_Some (Some target))) by by eexists.
      exists t. split; [done|]. split; [done|]. split; [done|].
      rewrite (run_bind_done (at_ blockStates b) _ t block t)
        by (unfold at_, lift_outcome; by rewrite Hblock).
      cbn [orb]. rewrite (run_bind_done (assert_ true) _ t tt t) by done.
      by destruct (localSearch block v (Some target)).
    - rewrite (bool_decide_eq_false_2 (is_Some None)) by by intros [? ?].
      destruct Hexit as [[? [=]]|Hexit].
      destruct (consumedAtExitReasons t !! (b, v)) as [cached|] eqn:Hlook.
      + exists t. split; [done|]. split; [done|]. split; [done|].
        destruct (Hcache b v cached Hlook) as (block' & Hblock' & _ & Hsearch).
        assert (block' = block) as -> by congruence.
        by rewrite Hsearch.
      + rewrite (run_bind_done (at_ blockStates b) _ t block t)
          by (unfold at_, lift_outcome; by rewrite Hblock).
        rewrite Hexit. cbn [orb].
        rewrite (run_bind_done (assert_ true) _ t tt t) by done.
        destruct (localSearch block v None) as [r|] eqn:Hsearch.
        * eexists. split; [|split; [|split; [|reflexivity]]]; [|done..].
          intros b' v' r'. simpl. rewrite lookup_insert.
          case_decide as Hkey.
          -- injection Hkey as <- <-. intros [= <-]. by exists block.
          -- apply Hcache.
        * exists t. by repeat split. }
  split; [|split].
  - intros r. rewrite <- Hsome, Hrun.
    destruct (localSearch block v targetOp) as [r0|]; split.
    + by intros (? & [= <- _]).
    + intros [= <-]. by eexists.
    + by intros (? & [=]).
    + done.
  - intros r t''. rewrite Hrun.
    destruct (localSearch block v targetOp) as [r0|] eqn:Hsearch; [|done].
    intros [= <- <-]. split; [done|]. split; [done|]. split; [done|].
    apply localReasonIs_kinds. by apply Hsome.
  - rewrite Hrun. by destruct (localSearch block v targetOp).
Qed.
End LocalReasonTheorem.

Lemma exitCache_ok_new {P : Type} `{Partition.Ops P}
    (blockStates : list (BlockPartitionState P)) cache acc :
  exitCache_ok blockStates
    {| consumedAtEntryReasons := cache; consumedAtExitReasons := ∅;
       accumulator := acc |}.
Proof. intros b v r. simpl. by rewrite lookup_empty. Qed.

Lemma ExampleTracer_solvedAnalysis :
  match newPartitionAnalysis (P := SpecPartition.t)
          ExampleFunctions.sequentialTransfer with
  | Done a0 => solve 10 a0
  | Abort e => Abort e
  | OutOfFuel => OutOfFuel
  end = Done (tt, ExampleTracer.solvedAnalysis).
Proof. vm_compute. reflexivity. Qed.

(** C4 on [AssignFresh(0); Consume(0); Require(0)] with the require as the
    target: the reason is the consume. *)
Lemma findLocalConsumedReason_spec_witness :
  localReasonIs ExampleTracer.block 0%N (Some ExampleTracer.requireOp)
    (LocalReason.ConsumeInst ExampleTracer.consumeOp)
  ∧ findLocalConsumedReason [ExampleTracer.block] 0 0%N
      (Some ExampleTracer.requireOp) ExampleTracer.newTracer
    = Done (LocalReason.ConsumeInst ExampleTracer.consumeOp,
            ExampleTracer.newTracer).
Proof.
  destruct (findLocalConsumedReason_spec [ExampleTracer.block] 0
              ExampleTracer.block 0%N (Some ExampleTracer.requireOp)
              ExampleTracer.newTracer eq_refl
              (exitCache_ok_new _ _ _)
              (or_introl (ex_intro _ ExampleTracer.requireOp eq_refl)))
    as (Hiff & _ & _).
  assert (findLocalConsumedReason [ExampleTracer.block] 0 0%N
            (Some ExampleTracer.requireOp) ExampleTracer.newTracer
          = Done (LocalReason.ConsumeInst ExampleTracer.consumeOp,
                  ExampleTracer.newTracer)) as Hrun
    by (vm_compute; reflexivity).
  split; [|exact Hrun].
  apply Hiff. exists ExampleTracer.newTracer. exact Hrun.
Defined.

(** ** The diagnose phase *)

Section OrderedNoLaws.
Context {K V : Type} (ltb : K → K → bool).

Lemma omap_lookup_elem_of (k : K) (v : V) m :
  omap_lookup ltb k m = Some v → ∃ k', (k', v) ∈ m.
Proof.
  induction m as [|[z w] m IH]; simpl; [done|].
  destruct (ltb k z); [done|]. destruct (ltb z k).
  - intros (k' & Hin)%IH. exists k'. by right.
  - intros [= ->]. exists z. by left.
Qed.

Lemma elem_of_omap_insert_inv (k : K) (v : V) m k' v' :
  (k', v') ∈ omap_insert ltb k v m → v' = v ∨ (k', v') ∈ m.
Proof.
  induction m as [|[z w] m IH]; simpl.
  - intros [= -> ->]%list_elem_of_singleton. by left.
  - destruct (ltb k z).
    + intros [[= -> ->]|Hin]%elem_of_cons; [by left|by right].
    + destruct (ltb z k).
      * intros [[= -> ->]|[->|Hin]%IH]%elem_of_cons;
          [right; by left|by left|right; by right].
      * intros [[= -> ->]|Hin]%elem_of_cons; [by left|right; by right].
Qed.

Lemma omap_insert_key_inv (k : K) (v : V) m k' :
  k' ∈ (omap_insert ltb k v m).*1 → k' = k ∨ k' ∈ m.*1.
Proof.
  induction m as [|[z w] m IH]; simpl.
  - intros ->%list_elem_of_singleton. by left.
  - destruct (ltb k z); simpl.
    + intros [->|Hin]%elem_of_cons; [by left|by right].
    + destruct (ltb z k); simpl.
      * intros [->|[->|Hin]%IH]%elem_of_cons;
          [right; by left|by left|right; by right].
      * intros [->|Hin]%elem_of_cons; right; [by left|by right].
Qed.
End OrderedNoLaws.

Section ReasonFacts.
Context `{PartitionOpOrder}.

Lemma reason_consumes_empty : reason_consumes Reason.empty.
Proof. constructor. Qed.

Lemma addConsumeOp_consumes r op d r' :
  Reason.addConsumeOp r op d = Done r' →
  reason_consumes r → reason_consumes r'.
Proof.
  unfold Reason.addConsumeOp. case_bool_decide as Hk; [|done]. cbn [negb].
  destruct (Reason.containsOp r op); [done|]. intros [= <-] Hr.
  unfold reason_consumes in *. simpl. apply Forall_forall.
  intros [d' ops] [->|Hin]%elem_of_omap_insert_inv; simpl.
  - apply Forall_app. split; [|by repeat constructor].
    destruct (omap_lookup N.ltb d (consumeOps r)) as [old|] eqn:Hold;
      [|constructor].
    apply omap_lookup_elem_of in Hold as (d'' & Hin). simpl.
    by eapply Forall_forall in Hr; [|exact Hin].
  - by eapply Forall_forall in Hr; [|exact Hin].
Qed.

Lemma addOps_consumes r ops d r' :
  Reason.addOps r ops d = Done r' → reason_consumes r → reason_consumes r'.
Proof.
  revert r. induction ops as [|op ops IH]; intros r; simpl.
  - by intros [= <-].
  - destruct (Reason.addConsumeOp r op d) as [r1| |] eqn:Hadd; [|done..].
    intros Hrest Hr. eapply IH; [exact Hrest|].
    by eapply addConsumeOp_consumes.
Qed.

Lemma addOtherReasonAtDistance_consumes r other d r' :
  Reason.addOtherReasonAtDistance r other d = Done r' →
  reason_consumes r → reason_consumes r'.
Proof.
  unfold Reason.addOtherReasonAtDistance. generalize (consumeOps other).
  intros entries. revert r.
  induction entries as [|[d' ops] entries IH]; intros r; simpl.
  - by intros [= <-].
  - destruct (Reason.addOps r ops _) as [r1| |] eqn:Hadd; [|done..].
    intros Hrest Hr. eapply IH; [exact Hrest|].
    by eapply addOps_consumes.
Qed.

Lemma insertRequirement_consumes acc c r d :
  PartitionOp.getKind c = KConsume →
  accumulator_consumes acc →
  accumulator_consumes (Accumulator.insertRequirement acc c r d).
Proof.
  intros Hc Hacc. unfold accumulator_consumes, Accumulator.insertRequirement.
  apply Forall_forall. intros [c' reqs] Hin.
  assert (c' ∈ (omap_insert PartitionOp_ltb c
                  (oset_insert Accumulator.atDistance_ltb
                     {| partitionOp := r; distance := d |}
                     (default [] (omap_lookup PartitionOp_ltb c acc))) acc).*1)
    as [->|Hold]%omap_insert_key_inv
    by (apply list_elem_of_fmap; by exists (c', reqs)).
  - done.
  - apply list_elem_of_fmap in Hold as ([c'' reqs''] & -> & Hold).
    by eapply Forall_forall in Hacc; [|exact Hold].
Qed.

Lemma accumulateConsumedReason_consumes acc use reason :
  reason_consumes reason → accumulator_consumes acc →
  accumulator_consumes (Accumulator.accumulateConsumedReason acc use reason).
Proof.
  unfold Accumulator.accumulateConsumedReason, reason_consumes.
  generalize (consumeOps reason). intros entries Hentries. revert acc.
  induction Hentries as [|[d ops] entries Hops _ IH]; intros acc Hacc;
    [done|].
  simpl. apply IH. clear IH. simpl in Hops. revert acc Hacc.
  induction Hops as [|op ops Hop _ IH]; intros acc Hacc; [done|].
  simpl. apply IH. by apply insertRequirement_consumes.
Qed.
End ReasonFacts.

Section Frames.
Context {S : Type} (R : S → S → Prop).
Hypothesis R_refl : ∀ s, R s s.
Hypothesis R_trans : ∀ s1 s2 s3, R s1 s2 → R s2 s3 → R s1 s3.

(** Every run of [m] that returns relates its first state to its last. *)
Definition frames {A} (m : Run S A) : Prop :=
  ∀ s x s', m s = Done (x, s') → R s s'.

Lemma frames_ret {A} (x : A) : frames (mret x).
Proof using R_refl. intros s y s' [= _ <-]. apply R_refl. Qed.

Lemma frames_bind {A B} (m : Run S A) (f : A → Run S B) :
  frames m → (∀ x, frames (f x)) → frames (m ≫= f).
Proof using R_trans.
  intros Hm Hf s y s'. unfold mbind, Run_bind.
  destruct (m s) as [[x s1]| |] eqn:Hms; [|done..].
  intros Hfx. eapply R_trans; [by eapply Hm|by eapply Hf].
Qed.

Lemma frames_get_bind {A} (f : S → Run S A) :
  (∀ s x s', f s s = Done (x, s') → R s s') → frames (get_state ≫= f).
Proof. intros Hf s x s'. unfold mbind, Run_bind, get_state. apply Hf. Qed.

Lemma frames_get : frames get_state.
Proof using R_refl. intros s x s' [= _ <-]. apply R_refl. Qed.

Lemma frames_assert b : frames (assert_ b).
Proof using R_refl.
  intros s x s'. unfold assert_. destruct b; [|done].
  intros [= _ <-]. apply R_refl.
Qed.

Lemma frames_lift_outcome {A} (o : Outcome A) : frames (lift_outcome o).
Proof using R_refl.
  intros s x s'. unfold lift_outcome. destruct o; [|done..].
  intros [= _ <-]. apply R_refl.
Qed.

Lemma frames_at {A} (l : list A) i : frames (at_ l i).
Proof using R_refl. apply frames_lift_outcome. Qed.

Lemma frames_modify (f : S → S) : (∀ s, R s (f s)) → frames (modify_state f).
Proof. intros Hf s x s' [= _ <-]. apply Hf. Qed.

Lemma frames_for_each {A} (xs : list A) (body : A → Run S unit) :
  (∀ x, frames (body x)) → frames (for_each xs body).
Proof using R_refl R_trans.
  intros Hbody. induction xs as [|x xs IH]; simpl.
  - apply frames_ret.
  - apply frames_bind; [apply Hbody|by intros _].
Qed.
End Frames.

Create HintDb frames.
#[global] Hint Resolve frames_ret frames_get frames_assert frames_lift_outcome
  frames_at : frames.

Section TracerFrames.
Context {P : Type} `{Partition.Ops P} `{PartitionOpOrder}.
Variable fn : SILFunction.
Variable blockStates : list (BlockPartitionState P).

(** The search for reasons leaves the accumulator alone. *)
Definition same_accumulator (t t' : RaceTracer) : Prop :=
  accumulator t' = accumulator t.

Lemma same_accumulator_refl t : same_accumulator t t.
Proof. done. Qed.

Lemma same_accumulator_trans t1 t2 t3 :
  same_accumulator t1 t2 → same_accumulator t2 t3 → same_accumulator t1 t3.
Proof. unfold same_accumulator. congruence. Qed.

Hint Resolve same_accumulator_refl same_accumulator_trans : frames.

Ltac frames_step :=
  repeat first
    [ apply frames_bind; [by eauto with frames| |intros ?]
    | apply frames_modify; by intros ?
    | progress eauto with frames
    | match goal with
      | |- frames _ (if ?b then _ else _) => destruct b
      | |- frames _ (match ?x with _ => _ end) => destruct x
      end ].

Lemma frames_findLocalConsumedReason b v targetOp :
  frames same_accumulator (findLocalConsumedReason blockStates b v targetOp).
Proof.
  unfold findLocalConsumedReason. apply frames_get_bind. intros t r t'.
  destruct (if bool_decide (is_Some targetOp) then None
            else consumedAtExitReasons t !! (b, v)).
  { by intros [= _ <-]. }
  revert t r t'. change (frames same_accumulator
    (block ← at_ blockStates b;
     _ ← assert_ (bool_decide (is_Some targetOp)
                  || Partition.isConsumed (exitPartition block) v);
     match localSearch block v targetOp with
     | Some consumedReason =>
         if bool_decide (is_Some targetOp) then mret consumedReason
         else _ ← modify_state
                    (λ t, set_consumedAtExitReasons
                            (<[(b, v) := consumedReason]>
                               (consumedAtExitReasons t)) t);
              mret consumedReason
     | None => lift_outcome (Abort AssertionFailure)
     end)).
  frames_step.
Qed.

Lemma frames_findAndAddConsumedReasons findEntry b v reason d targetOp :
  (∀ b' v', frames same_accumulator (findEntry b' v')) →
  frames same_accumulator
    (findAndAddConsumedReasons blockStates findEntry b v reason d targetOp).
Proof.
  intros Hentry. unfold findAndAddConsumedReasons.
  pose proof frames_findLocalConsumedReason.
  frames_step.
Qed.

Lemma frames_addReasonsOfPreds findAndAdd predVal d predBlocks reason :
  (∀ b v r d', frames same_accumulator (findAndAdd b v r d')) →
  frames same_accumulator
    (addReasonsOfPreds findAndAdd predVal d predBlocks reason).
Proof.
  intros Hfind. revert reason.
  induction predBlocks as [|b bs IH]; intros reason; simpl; frames_step.
Qed.

Lemma frames_addReasonsOfDistances findAndAdd preds distances reason :
  (∀ b v r d', frames same_accumulator (findAndAdd b v r d')) →
  frames same_accumulator
    (addReasonsOfDistances findAndAdd preds distances reason).
Proof.
  intros Hfind. revert reason.
  induction distances as [|[v d] ds IH]; intros reason; simpl.
  - frames_step.
  - apply frames_bind; [by eauto with frames| |by intros ?].
    by apply frames_addReasonsOfPreds.
Qed.

Lemma frames_findConsumedAtEntryReason fuel b v :
  frames same_accumulator (findConsumedAtEntryReason fn blockStates fuel b v).
Proof.
  revert b v. induction fuel as [|fuel IH]; intros b v.
  - simpl. apply frames_bind; [by eauto with frames|frames_step|intros block].
    apply frames_bind; [by eauto with frames|frames_step|intros _].
    apply frames_get_bind. intros t r t'.
    destruct (consumedAtEntryReasons t !! (b, v)); [|done].
    by intros [= _ <-].
  - simpl. apply frames_bind; [by eauto with frames|frames_step|intros block].
    apply frames_bind; [by eauto with frames|frames_step|intros _].
    apply frames_get_bind. intros t r t'.
    destruct (consumedAtEntryReasons t !! (b, v)); [by intros [= _ <-]|].
    revert t r t'.
    change (frames same_accumulator
      (_ ← modify_state
             (λ t, set_consumedAtEntryReasons
                     (<[(b, v) := Reason.empty]> (consumedAtEntryReasons t)) t);
       silBlock ← at_ (fnBlocks fn) b;
       consumedInSomePred ←
         lift_outcome
           (collectConsumedInSomePred blockStates (entryPartition block)
              (getPredecessorBlocks silBlock) []);
       singleStepJoins ←
         lift_outcome
           (collectSingleStepJoins blockStates (entryPartition block)
              (getPredecessorBlocks silBlock) []);
       distancesFromTarget ←
         lift_outcome (bfs fuel singleStepJoins [(v, 0%N)] []);
       consumedReason ←
         addReasonsOfDistances
           (λ predBlock predVal consumedReason distance,
              findAndAddConsumedReasons blockStates
                (findConsumedAtEntryReason fn blockStates fuel)
                predBlock predVal consumedReason distance None)
           consumedInSomePred distancesFromTarget Reason.empty;
       _ ← modify_state
             (λ t, set_consumedAtEntryReasons
                     (<[(b, v) := consumedReason]> (consumedAtEntryReasons t)) t);
       mret consumedReason)).
    apply frames_bind; [by eauto with frames|frames_step|intros _].
    apply frames_bind; [by eauto with frames|frames_step|intros silBlock].
    apply frames_bind; [by eauto with frames|frames_step|intros preds].
    apply frames_bind; [by eauto with frames|frames_step|intros joins].
    apply frames_bind; [by eauto with frames|frames_step|intros distances].
    apply frames_bind; [by eauto with frames| |intros reason; frames_step].
    apply frames_addReasonsOfDistances. intros b' v' r' d'.
    by apply frames_findAndAddConsumedReasons.
Qed.

Lemma findAndAddConsumedReasons_consumes findEntry b v reason d targetOp
    t r t' :
  findAndAddConsumedReasons blockStates findEntry b v reason d targetOp t
  = Done (r, t') →
  reason_consumes reason → reason_consumes r.
Proof.
  unfold findAndAddConsumedReasons. unfold mbind, Run_bind.
  destruct (at_ blockStates b t) as [[block t1]| |]; [|done..].
  destruct (assert_ _ t1) as [[[] t2]| |]; [|done..].
  destruct (findLocalConsumedReason _ _ _ _ t2) as [[local t3]| |]; [|done..].
  destruct (kind local).
  - destruct (localInst local) as [op|]; [|done].
    unfold lift_outcome.
    destruct (Reason.addConsumeOp reason op d) as [r1| |] eqn:Hadd; [|done..].
    intros [= <- _]. by eapply addConsumeOp_consumes.
  - by intros [= <- _].
  - destruct (findEntry b v t3) as [[other t4]| |]; [|done..].
    unfold lift_outcome.
    destruct (Reason.addOtherReasonAtDistance reason other d) as [r1| |]
      eqn:Hadd; [|done..].
    intros [= <- _]. by eapply addOtherReasonAtDistance_consumes.
Qed.

(** Tracing a use adds to the accumulator a reason made of consumes. *)
Lemma traceUseOfConsumedValue_spec fuel use v t x t' :
  traceUseOfConsumedValue fn blockStates fuel use v t = Done (x, t') →
  ∃ reason t1,
    findConsumedAtOpReason fn blockStates fuel v use t = Done (reason, t1)
    ∧ reason_consumes reason
    ∧ accumulator t1 = accumulator t
    ∧ t' = set_accumulator
             (Accumulator.accumulateConsumedReason (accumulator t1) use reason)
             t1.
Proof.
  unfold traceUseOfConsumedValue. unfold mbind, Run_bind.
  destruct (findConsumedAtOpReason fn blockStates fuel v use t)
    as [[reason t1]| |] eqn:Hfind; [|done..].
  intros [= _ <-]. exists reason, t1. split; [done|]. split; [|split; [|done]].
  - unfold findConsumedAtOpReason in Hfind. unfold mbind, Run_bind in Hfind.
    destruct (lift_outcome _ t) as [[inst t0]| |]; [|done..].
    eapply findAndAddConsumedReasons_consumes; [exact Hfind|].
    apply reason_consumes_empty.
  - revert Hfind. apply (frames_bind same_accumulator same_accumulator_trans).
    + apply frames_lift_outcome, same_accumulator_refl.
    + intros inst. apply frames_findAndAddConsumedReasons.
      apply frames_findConsumedAtEntryReason.
Qed.
End TracerFrames.

Section DiagnoseFrames.
Context {P : Type} `{Partition.Ops P} `{SILOracles} `{PartitionOpOrder}.
Implicit Types (a : PartitionAnalysis P).

(** What the replay of the blocks may change: the translator, the tracer and
    the diagnostics, to which it adds [arg_region_consumed] only. *)
Definition replay_frame a a' : Prop :=
  blockStates a' = blockStates a
  ∧ function a' = function a
  ∧ solved a' = solved a
  ∧ (∃ ds, diagnostics a' = diagnostics a ++ ds
           ∧ Forall (λ d, ∃ loc, d = arg_region_consumed loc) ds)
  ∧ (accumulator_consumes (accumulator (raceTracer a)) →
     accumulator_consumes (accumulator (raceTracer a'))).

Lemma replay_frame_refl a : replay_frame a a.
Proof.
  repeat split; [|done]. exists []. split; [by rewrite app_nil_r|constructor].
Qed.

Lemma replay_frame_trans a1 a2 a3 :
  replay_frame a1 a2 → replay_frame a2 a3 → replay_frame a1 a3.
Proof.
  intros (Hb & Hf & Hs & (ds & Hd & Hds) & Hacc)
         (Hb' & Hf' & Hs' & (ds' & Hd' & Hds') & Hacc').
  split; [congruence|]. split; [congruence|]. split; [congruence|].
  split; [|by auto].
  exists (ds ++ ds'). split; [by rewrite Hd', Hd, app_assoc|].
  by apply Forall_app.
Qed.

Hint Resolve replay_frame_refl replay_frame_trans : frames.

Lemma frames_liftTranslator {A} (m : Translate A) :
  frames replay_frame (liftTranslator m).
Proof.
  intros a x a'. unfold liftTranslator.
  destruct (m (translator a)) as [[y t']| |]; [|done..].
  intros [= _ <-]. repeat split; [|done].
  exists []. split; [by rewrite app_nil_r|constructor].
Qed.

Lemma handleFailure_spec fuel op v a x a' :
  handleFailure fuel op v a = Done (x, a') →
  diagnostics a' = diagnostics a
  ∧ blockStates a' = blockStates a
  ∧ translator a' = translator a
  ∧ function a' = function a
  ∧ solved a' = solved a
  ∧ ∃ reason t1,
      findConsumedAtOpReason (function a) (blockStates a) fuel v op
        (raceTracer a) = Done (reason, t1)
      ∧ reason_consumes reason
      ∧ accumulator t1 = accumulator (raceTracer a)
      ∧ raceTracer a'
        = set_accumulator
            (Accumulator.accumulateConsumedReason (accumulator t1) op reason)
            t1.
Proof.
  unfold handleFailure, liftTracer. unfold mbind, Run_bind, get_state.
  destruct (traceUseOfConsumedValue _ _ _ _ _ _) as [[[] t']| |] eqn:Htrace;
    [|done..].
  intros [= _ <-]. repeat split.
  apply traceUseOfConsumedValue_spec in Htrace
    as (reason & t1 & Hfind & Hreason & Hacc & ->).
  by exists reason, t1.
Qed.

Lemma frames_handleFailure fuel op v :
  frames replay_frame (handleFailure fuel op v).
Proof.
  intros a x a' (Hd & Hb & _ & Hf & Hs & reason & t1 & _ & Hr & Hacc & Ht)
    %handleFailure_spec.
  split; [done|]. split; [done|]. split; [done|]. split.
  - exists []. split; [by rewrite app_nil_r|constructor].
  - intros Hcons. rewrite Ht. simpl.
    apply accumulateConsumedReason_consumes; [done|]. by rewrite Hacc.
Qed.

Lemma frames_handleConsumeNonConsumable op v :
  frames replay_frame (handleConsumeNonConsumable op v).
Proof.
  unfold handleConsumeNonConsumable, emit.
  apply frames_bind; [by eauto with frames|by eauto with frames|].
  intros expr. apply frames_modify. intros a.
  repeat split; [|done]. exists [arg_region_consumed expr].
  split; [done|]. repeat constructor. by eexists.
Qed.

Lemma frames_diagnoseOps fuel ops w :
  frames replay_frame (diagnoseOps fuel ops w).
Proof.
  revert w. induction ops as [|op ops IH]; intros w; simpl.
  - by eauto with frames.
  - apply frames_bind; [by eauto with frames|by eauto with frames|intros a].
    apply frames_bind; [by eauto with frames|apply frames_liftTranslator|].
    intros nonConsumables.
    apply frames_bind; [by eauto with frames| |by intros _].
    apply frames_for_each; [by eauto with frames..|].
    intros [op' v|op' v]; simpl.
    + apply frames_handleFailure.
    + apply frames_handleConsumeNonConsumable.
Qed.

Lemma frames_diagnoseFailures fuel b :
  frames replay_frame (diagnoseFailures fuel b).
Proof.
  unfold diagnoseFailures, getBlockState.
  apply frames_bind; [by eauto with frames| |intros st].
  - apply frames_bind; by eauto with frames.
  - apply frames_diagnoseOps.
Qed.

(** The calls of the closures given to [forEachConsumeRequire] add one
    diagnostic each and change nothing else. *)
Lemma runAccumulatorCallbacks_spec events a x a' :
  for_each events runAccumulatorCallback a = Done (x, a') →
  blockStates a' = blockStates a
  ∧ raceTracer a' = raceTracer a
  ∧ translator a' = translator a
  ∧ ∃ ds, diagnostics a' = diagnostics a ++ ds
          ∧ Forall2 diagnosticOfCallback events ds.
Proof.
  revert a. induction events as [|ev events IH]; intros a; simpl.
  - intros [= _ <-]. repeat split. exists []. split; [|constructor].
    by rewrite app_nil_r.
  - unfold mbind, Run_bind.
    destruct (runAccumulatorCallback ev a) as [[[] a1]| |] eqn:Hev; [|done..].
    intros (Hb & Htr & Ht & ds & Hd & Hds)%IH.
    assert (blockStates a1 = blockStates a ∧ raceTracer a1 = raceTracer a
            ∧ translator a1 = translator a
            ∧ ∃ d, diagnostics a1 = diagnostics a ++ [d]
                   ∧ diagnosticOfCallback ev d)
      as (Hb1 & Htr1 & Ht1 & d & Hd1 & Hevd).
    { destruct ev as [c n h|r]; simpl in Hev;
        unfold mbind, Run_bind, lift_outcome, emit, modify_state in Hev.
      - destruct (getExprForPartitionOp c) as [expr| |] eqn:Hexpr; [|done..].
        injection Hev as <-. repeat split. eexists. split; [done|].
        by exists expr.
      - destruct (getExprForPartitionOp r) as [expr| |] eqn:Hexpr; [|done..].
        injection Hev as <-. repeat split. eexists. split; [done|].
        by exists expr. }
    split; [congruence|]. split; [congruence|]. split; [congruence|].
    exists (d :: ds). split; [|by constructor].
    by rewrite Hd, Hd1, <- app_assoc.
Qed.

(** C5: a run of [diagnose] that returns leaves [blockStates], and with it
    every entry and exit partition, as it found them.  What it emits is,
    first, [arg_region_consumed] diagnostics from the replay of the blocks,
    and then one diagnostic for each call that [forEachConsumeRequire]
    makes for the accumulator: [consumption_yields_race] at a consume op,
    followed by [possible_racy_access_site] for its requires.  A failing
    require emits nothing by itself: its closure keeps the diagnostics and
    only adds to the accumulator, under consume ops, what the tracer finds
    for it. *)
Theorem diagnose_frame (fuel : nat) a a' :
  diagnose fuel a = Done (tt, a') →
  accumulator_consumes (accumulator (raceTracer a)) →
  blockStates a' = blockStates a
  ∧ (∃ replayDiags accumulatorDiags,
       diagnostics a' = diagnostics a ++ replayDiags ++ accumulatorDiags
       ∧ Forall (λ d, ∃ loc, d = arg_region_consumed loc) replayDiags
       ∧ Forall2 diagnosticOfCallback
           (Accumulator.forEachConsumeRequire NUM_REQUIREMENTS_TO_DIAGNOSE
              (accumulator (raceTracer a')))
           accumulatorDiags
       ∧ Forall (λ c, PartitionOp.getKind c = KConsume)
           (consumesVisited
              (Accumulator.forEachConsumeRequire NUM_REQUIREMENTS_TO_DIAGNOSE
                 (accumulator (raceTracer a')))))
  ∧ ∀ op v a1 x a2,
      handleFailure fuel op v a1 = Done (x, a2) →
      diagnostics a2 = diagnostics a1
      ∧ blockStates a2 = blockStates a1
      ∧ ∃ reason t1,
          findConsumedAtOpReason (function a1) (blockStates a1) fuel v op
            (raceTracer a1) = Done (reason, t1)
          ∧ reason_consumes reason
          ∧ raceTracer a2
            = set_accumulator
                (Accumulator.accumulateConsumedReason (accumulator t1) op
                   reason) t1.
Proof.
  intros Hrun Hcons. split; [|split].
  - unfold diagnose in Hrun. unfold mbind, Run_bind, get_state in Hrun.
    destruct (assert_ (solved a) a) as [[[] a0]| |] eqn:Hassert; [|done..].
    assert (a0 = a) as ->
      by (unfold assert_ in Hassert; destruct (solved a); by simplify_eq).
    destruct (for_each _ (diagnoseFailures fuel) a) as [[[] a1]| |] eqn:Hreplay;
      [|done..].
    apply runAccumulatorCallbacks_spec in Hrun as (Hb & _).
    apply (frames_for_each replay_frame replay_frame_refl replay_frame_trans)
      in Hreplay as (Hb1 & _); [congruence|].
    apply frames_diagnoseFailures.
  - unfold diagnose in Hrun. unfold mbind, Run_bind, get_state in Hrun.
    destruct (assert_ (solved a) a) as [[[] a0]| |] eqn:Hassert; [|done..].
    assert (a0 = a) as ->
      by (unfold assert_ in Hassert; destruct (solved a); by simplify_eq).
    destruct (for_each _ (diagnoseFailures fuel) a) as [[[] a1]| |] eqn:Hreplay;
      [|done..].
    apply runAccumulatorCallbacks_spec in Hrun
      as (Hb & Htr & Ht & accDiags & Hd & Hacc).
    apply (frames_for_each replay_frame replay_frame_refl replay_frame_trans)
      in Hreplay as (Hb1 & _ & _ & (replayDiags & Hd1 & Hreplay) & Hcons1);
      [|apply frames_diagnoseFailures].
    exists replayDiags, accDiags. rewrite Htr.
    split; [by rewrite Hd, Hd1, app_assoc|]. split; [done|]. split; [done|].
    rewrite consumesVisited_forEach. apply Forall_fmap.
    by apply Hcons1.
  - intros op v a1 x a2 (Hd & Hb & _ & _ & _ & reason & t1 & Hfind & Hr & _ & Ht)
      %handleFailure_spec.
    split; [done|]. split; [done|]. by exists reason, t1.
Qed.
End DiagnoseFrames.

(** C5 on the solved analysis of the sequential transfer. *)
Lemma diagnose_frame_witness :
  ∃ a', diagnose 10 ExampleTracer.solvedAnalysis = Done (tt, a')
        ∧ blockStates a' = blockStates ExampleTracer.solvedAnalysis
        ∧ diagnostics a'
          = [consumption_yields_race 2 1 false false 0;
             possible_racy_access_site 3].
Proof.
  destruct (diagnose 10 ExampleTracer.solvedAnalysis) as [[[] a']| |] eqn:Hrun;
    [|by vm_compute in Hrun..].
  exists a'. split; [done|].
  split.
  - exact (proj1 (diagnose_frame 10 ExampleTracer.solvedAnalysis a' Hrun
                    (Forall_nil_2 _))).
  - vm_compute in Hrun. by injection Hrun as <-.
Defined.

(** ** Termination *)

Create HintDb fuelfree.

Section FuelFree.
Context {S : Type}.

(** The run does not ask for more fuel: it has none to spend. *)
Definition fuelfree {A} (m : Run S A) : Prop := ∀ s, m s ≠ OutOfFuel.

Lemma fuelfree_ret {A} (x : A) : fuelfree (mret x : Run S A).
Proof. by intros s. Qed.

Lemma fuelfree_bind {A B} (m : Run S A) (f : A → Run S B) :
  fuelfree m → (∀ x, fuelfree (f x)) → fuelfree (m ≫= f).
Proof.
  intros Hm Hf s. unfold mbind, Run_bind.
  destruct (m s) as [[x s']|e|] eqn:Hms; [apply Hf|done|by apply Hm in Hms].
Qed.

Lemma fuelfree_assert b : fuelfree (assert_ b : Run S unit).
Proof. intros s. unfold assert_. by destruct b. Qed.

Lemma fuelfree_get : fuelfree (get_state : Run S S).
Proof. by intros s. Qed.

Lemma fuelfree_put s' : fuelfree (put_state s' : Run S unit).
Proof. by intros s. Qed.

Lemma fuelfree_modify f : fuelfree (modify_state f : Run S unit).
Proof. by intros s. Qed.

Lemma fuelfree_lift_outcome {A} (o : Outcome A) :
  o ≠ OutOfFuel → fuelfree (lift_outcome o : Run S A).
Proof. intros Ho s. unfold lift_outcome. by destruct o. Qed.

Lemma fuelfree_at {A} (l : list A) i : fuelfree (at_ l i : Run S A).
Proof. apply fuelfree_lift_outcome. by destruct (l !! i). Qed.

Lemma fuelfree_for_each {A} (xs : list A) (body : A → Run S unit) :
  (∀ x, fuelfree (body x)) → fuelfree (for_each xs body).
Proof.
  intros Hbody. induction xs as [|x xs IH]; simpl.
  - apply fuelfree_ret.
  - apply fuelfree_bind; [apply Hbody|by intros _].
Qed.
End FuelFree.

#[global] Hint Resolve fuelfree_ret fuelfree_assert fuelfree_get fuelfree_put
  fuelfree_modify fuelfree_at : fuelfree.

Ltac fuelfree_step :=
  repeat first
    [ solve [eauto with fuelfree]
    | apply fuelfree_bind; [|intros ?]
    | apply fuelfree_for_each; intros ?
    | apply fuelfree_lift_outcome; by repeat case_match
    | progress cbv zeta
    | match goal with
      | |- fuelfree (if ?b then _ else _) => destruct b
      | |- fuelfree (match ?x with _ => _ end) => destruct x
      | |- fuelfree (let '(_, _) := ?x in _) => destruct x
      end ].

Section TranslatorFuelFree.
Context `{SILOracles}.
Import PartitionOpTranslator.

Lemma fuelfree_isUniquelyIdentified v : fuelfree (isUniquelyIdentified v).
Proof. unfold isUniquelyIdentified. fuelfree_step. Qed.

Lemma fuelfree_nodeHasID v : fuelfree (nodeHasID v).
Proof. unfold nodeHasID. fuelfree_step. Qed.

Lemma fuelfree_lookupNodeID v : fuelfree (lookupNodeID v).
Proof. unfold lookupNodeID. fuelfree_step. Qed.

Lemma fuelfree_getCurrentInstruction : fuelfree getCurrentInstruction.
Proof. unfold getCurrentInstruction. fuelfree_step. Qed.

Hint Resolve fuelfree_isUniquelyIdentified fuelfree_nodeHasID
  fuelfree_lookupNodeID fuelfree_getCurrentInstruction : fuelfree.

Lemma fuelfree_AssignFresh v : fuelfree (AssignFresh v).
Proof. unfold AssignFresh. fuelfree_step. Qed.

Lemma fuelfree_Assign a b : fuelfree (Assign a b).
Proof. unfold Assign. fuelfree_step. Qed.

Lemma fuelfree_Consume v : fuelfree (Consume v).
Proof. unfold Consume. fuelfree_step. Qed.

Lemma fuelfree_Merge a b : fuelfree (Merge a b).
Proof. unfold Merge. fuelfree_step. Qed.

Lemma fuelfree_Require v : fuelfree (Require v).
Proof. unfold Require. fuelfree_step. Qed.

Hint Resolve fuelfree_AssignFresh fuelfree_Assign fuelfree_Consume
  fuelfree_Merge fuelfree_Require : fuelfree.

Lemma fuelfree_translate_each {A} (f : A → Translate (list PartitionOp.t)) xs :
  (∀ x, fuelfree (f x)) → fuelfree (translate_each f xs).
Proof. intros Hf. induction xs as [|x xs IH]; simpl; fuelfree_step. Qed.

Lemma fuelfree_getResult inst i : getResult inst i ≠ OutOfFuel.
Proof. unfold getResult. by destruct (instResults inst !! i). Qed.

Lemma fuelfree_getOperand inst i : getOperand inst i ≠ OutOfFuel.
Proof. unfold getOperand. by destruct (instOperands inst !! i). Qed.

Lemma fuelfree_translateSILAssign a b : fuelfree (translateSILAssign a b).
Proof. unfold translateSILAssign. fuelfree_step. Qed.

Lemma fuelfree_translateSILAssignFresh v : fuelfree (translateSILAssignFresh v).
Proof. unfold translateSILAssignFresh. fuelfree_step. Qed.

Lemma fuelfree_translateSILMerge a b : fuelfree (translateSILMerge a b).
Proof. unfold translateSILMerge. fuelfree_step. Qed.

Lemma fuelfree_translateSILRequire v : fuelfree (translateSILRequire v).
Proof. unfold translateSILRequire. fuelfree_step. Qed.

Hint Resolve fuelfree_translateSILAssign fuelfree_translateSILAssignFresh
  fuelfree_translateSILMerge fuelfree_translateSILRequire : fuelfree.

Lemma fuelfree_translateSILStore a b : fuelfree (translateSILStore a b).
Proof. unfold translateSILStore. fuelfree_step. Qed.

Lemma fuelfree_translateSILApply inst : fuelfree (translateSILApply inst).
Proof.
  unfold translateSILApply.
  apply fuelfree_bind;
    [apply fuelfree_lift_outcome, fuelfree_getResult|intros res0].
  destruct (SILApplyCrossesIsolation inst).
  { apply fuelfree_bind; [|intros ?; fuelfree_step].
    apply fuelfree_translate_each. eauto with fuelfree. }
  case_bool_decide; [fuelfree_step|].
  apply fuelfree_bind; [|intros ?; fuelfree_step].
  case_bool_decide; [fuelfree_step|].
  apply fuelfree_translate_each. intros i. fuelfree_step.
Qed.

Hint Resolve fuelfree_translateSILStore fuelfree_translateSILApply : fuelfree.

Lemma fuelfree_translateSILInstruction inst :
  fuelfree (translateSILInstruction inst).
Proof.
  unfold translateSILInstruction, enterInstruction.
  apply fuelfree_bind; [fuelfree_step|intros _].
  pose proof (fuelfree_getResult inst). pose proof (fuelfree_getOperand inst).
  destruct (instKind inst);
    repeat first
      [ solve [eauto with fuelfree]
      | by apply fuelfree_lift_outcome
      | apply fuelfree_translate_each; intros ?
      | apply fuelfree_bind; [|intros ?] ].
Qed.

Lemma fuelfree_translateSILBasicBlock insts :
  fuelfree (translateSILBasicBlock insts).
Proof.
  apply fuelfree_translate_each, fuelfree_translateSILInstruction.
Qed.
End TranslatorFuelFree.

(** ** The solver: what a run that returns has done *)

Section SolverRuns.
Context {P : Type} `{Partition.Ops P} `{SILOracles}.
Implicit Types (a : PartitionAnalysis P) (st : BlockPartitionState P).

Lemma run_bind_inv {S A B} (m : Run S A) (f : A → Run S B) s r :
  (m ≫= f) s = Done r → ∃ x s', m s = Done (x, s') ∧ f x s' = Done r.
Proof.
  unfold mbind, Run_bind. destruct (m s) as [[x s']|e|]; [eauto|done|done].
Qed.

Lemma getBlockState_inv a b st a' :
  getBlockState b a = Done (st, a') → blockStates a !! b = Some st ∧ a' = a.
Proof.
  unfold getBlockState. unfold_run. simpl.
  destruct (blockStates a !! b); [|done]. by intros [= -> ->].
Qed.

Lemma modifyBlockState_inv a b f u a' :
  modifyBlockState b f a = Done (u, a') →
  ∃ st, blockStates a !! b = Some st
        ∧ a' = set_blockStates (<[b := f st]> (blockStates a)) a.
Proof.
  unfold modifyBlockState. unfold_run. simpl.
  destruct (blockStates a !! b) as [st|]; [|done]. intros [= _ <-]. eauto.
Qed.

Lemma getBlock_inv a b blk a' :
  getBlock b a = Done (blk, a') →
  fnBlocks (function a) !! b = Some blk ∧ a' = a.
Proof.
  unfold getBlock. unfold_run. simpl.
  destruct (fnBlocks (function a) !! b); [|done]. by intros [= -> ->].
Qed.

Lemma joinPredecessors_inv a preds acc first r :
  joinPredecessors preds acc first a = Done r →
  Forall (λ p, p < length (blockStates a)) preds.
Proof.
  revert acc first. induction preds as [|p preds IH]; intros acc first; [done|].
  cbn [joinPredecessors].
  intros (pst & a' & [Hp ->]%getBlockState_inv & Hrun)%run_bind_inv.
  constructor; [by eapply lookup_lt_Some|].
  destruct (negb (reached pst)); [|destruct first]; by eapply IH.
Qed.

Lemma for_each_flag_inv a succs r :
  for_each succs
    (λ succBlock, modifyBlockState succBlock (set_needsUpdate true)) a = Done r →
  Forall (λ s, s < length (blockStates a)) succs.
Proof.
  revert a. induction succs as [|s succs IH]; intros a; [done|].
  cbn [for_each].
  intros ([] & a' & (sst & Hs & ->)%modifyBlockState_inv & Hrun)%run_bind_inv.
  constructor; [by eapply lookup_lt_Some|].
  apply IH in Hrun. simpl in Hrun. by rewrite length_insert in Hrun.
Qed.

Lemma set_blockPartitionOps_id st :
  blockPartitionOpsPopulated st = true →
  set_blockPartitionOps (blockPartitionOps st) st = st.
Proof. destruct st. simpl. by intros ->. Qed.

Lemma set_translator_id a : set_translator (translator a) a = a.
Proof. by destruct a. Qed.

Lemma set_blockStates_id a : set_blockStates (blockStates a) a = a.
Proof. by destruct a. Qed.

(** The ops [recomputeExitFromEntry] replays for a block in state [st], and
    the translator it leaves: the ops the block holds, or the translation of
    the instructions of its basic block. *)
Definition opsOf a st (ops : list PartitionOp.t) (t' : TranslatorState) : Prop :=
  if blockPartitionOpsPopulated st
  then ops = blockPartitionOps st ∧ t' = translator a
  else ∃ blk, fnBlocks (function a) !! basicBlock st = Some blk
              ∧ PartitionOpTranslator.translateSILBasicBlock
                  (blockInstructions blk) (translator a) = Done (ops, t').

Lemma recomputeExitFromEntry_inv a b upd a' :
  recomputeExitFromEntry b a = Done (upd, a') →
  ∃ st ops t',
    blockStates a !! b = Some st
    ∧ opsOf a st ops t'
    ∧ upd = negb (Partition.equals (exitPartition st)
                    (replay ops (entryPartition st)))
    ∧ a' = set_blockStates
             (<[b := set_exitPartition (replay ops (entryPartition st))
                       (set_blockPartitionOps ops st)]> (blockStates a))
             (set_translator t' a).
Proof.
  unfold recomputeExitFromEntry, ensureBlockPartitionOpsPopulated.
  intros ([] & a1 & Hensure & Hrun)%run_bind_inv.
  apply run_bind_inv in Hensure as (st & a0 & [Hb ->]%getBlockState_inv & Hensure).
  assert (b < length (blockStates a)) as Hlt by by eapply lookup_lt_Some.
  exists st.
  destruct (blockPartitionOpsPopulated st) eqn:Hpop.
  - injection Hensure as <-.
    apply run_bind_inv in Hrun as (st' & a0 & [Hb' ->]%getBlockState_inv & Hrun).
    assert (st' = st) as -> by congruence.
    apply run_bind_inv in Hrun as ([] & a2 & (st' & Hb'' & ->)%modifyBlockState_inv & Hrun).
    assert (st' = st) as -> by congruence.
    injection Hrun as <- <-.
    exists (blockPartitionOps st), (translator a).
    rewrite set_blockPartitionOps_id, set_translator_id by done.
    unfold opsOf. by rewrite Hpop.
  - apply run_bind_inv in Hensure as (blk & a0 & [Hblk ->]%getBlock_inv & Hensure).
    apply run_bind_inv in Hensure as (ops & a0 & Hops & Hensure).
    unfold liftTranslator in Hops.
    destruct (PartitionOpTranslator.translateSILBasicBlock _ _)
      as [[ops' t']|e|] eqn:Htr; [|done..].
    injection Hops as -> <-.
    apply modifyBlockState_inv in Hensure as (st' & Hb' & ->).
    simpl in Hb'. assert (st' = st) as -> by congruence.
    apply run_bind_inv in Hrun as (st' & a0 & [Hb'' ->]%getBlockState_inv & Hrun).
    simpl in Hb''. rewrite list_lookup_insert_eq in Hb'' by done.
    injection Hb'' as <-.
    apply run_bind_inv in Hrun as ([] & a2 & (st' & Hb'' & ->)%modifyBlockState_inv & Hrun).
    simpl in Hb''. rewrite list_lookup_insert_eq in Hb'' by done.
    injection Hb'' as <-.
    injection Hrun as <- <-.
    exists ops, t'. split_and!; [done| |done|].
    { unfold opsOf. rewrite Hpop. by exists blk. }
    simpl. unfold set_blockStates, set_translator. simpl.
    by rewrite list_insert_insert_eq.
Qed.
End SolverRuns.

Section SolverBlockRuns.
Context {P : Type} `{Partition.Ops P} `{SILOracles}.
Implicit Types (a : PartitionAnalysis P) (st : BlockPartitionState P).

(** Every run of [solveBlock] that returns is one of three: the block did
    not need an update; its entry partition was found unchanged; or its exit
    partition was recomputed. *)
Lemma solveBlock_inv b (anyNeedUpdate any' : bool) a a' :
  solveBlock b anyNeedUpdate a = Done (any', a') →
  ∃ st, blockStates a !! b = Some st ∧
    ((needsUpdate st = false ∧ any' = anyNeedUpdate ∧ a' = a)
     ∨ (needsUpdate st = true
        ∧ ∃ blk, fnBlocks (function a) !! b = Some blk ∧
          let states :=
            <[b := set_reached true (set_needsUpdate false st)]> (blockStates a) in
          let reachedPreds :=
            reachedPredecessors states (getPredecessorBlocks blk) in
          let newEntry := joinOfExits states reachedPreds in
          ((reachedPreds ≠ []
            ∧ Partition.equals newEntry (entryPartition st) = true
            ∧ any' = anyNeedUpdate ∧ a' = set_blockStates states a)
           ∨ ∃ ops t',
               opsOf a st ops t'
               ∧ let entry := if bool_decide (reachedPreds = [])
                              then entryPartition st else newEntry in
                 let exit := replay ops entry in
                 let exitUpdated :=
                   negb (Partition.equals (exitPartition st) exit) in
                 let states' :=
                   <[b := solvedBlockState st entry exit ops]> states in
                 any' = anyNeedUpdate
                        || exitUpdated
                           && negb (bool_decide (getSuccessorBlocks blk = []))
                 ∧ a' = set_blockStates
                          (if exitUpdated
                           then flagSuccessors (getSuccessorBlocks blk) states'
                           else states')
                          (set_translator t' a)))).
Proof.
  unfold solveBlock.
  intros (st & a0 & [Hb ->]%getBlockState_inv & Hrun)%run_bind_inv.
  assert (b < length (blockStates a)) as Hlt by by eapply lookup_lt_Some.
  exists st. split; [done|].
  destruct (needsUpdate st) eqn:Hneeds; cbn [negb] in Hrun.
  2:{ left. by injection Hrun as <- <-. }
  right. split; [done|].
  apply run_bind_inv in Hrun
    as ([] & a1 & (st' & Hb' & ->)%modifyBlockState_inv & Hrun).
  assert (st' = st) as -> by congruence. clear Hb'.
  apply run_bind_inv in Hrun
    as ([] & a1 & (st' & Hb' & ->)%modifyBlockState_inv & Hrun).
  simpl in Hb'. rewrite list_lookup_insert_eq in Hb' by done.
  injection Hb' as <-. simpl in Hrun.
  rewrite list_insert_insert_eq in Hrun.
  set (visited := set_reached true (set_needsUpdate false st)) in *.
  set (states := <[b := visited]> (blockStates a)) in *.
  assert (length states = length (blockStates a)) as Hlen
    by (unfold states; by rewrite length_insert).
  set (a1 := set_blockStates states a) in *.
  apply run_bind_inv in Hrun as (blk & a0 & [Hblk ->]%getBlock_inv & Hrun).
  exists blk. split; [done|]. cbv zeta.
  apply run_bind_inv in Hrun as ([newEntry firstPred] & a0 & Hjoin & Hrun).
  pose proof (joinPredecessors_inv _ _ _ _ _ Hjoin) as Hpreds.
  rewrite joinPredecessors_joinOfExits in Hjoin by done.
  injection Hjoin as <- <- <-.
  cbn [blockStates a1 set_blockStates] in Hrun.
  set (reachedPreds := reachedPredecessors states (getPredecessorBlocks blk)) in *.
  set (newEntry := joinOfExits states reachedPreds) in *.
  apply run_bind_inv in Hrun as (st' & a0 & [Hb' ->]%getBlockState_inv & Hrun).
  simpl in Hb'. unfold states in Hb'.
  rewrite list_lookup_insert_eq in Hb' by done. injection Hb' as <-.
  change (entryPartition visited) with (entryPartition st) in Hrun.
  destruct (decide (reachedPreds = [])) as [Hnone|Hsome].
  - rewrite (bool_decide_eq_true_2 _ Hnone) in Hrun. cbn [negb andb] in Hrun.
    right.
    apply run_bind_inv in Hrun as ([] & a0 & [= <-] & Hrun).
    apply run_bind_inv in Hrun as (upd & a2 & Hrec & Hrun).
    apply recomputeExitFromEntry_inv in Hrec
      as (st' & ops & t' & Hb' & Hops & -> & ->).
    simpl in Hb'. unfold states in Hb'.
    rewrite list_lookup_insert_eq in Hb' by done. injection Hb' as <-.
    exists ops, t'. split; [done|].
    rewrite (bool_decide_eq_true_2 _ Hnone).
    change (entryPartition visited) with (entryPartition st) in *.
    change (exitPartition visited) with (exitPartition st) in *.
    set (exit := replay ops (entryPartition st)) in *.
    assert (set_exitPartition exit (set_blockPartitionOps ops visited)
            = solvedBlockState st (entryPartition st) exit ops) as Heq by done.
    rewrite Heq in Hrun. clear Heq. cbn [blockStates a1 set_blockStates] in Hrun.
    destruct (negb (Partition.equals (exitPartition st) exit)); cbn [andb orb].
    + apply run_bind_inv in Hrun as ([] & a3 & Hflag & Hrun).
      pose proof (for_each_flag_inv _ _ _ Hflag) as Hsuccs.
      rewrite for_each_flag in Hflag by done.
      injection Hflag as <-. by injection Hrun as <- <-.
    + injection Hrun as <- <-. by rewrite orb_false_r.
  - rewrite (bool_decide_eq_false_2 _ Hsome) in Hrun. cbn [negb andb] in Hrun.
    destruct (Partition.equals newEntry (entryPartition st)) eqn:Hequals.
    { left. by injection Hrun as <- <-. }
    right.
    apply run_bind_inv in Hrun
      as ([] & a0 & (st' & Hb' & ->)%modifyBlockState_inv & Hrun).
    simpl in Hb'. unfold states in Hb'.
    rewrite list_lookup_insert_eq in Hb' by done. injection Hb' as <-.
    apply run_bind_inv in Hrun as (upd & a2 & Hrec & Hrun).
    apply recomputeExitFromEntry_inv in Hrec
      as (st' & ops & t' & Hb' & Hops & -> & ->).
    simpl in Hb'. rewrite list_lookup_insert_eq in Hb' by (by rewrite Hlen).
    injection Hb' as <-.
    exists ops, t'. split; [done|].
    rewrite (bool_decide_eq_false_2 _ Hsome).
    change (entryPartition (set_entryPartition newEntry visited))
      with newEntry in *.
    change (exitPartition (set_entryPartition newEntry visited))
      with (exitPartition st) in *.
    set (exit := replay ops newEntry) in *.
    assert (set_exitPartition exit
              (set_blockPartitionOps ops (set_entryPartition newEntry visited))
            = solvedBlockState st newEntry exit ops) as Heq by done.
    rewrite Heq in Hrun. clear Heq.
    cbn [blockStates a1 set_blockStates set_translator] in Hrun.
    rewrite list_insert_insert_eq in Hrun.
    destruct (negb (Partition.equals (exitPartition st) exit)); cbn [andb orb].
    + apply run_bind_inv in Hrun as ([] & a3 & Hflag & Hrun).
      pose proof (for_each_flag_inv _ _ _ Hflag) as Hsuccs.
      rewrite for_each_flag in Hflag by done.
      injection Hflag as <-. by injection Hrun as <- <-.
    + injection Hrun as <- <-. by rewrite orb_false_r.
Qed.
End SolverBlockRuns.

(** ** The solver: exit partitions only grow *)

Section SolverOrder.
Context {P : Type} `{PartitionLattice P}.
Implicit Types (st : BlockPartitionState P) (A F : list (BlockPartitionState P)).

Lemma replay_monotone ops p q :
  below p q → below (replay ops p) (replay ops q).
Proof.
  revert p q. induction ops as [|op ops IH]; intros p q Hpq; [done|].
  simpl. apply IH. by apply apply_monotone.
Qed.

Lemma foldl_join_above_acc A (l : list BlockId) acc :
  below acc (foldl (λ acc q, Partition.join acc (exitOf A q)) acc l).
Proof.
  revert acc. induction l as [|x l IH]; intros acc; simpl; [apply below_refl|].
  eapply below_trans; [apply join_above_l|apply IH].
Qed.

Lemma foldl_join_above_elem A (l : list BlockId) acc q :
  q ∈ l →
  below (exitOf A q) (foldl (λ acc q, Partition.join acc (exitOf A q)) acc l).
Proof.
  revert acc. induction l as [|x l IH]; intros acc Hq; [by inversion Hq|].
  simpl. apply elem_of_cons in Hq as [->|Hq]; [|by apply IH].
  eapply below_trans; [apply join_above_r|apply foldl_join_above_acc].
Qed.

Lemma foldl_join_least A (l : list BlockId) acc r :
  below acc r → (∀ q, q ∈ l → below (exitOf A q) r) →
  below (foldl (λ acc q, Partition.join acc (exitOf A q)) acc l) r.
Proof.
  revert acc. induction l as [|x l IH]; intros acc Hacc Hl; [done|].
  simpl. apply IH.
  - apply join_least; [done|]. apply Hl. by left.
  - intros q Hq. apply Hl. by right.
Qed.

Lemma joinOfExits_above A l q :
  q ∈ l → below (exitOf A q) (joinOfExits A l).
Proof.
  destruct l as [|b l]; [by inversion 1|].
  intros [->|Hq]%elem_of_cons; simpl.
  - apply foldl_join_above_acc.
  - by apply foldl_join_above_elem.
Qed.

Lemma joinOfExits_least A l r :
  l ≠ [] → (∀ q, q ∈ l → below (exitOf A q) r) → below (joinOfExits A l) r.
Proof.
  destruct l as [|b l]; [done|]. intros _ Hl. simpl.
  apply foldl_join_least; [apply Hl; by left|].
  intros q Hq. apply Hl. by right.
Qed.

(** From [A] to [F] no block stops being reached and no exit partition
    shrinks. *)
Definition evolves A F : Prop :=
  length A = length F
  ∧ ∀ c st st', A !! c = Some st → F !! c = Some st' →
      (reached st = true → reached st' = true)
      ∧ below (exitPartition st) (exitPartition st').

Lemma evolves_refl A : evolves A A.
Proof.
  split; [done|]. intros c st st' Hc Hc'.
  assert (st' = st) as -> by congruence. split; [done|apply below_refl].
Qed.

Lemma evolves_trans A F G : evolves A F → evolves F G → evolves A G.
Proof.
  intros [Hlen1 H1] [Hlen2 H2]. split; [congruence|].
  intros c st st'' Hc Hc''.
  destruct (lookup_lt_is_Some_2 F c) as [st' Hc'].
  { rewrite <- Hlen1. by eapply lookup_lt_Some. }
  destruct (H1 _ _ _ Hc Hc') as [Hr1 Hb1].
  destruct (H2 _ _ _ Hc' Hc'') as [Hr2 Hb2].
  split; [auto|by eapply below_trans].
Qed.

Lemma evolves_reached A F preds q :
  evolves A F → q ∈ reachedPredecessors A preds →
  q ∈ reachedPredecessors F preds ∧ below (exitOf A q) (exitOf F q).
Proof.
  intros [Hlen Hev]. unfold reachedPredecessors.
  intros [Hreached Hq]%list_elem_of_filter.
  destruct (A !! q) as [st|] eqn:Hst; [|done].
  injection Hreached as Hreached.
  destruct (lookup_lt_is_Some_2 F q) as [st' Hst'].
  { rewrite <- Hlen. by eapply lookup_lt_Some. }
  destruct (Hev _ _ _ Hst Hst') as [Hr Hb]. split.
  - apply list_elem_of_filter. split; [|done]. rewrite Hst'. simpl.
    by rewrite Hr.
  - unfold exitOf. by rewrite Hst, Hst'.
Qed.

Lemma evolves_join A F preds :
  evolves A F → reachedPredecessors A preds ≠ [] →
  reachedPredecessors F preds ≠ []
  ∧ below (joinOfExits A (reachedPredecessors A preds))
      (joinOfExits F (reachedPredecessors F preds)).
Proof.
  intros Hev Hne. split.
  - destruct (reachedPredecessors A preds) as [|q l] eqn:HA; [done|].
    destruct (evolves_reached A F preds q Hev) as [Hq _].
    { rewrite HA. by left. }
    intros Hnil. rewrite Hnil in Hq. by inversion Hq.
  - apply joinOfExits_least; [done|]. intros q Hq.
    destruct (evolves_reached A F preds q Hev Hq) as [HqF Hb].
    eapply below_trans; [done|by apply joinOfExits_above].
Qed.

Lemma entry_ok_evolves fn A F c st st' :
  evolves A F → entryPartition st' = entryPartition st →
  entry_ok fn A c st → entry_ok fn F c st'.
Proof.
  intros Hev Hentry Hok blk Hblk. rewrite Hentry.
  destruct (Hok blk Hblk) as [Hnone|[Hbot|[Hne Hbelow]]]; [by left|by right; left|].
  right. right. destruct (evolves_join A F _ Hev Hne) as [Hne' Hjoin].
  split; [done|by eapply below_trans].
Qed.
End SolverOrder.

Section SolverHeights.
Context {P : Type} `{PartitionLattice P}.
Implicit Types (st : BlockPartitionState P) (A F : list (BlockPartitionState P)).

Lemma exitHeights_insert A b st st' :
  A !! b = Some st →
  exitHeights (<[b := st']> A) + height (exitPartition st)
  = exitHeights A + height (exitPartition st').
Proof.
  unfold exitHeights. revert b.
  induction A as [|x A IH]; intros [|b] Hb; simplify_eq/=; [lia|].
  specialize (IH b Hb). lia.
Qed.

Lemma exitHeights_bound A : exitHeights A ≤ length A * maxHeight.
Proof.
  unfold exitHeights. induction A as [|x A IH]; simpl; [lia|].
  pose proof (height_bounded (exitPartition x)). lia.
Qed.

Lemma evolves_flag succs F : evolves F (flagSuccessors succs F).
Proof.
  split; [by rewrite flagSuccessors_length|].
  intros c st st' Hc. rewrite flagSuccessors_lookup, Hc. simpl.
  intros [= <-]. case_bool_decide; split; (done || apply below_refl).
Qed.

Lemma exitHeights_flag succs F :
  exitHeights (flagSuccessors succs F) = exitHeights F.
Proof.
  unfold exitHeights. f_equal. apply list_eq. intros c.
  rewrite !list_lookup_fmap, flagSuccessors_lookup.
  destruct (F !! c) as [st|]; [|done]. simpl. by case_bool_decide.
Qed.

Lemma block_ok_flag fn succs F c st' :
  flagSuccessors succs F !! c = Some st' →
  (∀ st, F !! c = Some st → block_ok fn F c st) →
  block_ok fn (flagSuccessors succs F) c st'.
Proof.
  rewrite flagSuccessors_lookup. destruct (F !! c) as [st|] eqn:Hc; [|done].
  simpl. intros [= <-] Hok. destruct (Hok st eq_refl) as [Hexit Hentry]. split.
  - by case_bool_decide.
  - eapply entry_ok_evolves; [apply evolves_flag| |done]. by case_bool_decide.
Qed.
End SolverHeights.

Section SolverStepOk.
Context {P : Type} `{PartitionLattice P} `{SILOracles}.
Implicit Types (a : PartitionAnalysis P) (st : BlockPartitionState P).
Implicit Types (A F : list (BlockPartitionState P)).

Lemma evolves_insert A b st new :
  A !! b = Some st →
  (reached st = true → reached new = true) →
  below (exitPartition st) (exitPartition new) →
  evolves A (<[b := new]> A).
Proof.
  intros Hb Hreached Hbelow. split; [by rewrite length_insert|].
  intros c st1 st2 Hc. destruct (decide (b = c)) as [->|Hne].
  - rewrite list_lookup_insert_eq by by eapply lookup_lt_Some.
    intros [= <-]. by assert (st1 = st) as -> by congruence.
  - rewrite list_lookup_insert_ne by done. intros Hc'.
    assert (st2 = st1) as -> by congruence. split; [done|apply below_refl].
Qed.

(** The invariant survives a change of one block that keeps what it says
    of that block. *)
Lemma solver_ok_update a b st new :
  solver_ok a → blockStates a !! b = Some st →
  (reached st = true → reached new = true) →
  below (exitPartition st) (exitPartition new) →
  exit_ok new →
  (entryPartition new = entryPartition st
   ∨ entry_ok (function a) (<[b := new]> (blockStates a)) b new) →
  ∀ c st0, <[b := new]> (blockStates a) !! c = Some st0 →
           block_ok (function a) (<[b := new]> (blockStates a)) c st0.
Proof.
  intros Hok Hb Hreached Hbelow Hexit Hentry c st0.
  pose proof (evolves_insert _ _ _ _ Hb Hreached Hbelow) as Hev.
  destruct (decide (b = c)) as [<-|Hne].
  - rewrite list_lookup_insert_eq by by eapply lookup_lt_Some.
    intros [= <-]. split; [done|].
    destruct Hentry as [Hsame|Hdirect]; [|done].
    eapply entry_ok_evolves; [done..|]. by apply (Hok b st Hb).
  - rewrite list_lookup_insert_ne by done. intros Hc.
    destruct (Hok c st0 Hc) as [Hx He]. split; [done|].
    by eapply entry_ok_evolves.
Qed.

(** What one turn, or a run of turns over the blocks [visited], has brought
    about: the invariant still holds; the sum of the heights has not gone
    down, and has gone up if [anyNeedUpdate] was set; and if it is not set,
    no flag was raised and the flags of the visited blocks are down. *)
Definition advances (visited : list BlockId) (anyNeedUpdate any' : bool)
    a a' : Prop :=
  solver_ok a'
  ∧ function a' = function a
  ∧ length (blockStates a') = length (blockStates a)
  ∧ exitHeights (blockStates a) ≤ exitHeights (blockStates a')
  ∧ (anyNeedUpdate = true → any' = true)
  ∧ (any' = true →
     anyNeedUpdate = true
     ∨ exitHeights (blockStates a) < exitHeights (blockStates a'))
  ∧ (any' = false →
     ∀ c st', blockStates a' !! c = Some st' → needsUpdate st' = true →
       (c ∉ visited)
       ∧ ∃ st, blockStates a !! c = Some st ∧ needsUpdate st = true).

Lemma advances_nil anyNeedUpdate a :
  solver_ok a → advances [] anyNeedUpdate anyNeedUpdate a a.
Proof.
  intros Hok. split_and!; [done|done|done|done|done|by left|].
  intros _ c st' Hc Hneeds. split; [by inversion 1|eauto].
Qed.

Lemma advances_app l1 l2 any0 any1 any2 a0 a1 a2 :
  advances l1 any0 any1 a0 a1 → advances l2 any1 any2 a1 a2 →
  advances (l1 ++ l2) any0 any2 a0 a2.
Proof.
  intros (Hok1 & Hfn1 & Hlen1 & Hle1 & Hup1 & Hlt1 & Hflag1)
         (Hok2 & Hfn2 & Hlen2 & Hle2 & Hup2 & Hlt2 & Hflag2).
  split_and!; [done|congruence|congruence|lia|auto| |].
  - intros Hany2. destruct (Hlt2 Hany2) as [Hany1|Hlt]; [|right; lia].
    destruct (Hlt1 Hany1) as [Hany0|Hlt]; [by left|right; lia].
  - intros Hany2 c st2 Hc2 Hneeds2.
    destruct (Hflag2 Hany2 c st2 Hc2 Hneeds2) as [Hnot2 (st1 & Hc1 & Hneeds1)].
    assert (any1 = false) as Hany1
      by (destruct any1; [by rewrite Hup2 in Hany2|done]).
    destruct (Hflag1 Hany1 c st1 Hc1 Hneeds1) as [Hnot1 Hst0].
    split; [|done]. rewrite elem_of_app. tauto.
Qed.

Lemma solveBlock_ok b (anyNeedUpdate any' : bool) a a' :
  solver_ok a → solveBlock b anyNeedUpdate a = Done (any', a') →
  advances [b] anyNeedUpdate any' a a'.
Proof.
  intros Hok (st & Hb & Hcases)%solveBlock_inv.
  assert (b < length (blockStates a)) as Hlt by by eapply lookup_lt_Some.
  destruct (Hok b st Hb) as [Hexit_st Hentry_st].
  destruct Hcases as [(Hneeds & -> & ->)|(Hneeds & blk & Hblk & Hcases)].
  { split_and!; [done|done|done|done|done|by left|].
    intros _ c st' Hc Hneeds'. split; [|eauto].
    intros ->%list_elem_of_singleton. congruence. }
  cbv zeta in Hcases.
  set (visited := set_reached true (set_needsUpdate false st)) in *.
  set (states := <[b := visited]> (blockStates a)) in *.
  set (reachedPreds := reachedPredecessors states (getPredecessorBlocks blk)) in *.
  set (newEntry := joinOfExits states reachedPreds) in *.
  assert (evolves (blockStates a) states) as Hev1.
  { eapply evolves_insert; [done|done|apply below_refl]. }
  assert (states !! b = Some visited) as Hb1
    by (by apply list_lookup_insert_eq).
  assert (∀ new c st', <[b := new]> (blockStates a) !! c = Some st' →
            needsUpdate new = false → needsUpdate st' = true →
            (c ∉ [b])
            ∧ ∃ st, blockStates a !! c = Some st ∧ needsUpdate st = true)
    as Hflags.
  { intros new c st' Hc HF Hneeds'. destruct (decide (b = c)) as [<-|Hne].
    - rewrite list_lookup_insert_eq in Hc by done. congruence.
    - rewrite list_lookup_insert_ne in Hc by done.
      split; [by intros ?%list_elem_of_singleton|eauto]. }
  destruct Hcases as [(Hsome & Hequals & -> & ->)|(ops & t' & Hops & -> & ->)].
  - (* the entry partition is unchanged *)
    split_and!;
      [|done|simpl; unfold states; by rewrite length_insert| |done|by left|].
    + intros c st0. simpl.
      eapply solver_ok_update; [done..|apply below_refl|done|by left].
    + simpl. pose proof (exitHeights_insert _ _ _ visited Hb). simpl in *.
      unfold states. lia.
    + intros _ c st'. simpl. intros Hc. by eapply Hflags.
  - (* the exit partition is recomputed *)
    set (entry := if bool_decide (reachedPreds = []) then entryPartition st
                  else newEntry) in *.
    set (exit := replay ops entry) in *.
    set (solved := solvedBlockState st entry exit ops) in *.
    set (F0 := <[b := solved]> states) in *.
    assert (F0 = <[b := solved]> (blockStates a)) as HF0
      by (unfold F0, states; by rewrite list_insert_insert_eq).
    assert (below (entryPartition st) entry) as Hentry.
    { unfold entry. case_bool_decide as Hnone; [apply below_refl|].
      destruct (Hentry_st blk Hblk) as [Hnopreds|[Hbot|[Hne Hbelow]]].
      - exfalso. apply Hnone. unfold reachedPreds. by rewrite Hnopreds.
      - apply Hbot.
      - destruct (evolves_join _ _ _ Hev1 Hne) as [_ Hjoin].
        by eapply below_trans. }
    assert (below (exitPartition st) exit) as Hexit.
    { destruct Hexit_st as [Hbot|[Hpop Hbelow]]; [apply Hbot|].
      unfold opsOf in Hops. rewrite Hpop in Hops. destruct Hops as [-> _].
      eapply below_trans; [done|by apply replay_monotone]. }
    assert (∀ c st0, F0 !! c = Some st0 → block_ok (function a) F0 c st0)
      as HokF0.
    { rewrite HF0. eapply solver_ok_update; [done..| |].
      - right. split; [done|apply below_refl].
      - destruct (decide (reachedPreds = [])) as [Hnone|Hnone].
        { left. unfold solved, entry. simpl.
          by rewrite (bool_decide_eq_true_2 _ Hnone). }
        right. intros blk' Hblk'. assert (blk' = blk) as -> by congruence.
        right. right. rewrite <- HF0.
        assert (evolves states F0) as Hev2
          by (by eapply evolves_insert).
        destruct (evolves_join _ _ (getPredecessorBlocks blk) Hev2 Hnone)
          as [Hne Hjoin].
        split; [done|]. unfold solved, entry. simpl.
        by rewrite (bool_decide_eq_false_2 _ Hnone). }
    assert (exitHeights F0 + height (exitPartition st)
            = exitHeights (blockStates a) + height exit) as Hheights.
    { rewrite HF0. by rewrite (exitHeights_insert _ _ _ solved Hb). }
    pose proof (height_monotone _ _ Hexit) as Hmono.
    destruct (Partition.equals (exitPartition st) exit) eqn:Hequals;
      cbn [negb andb].
    + rewrite orb_false_r.
      split_and!; [|done| | |done|by left|].
      * intros c st'. simpl. apply HokF0.
      * simpl. unfold F0, states. by rewrite !length_insert.
      * simpl. lia.
      * intros _ c st'. simpl. rewrite HF0. intros Hc. by eapply Hflags.
    + assert (height (exitPartition st) < height exit) as Hstrict.
      { apply height_strict; [done|]. intros Hback.
        assert (Partition.equals (exitPartition st) exit = true)
          by (by apply equals_below).
        congruence. }
      split_and!.
      * intros c st'. simpl. intros Hc. eapply block_ok_flag; [done|].
        apply HokF0.
      * done.
      * simpl. rewrite flagSuccessors_length. unfold F0, states.
        by rewrite !length_insert.
      * simpl. rewrite exitHeights_flag. lia.
      * by intros ->.
      * intros _. right. simpl. rewrite exitHeights_flag. lia.
      * intros Hany c st'. simpl.
        apply orb_false_iff in Hany as [-> Hnil].
        apply negb_false_iff, bool_decide_eq_true in Hnil. rewrite Hnil.
        simpl. rewrite HF0. intros Hc. by eapply Hflags.
Qed.

Lemma sweep_ok blocks (anyNeedUpdate any' : bool) a a' :
  solver_ok a → sweep blocks anyNeedUpdate a = Done (any', a') →
  advances blocks anyNeedUpdate any' a a'.
Proof.
  revert anyNeedUpdate a. induction blocks as [|b blocks IH];
    intros anyNeedUpdate a Hok; simpl.
  - intros [= <- <-]. by apply advances_nil.
  - intros (any1 & a1 & Hstep & Hrest)%run_bind_inv.
    pose proof (solveBlock_ok _ _ _ _ _ Hok Hstep) as Hadv.
    change (b :: blocks) with ([b] ++ blocks).
    eapply advances_app; [done|]. apply IH; [apply Hadv|done].
Qed.
End SolverStepOk.

(** ** Runs that settle *)

Section Settles.
Context {S : Type}.

Lemma settles_with_bind {A B} (Q1 : A → S → Prop) (Q2 : B → S → Prop)
    (m : nat → Run S A) (f : nat → A → Run S B) s :
  settles_with Q1 m s →
  (∀ x s', Q1 x s' → settles_with Q2 (λ fuel, f fuel x) s') →
  settles_with Q2 (λ fuel, m fuel ≫= f fuel) s.
Proof.
  intros (N1 & r1 & Hm & Hr1) Hf. unfold mbind, Run_bind.
  destruct r1 as [[x s']|e|]; [|by exists N1, (Abort e); split;
    [intros fuel Hfuel; by rewrite Hm|]|done].
  destruct (Hf x s' Hr1) as (N2 & r2 & Hfx & Hr2).
  exists (N1 `max` N2), r2. split; [|done].
  intros fuel Hfuel. rewrite Hm by lia. apply Hfx. lia.
Qed.

Lemma settles_with_fuelfree {A} (Q : A → S → Prop) (m : Run S A) s :
  fuelfree m → (∀ x s', m s = Done (x, s') → Q x s') →
  settles_with Q (λ _, m) s.
Proof.
  intros Hm HQ. exists 0, (m s). split; [done|].
  destruct (m s) as [[x s']|e|] eqn:Hms; [by apply HQ|done|by apply Hm in Hms].
Qed.

Lemma settles_with_weaken {A} (Q1 Q2 : A → S → Prop) (m : nat → Run S A) s :
  settles_with Q1 m s → (∀ x s', Q1 x s' → Q2 x s') → settles_with Q2 m s.
Proof.
  intros (N & r & Hm & Hr) HQ. exists N, r. split; [done|].
  destruct r as [[x s']|e|]; auto.
Qed.

(** One unit of fuel is spent before the rest runs. *)
Lemma settles_with_succ {A} (Q : A → S → Prop) (m body : nat → Run S A) s s1 :
  (∀ fuel, m (Datatypes.S fuel) s = body fuel s1) →
  settles_with Q body s1 → settles_with Q m s.
Proof.
  intros Hstep (N & r & Hbody & Hr). exists (Datatypes.S N), r.
  split; [|done]. intros [|fuel] Hfuel; [lia|].
  rewrite Hstep. apply Hbody. lia.
Qed.
End Settles.

(** ** The solver settles *)

Section SolverFuelFree.
Context {P : Type} `{Partition.Ops P} `{SILOracles}.

Lemma fuelfree_getBlockState b : fuelfree (getBlockState (P:=P) b).
Proof. unfold getBlockState. fuelfree_step. Qed.

Lemma fuelfree_modifyBlockState b f : fuelfree (modifyBlockState (P:=P) b f).
Proof. unfold modifyBlockState. fuelfree_step. Qed.

Lemma fuelfree_getBlock b : fuelfree (getBlock (P:=P) b).
Proof. unfold getBlock. fuelfree_step. Qed.

Lemma fuelfree_liftTranslator {A} (m : Translate A) :
  fuelfree m → fuelfree (liftTranslator (P:=P) m).
Proof.
  intros Hm a. unfold liftTranslator.
  destruct (m (translator a)) as [[x t']|e|] eqn:Hma; [done|done|].
  by apply Hm in Hma.
Qed.

Hint Resolve fuelfree_getBlockState fuelfree_modifyBlockState
  fuelfree_getBlock : fuelfree.

Lemma fuelfree_recomputeExitFromEntry b :
  fuelfree (recomputeExitFromEntry (P:=P) b).
Proof.
  unfold recomputeExitFromEntry, ensureBlockPartitionOpsPopulated.
  pose proof fuelfree_translateSILBasicBlock.
  pose proof @fuelfree_liftTranslator. fuelfree_step.
Qed.

Lemma fuelfree_joinPredecessors preds acc first :
  fuelfree (joinPredecessors (P:=P) preds acc first).
Proof.
  revert acc first. induction preds as [|p preds IH]; intros acc first; simpl;
    fuelfree_step.
Qed.

Hint Resolve fuelfree_recomputeExitFromEntry fuelfree_joinPredecessors
  : fuelfree.

Lemma fuelfree_solveBlock b anyNeedUpdate :
  fuelfree (solveBlock (P:=P) b anyNeedUpdate).
Proof. unfold solveBlock. fuelfree_step. Qed.

Lemma fuelfree_sweep blocks anyNeedUpdate :
  fuelfree (sweep (P:=P) blocks anyNeedUpdate).
Proof.
  revert anyNeedUpdate. pose proof fuelfree_solveBlock.
  induction blocks as [|b blocks IH]; intros anyNeedUpdate; simpl;
    fuelfree_step.
Qed.
End SolverFuelFree.

Section SolverSettles.
Context {P : Type} `{PartitionLattice P} `{SILOracles}.
Implicit Types (a : PartitionAnalysis P).

(** With [k] at least what the heights can still grow by, more than [k]
    units of fuel are enough for the loop. *)
Lemma solveLoop_ends k a fuel :
  solver_ok a →
  length (blockStates a) * maxHeight ≤ exitHeights (blockStates a) + k →
  k < fuel →
  match solveLoop fuel a with
  | Done (_, a') => noneNeedsUpdate a' ∧ solver_ok a'
  | Abort _ => True
  | OutOfFuel => False
  end.
Proof.
  revert a fuel. induction k as [|k IH]; intros a [|fuel] Hok Hbound Hfuel;
    try lia; cbn [solveLoop]; unfold mbind, Run_bind, get_state;
    (destruct (sweep _ false a) as [[any' a1]|e|] eqn:Hsweep;
     [|done|by apply fuelfree_sweep in Hsweep]);
    destruct (sweep_ok _ _ _ _ _ Hok Hsweep)
      as (Hok1 & Hfn & Hlen & Hle & _ & Hlt & Hflags);
    pose proof (exitHeights_bound (blockStates a1)) as Hmax;
    (destruct any';
     [destruct (Hlt eq_refl) as [?|Hgrow]; [done|]|
      split; [|done]; intros c st' Hc;
      destruct (needsUpdate st') eqn:Hneeds; [|done];
      destruct (Hflags eq_refl c st' Hc Hneeds) as [Hnot _];
      exfalso; apply Hnot, elem_of_seq;
      apply lookup_lt_Some in Hc; lia]).
  - rewrite Hlen in Hmax. lia.
  - apply IH; [done| |lia]. rewrite Hlen. lia.
Qed.

Lemma solveLoop_more fuel fuel' a :
  solveLoop fuel a ≠ OutOfFuel → fuel ≤ fuel' →
  solveLoop fuel' a = solveLoop fuel a.
Proof.
  revert fuel' a. induction fuel as [|fuel IH]; intros [|fuel'] a Hr Hle;
    try done; try lia.
  revert Hr. cbn [solveLoop]. unfold mbind, Run_bind, get_state.
  destruct (sweep _ false a) as [[[] a1]|e|]; try done.
  intros Hr. apply IH; [done|lia].
Qed.

Lemma solver_ok_set_solved v a : solver_ok a → solver_ok (set_solved v a).
Proof. done. Qed.

(** From a state where the invariant holds, [solve] settles: it stops on a
    failure of the translation or of a lookup, or it returns with no block
    left that needs an update. *)
Lemma solve_settles a :
  solver_ok a →
  settles_with (λ _ a', noneNeedsUpdate a' ∧ solver_ok a') solve a.
Proof.
  intros Hok. unfold solve.
  destruct (solved a) eqn:Hsolved.
  { exists 0, (Abort AssertionFailure). split; [|done]. intros fuel _.
    unfold_run. simpl. by rewrite Hsolved. }
  remember (Datatypes.S (length (blockStates a) * maxHeight)) as N eqn:HN.
  assert (match solveLoop N (set_solved true a) with
          | Done (_, a') => noneNeedsUpdate a' ∧ solver_ok a'
          | Abort _ => True
          | OutOfFuel => False
          end) as Hends.
  { apply (solveLoop_ends (length (blockStates a) * maxHeight));
      [by apply solver_ok_set_solved|simpl; lia|lia]. }
  exists N, (solveLoop N (set_solved true a)). split; [|done].
  intros fuel Hfuel. unfold_run. rewrite Hsolved. cbn [negb].
  apply solveLoop_more; [|done].
  intros Habs. by rewrite Habs in Hends.
Qed.
End SolverSettles.

(** ** The breadth-first search settles *)

Section BfsSettles.
Implicit Types (joins : list (N * list N)) (queue dist : list (N * N)).

Lemma N_ltb_StrictTotal : StrictTotal N.ltb.
Proof.
  split.
  - intros x. apply N.ltb_irrefl.
  - intros x y z ?%N.ltb_lt ?%N.ltb_lt. apply N.ltb_lt. lia.
  - intros x y ?%N.ltb_ge ?%N.ltb_ge. lia.
Qed.

Lemma omap_lookup_None_iff {V} k (m : list (N * V)) :
  ascending N.ltb m.*1 → omap_lookup N.ltb k m = None ↔ k ∉ m.*1.
Proof.
  intros Hasc. split.
  - intros Hnone ([k' v] & Heq & Hin)%list_elem_of_fmap. simpl in Heq. subst k'.
    apply (omap_lookup_Some N.ltb N_ltb_StrictTotal) in Hin; [|done].
    congruence.
  - intros Hnot. destruct (omap_lookup N.ltb k m) as [v|] eqn:Hlook; [|done].
    apply (omap_lookup_Some N.ltb N_ltb_StrictTotal) in Hlook; [|done].
    exfalso. apply Hnot. apply list_elem_of_fmap. by exists (k, v).
Qed.

(** The values that have a distance. *)
Definition reachedValues dist : gset N := list_to_set dist.*1.

(** The entries of the queue whose value has a distance already. *)
Definition stale (D : gset N) queue : nat :=
  length (filter (λ e, e.1 ∈ D) queue).

Lemma stale_app D q1 q2 : stale D (q1 ++ q2) = stale D q1 + stale D q2.
Proof. unfold stale. by rewrite filter_app, length_app. Qed.

Lemma stale_none D queue : (∀ e, e ∈ queue → e.1 ∉ D) → stale D queue = 0.
Proof.
  intros Hq. unfold stale. induction queue as [|e queue IH]; [done|].
  rewrite filter_cons. destruct (decide (e.1 ∈ D)) as [Hin|Hnot].
  - exfalso. by apply (Hq e); [left|].
  - apply IH. intros e' He'. apply Hq. by right.
Qed.

Lemma reachedValues_insert k d dist :
  reachedValues (omap_insert N.ltb k d dist) = {[k]} ∪ reachedValues dist.
Proof.
  apply set_eq. intros x. unfold reachedValues.
  rewrite elem_of_union, !elem_of_list_to_set, elem_of_singleton.
  apply (omap_insert_keys N.ltb N_ltb_StrictTotal).
Qed.

(** The search ends: every turn either gives a distance to a value of [U]
    that had none, or takes from the queue an entry whose value had one. *)
Lemma bfs_settles joins (U : gset N) :
  (∀ k vs x, omap_lookup N.ltb k joins = Some vs → x ∈ vs → x ∈ U) →
  ∀ n c queue dist,
    ascending N.ltb dist.*1 →
    (∀ e, e ∈ queue → e.1 ∈ U) →
    size (U ∖ reachedValues dist) ≤ n →
    stale (reachedValues dist) queue ≤ c →
    ∃ N r, r ≠ OutOfFuel ∧ ∀ fuel, N ≤ fuel → bfs fuel joins queue dist = r.
Proof.
  intros HU. induction n as [n IHn] using lt_wf_ind.
  induction c as [c IHc] using lt_wf_ind.
  intros [|[cur d] rest] dist Hasc Hqueue Hsize Hstale.
  { exists 0, (Done dist). split; [done|]. by intros [|fuel] _. }
  set (dist' := omap_insert N.ltb cur d dist).
  set (pushed :=
         filter (λ nextTarget, omap_lookup N.ltb nextTarget dist' = None)
           (default [] (omap_lookup N.ltb cur joins))).
  set (queue' := rest ++ map (λ nextTarget, (nextTarget, wrap32 (d + 1))) pushed).
  assert (ascending N.ltb dist'.*1) as Hasc'
    by (by apply (omap_insert_ascending N.ltb N_ltb_StrictTotal)).
  assert (reachedValues dist' = {[cur]} ∪ reachedValues dist) as HD'
    by apply reachedValues_insert.
  assert (∀ e, e ∈ queue' → e.1 ∈ U) as Hqueue'.
  { intros e [He|He]%elem_of_app; [apply Hqueue; by right|].
    apply list_elem_of_fmap in He as (x & -> & [_ Hx]%list_elem_of_filter).
    simpl. destruct (omap_lookup N.ltb cur joins) as [vs|] eqn:Hvs;
      [by eapply HU|by inversion Hx]. }
  assert (stale (reachedValues dist') queue'
          = stale (reachedValues dist') rest) as Hstale'.
  { unfold queue'. rewrite stale_app, (stale_none _ (map _ _)); [lia|].
    intros e (x & -> & [Hx _]%list_elem_of_filter)%list_elem_of_fmap. simpl.
    apply omap_lookup_None_iff in Hx; [|done].
    unfold reachedValues. by rewrite elem_of_list_to_set. }
  assert (∃ N r, r ≠ OutOfFuel
                 ∧ ∀ fuel, N ≤ fuel → bfs fuel joins queue' dist' = r)
    as (N & r & Hr & Hbfs).
  { destruct (decide (cur ∈ reachedValues dist)) as [Hin|Hnot].
    - assert (reachedValues dist' = reachedValues dist) as HD by set_solver.
      rewrite HD in *.
      assert (stale (reachedValues dist) ((cur, d) :: rest)
              = Datatypes.S (stale (reachedValues dist) rest)) as Hcons.
      { unfold stale. rewrite filter_cons. simpl.
        by rewrite decide_True by done. }
      apply (IHc (stale (reachedValues dist) rest)); [lia|done|done| |].
      + by rewrite HD.
      + rewrite HD. lia.
    - assert (cur ∈ U) as HcurU by (apply (Hqueue (cur, d)); by left).
      assert (size (U ∖ reachedValues dist')
              < size (U ∖ reachedValues dist)) as Hless.
      { apply subset_size. rewrite HD'. set_solver. }
      apply (IHn (size (U ∖ reachedValues dist')) ltac:(lia)
               (stale (reachedValues dist') queue')); [done|done|lia|lia]. }
  exists (Datatypes.S N), r. split; [done|].
  intros [|fuel] Hfuel; [lia|]. cbn [bfs]. apply Hbfs. lia.
Qed.
End BfsSettles.

(** ** The race tracer settles *)

Section TracerFuelFree.
Context {P : Type} `{Partition.Ops P} `{PartitionOpOrder}.
Variable fn : SILFunction.
Variable blockStates : list (BlockPartitionState P).

Lemma addConsumeOp_fuelfree r op d : Reason.addConsumeOp r op d ≠ OutOfFuel.
Proof. unfold Reason.addConsumeOp. by repeat case_match. Qed.

Lemma addOps_fuelfree r ops d : Reason.addOps r ops d ≠ OutOfFuel.
Proof.
  revert r. induction ops as [|op ops IH]; intros r; simpl; [done|].
  pose proof (addConsumeOp_fuelfree r op d).
  destruct (Reason.addConsumeOp r op d); [apply IH|done|done].
Qed.

Lemma addEntries_fuelfree r entries d : Reason.addEntries r entries d ≠ OutOfFuel.
Proof.
  revert r. induction entries as [|[d' ops] entries IH]; intros r; simpl; [done|].
  pose proof (addOps_fuelfree r ops (wrap32 (d + d'))).
  destruct (Reason.addOps r ops _); [apply IH|done|done].
Qed.

Lemma addOtherReasonAtDistance_fuelfree r other d :
  Reason.addOtherReasonAtDistance r other d ≠ OutOfFuel.
Proof. apply addEntries_fuelfree. Qed.

Lemma getSourceInst_fuelfree op : PartitionOp.getSourceInst op ≠ OutOfFuel.
Proof. unfold PartitionOp.getSourceInst. by repeat case_match. Qed.

Lemma collectConsumedInSomePred_fuelfree entry preds m :
  collectConsumedInSomePred blockStates entry preds m ≠ OutOfFuel.
Proof.
  revert m. induction preds as [|p preds IH]; intros m; simpl; [done|].
  destruct (blockStates !! p); [apply IH|done].
Qed.

Lemma collectSingleStepJoins_fuelfree entry preds m :
  collectSingleStepJoins blockStates entry preds m ≠ OutOfFuel.
Proof.
  revert m. induction preds as [|p preds IH]; intros m; simpl; [done|].
  destruct (blockStates !! p); [apply IH|done].
Qed.

Lemma fuelfree_findLocalConsumedReason b v targetOp :
  fuelfree (findLocalConsumedReason blockStates b v targetOp).
Proof.
  unfold findLocalConsumedReason. apply fuelfree_bind; [fuelfree_step|].
  intros t.
  destruct (if bool_decide (is_Some targetOp) then None
            else consumedAtExitReasons t !! (b, v)); fuelfree_step.
Qed.
End TracerFuelFree.

Section TracerSettles.
Context {P : Type} `{Partition.Ops P} `{PartitionOpOrder}.
Variable fn : SILFunction.
Variable blockStates : list (BlockPartitionState P).
Implicit Types (t : RaceTracer) (D U : gset (BlockId * ID)).

(** The keys of the cache of [findConsumedAtEntryReason]. *)
Definition entryKeys t : gset (BlockId * ID) := dom (consumedAtEntryReasons t).

(** The cache loses no key. *)
Definition grows t t' : Prop := entryKeys t ⊆ entryKeys t'.

Lemma grows_refl t : grows t t.
Proof. unfold grows. set_solver. Qed.

Lemma grows_trans t1 t2 t3 : grows t1 t2 → grows t2 t3 → grows t1 t3.
Proof. unfold grows. set_solver. Qed.

Hint Resolve grows_refl grows_trans : frames.

Lemma frames_grows_findLocalConsumedReason b v targetOp :
  frames grows (findLocalConsumedReason blockStates b v targetOp).
Proof.
  unfold findLocalConsumedReason. apply frames_get_bind. intros t r t'.
  destruct (if bool_decide (is_Some targetOp) then None
            else consumedAtExitReasons t !! (b, v)).
  { intros [= _ <-]. apply grows_refl. }
  intros (block & t1 & Hat & Hrun)%run_bind_inv.
  apply (frames_at grows grows_refl) in Hat.
  apply run_bind_inv in Hrun as ([] & t2 & Hassert & Hrun).
  apply (frames_assert grows grows_refl) in Hassert.
  assert (grows t t2) as Ht2 by by eapply grows_trans.
  destruct (localSearch block v targetOp); [|done].
  case_bool_decide; [by injection Hrun as _ <-|].
  unfold_run. injection Hrun as _ <-. apply Ht2.
Qed.

(** A run without fuel that loses no key settles with every key of [D]
    still in the cache. *)
Lemma settles_keeps {A} D (m : Run RaceTracer A) t :
  fuelfree m → frames grows m → D ⊆ entryKeys t →
  settles_with (λ _ t', D ⊆ entryKeys t') (λ _, m) t.
Proof.
  intros Hfree Hframes HD. apply settles_with_fuelfree; [done|].
  intros x t' Hrun. apply Hframes in Hrun. unfold grows in Hrun. set_solver.
Qed.

Lemma settles_keeps_lift {A} D (o : Outcome A) t :
  o ≠ OutOfFuel → D ⊆ entryKeys t →
  settles_with (λ _ t', D ⊆ entryKeys t') (λ _, lift_outcome o) t.
Proof.
  intros Ho HD. apply settles_keeps; [by apply fuelfree_lift_outcome| |done].
  apply frames_lift_outcome, grows_refl.
Qed.

Lemma findAndAdd_settles
    (findEntry : nat → BlockId → ID → Run RaceTracer ConsumedReason)
    D b v reason d targetOp t :
  D ⊆ entryKeys t →
  (∀ t', D ⊆ entryKeys t' →
         settles_with (λ _ t'', D ⊆ entryKeys t'')
           (λ fuel, findEntry fuel b v) t') →
  settles_with (λ _ t', D ⊆ entryKeys t')
    (λ fuel, findAndAddConsumedReasons blockStates (findEntry fuel) b v reason
               d targetOp) t.
Proof.
  intros HD Hentry. unfold findAndAddConsumedReasons.
  eapply settles_with_bind with (Q1 := λ _ t', D ⊆ entryKeys t').
  { apply settles_keeps; [apply fuelfree_at|apply frames_at, grows_refl|done]. }
  intros block t1 Ht1. cbv beta.
  eapply settles_with_bind with (Q1 := λ _ t', D ⊆ entryKeys t').
  { apply settles_keeps;
      [apply fuelfree_assert|apply frames_assert, grows_refl|done]. }
  intros _ t2 Ht2. cbv beta.
  eapply settles_with_bind with (Q1 := λ _ t', D ⊆ entryKeys t').
  { apply settles_keeps;
      [apply fuelfree_findLocalConsumedReason
      |apply frames_grows_findLocalConsumedReason|done]. }
  intros localReason t3 Ht3. cbv beta.
  destruct (kind localReason).
  - destruct (localInst localReason);
      apply settles_keeps_lift; try done. apply addConsumeOp_fuelfree.
  - apply settles_keeps; [apply fuelfree_ret|apply frames_ret, grows_refl|done].
  - eapply settles_with_bind with (Q1 := λ _ t', D ⊆ entryKeys t').
    { by apply Hentry. }
    intros other t4 Ht4. cbv beta.
    apply settles_keeps_lift; [apply addOtherReasonAtDistance_fuelfree|done].
Qed.

Lemma addReasonsOfPreds_settles
    (findAndAdd : nat → BlockId → ID → ConsumedReason → N → Run RaceTracer ConsumedReason)
    D predVal d predBlocks reason t :
  D ⊆ entryKeys t →
  (∀ b r t', b ∈ predBlocks → D ⊆ entryKeys t' →
     settles_with (λ _ t'', D ⊆ entryKeys t'')
       (λ fuel, findAndAdd fuel b predVal r d) t') →
  settles_with (λ _ t', D ⊆ entryKeys t')
    (λ fuel, addReasonsOfPreds (findAndAdd fuel) predVal d predBlocks reason) t.
Proof.
  revert reason t. induction predBlocks as [|b bs IH]; intros reason t HD Hfind;
    cbn [addReasonsOfPreds].
  - apply settles_keeps; [apply fuelfree_ret|apply frames_ret, grows_refl|done].
  - eapply settles_with_bind with (Q1 := λ _ t', D ⊆ entryKeys t').
    { apply Hfind; [by left|done]. }
    intros reason' t1 Ht1. cbv beta. apply IH; [done|].
    intros b' r t' Hb'. apply Hfind. by right.
Qed.

Lemma addReasonsOfDistances_settles
    (findAndAdd : nat → BlockId → ID → ConsumedReason → N → Run RaceTracer ConsumedReason)
    D (consumedInSomePred : list (N * list BlockId)) distances reason t :
  D ⊆ entryKeys t →
  (∀ predVal bs b d r t',
     omap_lookup N.ltb predVal consumedInSomePred = Some bs → b ∈ bs →
     D ⊆ entryKeys t' →
     settles_with (λ _ t'', D ⊆ entryKeys t'')
       (λ fuel, findAndAdd fuel b predVal r d) t') →
  settles_with (λ _ t', D ⊆ entryKeys t')
    (λ fuel, addReasonsOfDistances (findAndAdd fuel) consumedInSomePred
               distances reason) t.
Proof.
  revert reason t. induction distances as [|[predVal d] ds IH];
    intros reason t HD Hfind; cbn [addReasonsOfDistances].
  - apply settles_keeps; [apply fuelfree_ret|apply frames_ret, grows_refl|done].
  - eapply settles_with_bind with (Q1 := λ _ t', D ⊆ entryKeys t').
    { apply addReasonsOfPreds_settles; [done|]. intros b r t' Hb Ht'.
      destruct (omap_lookup N.ltb predVal consumedInSomePred) as [bs|] eqn:Hbs;
        [by eapply Hfind|by inversion Hb]. }
    intros reason' t1 Ht1. cbv beta. by apply IH.
Qed.
End TracerSettles.

Section TracerRecursion.
Context {P : Type} `{Partition.Ops P} `{PartitionOpOrder}.
Variable fn : SILFunction.
Variable blockStates : list (BlockPartitionState P).
Implicit Types (t : RaceTracer) (D U : gset (BlockId * ID)).

Lemma omap_lookup_In {V} (k : N) (v : V) m :
  omap_lookup N.ltb k m = Some v → (k, v) ∈ m.
Proof.
  induction m as [|[z w] m IH]; simpl; [done|].
  destruct (N.ltb k z) eqn:Hkz; [done|]. destruct (N.ltb z k) eqn:Hzk.
  - intros Hin%IH. by right.
  - intros [= ->]. apply N.ltb_ge in Hkz, Hzk.
    assert (k = z) as -> by lia. by left.
Qed.

Lemma elem_of_omap_insert_cases {V} (k : N) (v : V) m k' v' :
  (k', v') ∈ omap_insert N.ltb k v m → (k' = k ∧ v' = v) ∨ (k', v') ∈ m.
Proof.
  induction m as [|[z w] m IH]; simpl.
  - intros [= -> ->]%list_elem_of_singleton. by left.
  - destruct (N.ltb k z) eqn:Hkz.
    + intros [[= -> ->]|Hin]%elem_of_cons; [by left|by right].
    + destruct (N.ltb z k) eqn:Hzk.
      * intros [[= -> ->]|[?|Hin]%IH]%elem_of_cons;
          [right; by left|by left|right; by right].
      * apply N.ltb_ge in Hkz, Hzk. assert (z = k) as -> by lia.
        intros [[= -> ->]|Hin]%elem_of_cons; [by left|right; by right].
Qed.

(** The value is consumed at the exit of the block. *)
Definition consumedAtExit (b : BlockId) (v : ID) : Prop :=
  ∃ st, blockStates !! b = Some st
        ∧ v ∈ Partition.getConsumedVals (exitPartition st).

Lemma collectConsumedInSomePred_consumedAtExit entry preds m m' :
  collectConsumedInSomePred blockStates entry preds m = Done m' →
  (∀ v bs b, (v, bs) ∈ m → b ∈ bs → consumedAtExit b v) →
  ∀ v bs b, (v, bs) ∈ m' → b ∈ bs → consumedAtExit b v.
Proof.
  revert m. induction preds as [|pred preds IH]; intros m; simpl.
  { by intros [= <-]. }
  destruct (blockStates !! pred) as [predState|] eqn:Hpred; [|done].
  intros Hrun Hm. eapply IH; [done|]. clear Hrun IH.
  assert (∀ vals, vals ⊆ Partition.getConsumedVals (exitPartition predState) →
            ∀ v bs b,
              (v, bs) ∈ foldl (λ m consumedVal,
                                 if Partition.isTracked entry consumedVal
                                 then pushPred m consumedVal pred else m)
                          m vals →
              b ∈ bs → consumedAtExit b v) as Hfold; [|by apply Hfold].
  intros vals. revert m Hm. induction vals as [|x vals IH]; intros m Hm Hvals;
    simpl; [done|].
  apply IH; [|set_solver].
  destruct (Partition.isTracked entry x); [|done].
  unfold pushPred.
  intros v bs b [[-> ->]|Hin]%elem_of_omap_insert_cases Hb; [|by eapply Hm].
  apply elem_of_app in Hb as [Hb|Hb%list_elem_of_singleton].
  2:{ subst b. exists predState. split; [done|]. apply Hvals. by left. }
  destruct (omap_lookup N.ltb x m) as [old|] eqn:Hold; [|by inversion Hb].
  apply omap_lookup_In in Hold. by eapply Hm.
Qed.

(** [findConsumedAtEntryReason] from the lookup of the block on, once the
    key has been entered in the cache. *)
Definition entrySearch (fuel : nat) (SILBlock : BlockId) (consumedVal : ID)
    (block : BlockPartitionState P) : Run RaceTracer ConsumedReason :=
  silBlock ← at_ (fnBlocks fn) SILBlock;
  let preds := getPredecessorBlocks silBlock in
  consumedInSomePred ←
    lift_outcome
      (collectConsumedInSomePred blockStates (entryPartition block) preds []);
  singleStepJoins ←
    lift_outcome
      (collectSingleStepJoins blockStates (entryPartition block) preds []);
  distancesFromTarget ←
    lift_outcome (bfs fuel singleStepJoins [(consumedVal, 0%N)] []);
  consumedReason ←
    addReasonsOfDistances
      (λ predBlock predVal consumedReason distance,
         findAndAddConsumedReasons blockStates
           (findConsumedAtEntryReason fn blockStates fuel)
           predBlock predVal consumedReason distance None)
      consumedInSomePred distancesFromTarget Reason.empty;
  _ ← modify_state
        (λ t, set_consumedAtEntryReasons
                (<[(SILBlock, consumedVal) := consumedReason]>
                   (consumedAtEntryReasons t)) t);
  mret consumedReason.

Lemma findConsumedAtEntryReason_miss fuel b v block t :
  blockStates !! b = Some block →
  Partition.isConsumed (entryPartition block) v = true →
  consumedAtEntryReasons t !! (b, v) = None →
  findConsumedAtEntryReason fn blockStates (Datatypes.S fuel) b v t
  = entrySearch fuel b v block
      (set_consumedAtEntryReasons
         (<[(b, v) := Reason.empty]> (consumedAtEntryReasons t)) t).
Proof.
  intros Hb Hconsumed Hmiss. cbn [findConsumedAtEntryReason].
  unfold entrySearch, mbind, Run_bind, at_, lift_outcome, assert_, get_state,
    modify_state.
  by rewrite Hb, Hconsumed, Hmiss.
Qed.

Lemma findConsumedAtEntryReason_hit fuel b v t :
  is_Some (consumedAtEntryReasons t !! (b, v)) →
  findConsumedAtEntryReason fn blockStates fuel b v t
  = findConsumedAtEntryReason fn blockStates 0 b v t
  ∧ findConsumedAtEntryReason fn blockStates 0 b v t ≠ OutOfFuel.
Proof.
  intros [cached Hhit].
  destruct fuel; cbn [findConsumedAtEntryReason];
    unfold mbind, Run_bind, at_, lift_outcome, assert_, get_state;
    destruct (blockStates !! b) as [block|]; try done;
    destruct (Partition.isConsumed (entryPartition block) v); try done;
    by rewrite Hhit.
Qed.
End TracerRecursion.

Section TracerEntrySettles.
Context {P : Type} `{Partition.Ops P} `{PartitionOpOrder}.
Variable fn : SILFunction.
Variable blockStates : list (BlockPartitionState P).
Implicit Types (t : RaceTracer) (D U : gset (BlockId * ID)).

Lemma bfs_settles_from joins v :
  ∃ N r, r ≠ OutOfFuel
         ∧ ∀ fuel, N ≤ fuel → bfs fuel joins [(v, 0%N)] [] = r.
Proof.
  set (U := list_to_set (v :: flat_map snd joins) : gset N).
  apply (bfs_settles joins U) with (n := size U) (c := 1).
  - intros k vs x Hvs%omap_lookup_In Hx. unfold U.
    rewrite elem_of_list_to_set. right.
    apply list_elem_of_In, in_flat_map. exists (k, vs).
    split; by apply list_elem_of_In.
  - constructor.
  - intros e ->%list_elem_of_singleton. unfold U. set_solver.
  - apply subseteq_size. set_solver.
  - unfold stale. rewrite filter_cons. case_decide; simpl; lia.
Qed.

Lemma findConsumedAtEntryReason_prefix fuel b v t :
  match blockStates !! b with
  | None => findConsumedAtEntryReason fn blockStates fuel b v t
            = Abort OutOfRange
  | Some block =>
      if Partition.isConsumed (entryPartition block) v then
        match consumedAtEntryReasons t !! (b, v) with
        | Some cached =>
            findConsumedAtEntryReason fn blockStates fuel b v t
            = Done (cached, t)
        | None => True
        end
      else findConsumedAtEntryReason fn blockStates fuel b v t
           = Abort AssertionFailure
  end.
Proof.
  destruct fuel; cbn [findConsumedAtEntryReason];
    unfold mbind, Run_bind, at_, lift_outcome, assert_, get_state;
    destruct (blockStates !! b) as [block|]; try done;
    destruct (Partition.isConsumed (entryPartition block) v); try done;
    by destruct (consumedAtEntryReasons t !! (b, v)).
Qed.

(** The recursion ends: every call that is not answered from the cache
    enters a key of [U] that the cache did not hold, and the cache never
    loses a key. *)
Lemma findConsumedAtEntryReason_settles U :
  (∀ b v, consumedAtExit blockStates b v → (b, v) ∈ U) →
  ∀ n t b v,
    size (U ∖ entryKeys t) ≤ n → (b, v) ∈ U →
    settles_with (λ _ t', entryKeys t ⊆ entryKeys t')
      (λ fuel, findConsumedAtEntryReason fn blockStates fuel b v) t.
Proof.
  intros HU. induction n as [n IH] using lt_wf_ind. intros t b v Hsize HbU.
  pose proof (λ fuel, findConsumedAtEntryReason_prefix fuel b v t) as Hprefix.
  destruct (blockStates !! b) as [block|] eqn:Hb;
    [|by exists 0, (Abort OutOfRange)].
  destruct (Partition.isConsumed (entryPartition block) v) eqn:Hconsumed;
    [|by exists 0, (Abort AssertionFailure)].
  destruct (consumedAtEntryReasons t !! (b, v)) as [cached|] eqn:Hcache;
    [by exists 0, (Done (cached, t))|].
  clear Hprefix.
  set (t1 := set_consumedAtEntryReasons
               (<[(b, v) := Reason.empty]> (consumedAtEntryReasons t)) t).
  assert (entryKeys t1 = {[(b, v)]} ∪ entryKeys t) as Hkeys1
    by (unfold entryKeys, t1; simpl; by rewrite dom_insert_L).
  assert ((b, v) ∉ entryKeys t) as Hnot
    by (unfold entryKeys; by apply not_elem_of_dom).
  assert (size (U ∖ entryKeys t1) < size (U ∖ entryKeys t)) as Hless.
  { apply subset_size. rewrite Hkeys1. set_solver. }
  apply (settles_with_succ _ _
           (λ fuel, entrySearch fn blockStates fuel b v block) _ t1).
  { intros fuel. by apply findConsumedAtEntryReason_miss. }
  apply settles_with_weaken with (Q1 := λ _ t', entryKeys t1 ⊆ entryKeys t');
    [|intros _ t'; rewrite Hkeys1; set_solver].
  unfold entrySearch.
  eapply settles_with_bind with (Q1 := λ _ t', entryKeys t1 ⊆ entryKeys t').
  { apply settles_keeps; [apply fuelfree_at|apply frames_at, grows_refl|done]. }
  intros silBlock t2 Ht2. cbv beta zeta.
  eapply settles_with_bind
    with (Q1 := λ consumedInSomePred t',
                  entryKeys t1 ⊆ entryKeys t'
                  ∧ ∀ v bs b, (v, bs) ∈ consumedInSomePred → b ∈ bs →
                              consumedAtExit blockStates b v).
  { apply settles_with_fuelfree.
    - apply fuelfree_lift_outcome, collectConsumedInSomePred_fuelfree.
    - intros m t'. unfold lift_outcome.
      destruct (collectConsumedInSomePred _ _ _ _) as [m'| |] eqn:Hcollect;
        [|done..].
      intros [= -> <-]. split; [done|].
      eapply collectConsumedInSomePred_consumedAtExit; [done|].
      by intros ??? ?%elem_of_nil. }
  intros consumedInSomePred t3 [Ht3 Hpreds]. cbv beta.
  eapply settles_with_bind with (Q1 := λ _ t', entryKeys t1 ⊆ entryKeys t').
  { apply settles_keeps_lift; [apply collectSingleStepJoins_fuelfree|done]. }
  intros singleStepJoins t4 Ht4. cbv beta.
  eapply settles_with_bind with (Q1 := λ _ t', entryKeys t1 ⊆ entryKeys t').
  { destruct (bfs_settles_from singleStepJoins v) as (N & r & Hr & Hbfs).
    exists N, (lift_outcome r t4). split.
    - intros fuel Hfuel. by rewrite Hbfs.
    - unfold lift_outcome. by destruct r. }
  intros distancesFromTarget t5 Ht5. cbv beta.
  eapply settles_with_bind with (Q1 := λ _ t', entryKeys t1 ⊆ entryKeys t').
  { apply (addReasonsOfDistances_settles
             (λ fuel predBlock predVal consumedReason distance,
                findAndAddConsumedReasons blockStates
                  (findConsumedAtEntryReason fn blockStates fuel)
                  predBlock predVal consumedReason distance None));
      [done|].
    intros predVal bs b' d r t' Hbs%omap_lookup_In Hb' Ht'.
    apply (findAndAdd_settles blockStates
             (λ fuel, findConsumedAtEntryReason fn blockStates fuel));
      [done|].
    intros t'' Ht''.
    eapply settles_with_weaken
      with (Q1 := λ _ t3', entryKeys t'' ⊆ entryKeys t3').
    - apply (IH (size (U ∖ entryKeys t''))); [|done|].
      + assert (size (U ∖ entryKeys t'') ≤ size (U ∖ entryKeys t1))
          by (apply subseteq_size; set_solver).
        lia.
      + apply HU. by eapply Hpreds.
    - intros ? t3' ?. set_solver. }
  intros consumedReason t6 Ht6. cbv beta.
  apply settles_keeps; [fuelfree_step| |done].
  apply frames_bind; [apply grows_trans| |intros _; apply frames_ret, grows_refl].
  apply frames_modify. intros t'. unfold grows, entryKeys. simpl.
  rewrite dom_insert_L. set_solver.
Qed.
End TracerEntrySettles.

Section TracerTerminates.
Context {P : Type} `{Partition.Ops P} `{PartitionOpOrder}.
Variable fn : SILFunction.
Variable blockStates : list (BlockPartitionState P).
Implicit Types (t : RaceTracer).

(** The pairs of a block and a value consumed at its exit are finitely
    many. *)
Lemma consumedAtExit_finite :
  ∃ U : gset (BlockId * ID),
    ∀ b v, consumedAtExit blockStates b v → (b, v) ∈ U.
Proof.
  exists (list_to_set
            (flat_map
               (λ bst : BlockId * BlockPartitionState P,
                  map (λ v, (bst.1, v))
                    (Partition.getConsumedVals (exitPartition bst.2)))
               (imap pair blockStates))).
  intros b v (st & Hb & Hv). apply elem_of_list_to_set, list_elem_of_In.
  apply in_flat_map. exists (b, st). split.
  - apply list_elem_of_In, elem_of_lookup_imap. by exists b, st.
  - simpl. apply in_map. by apply list_elem_of_In.
Qed.

Lemma findConsumedAtOpReason_settles v op t :
  settles (λ fuel, findConsumedAtOpReason fn blockStates fuel v op) t.
Proof.
  unfold settles, findConsumedAtOpReason.
  destruct consumedAtExit_finite as [U0 HU0].
  eapply settles_with_bind with (Q1 := λ _ _, True).
  { apply settles_with_fuelfree; [|done].
    apply fuelfree_lift_outcome, getSourceInst_fuelfree. }
  intros sourceInst t1 _. cbv beta.
  set (b := instParent sourceInst).
  set (U := {[(b, v)]} ∪ U0).
  eapply settles_with_weaken
    with (Q1 := λ _ t', (∅ : gset (BlockId * ID)) ⊆ entryKeys t'); [|done].
  apply (findAndAdd_settles blockStates
           (λ fuel, findConsumedAtEntryReason fn blockStates fuel));
    [set_solver|].
  intros t2 _.
  eapply settles_with_weaken
    with (Q1 := λ _ t', entryKeys t2 ⊆ entryKeys t'); [|set_solver].
  apply (findConsumedAtEntryReason_settles fn blockStates U)
    with (n := size (U ∖ entryKeys t2)); [|done|set_solver].
  intros b' v' Hcons. apply elem_of_union_r. by apply HU0.
Qed.
End TracerTerminates.

(** ** The solver, whatever the partitions are *)

Section SolverFacts.
Context {P : Type} `{Partition.Ops P} `{SILOracles}.
Implicit Types (a : PartitionAnalysis P) (st : BlockPartitionState P).

Lemma untouched_refl a : untouched a a.
Proof. by repeat split. Qed.

Lemma untouched_trans a1 a2 a3 :
  untouched a1 a2 → untouched a2 a3 → untouched a1 a3.
Proof. intros (?&?&?&?) (?&?&?&?). repeat split; congruence. Qed.

(** What one turn at block [b] does to the flags, the reached blocks and
    the invariant. *)
Definition turn (visited : list BlockId) (anyNeedUpdate any' : bool) a a'
  : Prop :=
  untouched a a'
  ∧ solved a' = solved a
  ∧ (sound a → sound a')
  ∧ (anyNeedUpdate = true → any' = true)
  ∧ (any' = false →
     ∀ c st', blockStates a' !! c = Some st' → needsUpdate st' = true →
       (c ∉ visited)
       ∧ ∃ st, blockStates a !! c = Some st ∧ needsUpdate st = true).

Lemma turn_nil anyNeedUpdate a : turn [] anyNeedUpdate anyNeedUpdate a a.
Proof.
  split_and!; [apply untouched_refl|done|done|done|].
  intros _ c st' Hc Hneeds. split; [by inversion 1|eauto].
Qed.

Lemma turn_app l1 l2 any0 any1 any2 a0 a1 a2 :
  turn l1 any0 any1 a0 a1 → turn l2 any1 any2 a1 a2 →
  turn (l1 ++ l2) any0 any2 a0 a2.
Proof.
  intros (Hun1 & Hsv1 & Hs1 & Hup1 & Hflag1) (Hun2 & Hsv2 & Hs2 & Hup2 & Hflag2).
  split_and!; [by eapply untouched_trans|congruence|auto|auto|].
  intros Hany2 c st2 Hc2 Hneeds2.
  destruct (Hflag2 Hany2 c st2 Hc2 Hneeds2) as [Hnot2 (st1 & Hc1 & Hneeds1)].
  assert (any1 = false) as Hany1
    by (destruct any1; [by rewrite Hup2 in Hany2|done]).
  destruct (Hflag1 Hany1 c st1 Hc1 Hneeds1) as [Hnot1 Hst0].
  split; [|done]. rewrite elem_of_app. tauto.
Qed.

Lemma block_sound_flag fn b st v :
  block_sound fn b st → block_sound fn b (set_needsUpdate v st).
Proof. done. Qed.

Lemma sound_flagSuccessors fn succs (states : list (BlockPartitionState P)) :
  (∀ b st, states !! b = Some st → block_sound fn b st) →
  ∀ b st, flagSuccessors succs states !! b = Some st → block_sound fn b st.
Proof.
  intros Hs b st. rewrite flagSuccessors_lookup.
  destruct (states !! b) as [st0|] eqn:Hb; [|done]. simpl. intros [= <-].
  case_bool_decide; [apply block_sound_flag|]; by apply Hs.
Qed.

Lemma sound_insert fn b new (states : list (BlockPartitionState P)) :
  (∀ c st, states !! c = Some st → block_sound fn c st) →
  block_sound fn b new →
  ∀ c st, <[b := new]> states !! c = Some st → block_sound fn c st.
Proof.
  intros Hs Hnew c st. destruct (decide (b = c)) as [<-|Hne].
  - intros Hc. assert (b < length states) as Hlt.
    { apply lookup_lt_Some in Hc. by rewrite length_insert in Hc. }
    rewrite list_lookup_insert_eq in Hc by done. by injection Hc as <-.
  - rewrite list_lookup_insert_ne by done. apply Hs.
Qed.

Lemma solveBlock_turn b (anyNeedUpdate any' : bool) a a' :
  solveBlock b anyNeedUpdate a = Done (any', a') →
  turn [b] anyNeedUpdate any' a a'.
Proof.
  intros (st & Hb & Hcases)%solveBlock_inv.
  assert (b < length (blockStates a)) as Hlt by by eapply lookup_lt_Some.
  destruct Hcases as [(Hneeds & -> & ->)|(Hneeds & blk & Hblk & Hcases)].
  { split_and!; [apply untouched_refl|done|done|done|].
    intros _ c st' Hc Hneeds'. split; [|eauto].
    intros ->%list_elem_of_singleton. congruence. }
  cbv zeta in Hcases.
  set (visited := set_reached true (set_needsUpdate false st)) in *.
  set (states := <[b := visited]> (blockStates a)) in *.
  assert (∀ new c st', <[b := new]> (blockStates a) !! c = Some st' →
            needsUpdate new = false → needsUpdate st' = true →
            (c ∉ [b])
            ∧ ∃ st, blockStates a !! c = Some st ∧ needsUpdate st = true)
    as Hflags.
  { intros new c st' Hc HF Hneeds'. destruct (decide (b = c)) as [<-|Hne].
    - rewrite list_lookup_insert_eq in Hc by done. congruence.
    - rewrite list_lookup_insert_ne in Hc by done.
      split; [by intros ?%list_elem_of_singleton|eauto]. }
  destruct Hcases as [(Hsome & Hequals & -> & ->)|(ops & t' & Hops & -> & ->)].
  - split_and!; [|done| |done|].
    + repeat split; simpl; try done. unfold states. by rewrite length_insert.
    + intros Hs c st0. simpl. apply sound_insert; [apply Hs|].
      destruct (Hs b st Hb) as [Hbb Hst]. split; [done|]. simpl.
      destruct (blockPartitionOpsPopulated st); [|done].
      by destruct Hst as (_ & ? & ?).
    + intros _ c st'. simpl. intros Hc. by eapply Hflags.
  - set (entry := if bool_decide (_ = []) then entryPartition st else _) in *.
    set (exit := replay ops entry) in *.
    set (solved := solvedBlockState st entry exit ops) in *.
    set (F0 := <[b := solved]> states) in *.
    assert (F0 = <[b := solved]> (blockStates a)) as HF0
      by (unfold F0, states; by rewrite list_insert_insert_eq).
    assert (sound a → ∀ c st0, F0 !! c = Some st0
                               → block_sound (function a) c st0) as HsF0.
    { intros Hs. rewrite HF0. apply sound_insert; [apply Hs|].
      destruct (Hs b st Hb) as [Hbb Hst]. split; [done|]. simpl.
      split; [done|]. split; [done|].
      unfold opsOf in Hops.
      destruct (blockPartitionOpsPopulated st).
      - destruct Hops as [-> _]. by destruct Hst as (_ & _ & ?).
      - destruct Hops as (blk' & Hblk' & Htr). rewrite Hbb in Hblk'.
        by exists blk', (translator a), t'. }
    assert (length F0 = length (blockStates a)) as Hlen
      by (unfold F0, states; by rewrite !length_insert).
    destruct (negb (Partition.equals (exitPartition st) exit)) eqn:Hupd;
      cbn [andb orb].
    + split_and!.
      * repeat split; simpl; try done. by rewrite flagSuccessors_length.
      * done.
      * intros Hs c st0. simpl. apply sound_flagSuccessors. by apply HsF0.
      * by intros ->.
      * intros [-> Hnil]%orb_false_iff c st'. simpl.
        apply negb_false_iff, bool_decide_eq_true in Hnil. rewrite Hnil.
        simpl. rewrite HF0. intros Hc. by eapply Hflags.
    + rewrite orb_false_r. split_and!; [|done| |done|].
      * by repeat split.
      * intros Hs c st0. simpl. by apply HsF0.
      * intros _ c st'. simpl. rewrite HF0. intros Hc. by eapply Hflags.
Qed.

Lemma sweep_turn blocks (anyNeedUpdate any' : bool) a a' :
  sweep blocks anyNeedUpdate a = Done (any', a') →
  turn blocks anyNeedUpdate any' a a'.
Proof.
  revert anyNeedUpdate a. induction blocks as [|b blocks IH];
    intros anyNeedUpdate a; simpl.
  - intros [= <- <-]. apply turn_nil.
  - intros (any1 & a1 & Hstep%solveBlock_turn & Hrest%IH)%run_bind_inv.
    change (b :: blocks) with ([b] ++ blocks). by eapply turn_app.
Qed.

Lemma solveLoop_returns fuel a u a' :
  solveLoop fuel a = Done (u, a') →
  untouched a a' ∧ solved a' = solved a ∧ (sound a → sound a')
  ∧ noneNeedsUpdate a'.
Proof.
  revert a. induction fuel as [|fuel IH]; intros a; [done|].
  cbn [solveLoop]. unfold mbind, Run_bind, get_state.
  destruct (sweep _ false a) as [[any' a1]|e|] eqn:Hsweep; [|done..].
  destruct (sweep_turn _ _ _ _ _ Hsweep) as (Hun & Hsv & Hs & _ & Hflags).
  destruct any'.
  - intros (Hun' & Hsv' & Hs' & Hnone)%IH.
    split_and!; [by eapply untouched_trans|congruence|auto|done].
  - intros [= _ <-]. split_and!; [done..|].
    intros c st' Hc. destruct (needsUpdate st') eqn:Hneeds; [|done].
    destruct (Hflags eq_refl c st' Hc Hneeds) as [Hnot _].
    exfalso. apply Hnot, elem_of_seq. apply lookup_lt_Some in Hc.
    destruct Hun as (_ & _ & _ & Hlen). lia.
Qed.
End SolverFacts.

Section Constructor.
Context {P : Type} `{Partition.Ops P} `{SILOracles}.
Implicit Types (a : PartitionAnalysis P) (st : BlockPartitionState P).

(** The analysis as its constructor leaves it. *)
Lemma newPartitionAnalysis_inv fn a0 :
  newPartitionAnalysis fn = Done a0 →
  ∃ t t1 entry,
    newTranslator fn = Done t
    ∧ getEntryPartition fn t = Done (entry, t1)
    ∧ 0 < length (fnBlocks fn)
    ∧ a0 = {| translator := t1;
              blockStates :=
                <[0 := set_entryPartition entry
                         (set_needsUpdate true (newBlockState 0))]>
                  (map newBlockState (seq 0 (length (fnBlocks fn))));
              raceTracer := {| consumedAtEntryReasons := ∅;
                               consumedAtExitReasons := ∅;
                               accumulator := [] |};
              function := fn;
              solved := false;
              diagnostics := [] |}.
Proof.
  unfold newPartitionAnalysis.
  destruct (newTranslator fn) as [t| |]; [|done..].
  match goal with
  | |- match ?m ?a with _ => _ end = _ → _ =>
      destruct (m a) as [[[] a1]| |] eqn:Hrun; [|done..]
  end.
  intros [= <-].
  apply run_bind_inv in Hrun
    as ([] & a2 & (st & Hst & ->)%modifyBlockState_inv & Hrun).
  simpl in Hst.
  assert (0 < length (fnBlocks fn)) as Hlen.
  { apply lookup_lt_Some in Hst. by rewrite length_map, length_seq in Hst. }
  assert (st = newBlockState 0) as ->.
  { rewrite list_lookup_fmap, lookup_seq_lt in Hst by done.
    by injection Hst as <-. }
  apply run_bind_inv in Hrun as (entry & a3 & Hentry & Hrun).
  unfold liftTranslator in Hentry. simpl in Hentry.
  destruct (getEntryPartition fn t) as [[entry' t1]| |] eqn:Hseed; [|done..].
  injection Hentry as -> <-.
  apply modifyBlockState_inv in Hrun as (st & Hst' & ->).
  simpl in Hst'.
  rewrite list_lookup_insert_eq in Hst'
    by (by rewrite length_map, length_seq).
  injection Hst' as <-.
  exists t, t1, entry. split_and!; [done..|]. simpl.
  unfold set_blockStates, set_translator. simpl.
  by rewrite list_insert_insert_eq.
Qed.

Lemma newPartitionAnalysis_lookup fn a0 b st :
  newPartitionAnalysis fn = Done a0 → blockStates a0 !! b = Some st →
  function a0 = fn ∧ solved a0 = false
  ∧ b < length (fnBlocks fn)
  ∧ exitPartition st = Partition.empty
  ∧ blockPartitionOpsPopulated st = false ∧ blockPartitionOps st = []
  ∧ reached st = false ∧ basicBlock st = b
  ∧ needsUpdate st = bool_decide (b = 0)
  ∧ (b ≠ 0 → entryPartition st = Partition.empty).
Proof.
  intros (t & t1 & entry & _ & _ & Hlen & ->)%newPartitionAnalysis_inv.
  simpl. intros Hb.
  assert (b < length (fnBlocks fn)) as Hlt.
  { apply lookup_lt_Some in Hb.
    by rewrite length_insert, length_map, length_seq in Hb. }
  destruct (decide (b = 0)) as [->|Hne].
  - rewrite list_lookup_insert_eq in Hb by (by rewrite length_map, length_seq).
    injection Hb as <-. by repeat split.
  - rewrite list_lookup_insert_ne in Hb by done.
    rewrite list_lookup_fmap, lookup_seq_lt in Hb by done.
    injection Hb as <-. rewrite bool_decide_eq_false_2 by done.
    by repeat split.
Qed.

Lemma newPartitionAnalysis_sound fn a0 :
  newPartitionAnalysis fn = Done a0 → sound a0.
Proof.
  intros Hnew b st Hb.
  destruct (newPartitionAnalysis_lookup fn a0 b st Hnew Hb)
    as (_ & _ & _ & Hexit & Hpop & Hops & _ & Hbb & _).
  split; [done|]. by rewrite Hpop.
Qed.
End Constructor.

Section SolverForward.
Context {P : Type} `{Partition.Ops P} `{SILOracles}.
Implicit Types (a : PartitionAnalysis P) (st : BlockPartitionState P).

(** A turn at a block without predecessors whose recomputed exit partition
    equals the one it had: no flag is raised. *)
Lemma solveBlock_quiet a b st blk ops t' (anyNeedUpdate : bool) :
  blockStates a !! b = Some st →
  needsUpdate st = true →
  basicBlock st = b →
  fnBlocks (function a) !! b = Some blk →
  getPredecessorBlocks blk = [] →
  translatedOps (translator a) st blk = Done (ops, t') →
  Partition.equals (exitPartition st) (replay ops (entryPartition st)) = true →
  solveBlock b anyNeedUpdate a
  = Done (anyNeedUpdate,
          set_blockStates
            (<[b := solvedBlockState st (entryPartition st)
                      (replay ops (entryPartition st)) ops]> (blockStates a))
            (set_translator t' a)).
Proof.
  intros Hb Hneeds Hbb Hblk Hpreds Hops Hequals.
  assert (b < length (blockStates a)) as Hlt by by eapply lookup_lt_Some.
  set (visited := set_reached true (set_needsUpdate false st)).
  set (states := <[b := visited]> (blockStates a)).
  set (a1 := set_blockStates states a).
  assert (blockStates a1 !! b = Some visited) as Hb1
    by (simpl; by apply list_lookup_insert_eq).
  unfold solveBlock.
  rewrite (run_bind_done _ _ _ _ _ (getBlockState_run _ _ _ Hb)).
  rewrite Hneeds. cbn [negb].
  rewrite (run_bind_done _ _ _ _ _ (modifyBlockState_run _ _ _ _ Hb)).
  rewrite (run_bind_done _ _ _ tt a1).
  2:{ rewrite (modifyBlockState_run _ _ (set_needsUpdate false st))
        by (simpl; by apply list_lookup_insert_eq).
      simpl. unfold a1, states, set_blockStates. simpl.
      by rewrite list_insert_insert_eq. }
  rewrite (run_bind_done _ _ _ _ _ (getBlock_run a1 _ _ Hblk)).
  rewrite Hpreds. cbn [joinPredecessors].
  rewrite (run_bind_done _ _ _ (Partition.empty, true) a1) by done.
  rewrite (run_bind_done _ _ _ _ _ (getBlockState_run _ _ _ Hb1)).
  cbn [negb andb].
  rewrite (run_bind_done _ _ _ tt a1) by done.
  rewrite (run_bind_done _ _ _ _ _
             (recomputeExitFromEntry_run a1 b visited blk ops t' Hb1
                ltac:(by rewrite <- Hbb in Hblk) Hops)).
  change (exitPartition visited) with (exitPartition st).
  change (entryPartition visited) with (entryPartition st).
  rewrite Hequals. cbn [negb]. unfold_run. f_equal. f_equal.
  unfold a1, states, set_blockStates, set_translator. simpl.
  by rewrite list_insert_insert_eq.
Qed.

(** A sweep over blocks none of which needs an update changes nothing. *)
Lemma sweep_idle blocks (anyNeedUpdate : bool) a :
  (∀ b, b ∈ blocks →
        ∃ st, blockStates a !! b = Some st ∧ needsUpdate st = false) →
  sweep blocks anyNeedUpdate a = Done (anyNeedUpdate, a).
Proof.
  induction blocks as [|b blocks IH]; intros Hidle; [done|].
  destruct (Hidle b) as (st & Hb & Hneeds); [by left|].
  cbn [sweep]. rewrite (run_bind_done _ _ _ anyNeedUpdate a).
  - apply IH. intros b' Hb'. apply Hidle. by right.
  - unfold solveBlock.
    rewrite (run_bind_done _ _ _ _ _ (getBlockState_run _ _ _ Hb)).
    by rewrite Hneeds.
Qed.
End SolverForward.

(** ** Turns of the loop of [solve] that repeat *)

Section Rounds.
Import ExampleLoop.
Implicit Types (a : PartitionAnalysis SpecPartition.t).

Lemma afterRounds_add n m a :
  afterRounds (n + m) a = afterRounds n a ≫= afterRounds m.
Proof.
  revert a. induction n as [|n IH]; intros a; [done|].
  cbn [Nat.add afterRounds].
  destruct (round a) as [[[] a']| |]; first [done|apply IH].
Qed.

Lemma afterRounds_period n a b :
  afterRounds n b = Some b → ∀ k, afterRounds (k * n) b = Some b.
Proof.
  intros Hb. induction k as [|k IH]; [done|].
  cbn [Nat.mul]. by rewrite afterRounds_add, Hb.
Qed.

(** As long as every turn sets [anyNeedUpdate], the loop uses up its
    fuel. *)
Lemma afterRounds_exhausts n a fuel :
  is_Some (afterRounds n a) → fuel ≤ n →
  solveLoop (H0 := slots) fuel a = OutOfFuel.
Proof.
  revert a fuel. induction n as [|n IH]; intros a [|fuel] Hn Hle;
    try done; try lia.
  revert Hn. cbn [afterRounds solveLoop]. unfold round, mbind, Run_bind, get_state.
  destruct (sweep _ false a) as [[[] a']| |]; try by intros [? ?].
  intros Hn. apply IH; [done|lia].
Qed.
End Rounds.

(** ** The translator: what every translation keeps *)

Section TranslatorKeeps.
Context `{SILOracles}.
Import PartitionOpTranslator.
Implicit Types (s : TranslatorState).

(** Between two states of the translation of one instruction: as
    [keepsIDs], with the current instruction and the index unchanged. *)
Definition within s s' : Prop :=
  keepsIDs s s'
  ∧ currentInstruction s' = currentInstruction s
  ∧ translationIndex s' = translationIndex s
  ∧ keepsNumbering s s'.

Lemma keepsIDs_refl s : keepsIDs s s.
Proof. by split. Qed.

Lemma keepsIDs_trans s1 s2 s3 : keepsIDs s1 s2 → keepsIDs s2 s3 → keepsIDs s1 s3.
Proof. intros [Hk1 Hc1] [Hk2 Hc2]. split; [auto|congruence]. Qed.

Lemma keepsIDs_size s s' :
  keepsIDs s s' → size (nodeIDMap s) ≤ size (nodeIDMap s').
Proof. intros [Hk _]. by apply map_subseteq_size, map_subseteq_spec. Qed.

Lemma keepsNumbering_refl s : keepsNumbering s s.
Proof. by intros _ ?. Qed.

Lemma keepsNumbering_trans s1 s2 s3 :
  keepsIDs s2 s3 → keepsNumbering s1 s2 → keepsNumbering s2 s3 →
  keepsNumbering s1 s3.
Proof.
  intros Hk%keepsIDs_size H12 H23 Hsize Hs1. apply H23; [done|].
  apply H12; [lia|done].
Qed.

Lemma within_refl s : within s s.
Proof.
  split; [apply keepsIDs_refl|]. split; [done|]. split; [done|].
  apply keepsNumbering_refl.
Qed.

Lemma within_trans s1 s2 s3 : within s1 s2 → within s2 s3 → within s1 s3.
Proof.
  intros (Hk1 & Hi1 & Hx1 & Hn1) (Hk2 & Hi2 & Hx2 & Hn2).
  split; [by eapply keepsIDs_trans|]. split; [congruence|].
  split; [congruence|]. by eapply keepsNumbering_trans.
Qed.

(** Giving a value that has no ID the next one keeps the numbering. *)
Lemma numbered_mint s k :
  nodeIDMap s !! k = None →
  keepsNumbering s
    {| nodeIDMap := <[k := nextNodeID s]> (nodeIDMap s);
       nextNodeID := wrap32 (nextNodeID s + 1);
       capturedUIValues := capturedUIValues s;
       currentInstruction := currentInstruction s;
       translationIndex := translationIndex s |}.
Proof.
  intros Hk. unfold keepsNumbering, numbered. simpl.
  rewrite map_size_insert_None by done.
  intros Hsize (Hnext & Hbelow & Hinj).
  assert (wrap32 (nextNodeID s + 1) = (nextNodeID s + 1)%N) as ->.
  { unfold wrap32. apply N.mod_small. lia. }
  split; [lia|]. split.
  - intros k' i [[<- <-]|[_ Hk']]%lookup_insert_Some; [lia|].
    apply Hbelow in Hk'. lia.
  - intros k1 k2 i [[<- <-]|[Hne1 Hk1]]%lookup_insert_Some
                   [[<- Hi]|[Hne2 Hk2]]%lookup_insert_Some; try done.
    + apply Hbelow in Hk2. lia.
    + apply Hbelow in Hk1. lia.
    + by eapply Hinj.
Qed.

Lemma opFrom_keeps ci s s' op : keepsIDs s s' → opFrom ci s op → opFrom ci s' op.
Proof.
  intros [Hk _] [Hci Hids]. split; [done|].
  intros i Hi. destruct (Hids i Hi) as [k Hk']. exists k. by apply Hk.
Qed.

(** [m] changes the state as [within] allows, and its ops are made under
    the current instruction from IDs of the state it leaves. *)
Definition emits_ok (m : Translate (list PartitionOp.t)) : Prop :=
  ∀ s ops s', m s = Done (ops, s') →
    within s s' ∧ Forall (opFrom (currentInstruction s) s') ops.

Lemma lookupNodeID_within v s i s' :
  lookupNodeID v s = Done (i, s') →
  within s s' ∧ nodeIDMap s' !! simplifyVal v = Some i.
Proof.
  unfold lookupNodeID. unfold_run.
  destruct (isNonSendable (simplifyVal v)); [|done].
  destruct (nodeIDMap s !! simplifyVal v) as [j|] eqn:Hv.
  - intros [= <- <-]. split; [apply within_refl|done].
  - intros [= <- <-]. simpl. split; [|apply lookup_insert_eq].
    split; [|split; [done|split; [done|by apply numbered_mint]]].
    split; [|done]. simpl. intros k j Hk.
    rewrite lookup_insert_ne; [done|congruence].
Qed.

Lemma frames_within_lookupNodeID v : frames within (lookupNodeID v).
Proof. intros s i s' Hrun. by apply lookupNodeID_within in Hrun as [? _]. Qed.

Lemma frames_within_nodeHasID v : frames within (nodeHasID v).
Proof.
  intros s b s'. unfold nodeHasID. unfold_run.
  destruct (isNonSendable (simplifyVal v)); [|done].
  intros [= _ <-]. apply within_refl.
Qed.

Lemma frames_within_isUniquelyIdentified v : frames within (isUniquelyIdentified v).
Proof.
  intros s b s'. unfold isUniquelyIdentified. unfold_run.
  repeat case_match; by first [intros [= _ <-]; apply within_refl|done].
Qed.

Lemma emits_ok_ret_nil : emits_ok (mret []).
Proof. intros s ops s' [= <- <-]. split; [apply within_refl|constructor]. Qed.

Lemma emits_ok_frame {A} (m : Translate A) (f : A → Translate (list PartitionOp.t)) :
  frames within m → (∀ x, emits_ok (f x)) → emits_ok (m ≫= f).
Proof.
  intros Hm Hf s ops s' (x & s1 & Hx & Hrun)%run_bind_inv.
  apply Hm in Hx. apply Hf in Hrun as [Hw Hops].
  split; [by eapply within_trans|].
  destruct Hx as (_ & Hci & _). by rewrite <- Hci.
Qed.

Lemma emits_ok_app (m1 m2 : Translate (list PartitionOp.t)) :
  emits_ok m1 → emits_ok m2 →
  emits_ok (ops1 ← m1; ops2 ← m2; mret (ops1 ++ ops2)).
Proof.
  intros H1 H2 s ops s' (ops1 & s1 & [Hw1 Hops1]%H1 & Hrun)%run_bind_inv.
  apply run_bind_inv in Hrun as (ops2 & s2 & [Hw2 Hops2]%H2 & [= <- <-]).
  split; [by eapply within_trans|]. apply Forall_app. split.
  - eapply Forall_impl; [done|]. intros op. apply opFrom_keeps, Hw2.
  - destruct Hw1 as (_ & Hci & _). by rewrite <- Hci.
Qed.

Lemma emits_ok_translate_each {A} (f : A → Translate (list PartitionOp.t)) xs :
  (∀ x, emits_ok (f x)) → emits_ok (translate_each f xs).
Proof.
  intros Hf. induction xs as [|x xs IH]; cbn [translate_each].
  - apply emits_ok_ret_nil.
  - by apply emits_ok_app.
Qed.

Lemma frames_within_at {A} (l : list A) i : frames within (at_ l i).
Proof. apply frames_at, within_refl. Qed.

Lemma frames_within_lift {A} (o : Outcome A) : frames within (lift_outcome o).
Proof. apply frames_lift_outcome, within_refl. Qed.

Lemma frames_within_assert b : frames within (assert_ b).
Proof. apply frames_assert, within_refl. Qed.

Lemma emits_ok_one (v : SILValue)
    (mk : ID → option SILInstruction → PartitionOp.t) :
  (∀ i ci, PartitionOp.sourceInst (mk i ci) = ci ∧ opIDs (mk i ci) = [i]) →
  emits_ok (i ← lookupNodeID v; ci ← getCurrentInstruction; mret [mk i ci]).
Proof.
  intros Hmk s ops s' (i & s1 & [Hw Hi]%lookupNodeID_within & Hrun)%run_bind_inv.
  unfold getCurrentInstruction in Hrun. unfold_run.
  injection Hrun as <- <-. split; [done|]. constructor; [|constructor].
  destruct (Hmk i (currentInstruction s1)) as [Hsrc Hids]. split.
  - rewrite Hsrc. by destruct Hw as (_ & ? & _).
  - rewrite Hids. intros j Hj%list_elem_of_singleton. subst j. eauto.
Qed.

Lemma emits_ok_AssignFresh v : emits_ok (AssignFresh v).
Proof. by apply (emits_ok_one v PartitionOp.AssignFresh). Qed.

Lemma emits_ok_Consume v : emits_ok (Consume v).
Proof.
  unfold Consume.
  apply emits_ok_frame; [apply frames_within_nodeHasID|intros b].
  apply emits_ok_frame; [apply frames_within_assert|intros _].
  by apply (emits_ok_one v PartitionOp.Consume).
Qed.

Lemma emits_ok_Require v : emits_ok (Require v).
Proof.
  unfold Require.
  apply emits_ok_frame; [apply frames_within_nodeHasID|intros b].
  apply emits_ok_frame; [apply frames_within_assert|intros _].
  by apply (emits_ok_one v PartitionOp.Require).
Qed.

Lemma emits_ok_two (a b : SILValue)
    (mk : ID → ID → option SILInstruction → PartitionOp.t) :
  (∀ i j ci, PartitionOp.sourceInst (mk i j ci) = ci
             ∧ opIDs (mk i j ci) = [i; j]) →
  emits_ok (t ← lookupNodeID a; r ← lookupNodeID b;
            if bool_decide (t = r) then mret []
            else
              t ← lookupNodeID a; r ← lookupNodeID b;
              ci ← getCurrentInstruction; mret [mk t r ci]).
Proof.
  intros Hmk.
  apply emits_ok_frame; [apply frames_within_lookupNodeID|intros t0].
  apply emits_ok_frame; [apply frames_within_lookupNodeID|intros r0].
  case_bool_decide; [apply emits_ok_ret_nil|].
  intros s ops s' (i & s1 & [Hw1 Hi]%lookupNodeID_within & Hrun)%run_bind_inv.
  apply run_bind_inv in Hrun as (j & s2 & [Hw2 Hj]%lookupNodeID_within & Hrun).
  unfold getCurrentInstruction in Hrun. unfold_run.
  injection Hrun as <- <-. split; [by eapply within_trans|].
  constructor; [|constructor].
  destruct (Hmk i j (currentInstruction s2)) as [Hsrc Hids]. split.
  - rewrite Hsrc. destruct Hw1 as (_ & ? & _), Hw2 as (_ & ? & _). congruence.
  - rewrite Hids. intros k [->|Hk%list_elem_of_singleton]%elem_of_cons;
      [|subst k; eauto].
    destruct Hw2 as ([Hk _] & _). eauto.
Qed.

Lemma emits_ok_Assign tgt src : emits_ok (Assign tgt src).
Proof.
  unfold Assign.
  apply emits_ok_frame; [apply frames_within_nodeHasID|intros b].
  apply emits_ok_frame; [apply frames_within_assert|intros _].
  by apply (emits_ok_two tgt src PartitionOp.Assign).
Qed.

Lemma emits_ok_Merge fst snd : emits_ok (Merge fst snd).
Proof.
  unfold Merge.
  apply emits_ok_frame; [apply frames_within_nodeHasID|intros b1].
  apply emits_ok_frame.
  { destruct b1; [apply frames_within_nodeHasID|apply frames_ret, within_refl]. }
  intros b2.
  apply emits_ok_frame; [apply frames_within_assert|intros _].
  by apply (emits_ok_two fst snd PartitionOp.Merge).
Qed.
End TranslatorKeeps.

Section TranslatorKeepsInstructions.
Context `{SILOracles}.
Import PartitionOpTranslator.
Implicit Types (s : TranslatorState).

Lemma emits_ok_if (b : bool) (m1 m2 : Translate (list PartitionOp.t)) :
  emits_ok m1 → emits_ok m2 → emits_ok (if b then m1 else m2).
Proof. by destruct b. Qed.

Lemma emits_ok_translateSILAssign tgt src : emits_ok (translateSILAssign tgt src).
Proof.
  unfold translateSILAssign.
  repeat apply emits_ok_if;
    first [apply emits_ok_ret_nil|apply emits_ok_Assign|apply emits_ok_AssignFresh].
Qed.

Lemma emits_ok_translateSILAssignFresh v : emits_ok (translateSILAssignFresh v).
Proof.
  unfold translateSILAssignFresh.
  apply emits_ok_if; [apply emits_ok_AssignFresh|apply emits_ok_ret_nil].
Qed.

Lemma emits_ok_translateSILMerge a b : emits_ok (translateSILMerge a b).
Proof.
  unfold translateSILMerge.
  apply emits_ok_if; [apply emits_ok_Merge|apply emits_ok_ret_nil].
Qed.

Lemma emits_ok_translateSILRequire v : emits_ok (translateSILRequire v).
Proof.
  unfold translateSILRequire.
  apply emits_ok_if; [apply emits_ok_Require|apply emits_ok_ret_nil].
Qed.

Lemma emits_ok_translateSILStore tgt src : emits_ok (translateSILStore tgt src).
Proof.
  unfold translateSILStore.
  apply emits_ok_frame; [apply frames_within_isUniquelyIdentified|intros ui].
  apply emits_ok_if;
    [apply emits_ok_translateSILAssign|apply emits_ok_translateSILMerge].
Qed.

Lemma emits_ok_translateSILApply inst : emits_ok (translateSILApply inst).
Proof.
  unfold translateSILApply.
  apply emits_ok_frame; [apply frames_within_lift|intros res0].
  apply emits_ok_if; [|apply emits_ok_if].
  - apply emits_ok_app.
    + apply emits_ok_translate_each, emits_ok_Consume.
    + apply emits_ok_if; [apply emits_ok_AssignFresh|apply emits_ok_ret_nil].
  - apply emits_ok_if; [apply emits_ok_AssignFresh|apply emits_ok_ret_nil].
  - apply emits_ok_app.
    + apply emits_ok_if.
      * apply emits_ok_frame; [apply frames_within_at|intros front].
        apply emits_ok_Require.
      * apply emits_ok_translate_each. intros i.
        apply emits_ok_frame; [apply frames_within_at|intros a].
        apply emits_ok_frame; [apply frames_within_at|intros b].
        apply emits_ok_Merge.
    + apply emits_ok_if; [|apply emits_ok_ret_nil].
      apply emits_ok_frame; [apply frames_within_at|intros front].
      apply emits_ok_Assign.
Qed.

(** One instruction: the IDs and the captured values are kept, the
    instruction becomes the current one, the index goes up by one, and the
    ops name the instruction and mention IDs of values. *)
Lemma translateSILInstruction_keeps inst s ops s' :
  translateSILInstruction inst s = Done (ops, s') →
  keepsIDs s s'
  ∧ currentInstruction s' = Some inst
  ∧ translationIndex s' = (translationIndex s + 1)%Z
  ∧ Forall (opFrom (Some inst) s') ops
  ∧ keepsNumbering s s'.
Proof.
  unfold translateSILInstruction.
  intros ([] & s1 & Henter & Hrun)%run_bind_inv.
  unfold enterInstruction in Henter. unfold_run. injection Henter as <-.
  assert (emits_ok
            (match instKind inst with
             | AllocBoxInst | AllocRefInst | AllocStackInst | LiteralInst =>
                 r ← lift_outcome (getResult inst 0);
                 translateSILAssignFresh r
             | AddressToPointerInst | BeginAccessInst | BeginBorrowInst
             | CopyValueInst | ConvertEscapeToNoEscapeInst
             | ConvertFunctionInst | IndexAddrInst | InitExistentialAddrInst
             | LoadInst | LoadBorrowInst | LoadWeakInst | PointerToAddressInst
             | RefElementAddrInst | StrongCopyUnownedValueInst | TailAddrInst
             | UncheckedAddrCastInst | UncheckedOwnershipConversionInst
             | UncheckedRefCastInst =>
                 r ← lift_outcome (getResult inst 0);
                 o ← lift_outcome (getOperand inst 0);
                 translateSILAssign r o
             | CopyAddrInst | ExplicitCopyAddrInst | StoreInst
             | StoreBorrowInst | StoreWeakInst =>
                 o1 ← lift_outcome (getOperand inst 1);
                 o0 ← lift_outcome (getOperand inst 0);
                 translateSILStore o1 o0
             | ApplyInst | TryApplyInst | PartialApplyInst | BuiltinInst =>
                 translateSILApply inst
             | DestructureTupleInst =>
                 translate_each
                   (λ result, o ← lift_outcome (getOperand inst 0);
                              translateSILAssign result o)
                   (instResults inst)
             | ReturnInst =>
                 o ← lift_outcome (getOperand inst 0);
                 translateSILRequire o
             | _ => mret []
             end)) as Hbody.
  { destruct (instKind inst);
      repeat first
        [ apply emits_ok_ret_nil
        | apply emits_ok_translateSILApply
        | apply emits_ok_translateSILAssignFresh
        | apply emits_ok_translateSILAssign
        | apply emits_ok_translateSILStore
        | apply emits_ok_translateSILRequire
        | apply emits_ok_translate_each; intros ?
        | apply emits_ok_frame; [apply frames_within_lift|intros ?] ]. }
  apply Hbody in Hrun as [([Hk Hc] & Hci & Hidx & Hnum) Hops]. simpl in *.
  split; [by split|]. do 3 (split; [done|]).
  intros Hsize Hs. by apply Hnum.
Qed.

Lemma translateSILBasicBlock_keeps insts s ops s' :
  translateSILBasicBlock insts s = Done (ops, s') →
  keepsIDs s s'
  ∧ translationIndex s' = (translationIndex s + Z.of_nat (length insts))%Z
  ∧ currentInstruction s' = default (currentInstruction s) (Some <$> last insts)
  ∧ Forall (λ op, ∃ inst, inst ∈ insts ∧ opFrom (Some inst) s' op) ops
  ∧ keepsNumbering s s'.
Proof.
  unfold translateSILBasicBlock. revert s ops s'.
  induction insts as [|inst insts IH]; intros s ops s'; cbn [translate_each].
  { intros [= <- <-]. split; [apply keepsIDs_refl|]. simpl.
    split; [lia|]. split; [done|]. split; [constructor|].
    apply keepsNumbering_refl. }
  intros (ops1 & s1 & Hinst%translateSILInstruction_keeps & Hrun)%run_bind_inv.
  apply run_bind_inv in Hrun as (ops2 & s2 & Hrest%IH & [= <- <-]).
  destruct Hinst as (Hk1 & Hci1 & Hidx1 & Hops1 & Hnum1).
  destruct Hrest as (Hk2 & Hidx2 & Hci2 & Hops2 & Hnum2).
  split; [by eapply keepsIDs_trans|]. split.
  { rewrite Hidx2, Hidx1. cbn [length]. lia. }
  split.
  { rewrite Hci2, Hci1. rewrite last_cons. by destruct (last insts). }
  split; [|by eapply keepsNumbering_trans].
  apply Forall_app. split.
  - eapply Forall_impl; [done|]. intros op Hop. exists inst.
    split; [by left|]. by eapply opFrom_keeps.
  - eapply Forall_impl; [done|]. intros op (inst' & Hin & Hop).
    exists inst'. split; [by right|done].
Qed.
End TranslatorKeepsInstructions.

(** ** The translator: instructions over Sendable values *)

Section TranslatorQuiet.
Context `{SILOracles}.
Import PartitionOpTranslator.
Implicit Types (s : TranslatorState).

(** [m] emits no op and leaves the translator as it is. *)
Definition quiet (m : Translate (list PartitionOp.t)) : Prop :=
  ∀ s ops s', m s = Done (ops, s') → ops = [] ∧ s' = s.

Lemma quiet_ret_nil : quiet (mret []).
Proof. by intros s ops s' [= <- <-]. Qed.

Lemma quiet_translate_each {A} (f : A → Translate (list PartitionOp.t)) xs :
  (∀ x, x ∈ xs → quiet (f x)) → quiet (translate_each f xs).
Proof.
  induction xs as [|x xs IH]; intros Hf; cbn [translate_each].
  { apply quiet_ret_nil. }
  intros s ops s' (ops1 & s1 & Hx & Hrun)%run_bind_inv.
  apply Hf in Hx as [-> ->]; [|by left].
  apply run_bind_inv in Hrun as (ops2 & s2 & Hxs & [= <- <-]).
  apply IH in Hxs as [-> ->]; [done|].
  intros y Hy. apply Hf. by right.
Qed.

Lemma quiet_lift {A} (o : Outcome A) (f : A → Translate (list PartitionOp.t)) :
  (∀ x, o = Done x → quiet (f x)) → quiet (lift_outcome o ≫= f).
Proof.
  intros Hf s ops s' (x & s1 & Hx & Hrun)%run_bind_inv.
  unfold lift_outcome in Hx. destruct o as [y| |]; [|done..].
  injection Hx as <- <-. by eapply Hf.
Qed.

Lemma quiet_translateSILAssign tgt src :
  isNonSendable tgt = false → quiet (translateSILAssign tgt src).
Proof. intros Ht. unfold translateSILAssign. rewrite Ht. apply quiet_ret_nil. Qed.

Lemma quiet_translateSILStore tgt src :
  isNonSendable tgt = false → quiet (translateSILStore tgt src).
Proof.
  intros Ht s ops s'. unfold translateSILStore.
  intros (ui & s1 & Hui & Hrun)%run_bind_inv.
  assert (s1 = s) as ->.
  { revert Hui. unfold isUniquelyIdentified. unfold_run.
    repeat case_match; intros Heq; by inversion Heq. }
  destruct ui.
  - by apply (quiet_translateSILAssign tgt src Ht).
  - revert Hrun. unfold translateSILMerge. rewrite Ht. apply quiet_ret_nil.
Qed.

Lemma getResult_elem_of inst i r :
  getResult inst i = Done r → r ∈ instResults inst.
Proof.
  unfold getResult. destruct (instResults inst !! i) eqn:Hr; [|done].
  intros [= <-]. by eapply list_elem_of_lookup_2.
Qed.

Lemma getOperand_elem_of inst i o :
  getOperand inst i = Done o → o ∈ instOperands inst.
Proof.
  unfold getOperand. destruct (instOperands inst !! i) eqn:Ho; [|done].
  intros [= <-]. by eapply list_elem_of_lookup_2.
Qed.

Lemma quiet_translateSILApply inst :
  (∀ v, v ∈ instOperands inst → isNonSendable v = false) →
  (∀ v, v ∈ instResults inst → isNonSendable v = false) →
  quiet (translateSILApply inst).
Proof.
  intros Hoperands Hresults. unfold translateSILApply.
  assert (nonSendableOperandsOf inst = []) as ->.
  { unfold nonSendableOperandsOf.
    induction (instOperands inst) as [|v vs IH]; [done|].
    rewrite filter_cons, decide_False.
    - apply IH. intros w Hw. apply Hoperands. by right.
    - rewrite (Hoperands v); [done|by left]. }
  apply quiet_lift. intros res0 Hres%getResult_elem_of.
  rewrite (Hresults res0 Hres). rewrite bool_decide_eq_true_2 by done.
  destruct (SILApplyCrossesIsolation inst); [|apply quiet_ret_nil].
  by intros s ops s' [= <- <-].
Qed.

Lemma quiet_translateSILAssignFresh v :
  isNonSendable v = false → quiet (translateSILAssignFresh v).
Proof. intros Hv. unfold translateSILAssignFresh. rewrite Hv. apply quiet_ret_nil. Qed.

Lemma quiet_translateSILRequire v :
  isNonSendable v = false → quiet (translateSILRequire v).
Proof. intros Hv. unfold translateSILRequire. rewrite Hv. apply quiet_ret_nil. Qed.

Lemma translateSILInstruction_quiet inst s ops s' :
  (∀ v, v ∈ instOperands inst → isNonSendable v = false) →
  (∀ v, v ∈ instResults inst → isNonSendable v = false) →
  translateSILInstruction inst s = Done (ops, s') →
  ops = [] ∧ nodeIDMap s' = nodeIDMap s ∧ nextNodeID s' = nextNodeID s
  ∧ capturedUIValues s' = capturedUIValues s.
Proof.
  intros Hoperands Hresults. unfold translateSILInstruction.
  intros ([] & s1 & Henter & Hrun)%run_bind_inv.
  unfold enterInstruction, mbind, Run_bind, get_state, put_state in Henter.
  injection Henter as <-.
  cut (ops = [] ∧ s' = {| nodeIDMap := nodeIDMap s;
                          nextNodeID := nextNodeID s;
                          capturedUIValues := capturedUIValues s;
                          currentInstruction := Some inst;
                          translationIndex := (translationIndex s + 1)%Z |}).
  { by intros [-> ->]. }
  revert Hrun. generalize dependent s'. generalize dependent ops.
  match goal with |- ∀ ops s', ?m ?s1 = _ → _ =>
    generalize s1; intros s0 ops s'; revert s0 ops s'; change (quiet m) end.
  destruct (instKind inst);
    repeat first
      [ apply quiet_ret_nil
      | apply quiet_translateSILApply; assumption
      | apply quiet_lift; intros ? ?
      | apply quiet_translate_each; intros ? ?
      | apply quiet_translateSILAssignFresh
      | apply quiet_translateSILAssign
      | apply quiet_translateSILStore
      | apply quiet_translateSILRequire
      | apply Hresults; first [assumption | by eapply getResult_elem_of]
      | apply Hoperands; by eapply getOperand_elem_of ].
Qed.
End TranslatorQuiet.

(** ** The constructor of the translator: the captured values *)

Section TranslatorCaptures.
Context `{SILOracles}.
Import PartitionOpTranslator.
Implicit Types (s : TranslatorState).

(** From [s] to [s'] only values were captured. *)
Definition captures s s' : Prop :=
  nodeIDMap s' = nodeIDMap s
  ∧ nextNodeID s' = nextNodeID s
  ∧ currentInstruction s' = currentInstruction s
  ∧ translationIndex s' = translationIndex s
  ∧ capturedUIValues s ⊆ capturedUIValues s'.

Lemma captures_refl s : captures s s.
Proof. by repeat split. Qed.

Lemma captures_trans s1 s2 s3 : captures s1 s2 → captures s2 s3 → captures s1 s3.
Proof.
  intros (? & ? & ? & ? & ?) (? & ? & ? & ? & ?).
  repeat split; [congruence..|set_solver].
Qed.

(** [isUniquelyIdentified] reads the state and leaves it. *)
Lemma isUniquelyIdentified_run v s :
  ∃ b, isUniquelyIdentified v s = Done (b, s).
Proof.
  unfold isUniquelyIdentified. unfold_run. repeat case_match; eauto.
Qed.

Definition notUnique (v : SILValue) s : Prop :=
  isUniquelyIdentified v s = Done (false, s).

Lemma notUnique_captures v s s' :
  capturedUIValues s ⊆ capturedUIValues s' → notUnique v s → notUnique v s'.
Proof.
  unfold notUnique, isUniquelyIdentified. unfold_run. intros Hsub.
  destruct (negb (isAddress (simplifyVal v))); [done|].
  destruct (getAccessStorageFromAddr (simplifyVal v)) as [st|]; [|done].
  destruct (storageIsUniquelyIdentified st); [|done]. simpl.
  case_bool_decide as Hin; [|done]. intros _.
  rewrite bool_decide_eq_true_2; [done|]. by apply Hsub.
Qed.

(** The values [vs] are not uniquely identified in [s], those at least that
    are not Sendable and whose canonical value is its own canonical value. *)
Definition covered (vs : list SILValue) s : Prop :=
  ∀ v, v ∈ vs → isNonSendable v = true →
       simplifyVal (simplifyVal v) = simplifyVal v → notUnique v s.

Lemma for_each_captures {A} (Q : A → TranslatorState → Prop)
    (xs : list A) (body : A → Translate unit) s s' :
  (∀ x s1 s2, Q x s1 → captures s1 s2 → Q x s2) →
  (∀ x s1 s2, x ∈ xs → body x s1 = Done (tt, s2) → captures s1 s2 ∧ Q x s2) →
  for_each xs body s = Done (tt, s') →
  captures s s' ∧ ∀ x, x ∈ xs → Q x s'.
Proof.
  intros Hmono. revert s. induction xs as [|x xs IH]; intros s Hbody; simpl.
  { intros [= <-]. split; [apply captures_refl|]. by intros x ?%elem_of_nil. }
  intros ([] & s1 & Hx & Hrest)%run_bind_inv.
  apply Hbody in Hx as [Hc1 Hq]; [|by left].
  apply IH in Hrest as [Hc2 Hqs];
    [|intros y s2 s3 Hy; apply Hbody; by right].
  split; [by eapply captures_trans|].
  intros y [->|Hy]%elem_of_cons; [by eapply Hmono|by apply Hqs].
Qed.

Lemma covered_captures vs s s' : covered vs s → captures s s' → covered vs s'.
Proof.
  intros Hvs (_ & _ & _ & _ & Hsub) v Hv Hns Hidem.
  eapply notUnique_captures; [done|]. by apply Hvs.
Qed.

Lemma captureOperands_covers operands s s' :
  captureOperands operands s = Done (tt, s') →
  captures s s' ∧ covered operands s'.
Proof.
  unfold captureOperands. intros Hrun.
  apply (for_each_captures
           (λ v s, isNonSendable v = true →
                   simplifyVal (simplifyVal v) = simplifyVal v → notUnique v s))
    in Hrun as [Hc Hq].
  - split; [done|]. intros v Hv. by apply Hq.
  - intros v s1 s2 Hv (_ & _ & _ & _ & Hsub) Hns Hidem.
    eapply notUnique_captures; [done|]. by apply Hv.
  - intros v s1 s2 _.
    destruct (isNonSendable v) eqn:Hns.
    2:{ intros [= <-]. split; [apply captures_refl|done]. }
    intros (ui & s1' & Hui & Hput)%run_bind_inv.
    destruct (isUniquelyIdentified_run v s1) as [b Hb].
    rewrite Hb in Hui. injection Hui as <- <-.
    destruct b.
    + unfold_run. injection Hput as <-.
      split; [repeat split; simpl; set_solver|].
      intros _ Hidem. unfold notUnique, isUniquelyIdentified. unfold_run.
      simpl. rewrite Hidem.
      repeat case_match; try done.
      rewrite bool_decide_eq_true_2 by set_solver.
      by rewrite andb_false_r.
    + injection Hput as <-. split; [apply captures_refl|]. by intros _ _.
Qed.

Lemma initCapturedUIValues_covers fn s s' :
  initCapturedUIValues fn s = Done (tt, s') →
  captures s s'
  ∧ ∀ blk inst, blk ∈ fnBlocks fn → inst ∈ blockInstructions blk →
      isApplyInst inst = true → covered (instOperands inst) s'.
Proof.
  unfold initCapturedUIValues. intros Hrun.
  apply (for_each_captures
           (λ blk s, ∀ inst, inst ∈ blockInstructions blk →
                       isApplyInst inst = true →
                       covered (instOperands inst) s))
    in Hrun as [Hc Hq].
  - split; [done|]. intros blk inst Hblk. by apply Hq.
  - intros blk s1 s2 Hblk Hc inst Hinst Happly.
    eapply covered_captures; [|done]. by apply Hblk.
  - intros blk s1 s2 _ Hblk.
    apply (for_each_captures
             (λ inst s, isApplyInst inst = true →
                        covered (instOperands inst) s))
      in Hblk as [Hc Hq]; [done| |].
    + intros inst s3 s4 Hinst Hc Happly.
      eapply covered_captures; [|done]. by apply Hinst.
    + intros inst s3 s4 _. destruct (isApplyInst inst).
      * intros [Hc Hcov]%captureOperands_covers. by split.
      * intros [= <-]. split; [apply captures_refl|done].
Qed.

(** The translator as its constructor leaves it: no value has an ID. *)
Lemma newTranslator_inv fn s0 :
  newTranslator fn = Done s0 →
  nodeIDMap s0 = ∅ ∧ nextNodeID s0 = 0%N
  ∧ currentInstruction s0 = None ∧ translationIndex s0 = 0%Z
  ∧ ∀ blk inst, blk ∈ fnBlocks fn → inst ∈ blockInstructions blk →
      isApplyInst inst = true → covered (instOperands inst) s0.
Proof.
  unfold newTranslator. destruct (getSendableProtocol fn); [|done].
  match goal with
  | |- match ?m ?s with _ => _ end = _ → _ =>
      destruct (m s) as [[[] s1]| |] eqn:Hrun; [|done..]
  end.
  intros [= <-].
  apply initCapturedUIValues_covers in Hrun as [(? & ? & ? & ? & _) Hcov].
  by repeat split.
Qed.

Lemma numbered_newTranslator fn s0 : newTranslator fn = Done s0 → numbered s0.
Proof.
  intros (Hmap & Hnext & _)%newTranslator_inv. unfold numbered.
  rewrite Hmap, Hnext. by repeat split.
Qed.


End TranslatorCaptures.

(** ** The whole analysis settles *)

Section DiagnoseSettles.
Context {P : Type} `{Partition.Ops P} `{SILOracles} `{PartitionOpOrder}.
Implicit Types (a : PartitionAnalysis P).

Lemma settles_for_each {S A} (xs : list A) (body : nat → A → Run S unit) s :
  (∀ x s', settles (λ fuel, body fuel x) s') →
  settles (λ fuel, for_each xs (body fuel)) s.
Proof.
  intros Hbody. revert s. induction xs as [|x xs IH]; intros s; simpl.
  { by apply settles_with_fuelfree; [apply fuelfree_ret|]. }
  eapply settles_with_bind with (Q1 := λ _ _, True); [apply Hbody|].
  intros [] s' _. apply IH.
Qed.

Lemma settles_liftTracer {A}
    (m : nat → list (BlockPartitionState P) → Run RaceTracer A) a :
  (∀ states t, settles (λ fuel, m fuel states) t) →
  settles (λ fuel, liftTracer (m fuel)) a.
Proof.
  intros Hm. destruct (Hm (blockStates a) (raceTracer a)) as (N & r & Hr & Hend).
  exists N, (match r with
             | Done (x, t') => Done (x, set_raceTracer t' a)
             | Abort e => Abort e
             | OutOfFuel => OutOfFuel
             end).
  split.
  - intros fuel Hfuel. unfold liftTracer. by rewrite Hr.
  - by destruct r as [[x t']| |].
Qed.

Lemma traceUseOfConsumedValue_settles fn states use consumedVal t :
  settles (λ fuel, traceUseOfConsumedValue fn states fuel use consumedVal) t.
Proof.
  unfold settles, traceUseOfConsumedValue.
  eapply settles_with_bind with (Q1 := λ _ _, True).
  { apply findConsumedAtOpReason_settles. }
  intros consumedReason t1 _. cbv beta.
  apply settles_with_fuelfree; [apply fuelfree_modify|done].
Qed.

Lemma getExprForPartitionOp_fuelfree op : getExprForPartitionOp op ≠ OutOfFuel.
Proof.
  unfold getExprForPartitionOp.
  pose proof (getSourceInst_fuelfree op).
  destruct (PartitionOp.getSourceInst op); [|done..]. by case_match.
Qed.

Lemma handleFailure_settles op v a :
  settles (λ fuel, handleFailure (P := P) fuel op v) a.
Proof.
  unfold settles, handleFailure.
  eapply settles_with_bind with (Q1 := λ _ _, True) (m := λ _, get_state).
  { by apply settles_with_fuelfree; [apply fuelfree_get|]. }
  intros a1 a2 _. cbv beta.
  apply (settles_liftTracer
           (λ fuel states,
              traceUseOfConsumedValue (function a1) states fuel op v)).
  intros states t. apply traceUseOfConsumedValue_settles.
Qed.

Lemma fuelfree_handleConsumeNonConsumable op v :
  fuelfree (handleConsumeNonConsumable (P := P) op v).
Proof.
  unfold handleConsumeNonConsumable, emit.
  apply fuelfree_bind; [|intros ?; apply fuelfree_modify].
  apply fuelfree_lift_outcome, getExprForPartitionOp_fuelfree.
Qed.

Lemma runCallback_settles c a : settles (λ fuel, runCallback (P := P) fuel c) a.
Proof.
  destruct c as [op v|op v]; simpl.
  - apply handleFailure_settles.
  - by apply settles_with_fuelfree;
      [apply fuelfree_handleConsumeNonConsumable|].
Qed.

Lemma fuelfree_getArgIDs fn : fuelfree (getArgIDs fn).
Proof.
  unfold getArgIDs.
  assert (∀ args (acc : Translate (list ID)),
            fuelfree acc →
            fuelfree
              (foldl (λ (acc : Translate (list ID)) arg,
                        argIDs ← acc;
                        if PartitionOpTranslator.isNonSendableType arg then
                          i ← PartitionOpTranslator.lookupNodeID arg;
                          mret (argIDs ++ [i])
                        else mret argIDs) acc args)) as Hfold.
  { induction args as [|arg args IH]; intros acc Hacc; simpl; [done|].
    apply IH. apply fuelfree_bind; [done|intros argIDs].
    case_match; fuelfree_step. }
  apply fuelfree_bind; [apply Hfold, fuelfree_ret|intros argIDs].
  repeat case_match; fuelfree_step.
Qed.

Lemma fuelfree_getNonConsumables fn : fuelfree (getNonConsumables fn).
Proof.
  unfold getNonConsumables.
  apply fuelfree_bind; [apply fuelfree_getArgIDs|intros argIDs].
  case_match; apply fuelfree_ret.
Qed.

Lemma diagnoseOps_settles ops workingPartition a :
  settles (λ fuel, diagnoseOps fuel ops workingPartition) a.
Proof.
  revert workingPartition a.
  induction ops as [|op ops IH]; intros workingPartition a; simpl.
  { by apply settles_with_fuelfree; [apply fuelfree_ret|]. }
  eapply settles_with_bind with (Q1 := λ _ _, True) (m := λ _, get_state).
  { by apply settles_with_fuelfree; [apply fuelfree_get|]. }
  intros a1 a2 _. cbv beta.
  eapply settles_with_bind with (Q1 := λ _ _, True)
    (m := λ _, liftTranslator (getNonConsumables (function a1))).
  { apply settles_with_fuelfree; [|done].
    apply fuelfree_liftTranslator, fuelfree_getNonConsumables. }
  intros nonConsumables a3 _. cbv beta.
  eapply settles_with_bind with (Q1 := λ _ _, True).
  { apply (settles_for_each _ (λ fuel, runCallback fuel)).
    intros c a4. apply runCallback_settles. }
  intros [] a4 _. apply IH.
Qed.

Lemma diagnoseFailures_settles b a :
  settles (λ fuel, diagnoseFailures (P := P) fuel b) a.
Proof.
  unfold settles, diagnoseFailures.
  eapply settles_with_bind with (Q1 := λ _ _, True) (m := λ _, getBlockState b).
  { by apply settles_with_fuelfree; [apply fuelfree_getBlockState|]. }
  intros st a1 _. apply diagnoseOps_settles.
Qed.

Lemma fuelfree_runAccumulatorCallback c :
  fuelfree (runAccumulatorCallback (P := P) c).
Proof.
  destruct c; simpl; unfold emit;
    (apply fuelfree_bind; [|intros ?; apply fuelfree_modify]);
    apply fuelfree_lift_outcome, getExprForPartitionOp_fuelfree.
Qed.

Lemma diagnose_settles a : settles (λ fuel, diagnose (P := P) fuel) a.
Proof.
  unfold settles, diagnose.
  eapply settles_with_bind with (Q1 := λ _ _, True) (m := λ _, get_state).
  { by apply settles_with_fuelfree; [apply fuelfree_get|]. }
  intros a1 a2 _. cbv beta.
  eapply settles_with_bind with (Q1 := λ _ _, True)
    (m := λ _, assert_ (solved a1)).
  { by apply settles_with_fuelfree; [apply fuelfree_assert|]. }
  intros [] a3 _. cbv beta.
  eapply settles_with_bind with (Q1 := λ _ _, True).
  { apply (settles_for_each _ (λ fuel, diagnoseFailures fuel)).
    intros b a4. apply diagnoseFailures_settles. }
  intros [] a4 _. cbv beta.
  apply settles_with_fuelfree; [|done].
  apply fuelfree_bind; [apply fuelfree_get|intros a5].
  apply fuelfree_for_each. intros c. apply fuelfree_runAccumulatorCallback.
Qed.
End DiagnoseSettles.

Section PassSettles.
Context {P : Type} `{PartitionLattice P} `{SILOracles} `{PartitionOpOrder}.
Implicit Types (a : PartitionAnalysis P).

(** The analysis as built satisfies the solver's invariant when the entry
    block has no predecessor. *)
Lemma newPartitionAnalysis_ok fn a0 :
  newPartitionAnalysis fn = Done a0 →
  (∀ blk, fnBlocks fn !! 0 = Some blk → getPredecessorBlocks blk = []) →
  solver_ok a0.
Proof.
  intros Hnew Hentry b st Hb.
  destruct (newPartitionAnalysis_lookup fn a0 b st Hnew Hb)
    as (Hfn & _ & _ & Hexit & _ & _ & _ & _ & _ & Hempty).
  split.
  - left. rewrite Hexit. intros q. apply empty_below.
  - intros blk Hblk. rewrite Hfn in Hblk.
    destruct (decide (b = 0)) as [->|Hne].
    + left. by apply Hentry.
    + right. left. rewrite (Hempty Hne). intros q. apply empty_below.
Qed.

Lemma solve_then_diagnose_settles a :
  solver_ok a → settles (λ fuel, _ ← solve fuel; diagnose fuel) a.
Proof.
  intros Hok. unfold settles.
  eapply settles_with_bind with (Q1 := λ _ _, True).
  { eapply settles_with_weaken; [by apply solve_settles|done]. }
  intros [] a1 _. apply diagnose_settles.
Qed.

Lemma performForFunction_settles fn :
  (∀ blk, fnBlocks fn !! 0 = Some blk → getPredecessorBlocks blk = []) →
  ∃ N r, r ≠ OutOfFuel ∧ ∀ fuel, N ≤ fuel → performForFunction fuel fn = r.
Proof using All.
  intros Hentry. unfold performForFunction.
  destruct (newPartitionAnalysis fn) as [a0|e|] eqn:Hnew.
  - pose proof (newPartitionAnalysis_ok fn a0 Hnew Hentry) as Hok.
    destruct (solve_then_diagnose_settles a0 Hok) as (N & r & Hr & Hend).
    exists N, (match r with
               | Done (_, a') => Done a'
               | Abort e => Abort e
               | OutOfFuel => OutOfFuel
               end).
    split; [by destruct r as [[[] a']| |]|].
    intros fuel Hfuel. by rewrite Hr.
  - by exists 0, (Abort e).
  - exfalso. revert Hnew. unfold newPartitionAnalysis.
    pose proof (fuelfree_bind
                  (modifyBlockState (P := P) 0 (set_needsUpdate true))
                  (λ _, entry ← liftTranslator (getEntryPartition fn);
                        modifyBlockState 0 (set_entryPartition entry))) as Hff.
    destruct (newTranslator fn) as [t| |] eqn:Ht; [|done|].
    + match goal with
      | |- match ?m ?a with _ => _ end = _ → _ =>
          destruct (m a) as [[[] a1]| |] eqn:Hrun; [done..|]
      end.
      intros _. revert Hrun. apply Hff; [fuelfree_step|intros _].
      apply fuelfree_bind; [|intros ?; fuelfree_step].
      apply fuelfree_liftTranslator. unfold getEntryPartition.
      apply fuelfree_bind; [apply fuelfree_getArgIDs|intros ?; fuelfree_step].
    + intros _. revert Ht. unfold newTranslator.
      destruct (getSendableProtocol fn); [|done].
      match goal with
      | |- match ?m ?s with _ => _ end = _ → _ =>
          destruct (m s) as [[[] s1]| |] eqn:Hrun; [done..|]
      end.
      intros _. revert Hrun. unfold initCapturedUIValues.
      apply fuelfree_for_each. intros blk.
      apply fuelfree_for_each. intros inst.
      case_match; [|fuelfree_step].
      unfold captureOperands. apply fuelfree_for_each. intros v.
      repeat case_match; fuelfree_step.
Qed.
End PassSettles.

(** ** Reasons *)

Section ReasonFacts.
Implicit Types (r other : ConsumedReason) (op : PartitionOp.t) (d : N)
  (m : list (N * list PartitionOp.t)).

Lemma containsOp_allOps r op : Reason.containsOp r op = true ↔ op ∈ allOps r.
Proof.
  unfold Reason.containsOp, allOps. destruct r as [m]. simpl.
  induction m as [|[k vec] m IH]; simpl.
  { split; [done|by intros ?%elem_of_nil]. }
  rewrite orb_true_iff, elem_of_app, IH.
  assert (existsb (λ vecOp, bool_decide (op = vecOp)) vec = true ↔ op ∈ vec)
    as ->; [|done].
  induction vec as [|x vec IHvec]; simpl.
  { split; [done|by intros ?%elem_of_nil]. }
  rewrite orb_true_iff, elem_of_cons, IHvec, bool_decide_eq_true. done.
Qed.

Lemma allOps_insert m d op :
  concat (omap_insert N.ltb d
            (default [] (omap_lookup N.ltb d m) ++ [op]) m).*2
  ≡ₚ op :: concat m.*2.
Proof.
  induction m as [|[z w] m IH]; simpl; [done|].
  destruct (N.ltb d z); simpl; [done|].
  destruct (N.ltb z d); simpl.
  - rewrite IH. symmetry. apply Permutation_middle.
  - rewrite <- (assoc_L (++)). simpl. symmetry. apply Permutation_middle.
Qed.

Lemma atDistance_insert_new m d op :
  ∃ vec, (d, vec) ∈ omap_insert N.ltb d
                       (default [] (omap_lookup N.ltb d m) ++ [op]) m
         ∧ op ∈ vec.
Proof.
  induction m as [|[z w] m IH]; simpl.
  { exists [op]. split; [by left|by left]. }
  destruct (N.ltb d z) eqn:Hdz; simpl.
  { exists [op]. split; [by left|by left]. }
  destruct (N.ltb z d) eqn:Hzd; simpl.
  - destruct IH as (vec & Hin & Hop). exists vec. split; [by right|done].
  - apply N.ltb_ge in Hdz, Hzd. assert (z = d) as -> by lia.
    exists (w ++ [op]). split; [by left|]. apply elem_of_app. right. by left.
Qed.

Lemma atDistance_insert_old m d op k vec (v : list PartitionOp.t) :
  (k, vec) ∈ m →
  ∃ vec', (k, vec') ∈ omap_insert N.ltb d
                         (default [] (omap_lookup N.ltb d m) ++ [op]) m
          ∧ ∀ x, x ∈ vec → x ∈ vec'.
Proof.
  induction m as [|[z w] m IH]; simpl; [by intros ?%elem_of_nil|].
  intros Hin. destruct (N.ltb d z) eqn:Hdz; simpl.
  { exists vec. split; [by right|done]. }
  destruct (N.ltb z d) eqn:Hzd; simpl.
  - apply elem_of_cons in Hin as [[= -> ->]|Hin].
    + exists w. split; [by left|done].
    + destruct (IH Hin) as (vec' & Hin' & Hsub).
      exists vec'. split; [by right|done].
  - apply elem_of_cons in Hin as [[= -> ->]|Hin].
    + exists (w ++ [op]). split; [by left|].
      intros x Hx. apply elem_of_app. by left.
    + exists vec. split; [by right|done].
Qed.

(** [addConsumeOp], when it returns. *)
Lemma addConsumeOp_inv r op d r' :
  Reason.addConsumeOp r op d = Done r' →
  PartitionOp.getKind op = KConsume
  ∧ (op ∉ allOps r)
  ∧ allOps r' ≡ₚ op :: allOps r
  ∧ atDistance r' d op
  ∧ ∀ k x, atDistance r k x → atDistance r' k x.
Proof.
  unfold Reason.addConsumeOp.
  case_bool_decide as Hkind; simpl; [|done].
  destruct (Reason.containsOp r op) eqn:Hcontains; [done|].
  intros [= <-]. split; [done|]. split.
  { rewrite <- containsOp_allOps. by rewrite Hcontains. }
  split; [apply allOps_insert|]. split.
  { apply atDistance_insert_new. }
  intros k x (vec & Hin & Hx). simpl.
  destruct (atDistance_insert_old (consumeOps r) d op k vec [] Hin)
    as (vec' & Hin' & Hsub).
  exists vec'. split; [done|by apply Hsub].
Qed.

Lemma addConsumeOp_abort r op d e :
  Reason.addConsumeOp r op d = Abort e → e = AssertionFailure.
Proof. unfold Reason.addConsumeOp. repeat case_match; congruence. Qed.

Lemma addOps_inv r ops d r' :
  Reason.addOps r ops d = Done r' →
  Forall (λ op, PartitionOp.getKind op = KConsume ∧ (op ∉ allOps r)) ops
  ∧ NoDup ops
  ∧ allOps r' ≡ₚ allOps r ++ ops
  ∧ (∀ op, op ∈ ops → atDistance r' d op)
  ∧ ∀ k x, atDistance r k x → atDistance r' k x.
Proof.
  revert r. induction ops as [|op ops IH]; intros r; simpl.
  { intros [= <-]. rewrite app_nil_r.
    repeat split; [constructor|constructor|done|by intros ? ?%elem_of_nil|done]. }
  destruct (Reason.addConsumeOp r op d) as [r1| |] eqn:Hadd; [|done..].
  apply addConsumeOp_inv in Hadd as (Hkind & Hnew & Hperm & Hat & Hkeep).
  intros (Hall & Hnodup & Hperm' & Hat' & Hkeep')%IH.
  assert (∀ x, x ∈ ops → (x ∉ allOps r) ∧ x ≠ op) as Hfresh.
  { intros x Hx. rewrite Forall_forall in Hall.
    destruct (Hall x Hx) as [_ Hx1]. rewrite Hperm in Hx1.
    split; intros ?; apply Hx1; [by right|subst; by left]. }
  split.
  { constructor; [done|]. apply Forall_forall. intros x Hx.
    rewrite Forall_forall in Hall.
    split; [by apply Hall|by apply Hfresh]. }
  split.
  { constructor; [|done]. intros Hin. by destruct (Hfresh op Hin). }
  split.
  { rewrite Hperm', Hperm. simpl. apply Permutation_middle. }
  split; [|by auto].
  intros x [->|Hx]%elem_of_cons; [by apply Hkeep'|by apply Hat'].
Qed.

Lemma addOps_abort r ops d e :
  Reason.addOps r ops d = Abort e → e = AssertionFailure.
Proof.
  revert r. induction ops as [|op ops IH]; intros r; simpl; [done|].
  destruct (Reason.addConsumeOp r op d) as [r1|e1|] eqn:Hadd; [apply IH| |done].
  intros [= <-]. by eapply addConsumeOp_abort.
Qed.

Lemma addEntries_inv r entries d r' :
  Reason.addEntries r entries d = Done r' →
  Forall (λ op, PartitionOp.getKind op = KConsume ∧ (op ∉ allOps r))
    (concat entries.*2)
  ∧ NoDup (concat entries.*2)
  ∧ allOps r' ≡ₚ allOps r ++ concat entries.*2
  ∧ (∀ k vec op, (k, vec) ∈ entries → op ∈ vec →
                 atDistance r' (wrap32 (d + k)) op)
  ∧ ∀ k x, atDistance r k x → atDistance r' k x.
Proof.
  revert r. induction entries as [|[k0 ops] entries IH]; intros r; simpl.
  { intros [= <-]. rewrite app_nil_r.
    repeat split; [constructor|constructor|done| |done].
    by intros ? ? ? ?%elem_of_nil. }
  destruct (Reason.addOps r ops (wrap32 (d + k0))) as [r1| |] eqn:Hadd;
    [|done..].
  apply addOps_inv in Hadd as (Hall & Hnodup & Hperm & Hat & Hkeep).
  intros (Hall' & Hnodup' & Hperm' & Hat' & Hkeep')%IH.
  rewrite Forall_forall in Hall, Hall'.
  assert (∀ x, x ∈ concat entries.*2 → (x ∉ allOps r) ∧ (x ∉ ops)) as Hfresh.
  { intros x Hx. destruct (Hall' x Hx) as [_ Hx1]. rewrite Hperm in Hx1.
    split; intros ?; apply Hx1; apply elem_of_app; [by left|by right]. }
  split.
  { apply Forall_forall. intros x [Hx|Hx]%elem_of_app; [by apply Hall|].
    split; [by apply Hall'|by apply Hfresh]. }
  split.
  { apply NoDup_app. split; [done|]. split; [|done].
    intros x Hx Hx'. by destruct (Hfresh x Hx'). }
  split.
  { rewrite Hperm', Hperm. by rewrite (assoc_L (++)). }
  split; [|by auto].
  intros k vec op [[= -> ->]|Hin]%elem_of_cons Hop.
  - by apply Hkeep', Hat.
  - by eapply Hat'.
Qed.

Lemma addEntries_abort r entries d e :
  Reason.addEntries r entries d = Abort e → e = AssertionFailure.
Proof.
  revert r. induction entries as [|[k ops] entries IH]; intros r; simpl; [done|].
  destruct (Reason.addOps r ops _) as [r1|e1|] eqn:Hadd; [apply IH| |done].
  intros [= <-]. by eapply addOps_abort.
Qed.
End ReasonFacts.

(** ** What the breadth-first search finds *)

Section BfsFinds.
Variable joins : list (N * list N).
Variable start : N.
Implicit Types (queue dist : list (N * N)).

(** The invariant of the loop: the values met are connected to [start], the
    joins of a value with a distance have a distance or wait in the queue,
    and [start] waits alone or has distance 0 for good. *)
Definition bfs_inv queue dist : Prop :=
  ascending N.ltb dist.*1
  ∧ (∀ x, x ∈ dist.*1 ∨ x ∈ queue.*1 → connected joins start x)
  ∧ (∀ x y, x ∈ dist.*1 → joinsTo joins x y → y ∈ dist.*1 ∨ y ∈ queue.*1)
  ∧ (((start ∉ dist.*1) ∧ queue = [(start, 0%N)])
     ∨ ((start, 0%N) ∈ dist ∧ (start ∉ queue.*1))).

Lemma bfs_inv_step cur d rest dist :
  bfs_inv ((cur, d) :: rest) dist →
  bfs_inv
    (rest ++ map (λ nextTarget, (nextTarget, wrap32 (d + 1)))
               (filter (λ nextTarget,
                          omap_lookup N.ltb nextTarget
                            (omap_insert N.ltb cur d dist) = None)
                  (default [] (omap_lookup N.ltb cur joins))))
    (omap_insert N.ltb cur d dist).
Proof.
  intros (Hasc & Hreach & Hclosed & Hstart).
  set (dist' := omap_insert N.ltb cur d dist).
  set (pushed := filter _ _).
  assert (ascending N.ltb dist'.*1) as Hasc'
    by (by apply (omap_insert_ascending N.ltb N_ltb_StrictTotal)).
  assert (∀ x, x ∈ dist'.*1 ↔ x = cur ∨ x ∈ dist.*1) as Hkeys
    by apply (omap_insert_keys N.ltb N_ltb_StrictTotal).
  assert (∀ x, x ∈ pushed ↔ ¬ (x = cur ∨ x ∈ dist.*1) ∧ joinsTo joins cur x)
    as Hpushed.
  { intros x. unfold pushed. rewrite list_elem_of_filter.
    rewrite (omap_lookup_None_iff x dist' Hasc'), Hkeys. unfold joinsTo.
    destruct (omap_lookup N.ltb cur joins) as [vs|]; simpl.
    - split; [intros [? ?]; eauto|intros [? (vs' & [= <-] & ?)]; done].
    - split; [by intros [_ ?%elem_of_nil]|by intros [_ (? & ? & _)]]. }
  assert (∀ x, x ∈ (map (λ nextTarget, (nextTarget, wrap32 (d + 1)))
                      pushed).*1 ↔ x ∈ pushed) as Hfst.
  { intros x. rewrite <- list_fmap_compose.
    assert ((fst ∘ (λ nextTarget : N, (nextTarget, wrap32 (d + 1)))) <$> pushed
            = pushed) as ->; [|done].
    clear. induction pushed as [|y ys IH]; simpl; [done|]. by f_equal. }
  assert (connected joins start cur) as Hcur.
  { apply Hreach. right. by left. }
  assert (∀ x, x ∈ ((cur, d) :: rest).*1 ↔ x = cur ∨ x ∈ rest.*1) as Hqueue.
  { intros x. simpl. apply elem_of_cons. }
  split; [done|]. split; [|split].
  - intros x. rewrite fmap_app, elem_of_app, Hfst, Hpushed, Hkeys.
    intros [[->|Hx]|[Hx|[_ Hx]]].
    + done.
    + apply Hreach. by left.
    + apply Hreach. right. apply Hqueue. by right.
    + by eapply rtc_r.
  - intros x y. rewrite fmap_app, elem_of_app, Hfst, Hpushed, !Hkeys.
    intros [->|Hx] Hy.
    + destruct (decide (y = cur ∨ y ∈ dist.*1)) as [Hin|Hnot]; [by left|].
      right. right. done.
    + destruct (Hclosed x y Hx Hy) as [Hin|[->|Hin]%Hqueue].
      * left. by right.
      * left. by left.
      * right. by left.
  - right. destruct Hstart as [[Hnot Heq]|[Hin Hnot]].
    + injection Heq as -> -> ->. split.
      * apply (elem_of_omap_insert N.ltb N_ltb_StrictTotal); [done|by left].
      * simpl. rewrite Hfst, Hpushed. intros [Hx _]. apply Hx. by left.
    + rewrite Hqueue in Hnot. split.
      * apply (elem_of_omap_insert N.ltb N_ltb_StrictTotal); [done|].
        right. split; [|done]. intros ->. apply Hnot. by left.
      * rewrite fmap_app, elem_of_app, Hfst, Hpushed.
        intros [?|[Hx _]]; [apply Hnot; by right|]. apply Hx. right.
        apply list_elem_of_fmap. by exists (start, 0%N).
Qed.

Lemma bfs_inv_done fuel queue dist res :
  bfs fuel joins queue dist = Done res → bfs_inv queue dist → bfs_inv [] res.
Proof.
  revert queue dist. induction fuel as [|fuel IH]; intros [|[cur d] rest] dist;
    simpl; try done.
  - by intros [= <-].
  - by intros [= <-].
  - intros Hrun Hinv. eapply IH; [done|]. by apply bfs_inv_step.
Qed.

Lemma bfs_finds fuel dist :
  bfs fuel joins [(start, 0%N)] [] = Done dist →
  ascending N.ltb dist.*1
  ∧ omap_lookup N.ltb start dist = Some 0%N
  ∧ ∀ x, x ∈ dist.*1 ↔ connected joins start x.
Proof.
  intros Hrun. apply bfs_inv_done in Hrun as (Hasc & Hreach & Hclosed & Hstart).
  - destruct Hstart as [[_ [=]]|[Hin _]].
    split; [done|]. split.
    { by apply (omap_lookup_Some N.ltb N_ltb_StrictTotal). }
    intros x. split; [intros Hx; apply Hreach; by left|].
    revert x. apply rtc_ind_r.
    + apply list_elem_of_fmap. by exists (start, 0%N).
    + intros y z _ Hyz IH.
      destruct (Hclosed y z IH Hyz) as [?|?%elem_of_nil]; done.
  - split; [constructor|]. split; [|split].
    + intros x [?%elem_of_nil|Hx]; [done|]. simpl in Hx.
      apply list_elem_of_singleton in Hx as ->. constructor.
    + by intros x y ?%elem_of_nil.
    + left. split; [by intros ?%elem_of_nil|done].
Qed.
End BfsFinds.

(** ** The IDs of the arguments *)

Section ArgIDs.
Context `{SILOracles}.
Import PartitionOpTranslator.
Implicit Types (s : TranslatorState).

Lemma lookupNodeID_again v s i s1 s2 :
  lookupNodeID v s = Done (i, s1) →
  nodeIDMap s2 !! simplifyVal v = Some i →
  lookupNodeID v s2 = Done (i, s2).
Proof.
  unfold lookupNodeID. unfold_run.
  destruct (isNonSendable (simplifyVal v)); [|done].
  intros _ ->. done.
Qed.

(** The loop of [getArgIDs] over the arguments. *)
Lemma getArgIDs_loop_stable args (acc : Translate (list ID)) s ids s1 :
  foldl (λ (acc : Translate (list ID)) arg,
           argIDs ← acc;
           if isNonSendableType arg then
             i ← lookupNodeID arg;
             mret (argIDs ++ [i])
           else mret argIDs) acc args s = Done (ids, s1) →
  ∃ ids0 s0 rest,
    acc s = Done (ids0, s0) ∧ ids = ids0 ++ rest ∧ keepsIDs s0 s1
    ∧ ∀ (acc' : Translate (list ID)) s2 ids0',
        keepsIDs s1 s2 → acc' s2 = Done (ids0', s2) →
        foldl (λ (acc : Translate (list ID)) arg,
                 argIDs ← acc;
                 if isNonSendableType arg then
                   i ← lookupNodeID arg;
                   mret (argIDs ++ [i])
                 else mret argIDs) acc' args s2 = Done (ids0' ++ rest, s2).
Proof.
  revert acc. induction args as [|arg args IH]; intros acc; simpl.
  { intros Hacc. exists ids, s1, []. rewrite app_nil_r.
    split; [done|]. split; [done|]. split; [apply keepsIDs_refl|].
    intros acc' s2 ids0' _ Hacc'. by rewrite app_nil_r. }
  intros (ids1 & s1' & rest & Hstep & -> & Hkeep & Hagain)%IH.
  apply run_bind_inv in Hstep as (ids0 & s0 & Hacc & Hstep).
  destruct (isNonSendableType arg) eqn:Htype.
  - apply run_bind_inv in Hstep as (i & s0' & Hlookup & [= <- <-]).
    pose proof Hlookup as [(Hk & _) Hi]%lookupNodeID_within.
    exists ids0, s0, (i :: rest). split; [done|].
    split; [by rewrite <- (assoc_L (++))|].
    split; [by eapply keepsIDs_trans|].
    intros acc' s2 ids0' Hkeep2 Hacc'.
    rewrite (Hagain _ s2 (ids0' ++ [i]) Hkeep2).
    + by rewrite <- (assoc_L (++)).
    + rewrite (run_bind_done _ _ _ _ _ Hacc').
      rewrite (run_bind_done _ _ _ i s2); [done|].
      eapply lookupNodeID_again; [done|].
      destruct Hkeep as [Hk1 _], Hkeep2 as [Hk2 _]. by apply Hk2, Hk1.
  - injection Hstep as <- <-.
    exists ids0, s0, rest. split; [done|]. split; [done|]. split; [done|].
    intros acc' s2 ids0' Hkeep2 Hacc'.
    apply (Hagain _ s2 ids0' Hkeep2).
    by rewrite (run_bind_done _ _ _ _ _ Hacc').
Qed.

Lemma getArgIDs_again fn s argIDs s1 s2 :
  getArgIDs fn s = Done (argIDs, s1) → keepsIDs s1 s2 →
  keepsIDs s s1 ∧ getArgIDs fn s2 = Done (argIDs, s2).
Proof.
  unfold getArgIDs.
  intros (ids & s0 & Hloop & Hself)%run_bind_inv Hkeep2.
  apply getArgIDs_loop_stable in Hloop
    as (ids0 & s0' & rest & [= <- <-] & -> & Hkeep & Hagain).
  simpl in *.
  assert (∀ s3, keepsIDs s0 s3 →
            foldl (λ (acc : Translate (list ID)) arg,
                     argIDs ← acc;
                     if isNonSendableType arg then
                       i ← lookupNodeID arg;
                       mret (argIDs ++ [i])
                     else mret argIDs) (mret []) (getArguments fn) s3
            = Done (rest, s3)) as Hloop.
  { intros s3 Hk. by apply (Hagain (mret []) s3 []). }
  destruct (getSelfArgument fn) as [self|].
  - destruct (isNonSendableType self) eqn:Htype.
    + apply run_bind_inv in Hself as (i & s0' & Hlookup & [= <- <-]).
      pose proof Hlookup as [(Hk & _) Hi]%lookupNodeID_within.
      split; [by eapply keepsIDs_trans|].
      rewrite (run_bind_done _ _ _ _ _ (Hloop s2 ltac:(by eapply keepsIDs_trans))).
      rewrite (run_bind_done _ _ _ i s2); [done|].
      eapply lookupNodeID_again; [done|]. destruct Hkeep2 as [Hk2 _]. by apply Hk2.
    + injection Hself as <- <-. split; [done|].
      by rewrite (run_bind_done _ _ _ _ _ (Hloop s2 Hkeep2)).
  - injection Hself as <- <-. split; [done|].
    by rewrite (run_bind_done _ _ _ _ _ (Hloop s2 Hkeep2)).
Qed.

Lemma getNonConsumables_again fn s argIDs s1 s2 :
  getArgIDs fn s = Done (argIDs, s1) → keepsIDs s1 s2 →
  getNonConsumables fn s2 = Done (take 1 argIDs, s2).
Proof.
  intros Hargs Hkeep. unfold getNonConsumables.
  destruct (getArgIDs_again fn s argIDs s1 s2 Hargs Hkeep) as [_ Hagain].
  rewrite (run_bind_done _ _ _ _ _ Hagain). by destruct argIDs.
Qed.
End ArgIDs.

(** ** The IDs through the whole pass *)

Section AnalysisKeeps.
Context {P : Type} `{Partition.Ops P} `{SILOracles} `{PartitionOpOrder}.
Implicit Types (a : PartitionAnalysis P) (s : TranslatorState).

(** From [s] to [s'] the IDs, the captured values and the numbering are
    kept. *)
Definition idsKept s s' : Prop := keepsIDs s s' ∧ keepsNumbering s s'.

Lemma idsKept_refl s : idsKept s s.
Proof. split; [apply keepsIDs_refl|apply keepsNumbering_refl]. Qed.

Lemma idsKept_trans s1 s2 s3 : idsKept s1 s2 → idsKept s2 s3 → idsKept s1 s3.
Proof.
  intros [Hk1 Hn1] [Hk2 Hn2].
  split; [by eapply keepsIDs_trans|by eapply keepsNumbering_trans].
Qed.

(** The same of the translators of two states of the analysis. *)
Definition translatorKept a a' : Prop := idsKept (translator a) (translator a').

Lemma translatorKept_refl a : translatorKept a a.
Proof. apply idsKept_refl. Qed.

Lemma translatorKept_trans a1 a2 a3 :
  translatorKept a1 a2 → translatorKept a2 a3 → translatorKept a1 a3.
Proof. apply idsKept_trans. Qed.

Local Abbreviation keeps := (frames translatorKept).

Lemma keeps_ret {A} (x : A) : keeps (mret x).
Proof. apply frames_ret, translatorKept_refl. Qed.

Lemma keeps_bind {A B} (m : Run (PartitionAnalysis P) A)
    (f : A → Run (PartitionAnalysis P) B) :
  keeps m → (∀ x, keeps (f x)) → keeps (m ≫= f).
Proof. apply frames_bind, translatorKept_trans. Qed.

Lemma keeps_for_each {A} (xs : list A)
    (body : A → Run (PartitionAnalysis P) unit) :
  (∀ x, keeps (body x)) → keeps (for_each xs body).
Proof.
  apply frames_for_each; [apply translatorKept_refl|apply translatorKept_trans].
Qed.

Lemma keeps_same_translator {A} (m : Run (PartitionAnalysis P) A) :
  (∀ a x a', m a = Done (x, a') → translator a' = translator a) → keeps m.
Proof.
  intros Hm a x a' Hrun. unfold translatorKept.
  rewrite (Hm a x a' Hrun). apply idsKept_refl.
Qed.

Lemma keeps_getBlockState b : keeps (getBlockState (P := P) b).
Proof.
  apply keeps_same_translator. intros a x a'. unfold getBlockState. unfold_run.
  destruct (blockStates a !! b); [|done]. by intros [= _ <-].
Qed.

Lemma keeps_getBlock b : keeps (getBlock (P := P) b).
Proof.
  apply keeps_same_translator. intros a x a'. unfold getBlock. unfold_run.
  destruct (fnBlocks (function a) !! b); [|done]. by intros [= _ <-].
Qed.

Lemma keeps_modifyBlockState b f : keeps (modifyBlockState (P := P) b f).
Proof.
  apply keeps_same_translator. intros a x a'. unfold modifyBlockState.
  unfold_run. destruct (blockStates a !! b); [|done]. by intros [= _ <-].
Qed.

Lemma keeps_liftTracer {A}
    (m : list (BlockPartitionState P) → Run RaceTracer A) :
  keeps (liftTracer m).
Proof.
  apply keeps_same_translator. intros a x a'. unfold liftTracer.
  destruct (m _ _) as [[y t']| |]; [|done..]. by intros [= _ <-].
Qed.

Lemma keeps_liftTranslator {A} (m : Translate A) :
  frames idsKept m → keeps (liftTranslator (P := P) m).
Proof.
  intros Hm a x a'. unfold liftTranslator.
  destruct (m (translator a)) as [[y t']| |] eqn:Hrun; [|done..].
  intros [= _ <-]. unfold translatorKept. simpl. by eapply Hm.
Qed.

Lemma keeps_lift_outcome {A} (o : Outcome A) :
  keeps (lift_outcome (S := PartitionAnalysis P) o).
Proof. apply frames_lift_outcome, translatorKept_refl. Qed.

Lemma keeps_emit d : keeps (emit (P := P) d).
Proof. apply keeps_same_translator. by intros a x a' [= _ <-]. Qed.

Lemma frames_idsKept_translateSILBasicBlock insts :
  frames idsKept (PartitionOpTranslator.translateSILBasicBlock insts).
Proof.
  intros s ops s' (Hk & _ & _ & _ & Hn)%translateSILBasicBlock_keeps.
  by split.
Qed.

Lemma frames_idsKept_lookupNodeID v :
  frames idsKept (PartitionOpTranslator.lookupNodeID v).
Proof.
  intros s i s' [(Hk & _ & _ & Hn) _]%lookupNodeID_within. by split.
Qed.

Lemma frames_idsKept_getArgIDs fn : frames idsKept (getArgIDs fn).
Proof.
  unfold getArgIDs.
  assert (∀ args (acc : Translate (list ID)),
            frames idsKept acc →
            frames idsKept
              (foldl (λ (acc : Translate (list ID)) arg,
                        argIDs ← acc;
                        if PartitionOpTranslator.isNonSendableType arg then
                          i ← PartitionOpTranslator.lookupNodeID arg;
                          mret (argIDs ++ [i])
                        else mret argIDs) acc args)) as Hfold.
  { induction args as [|arg args IH]; intros acc Hacc; simpl; [done|].
    apply IH. apply frames_bind; [apply idsKept_trans|done|intros argIDs].
    case_match; [|apply frames_ret, idsKept_refl].
    apply frames_bind; [apply idsKept_trans|apply frames_idsKept_lookupNodeID|].
    intros i. apply frames_ret, idsKept_refl. }
  apply frames_bind; [apply idsKept_trans| |intros argIDs].
  { apply Hfold, frames_ret, idsKept_refl. }
  repeat case_match; try apply frames_ret, idsKept_refl.
  apply frames_bind; [apply idsKept_trans|apply frames_idsKept_lookupNodeID|].
  intros i. apply frames_ret, idsKept_refl.
Qed.

Lemma keeps_recomputeExitFromEntry b : keeps (recomputeExitFromEntry (P := P) b).
Proof.
  unfold recomputeExitFromEntry, ensureBlockPartitionOpsPopulated.
  apply keeps_bind.
  { apply keeps_bind; [apply keeps_getBlockState|intros st].
    case_match; [apply keeps_ret|].
    apply keeps_bind; [apply keeps_getBlock|intros blk].
    apply keeps_bind; [|intros ops; apply keeps_modifyBlockState].
    apply keeps_liftTranslator, frames_idsKept_translateSILBasicBlock. }
  intros _. apply keeps_bind; [apply keeps_getBlockState|intros st].
  apply keeps_bind; [apply keeps_modifyBlockState|intros _; apply keeps_ret].
Qed.

Lemma keeps_joinPredecessors preds acc first :
  keeps (joinPredecessors (P := P) preds acc first).
Proof.
  revert acc first. induction preds as [|p preds IH]; intros acc first; simpl.
  { apply keeps_ret. }
  apply keeps_bind; [apply keeps_getBlockState|intros st].
  repeat case_match; apply IH.
Qed.

Lemma keeps_solveBlock b anyNeedUpdate :
  keeps (solveBlock (P := P) b anyNeedUpdate).
Proof.
  unfold solveBlock.
  apply keeps_bind; [apply keeps_getBlockState|intros st].
  case_match; [apply keeps_ret|].
  apply keeps_bind; [apply keeps_modifyBlockState|intros _].
  apply keeps_bind; [apply keeps_modifyBlockState|intros _].
  apply keeps_bind; [apply keeps_getBlock|intros blk].
  apply keeps_bind; [apply keeps_joinPredecessors|intros [entry first]].
  apply keeps_bind; [apply keeps_getBlockState|intros st'].
  case_match; [apply keeps_ret|].
  apply keeps_bind.
  { case_match; [apply keeps_modifyBlockState|apply keeps_ret]. }
  intros _. apply keeps_bind; [apply keeps_recomputeExitFromEntry|intros upd].
  destruct upd; [|apply keeps_ret].
  apply keeps_bind; [|intros _; apply keeps_ret].
  apply keeps_for_each. intros succ. apply keeps_modifyBlockState.
Qed.

Lemma keeps_sweep blocks anyNeedUpdate : keeps (sweep (P := P) blocks anyNeedUpdate).
Proof.
  revert anyNeedUpdate. induction blocks as [|b blocks IH]; intros any; simpl.
  { apply keeps_ret. }
  apply keeps_bind; [apply keeps_solveBlock|apply IH].
Qed.

Lemma keeps_solveLoop fuel : keeps (solveLoop (P := P) fuel).
Proof.
  induction fuel as [|fuel IH]; [done|]. cbn [solveLoop].
  apply frames_get_bind. intros a x a'.
  apply (keeps_bind (sweep (seq 0 (length (blockStates a))) false)
           (λ any : bool, if any then solveLoop fuel else mret tt)).
  - apply keeps_sweep.
  - intros []; [apply IH|apply keeps_ret].
Qed.

Lemma keeps_solve fuel : keeps (solve (P := P) fuel).
Proof.
  unfold solve. apply frames_get_bind. intros a x a'.
  intros (_ & a1 & _ & Hrun)%run_bind_inv.
  revert Hrun. unfold_run. apply keeps_solveLoop.
Qed.

Lemma keeps_runCallback fuel c : keeps (runCallback (P := P) fuel c).
Proof.
  destruct c as [op v|op v]; simpl.
  - unfold handleFailure. apply frames_get_bind. intros a x a'.
    apply keeps_liftTracer.
  - unfold handleConsumeNonConsumable.
    apply keeps_bind; [apply keeps_lift_outcome|intros expr; apply keeps_emit].
Qed.

Lemma keeps_diagnoseOps fuel ops workingPartition :
  keeps (diagnoseOps (P := P) fuel ops workingPartition).
Proof.
  revert workingPartition. induction ops as [|op ops IH]; intros w; simpl.
  { apply keeps_ret. }
  apply frames_get_bind. intros a x a'.
  apply (keeps_bind (liftTranslator (getNonConsumables (function a)))).
  { apply keeps_liftTranslator. unfold getNonConsumables.
    apply frames_bind; [apply idsKept_trans|apply frames_idsKept_getArgIDs|].
    intros argIDs. case_match; apply frames_ret, idsKept_refl. }
  intros nonConsumables.
  apply keeps_bind; [|intros _; apply IH].
  apply keeps_for_each. intros c. apply keeps_runCallback.
Qed.

Lemma keeps_diagnose fuel : keeps (diagnose (P := P) fuel).
Proof.
  unfold diagnose. apply frames_get_bind. intros a x a'.
  apply (keeps_bind (assert_ (solved a))).
  { apply frames_assert, translatorKept_refl. }
  intros _. apply keeps_bind.
  { apply keeps_for_each. intros b. unfold diagnoseFailures.
    apply keeps_bind; [apply keeps_getBlockState|intros st].
    apply keeps_diagnoseOps. }
  intros _. apply frames_get_bind. intros a1 x1 a1'.
  apply keeps_for_each. intros c.
  destruct c; simpl;
    (apply keeps_bind; [apply keeps_lift_outcome|intros expr; apply keeps_emit]).
Qed.

(** The analysis as built has a numbering, and the pass keeps it. *)
Lemma newPartitionAnalysis_keeps fn a0 :
  newPartitionAnalysis fn = Done a0 →
  ∃ s0, newTranslator fn = Done s0 ∧ idsKept s0 (translator a0).
Proof.
  intros (t & t1 & entry & Ht & Hentry & _ & ->)%newPartitionAnalysis_inv.
  exists t. split; [done|]. simpl.
  revert Hentry. unfold getEntryPartition.
  intros (argIDs & t2 & Hargs & [= _ <-])%run_bind_inv.
  by eapply frames_idsKept_getArgIDs.
Qed.

Lemma performForFunction_keeps fuel fn a' :
  performForFunction fuel fn = Done a' →
  ∃ s0, newTranslator fn = Done s0 ∧ idsKept s0 (translator a').
Proof.
  unfold performForFunction.
  destruct (newPartitionAnalysis fn) as [a0| |] eqn:Hnew; [|done..].
  apply newPartitionAnalysis_keeps in Hnew as (s0 & Hs0 & Hkept).
  destruct ((_ ← solve fuel; diagnose fuel) a0) as [[[] a1]| |] eqn:Hrun;
    [|done..].
  intros [= <-]. exists s0. split; [done|].
  eapply idsKept_trans; [done|].
  revert Hrun. apply keeps_bind; [apply keeps_solve|intros _; apply keeps_diagnose].
Qed.
End AnalysisKeeps.

(** ** The solver: what it has computed when it returns *)

Section SolverFixpoint.
Context {P : Type} `{PartitionLattice P} `{SILOracles}.
Implicit Types (a : PartitionAnalysis P) (st : BlockPartitionState P).
Implicit Types (A F : list (BlockPartitionState P)).

(** [r] is above the exit partition of every reached block of [preds]. *)
Definition upperBound A (preds : list BlockId) (r : P) : Prop :=
  ∀ p, p ∈ reachedPredecessors A preds → below (exitOf A p) r.

(** The block waits for an update, or has no predecessor, or its entry
    partition has the upper bounds of the exit partitions of its reached
    predecessors. *)
Definition settled (fn : SILFunction) A (c : BlockId) st : Prop :=
  needsUpdate st = true
  ∨ ∀ blk, fnBlocks fn !! c = Some blk →
      getPredecessorBlocks blk = []
      ∨ ∀ r, below (entryPartition st) r
             ↔ upperBound A (getPredecessorBlocks blk) r.

Definition fix_ok a : Prop :=
  ∀ c st, blockStates a !! c = Some st →
          settled (function a) (blockStates a) c st.

Lemma elem_of_reachedPredecessors A preds p :
  p ∈ reachedPredecessors A preds
  ↔ p ∈ preds ∧ ∃ st, A !! p = Some st ∧ reached st = true.
Proof.
  unfold reachedPredecessors. rewrite list_elem_of_filter.
  destruct (A !! p) as [st|]; simpl.
  - split; [intros [[= ?] ?]; eauto|intros [? (? & [= <-] & ->)]; done].
  - split; [by intros [? _]|by intros [_ (? & ? & _)]].
Qed.

Lemma joinOfExits_upperBound A preds r :
  below (joinOfExits A (reachedPredecessors A preds)) r ↔ upperBound A preds r.
Proof.
  split.
  - intros Hjoin p Hp. eapply below_trans; [|done].
    by apply joinOfExits_above.
  - intros Hub.
    destruct (decide (reachedPredecessors A preds = [])) as [->|Hne].
    + apply empty_below.
    + by apply joinOfExits_least.
Qed.

(** A block becomes reached, or changes its exit partition for an equal
    one: the upper bounds are the same. *)
Lemma upperBound_insert A b old new preds r :
  A !! b = Some old →
  reached new = true →
  below (exitPartition old) (exitPartition new) →
  below (exitPartition new) (exitPartition old) →
  (reached old = false → isBottom (exitPartition old)) →
  upperBound A preds r ↔ upperBound (<[b := new]> A) preds r.
Proof.
  intros Hb Hreached Hup Hdown Hbottom.
  assert (b < length A) as Hlt by by eapply lookup_lt_Some.
  unfold upperBound. split; intros Hub p;
    rewrite elem_of_reachedPredecessors; intros [Hp (st & Hst & Hr)].
  - destruct (decide (b = p)) as [<-|Hne].
    + rewrite list_lookup_insert_eq in Hst by done. injection Hst as <-.
      unfold exitOf. rewrite list_lookup_insert_eq by done. simpl.
      destruct (reached old) eqn:Hold.
      * eapply below_trans; [done|].
        specialize (Hub b). unfold exitOf in Hub. rewrite Hb in Hub.
        apply Hub, elem_of_reachedPredecessors. eauto.
      * eapply below_trans; [done|]. by apply Hbottom.
    + rewrite list_lookup_insert_ne in Hst by done.
      unfold exitOf. rewrite list_lookup_insert_ne by done.
      apply Hub, elem_of_reachedPredecessors. eauto.
  - destruct (decide (b = p)) as [<-|Hne].
    + assert (st = old) as -> by congruence.
      unfold exitOf. rewrite Hb. simpl.
      eapply below_trans; [done|].
      specialize (Hub b). unfold exitOf in Hub.
      rewrite list_lookup_insert_eq in Hub by done. apply Hub.
      apply elem_of_reachedPredecessors. split; [done|].
      exists new. by rewrite list_lookup_insert_eq.
    + specialize (Hub p). unfold exitOf in *.
      rewrite list_lookup_insert_ne in Hub by done. apply Hub.
      apply elem_of_reachedPredecessors. split; [done|].
      exists st. by rewrite list_lookup_insert_ne.
Qed.

Lemma upperBound_insert_other A b new preds r :
  b ∉ preds →
  upperBound A preds r ↔ upperBound (<[b := new]> A) preds r.
Proof.
  intros Hb. unfold upperBound.
  split; intros Hub p; rewrite elem_of_reachedPredecessors;
    intros [Hp (st & Hst & Hr)];
    (assert (b ≠ p) as Hne by (by intros ->)).
  - rewrite list_lookup_insert_ne in Hst by done.
    unfold exitOf. rewrite list_lookup_insert_ne by done.
    apply Hub, elem_of_reachedPredecessors. eauto.
  - specialize (Hub p). unfold exitOf in *.
    rewrite list_lookup_insert_ne in Hub by done. apply Hub.
    apply elem_of_reachedPredecessors. split; [done|].
    exists st. by rewrite list_lookup_insert_ne.
Qed.

Lemma upperBound_flag succs F preds r :
  upperBound F preds r ↔ upperBound (flagSuccessors succs F) preds r.
Proof.
  assert (∀ p, exitOf (flagSuccessors succs F) p = exitOf F p) as Hexit.
  { intros p. unfold exitOf. rewrite flagSuccessors_lookup.
    destruct (F !! p) as [st|]; [|done]. simpl. by case_bool_decide. }
  assert (∀ p, p ∈ reachedPredecessors (flagSuccessors succs F) preds
               ↔ p ∈ reachedPredecessors F preds) as Hreached.
  { intros p. rewrite !elem_of_reachedPredecessors, flagSuccessors_lookup.
    destruct (F !! p) as [st|]; simpl.
    - split; intros [Hp (st' & [= <-] & Hr)]; (split; [done|]).
      + exists st. split; [done|]. revert Hr. by case_bool_decide.
      + eexists. split; [done|]. by case_bool_decide.
    - split; by intros [_ (? & ? & _)]. }
  unfold upperBound. split; intros Hub p Hp.
  - rewrite Hexit. by apply Hub, Hreached.
  - rewrite <- Hexit. by apply Hub, Hreached.
Qed.

Lemma unreached_bottom a b st :
  sound a → blockStates a !! b = Some st → reached st = false →
  isBottom (exitPartition st).
Proof.
  intros Hs Hb Hr. destruct (Hs b st Hb) as [_ Hst].
  destruct (blockPartitionOpsPopulated st).
  - destruct Hst as [? _]. congruence.
  - destruct Hst as [-> _]. intros q. apply empty_below.
Qed.

Lemma solveBlock_fix b (anyNeedUpdate any' : bool) a a' :
  predecessorsMatch (function a) →
  sound a → solver_ok a → fix_ok a →
  solveBlock b anyNeedUpdate a = Done (any', a') →
  fix_ok a'.
Proof.
  intros Hcfg Hsound Hok Hfix (st & Hb & Hcases)%solveBlock_inv.
  assert (b < length (blockStates a)) as Hlt by by eapply lookup_lt_Some.
  destruct Hcases as [(Hneeds & -> & ->)|(Hneeds & blk & Hblk & Hcases)];
    [done|].
  cbv zeta in Hcases.
  set (visited := set_reached true (set_needsUpdate false st)) in *.
  set (states := <[b := visited]> (blockStates a)) in *.
  set (reachedPreds := reachedPredecessors states (getPredecessorBlocks blk)) in *.
  set (newEntry := joinOfExits states reachedPreds) in *.
  assert (states !! b = Some visited) as Hb1
    by (by apply list_lookup_insert_eq).
  assert (reached st = false → isBottom (exitPartition st)) as Hbottom
    by (by eapply unreached_bottom).
  (* the other blocks, when the exit partition of [b] stays equal *)
  assert (∀ new c st0,
            reached new = true →
            below (exitPartition st) (exitPartition new) →
            below (exitPartition new) (exitPartition st) →
            c ≠ b → blockStates a !! c = Some st0 →
            settled (function a) (<[b := new]> (blockStates a)) c st0)
    as Hothers.
  { intros new c st0 Hr Hup Hdown Hne Hc.
    destruct (Hfix c st0 Hc) as [Hflag|Hset]; [by left|]. right.
    intros blk' Hblk'. destruct (Hset blk' Hblk') as [Hnone|Hset']; [by left|].
    right. intros r. rewrite (Hset' r).
    by apply (upperBound_insert _ b st new). }
  destruct Hcases as [(Hsome & Hequals & -> & ->)|(ops & t' & Hops & -> & ->)].
  - (* the entry partition is unchanged *)
    intros c st0. simpl. destruct (decide (c = b)) as [->|Hne].
    + rewrite Hb1. intros [= <-]. right. intros blk' Hblk'.
      assert (blk' = blk) as -> by congruence. right. intros r.
      apply equals_below in Hequals as [Hle Hge].
      rewrite <- (joinOfExits_upperBound states). fold reachedPreds newEntry.
      simpl. split; intros ?; by eapply below_trans.
    + unfold states. rewrite list_lookup_insert_ne by done. intros Hc.
      apply Hothers; [done|apply below_refl|apply below_refl|done|done].
  - (* the exit partition is recomputed *)
    set (entry := if bool_decide (reachedPreds = []) then entryPartition st
                  else newEntry) in *.
    set (exit := replay ops entry) in *.
    set (solved := solvedBlockState st entry exit ops) in *.
    set (F0 := <[b := solved]> states) in *.
    assert (F0 = <[b := solved]> (blockStates a)) as HF0
      by (unfold F0, states; by rewrite list_insert_insert_eq).
    assert (F0 !! b = Some solved) as HbF0
      by (rewrite HF0; by apply list_lookup_insert_eq).
    (* the entry partition of [b] has the upper bounds of [states] *)
    assert (getPredecessorBlocks blk ≠ [] →
            ∀ r, below entry r
                 ↔ upperBound states (getPredecessorBlocks blk) r) as Hentry.
    { intros Hpreds r. unfold entry. case_bool_decide as Hnone.
      - split.
        + intros _ p Hp. fold reachedPreds in Hp. rewrite Hnone in Hp.
          by apply elem_of_nil in Hp.
        + intros _. destruct (Hok b st Hb) as [_ Hentry_st].
          destruct (Hentry_st blk Hblk) as [?|[Hbot|[Hne _]]];
            [done|apply Hbot|].
          exfalso.
          assert (evolves (blockStates a) states) as Hev.
          { eapply evolves_insert; [done|done|apply below_refl]. }
          by destruct (evolves_join _ _ _ Hev Hne).
      - unfold newEntry, reachedPreds. apply joinOfExits_upperBound. }
    destruct (Partition.equals (exitPartition st) exit) eqn:Hequals;
      cbn [negb].
    + apply equals_below in Hequals as [Hle Hge].
      intros c st0. simpl. destruct (decide (c = b)) as [->|Hne].
      * rewrite HbF0. intros [= <-]. right. intros blk' Hblk'.
        assert (blk' = blk) as -> by congruence.
        destruct (decide (getPredecessorBlocks blk = [])) as [?|Hpreds];
          [by left|].
        right. intros r. simpl. rewrite (Hentry Hpreds r).
        unfold F0. by apply (upperBound_insert _ b visited solved).
      * rewrite HF0, list_lookup_insert_ne by done. intros Hc.
        rewrite <- HF0. rewrite HF0. by apply Hothers.
    + intros c st'. simpl. rewrite flagSuccessors_lookup.
      destruct (F0 !! c) as [st0|] eqn:Hc; [|done]. simpl. intros [= <-].
      case_bool_decide as Hsucc; [by left|].
      assert (∀ blk', fnBlocks (function a) !! c = Some blk' →
                b ∉ getPredecessorBlocks blk') as Hnotpred.
      { intros blk' Hblk' Hin.
        destruct (Hcfg c blk' b Hblk' Hin) as (pblk & Hpblk & Hcin).
        assert (pblk = blk) as -> by congruence. done. }
      destruct (decide (c = b)) as [->|Hne].
      * rewrite HbF0 in Hc. injection Hc as <-. right. intros blk' Hblk'.
        assert (blk' = blk) as -> by congruence.
        destruct (decide (getPredecessorBlocks blk = [])) as [?|Hpreds];
          [by left|].
        right. intros r. simpl. rewrite (Hentry Hpreds r).
        rewrite <- upperBound_flag. unfold F0.
        apply upperBound_insert_other. by apply Hnotpred.
      * rewrite HF0, list_lookup_insert_ne in Hc by done.
        destruct (Hfix c st0 Hc) as [Hflag|Hset]; [by left|]. right.
        intros blk' Hblk'.
        destruct (Hset blk' Hblk') as [Hnone|Hset']; [by left|].
        right. intros r. rewrite (Hset' r).
        rewrite <- upperBound_flag. rewrite HF0.
        apply upperBound_insert_other. by apply Hnotpred.
Qed.

(** What the solver keeps true from the analysis as built to the end. *)
Definition fix_inv a : Prop :=
  predecessorsMatch (function a) ∧ sound a ∧ solver_ok a ∧ fix_ok a.

Lemma solveBlock_fix_inv b (anyNeedUpdate any' : bool) a a' :
  fix_inv a → solveBlock b anyNeedUpdate a = Done (any', a') → fix_inv a'.
Proof.
  intros (Hcfg & Hsound & Hok & Hfix) Hrun.
  destruct (solveBlock_turn _ _ _ _ _ Hrun) as ((Hfn & _) & _ & Hs & _).
  destruct (solveBlock_ok _ _ _ _ _ Hok Hrun) as (Hok' & _).
  split_and!; [by rewrite Hfn|by apply Hs|done|by eapply solveBlock_fix].
Qed.

Lemma sweep_fix_inv blocks (anyNeedUpdate any' : bool) a a' :
  fix_inv a → sweep blocks anyNeedUpdate a = Done (any', a') → fix_inv a'.
Proof.
  revert anyNeedUpdate a. induction blocks as [|b blocks IH];
    intros anyNeedUpdate a Hinv; simpl.
  - by intros [= _ <-].
  - intros (any1 & a1 & Hstep & Hrest)%run_bind_inv.
    eapply IH; [|done]. by eapply solveBlock_fix_inv.
Qed.

Lemma solveLoop_fix_inv fuel a u a' :
  fix_inv a → solveLoop fuel a = Done (u, a') → fix_inv a'.
Proof.
  revert a. induction fuel as [|fuel IH]; intros a Hinv; [done|].
  cbn [solveLoop]. unfold mbind, Run_bind, get_state.
  destruct (sweep _ false a) as [[any' a1]|e|] eqn:Hsweep; [|done..].
  apply sweep_fix_inv in Hsweep; [|done].
  destruct any'; [by apply IH|]. by intros [= _ <-].
Qed.

Lemma newPartitionAnalysis_fix_inv fn a0 :
  newPartitionAnalysis fn = Done a0 →
  (∀ blk, fnBlocks fn !! 0 = Some blk → getPredecessorBlocks blk = []) →
  predecessorsMatch fn →
  fix_inv a0.
Proof.
  intros Hnew Hentry Hcfg.
  assert (function a0 = fn) as Hfn.
  { by apply newPartitionAnalysis_inv in Hnew as (? & ? & ? & _ & _ & _ & ->). }
  split_and!.
  - by rewrite Hfn.
  - by apply newPartitionAnalysis_sound in Hnew.
  - by eapply newPartitionAnalysis_ok.
  - intros c st Hc.
    destruct (newPartitionAnalysis_lookup fn a0 c st Hnew Hc)
      as (_ & _ & _ & _ & _ & _ & _ & _ & Hneeds & Hempty).
    destruct (decide (c = 0)) as [->|Hne]; [by left|].
    right. intros blk Hblk. right. intros r. rewrite (Hempty Hne). split.
    + intros _ p [_ (pst & Hp & Hr)]%elem_of_reachedPredecessors.
      destruct (newPartitionAnalysis_lookup fn a0 p pst Hnew Hp)
        as (_ & _ & _ & _ & _ & _ & Hreached & _). congruence.
    + intros _. apply empty_below.
Qed.

(** When [solve] returns, the entry partition of every block that has
    predecessors equals the join of the exit partitions of those reached. *)
Lemma solve_fix fn a0 fuel u a' :
  newPartitionAnalysis fn = Done a0 →
  (∀ blk, fnBlocks fn !! 0 = Some blk → getPredecessorBlocks blk = []) →
  predecessorsMatch fn →
  solve fuel a0 = Done (u, a') →
  ∀ c st blk, blockStates a' !! c = Some st → fnBlocks fn !! c = Some blk →
    getPredecessorBlocks blk ≠ [] →
    Partition.equals (entryPartition st)
      (joinOfExits (blockStates a')
         (reachedPredecessors (blockStates a') (getPredecessorBlocks blk)))
    = true.
Proof using All.
  intros Hnew Hentry Hcfg Hrun.
  pose proof (newPartitionAnalysis_fix_inv fn a0 Hnew Hentry Hcfg) as Hinv.
  assert (function a0 = fn) as Hfn.
  { by apply newPartitionAnalysis_inv in Hnew as (? & ? & ? & _ & _ & _ & ->). }
  revert Hrun. unfold solve, mbind, Run_bind, get_state, assert_, put_state.
  destruct (negb (solved a0)); [|done]. intros Hrun.
  pose proof (solveLoop_returns _ _ _ _ Hrun) as ((Hfn' & _) & _ & _ & Hnone).
  apply solveLoop_fix_inv in Hrun as (_ & _ & _ & Hfix); [|done].
  intros c st blk Hc Hblk Hpreds.
  destruct (Hfix c st Hc) as [Hflag|Hset].
  { rewrite (Hnone c st Hc) in Hflag. done. }
  simpl in Hfn'. rewrite Hfn', Hfn in Hset.
  destruct (Hset blk Hblk) as [?|Hbounds]; [done|].
  apply equals_below. split.
  - apply Hbounds. apply joinOfExits_upperBound, below_refl.
  - apply joinOfExits_upperBound, Hbounds, below_refl.
Qed.
End SolverFixpoint.

Section SolverReached.
Context {P : Type} `{PartitionLattice P} `{SILOracles}.
Implicit Types (a : PartitionAnalysis P) (st : BlockPartitionState P).
Implicit Types (A F : list (BlockPartitionState P)).

(** A turn of the solver at a block lets no block stop being reached and no
    exit partition shrink. *)
Lemma solveBlock_evolves b (anyNeedUpdate any' : bool) a a' :
  solver_ok a → solveBlock b anyNeedUpdate a = Done (any', a') →
  evolves (blockStates a) (blockStates a').
Proof.
  intros Hok (st & Hb & Hcases)%solveBlock_inv.
  assert (b < length (blockStates a)) as Hlt by by eapply lookup_lt_Some.
  destruct (Hok b st Hb) as [Hexit_st Hentry_st].
  destruct Hcases as [(Hneeds & -> & ->)|(Hneeds & blk & Hblk & Hcases)];
    [apply evolves_refl|].
  cbv zeta in Hcases.
  set (visited := set_reached true (set_needsUpdate false st)) in *.
  set (states := <[b := visited]> (blockStates a)) in *.
  set (reachedPreds := reachedPredecessors states (getPredecessorBlocks blk)) in *.
  set (newEntry := joinOfExits states reachedPreds) in *.
  assert (evolves (blockStates a) states) as Hev1.
  { eapply evolves_insert; [done|done|apply below_refl]. }
  destruct Hcases as [(Hsome & Hequals & -> & ->)|(ops & t' & Hops & -> & ->)];
    [done|].
  set (entry := if bool_decide (reachedPreds = []) then entryPartition st
                else newEntry) in *.
  set (exit := replay ops entry) in *.
  set (solved := solvedBlockState st entry exit ops) in *.
  set (F0 := <[b := solved]> states) in *.
  assert (F0 = <[b := solved]> (blockStates a)) as HF0
    by (unfold F0, states; by rewrite list_insert_insert_eq).
  assert (below (entryPartition st) entry) as Hentry.
  { unfold entry. case_bool_decide as Hnone; [apply below_refl|].
    destruct (Hentry_st blk Hblk) as [Hnopreds|[Hbot|[Hne Hbelow]]].
    - exfalso. apply Hnone. unfold reachedPreds. by rewrite Hnopreds.
    - apply Hbot.
    - destruct (evolves_join _ _ _ Hev1 Hne) as [_ Hjoin].
      by eapply below_trans. }
  assert (below (exitPartition st) exit) as Hexit.
  { destruct Hexit_st as [Hbot|[Hpop Hbelow]]; [apply Hbot|].
    unfold opsOf in Hops. rewrite Hpop in Hops. destruct Hops as [-> _].
    eapply below_trans; [done|by apply replay_monotone]. }
  assert (evolves (blockStates a) F0) as Hev0.
  { rewrite HF0. by eapply evolves_insert. }
  simpl. destruct (negb _); [|done].
  eapply evolves_trans; [done|apply evolves_flag].
Qed.

(** A reached block holds its ops; an unreached block with predecessors has
    the least entry partition; a block that waits for an update has no
    predecessor or a reached predecessor whose exit partition is not the
    least. *)
Definition reach_ok (fn : SILFunction) A (c : BlockId) st : Prop :=
  (reached st = true → blockPartitionOpsPopulated st = true)
  ∧ (reached st = false →
     ∀ blk, fnBlocks fn !! c = Some blk →
       getPredecessorBlocks blk = [] ∨ isBottom (entryPartition st))
  ∧ (needsUpdate st = true →
     ∀ blk, fnBlocks fn !! c = Some blk →
       getPredecessorBlocks blk = []
       ∨ ∃ p pst, p ∈ getPredecessorBlocks blk ∧ A !! p = Some pst
                  ∧ reached pst = true ∧ ¬ isBottom (exitPartition pst)).

Definition reached_ok a : Prop :=
  ∀ c st, blockStates a !! c = Some st →
          reach_ok (function a) (blockStates a) c st.

Lemma waiting_evolves A F (preds : list BlockId) :
  evolves A F →
  (∃ p pst, p ∈ preds ∧ A !! p = Some pst
            ∧ reached pst = true ∧ ¬ isBottom (exitPartition pst)) →
  ∃ p pst, p ∈ preds ∧ F !! p = Some pst
           ∧ reached pst = true ∧ ¬ isBottom (exitPartition pst).
Proof.
  intros [Hlen Hev] (p & pst & Hp & Hpst & Hr & Hnb).
  destruct (lookup_lt_is_Some_2 F p) as [pst' Hpst'].
  { rewrite <- Hlen. by eapply lookup_lt_Some. }
  destruct (Hev p pst pst' Hpst Hpst') as [Hr' Hbelow].
  exists p, pst'. split_and!; [done|done|by apply Hr'|].
  intros Hbot. apply Hnb. intros q. eapply below_trans; [done|apply Hbot].
Qed.

Lemma solveBlock_reached b (anyNeedUpdate any' : bool) a a' :
  successorsMatch (function a) →
  solver_ok a → reached_ok a →
  solveBlock b anyNeedUpdate a = Done (any', a') →
  reached_ok a'.
Proof.
  intros Hcfg Hok Hreach Hrun.
  pose proof (solveBlock_evolves _ _ _ _ _ Hok Hrun) as Hev.
  pose proof (solveBlock_turn _ _ _ _ _ Hrun) as ((Hfn & _) & _).
  apply solveBlock_inv in Hrun as (st & Hb & Hcases).
  assert (b < length (blockStates a)) as Hlt by by eapply lookup_lt_Some.
  destruct (Hreach b st Hb) as (Hpop_st & Hentry_st & Hwait_st).
  destruct Hcases as [(Hneeds & -> & ->)|(Hneeds & blk & Hblk & Hcases)];
    [done|].
  cbv zeta in Hcases.
  set (visited := set_reached true (set_needsUpdate false st)) in *.
  set (states := <[b := visited]> (blockStates a)) in *.
  set (reachedPreds := reachedPredecessors states (getPredecessorBlocks blk)) in *.
  set (newEntry := joinOfExits states reachedPreds) in *.
  assert (states !! b = Some visited) as Hb1
    by (by apply list_lookup_insert_eq).
  (* a block other than [b], whose state is as it was but for the flag *)
  assert (∀ c st0 st', blockStates a !! c = Some st0 →
            reached st' = reached st0 →
            blockPartitionOpsPopulated st' = blockPartitionOpsPopulated st0 →
            entryPartition st' = entryPartition st0 →
            (needsUpdate st' = true → needsUpdate st0 = true
             ∨ ∀ blk', fnBlocks (function a) !! c = Some blk' →
                 ∃ p pst, p ∈ getPredecessorBlocks blk'
                          ∧ blockStates a' !! p = Some pst
                          ∧ reached pst = true
                          ∧ ¬ isBottom (exitPartition pst)) →
            reach_ok (function a') (blockStates a') c st') as Hother.
  { intros c st0 st' Hc Hr Hp He Hflag.
    destruct (Hreach c st0 Hc) as (Hpop0 & Hentry0 & Hwait0).
    rewrite Hfn. split_and!.
    - rewrite Hr, Hp. apply Hpop0.
    - rewrite Hr, He. apply Hentry0.
    - intros Hneeds' blk' Hblk'.
      destruct (Hflag Hneeds') as [Hold|Hnew].
      + destruct (Hwait0 Hold blk' Hblk') as [?|Hw]; [by left|].
        right. by eapply waiting_evolves.
      + right. by apply Hnew. }
  destruct Hcases as [(Hsome & Hequals & -> & ->)|(ops & t' & Hops & -> & ->)].
  - (* the entry partition is unchanged *)
    intros c st0. simpl. destruct (decide (c = b)) as [->|Hne].
    + rewrite Hb1. intros [= <-]. split_and!; [|done|done].
      intros _. simpl. destruct (reached st) eqn:Hr; [by apply Hpop_st|].
      exfalso.
      destruct (Hentry_st eq_refl blk Hblk) as [Hnone|Hbot].
      { apply Hsome. unfold reachedPreds. by rewrite Hnone. }
      destruct (Hwait_st Hneeds blk Hblk) as [Hnone|(p & pst & Hp & Hpst & Hrp & Hnb)].
      { apply Hsome. unfold reachedPreds. by rewrite Hnone. }
      assert (p ≠ b) as Hpb by (intros ->; congruence).
      apply Hnb. intros q.
      apply equals_below in Hequals as [Hle _].
      eapply below_trans; [|apply Hbot].
      eapply below_trans; [|apply Hle].
      assert (exitPartition pst = exitOf states p) as ->.
      { unfold exitOf, states. by rewrite list_lookup_insert_ne, Hpst by done. }
      apply joinOfExits_above. apply list_elem_of_filter. split; [|done].
      unfold states. rewrite list_lookup_insert_ne, Hpst by done.
      simpl. by rewrite Hrp.
    + unfold states. rewrite list_lookup_insert_ne by done. intros Hc.
      apply (Hother c st0 st0 Hc); [done..|by left].
  - (* the exit partition is recomputed *)
    set (entry := if bool_decide (reachedPreds = []) then entryPartition st
                  else newEntry) in *.
    set (exit := replay ops entry) in *.
    set (solved := solvedBlockState st entry exit ops) in *.
    set (F0 := <[b := solved]> states) in *.
    assert (F0 = <[b := solved]> (blockStates a)) as HF0
      by (unfold F0, states; by rewrite list_insert_insert_eq).
    assert (F0 !! b = Some solved) as HbF0
      by (rewrite HF0; by apply list_lookup_insert_eq).
    destruct (Partition.equals (exitPartition st) exit) eqn:Hequals;
      cbn [negb] in *.
    + intros c st0. simpl. destruct (decide (c = b)) as [->|Hne].
      * rewrite HbF0. intros [= <-]. unfold reach_ok, solved. simpl.
        split_and!; [done|by intros [=]|by intros [=]].
      * intros Hc. rewrite HF0, list_lookup_insert_ne in Hc by done.
        apply (Hother c st0 st0 Hc); [done..|by left].
    + assert (¬ isBottom exit) as Hnb.
      { intros Hbot.
        assert (below (exitPartition st) exit) as Hup.
        { destruct Hev as [_ Hev]. simpl in Hev.
          destruct (lookup_lt_is_Some_2
                      (flagSuccessors (getSuccessorBlocks blk) F0) b)
            as [st' Hst'].
          { rewrite flagSuccessors_length, HF0, length_insert. done. }
          destruct (Hev b st st' Hb Hst') as [_ Hbelow].
          rewrite flagSuccessors_lookup, HbF0 in Hst'. simpl in Hst'.
          injection Hst' as <-. revert Hbelow. by case_bool_decide. }
        assert (Partition.equals (exitPartition st) exit = true)
          by (apply equals_below; split; [done|apply Hbot]).
        congruence. }
      intros c st'. simpl. rewrite flagSuccessors_lookup.
      destruct (F0 !! c) as [st0|] eqn:Hc; [|done]. simpl. intros [= <-].
      assert (c ∈ getSuccessorBlocks blk →
              ∀ blk', fnBlocks (function a) !! c = Some blk' →
                ∃ p pst, p ∈ getPredecessorBlocks blk'
                         ∧ flagSuccessors (getSuccessorBlocks blk) F0 !! p
                           = Some pst
                         ∧ reached pst = true
                         ∧ ¬ isBottom (exitPartition pst)) as Hnew.
      { intros Hsucc blk' Hblk'.
        destruct (Hcfg b blk c Hblk Hsucc) as (blk'' & Hblk'' & Hin).
        assert (blk'' = blk') as -> by congruence.
        exists b. eexists. split; [done|].
        rewrite flagSuccessors_lookup, HbF0. simpl. split; [done|].
        by case_bool_decide. }
      destruct (decide (c = b)) as [->|Hne].
      * rewrite HbF0 in Hc. injection Hc as <-.
        case_bool_decide as Hsucc; (split_and!; [done|by intros [=]|]).
        -- intros _ blk' Hblk'. right. by apply Hnew.
        -- by intros [=].
      * rewrite HF0, list_lookup_insert_ne in Hc by done.
        case_bool_decide as Hsucc.
        -- apply (Hother c st0 _ Hc); [done..|]. intros _. right.
           by apply Hnew.
        -- apply (Hother c st0 st0 Hc); [done..|by left].
Qed.

Definition reached_inv a : Prop :=
  successorsMatch (function a) ∧ sound a ∧ solver_ok a ∧ reached_ok a.

Lemma solveBlock_reached_inv b (anyNeedUpdate any' : bool) a a' :
  reached_inv a → solveBlock b anyNeedUpdate a = Done (any', a') →
  reached_inv a'.
Proof.
  intros (Hcfg & Hsound & Hok & Hreach) Hrun.
  destruct (solveBlock_turn _ _ _ _ _ Hrun) as ((Hfn & _) & _ & Hs & _).
  destruct (solveBlock_ok _ _ _ _ _ Hok Hrun) as (Hok' & _).
  split_and!; [by rewrite Hfn|by apply Hs|done|by eapply solveBlock_reached].
Qed.

Lemma sweep_reached_inv blocks (anyNeedUpdate any' : bool) a a' :
  reached_inv a → sweep blocks anyNeedUpdate a = Done (any', a') →
  reached_inv a'.
Proof.
  revert anyNeedUpdate a. induction blocks as [|b blocks IH];
    intros anyNeedUpdate a Hinv; simpl.
  - by intros [= _ <-].
  - intros (any1 & a1 & Hstep & Hrest)%run_bind_inv.
    eapply IH; [|done]. by eapply solveBlock_reached_inv.
Qed.

Lemma solveLoop_reached_inv fuel a u a' :
  reached_inv a → solveLoop fuel a = Done (u, a') → reached_inv a'.
Proof.
  revert a. induction fuel as [|fuel IH]; intros a Hinv; [done|].
  cbn [solveLoop]. unfold mbind, Run_bind, get_state.
  destruct (sweep _ false a) as [[any' a1]|e|] eqn:Hsweep; [|done..].
  apply sweep_reached_inv in Hsweep; [|done].
  destruct any'; [by apply IH|]. by intros [= _ <-].
Qed.

Lemma newPartitionAnalysis_reached_inv fn a0 :
  newPartitionAnalysis fn = Done a0 →
  (∀ blk, fnBlocks fn !! 0 = Some blk → getPredecessorBlocks blk = []) →
  successorsMatch fn →
  reached_inv a0.
Proof.
  intros Hnew Hentry Hcfg.
  assert (function a0 = fn) as Hfn.
  { by apply newPartitionAnalysis_inv in Hnew as (? & ? & ? & _ & _ & _ & ->). }
  split_and!.
  - by rewrite Hfn.
  - by apply newPartitionAnalysis_sound in Hnew.
  - by eapply newPartitionAnalysis_ok.
  - intros c st Hc.
    destruct (newPartitionAnalysis_lookup fn a0 c st Hnew Hc)
      as (_ & _ & _ & _ & _ & _ & Hreached & _ & Hneeds & Hempty).
    rewrite Hfn. split_and!.
    + congruence.
    + intros _ blk Hblk. destruct (decide (c = 0)) as [->|Hne].
      * left. by apply Hentry.
      * right. rewrite (Hempty Hne). intros q. apply empty_below.
    + rewrite Hneeds. intros ->%bool_decide_eq_true blk Hblk.
      left. by apply Hentry.
Qed.

(** When [solve] returns, every reached block holds the ops of its
    instructions and its exit partition is their replay from its entry
    partition. *)
Lemma solve_reached fn a0 fuel u a' :
  newPartitionAnalysis fn = Done a0 →
  (∀ blk, fnBlocks fn !! 0 = Some blk → getPredecessorBlocks blk = []) →
  successorsMatch fn →
  solve fuel a0 = Done (u, a') →
  ∀ c st, blockStates a' !! c = Some st → reached st = true →
    exitPartition st = replay (blockPartitionOps st) (entryPartition st)
    ∧ ∃ blk t t',
        fnBlocks fn !! c = Some blk
        ∧ PartitionOpTranslator.translateSILBasicBlock
            (blockInstructions blk) t
          = Done (blockPartitionOps st, t').
Proof using All.
  intros Hnew Hentry Hcfg Hrun.
  pose proof (newPartitionAnalysis_reached_inv fn a0 Hnew Hentry Hcfg) as Hinv.
  assert (function a0 = fn) as Hfn.
  { by apply newPartitionAnalysis_inv in Hnew as (? & ? & ? & _ & _ & _ & ->). }
  revert Hrun. unfold solve, mbind, Run_bind, get_state, assert_, put_state.
  destruct (negb (solved a0)); [|done]. intros Hrun.
  pose proof (solveLoop_returns _ _ _ _ Hrun) as ((Hfn' & _) & _).
  apply solveLoop_reached_inv in Hrun as (_ & Hsound & _ & Hreach); [|done].
  intros c st Hc Hr.
  destruct (Hreach c st Hc) as (Hpop & _).
  destruct (Hsound c st Hc) as [_ Hst]. rewrite (Hpop Hr) in Hst.
  simpl in Hfn'. rewrite Hfn', Hfn in Hst. by destruct Hst as (_ & ? & ?).
Qed.
End SolverReached.

(** * Further properties of the code *)

(** ** The race tracer *)

Section TracerExtras.
Context {P : Type} `{Partition.Ops P} `{PartitionOpOrder}.
Variable fn : SILFunction.
Variable blockStates : list (BlockPartitionState P).
Implicit Types (t : RaceTracer).

(** X1: [traceUseOfConsumedValue] ends on every use, value, list of block
    states and tracer state, whatever the partitions are: from some amount
    of fuel on it gives one outcome, a failure of an assertion or of a
    lookup, or a result.  The recursion through [findConsumedAtEntryReason]
    is cut by the key entered in the cache before any recursive call. *)
Theorem traceUseOfConsumedValue_terminates use consumedVal t :
  settles (λ fuel, traceUseOfConsumedValue fn blockStates fuel use consumedVal) t.
Proof.
  unfold settles, traceUseOfConsumedValue.
  eapply settles_with_bind with (Q1 := λ _ _, True).
  { apply findConsumedAtOpReason_settles. }
  intros consumedReason t1 _. cbv beta.
  apply settles_with_fuelfree; [apply fuelfree_modify|done].
Qed.

(** X2: the breadth-first search of [findConsumedAtEntryReason] ends for
    every map of joins and every start value, although a value can enter
    the queue several times. *)
Theorem bfs_terminates (singleStepJoins : list (N * list N)) (consumedVal : ID) :
  ∃ N r, r ≠ OutOfFuel
         ∧ ∀ fuel, N ≤ fuel →
             bfs fuel singleStepJoins [(consumedVal, 0%N)] [] = r.
Proof. apply bfs_settles_from. Qed.

(** X3: [findConsumedAtEntryReason] memoizes: when it returns a reason, the
    cache holds that reason under the key of the call, and every later call
    with the same key gives it back without changing the tracer, with any
    amount of fuel. *)
Theorem findConsumedAtEntryReason_memoizes fuel b v t reason t' :
  findConsumedAtEntryReason fn blockStates fuel b v t = Done (reason, t') →
  consumedAtEntryReasons t' !! (b, v) = Some reason
  ∧ ∀ fuel', findConsumedAtEntryReason fn blockStates fuel' b v t'
             = Done (reason, t').
Proof.
  intros Hrun.
  assert (∃ block, blockStates !! b = Some block
                   ∧ Partition.isConsumed (entryPartition block) v = true)
    as (block & Hb & Hconsumed).
  { pose proof (findConsumedAtEntryReason_prefix fn blockStates fuel b v t)
      as Hprefix.
    destruct (blockStates !! b) as [block|]; [|congruence].
    exists block. split; [done|].
    destruct (Partition.isConsumed (entryPartition block) v); [done|congruence]. }
  assert (consumedAtEntryReasons t' !! (b, v) = Some reason) as Hcached.
  { pose proof (findConsumedAtEntryReason_prefix fn blockStates fuel b v t)
      as Hprefix.
    rewrite Hb, Hconsumed in Hprefix.
    destruct (consumedAtEntryReasons t !! (b, v)) as [cached|] eqn:Hcache.
    { rewrite Hprefix in Hrun. by injection Hrun as <- <-. }
    destruct fuel as [|fuel].
    { revert Hrun. cbn [findConsumedAtEntryReason].
      unfold mbind, Run_bind, at_, lift_outcome, assert_, get_state.
      by rewrite Hb, Hconsumed, Hcache. }
    rewrite (findConsumedAtEntryReason_miss fn blockStates fuel b v block)
      in Hrun by done.
    unfold entrySearch in Hrun.
    apply run_bind_inv in Hrun as (silBlock & t1 & _ & Hrun).
    apply run_bind_inv in Hrun as (consumedInSomePred & t2 & _ & Hrun).
    apply run_bind_inv in Hrun as (singleStepJoins & t3 & _ & Hrun).
    apply run_bind_inv in Hrun as (distances & t4 & _ & Hrun).
    apply run_bind_inv in Hrun as (consumedReason & t5 & _ & Hrun).
    apply run_bind_inv in Hrun as ([] & t6 & [= <-] & [= <- <-]).
    simpl. apply lookup_insert_eq. }
  split; [done|]. intros fuel'.
  pose proof (findConsumedAtEntryReason_prefix fn blockStates fuel' b v t')
    as Hprefix.
  by rewrite Hb, Hconsumed, Hcached in Hprefix.
Qed.
End TracerExtras.

(** X3 on [transferThenUse], once solved: the object sent in the entry block
    is consumed at the entry of the next block. *)
Lemma findConsumedAtEntryReason_memoizes_witness :
  ∃ reason t',
    findConsumedAtEntryReason ExampleTwoBlocks.transferThenUse
      (ExampleTwoBlocks.solvedStates ExampleTwoBlocks.transferThenUse)
      5 1 0%N ExampleTracer.newTracer = Done (reason, t')
    ∧ consumedAtEntryReasons t' !! (1, 0%N) = Some reason
    ∧ findConsumedAtEntryReason ExampleTwoBlocks.transferThenUse
        (ExampleTwoBlocks.solvedStates ExampleTwoBlocks.transferThenUse)
        0 1 0%N t' = Done (reason, t')
    ∧ Reason.isValid reason = true.
Proof.
  destruct (findConsumedAtEntryReason ExampleTwoBlocks.transferThenUse
              (ExampleTwoBlocks.solvedStates ExampleTwoBlocks.transferThenUse)
              5 1 0%N ExampleTracer.newTracer)
    as [[reason t']| |] eqn:Hrun; [|by vm_compute in Hrun..].
  exists reason, t'. split; [done|].
  destruct (findConsumedAtEntryReason_memoizes _ _ 5 1 0%N _ reason t' Hrun)
    as [Hcached Hagain].
  split; [done|]. split; [apply Hagain|].
  vm_compute in Hrun. by injection Hrun as <- _.
Defined.

(** ** The solver *)

Section SolverExtras.
Context {P : Type} `{Partition.Ops P} `{SILOracles}.
Implicit Types (a : PartitionAnalysis P) (st : BlockPartitionState P).

(** X4: when [solve] returns on the analysis its constructor made, whatever
    the partitions are: [solved] is set; no block needs an update; the
    function, the tracer, the diagnostics and the number of block states
    are as before; and every block state still belongs to its block, with
    either no op and the exit partition it was constructed with, or, once it
    holds ops, the block reached, the ops a translation of the instructions
    of the block and the exit partition their replay from the entry
    partition. *)
Theorem solve_returns_sound fn a0 fuel u a' :
  newPartitionAnalysis fn = Done a0 →
  solve fuel a0 = Done (u, a') →
  solved a' = true ∧ noneNeedsUpdate a' ∧ untouched a0 a' ∧ sound a'.
Proof.
  intros Hnew. unfold solve, mbind, Run_bind, get_state, assert_, put_state.
  destruct (negb (solved a0)); [|done].
  intros (Hun & Hsv & Hs & Hnone)%solveLoop_returns.
  split_and!; [done|done|done|].
  apply Hs. by apply newPartitionAnalysis_sound in Hnew.
Qed.

(** X5: an entry block without predecessors whose ops lead from its entry
    partition to a partition equal to the empty one ends the analysis at
    once: [solve] returns after one turn of its loop, whatever the fuel, and
    no other block is reached or translated, so that [diagnose] replays no
    op of theirs. *)
Theorem solve_stops_at_quiet_entry fn a0 blk st ops t' fuel :
  newPartitionAnalysis fn = Done a0 →
  fnBlocks fn !! 0 = Some blk →
  getPredecessorBlocks blk = [] →
  blockStates a0 !! 0 = Some st →
  PartitionOpTranslator.translateSILBasicBlock (blockInstructions blk)
    (translator a0) = Done (ops, t') →
  Partition.equals Partition.empty (replay ops (entryPartition st)) = true →
  ∃ a', solve (S fuel) a0 = Done (tt, a')
        ∧ ∀ b st', b ≠ 0 → blockStates a' !! b = Some st' →
            reached st' = false ∧ blockPartitionOpsPopulated st' = false
            ∧ blockPartitionOps st' = [].
Proof.
  intros Hnew Hblk Hpreds Hst Hops Hequals.
  destruct (newPartitionAnalysis_lookup fn a0 0 st Hnew Hst)
    as (Hfn & Hsolved & _ & Hexit & Hpop & _ & _ & Hbb & Hneeds & _).
  set (a1 := set_solved true a0).
  set (a2 := set_blockStates
               (<[0 := solvedBlockState st (entryPartition st)
                         (replay ops (entryPartition st)) ops]>
                  (blockStates a1))
               (set_translator t' a1)).
  assert (solveBlock 0 false a1 = Done (false, a2)) as Hstep.
  { apply (solveBlock_quiet a1 0 st blk ops t'); try done.
    - simpl. by rewrite Hfn.
    - unfold translatedOps. by rewrite Hpop.
    - by rewrite Hexit. }
  assert (0 < length (blockStates a0)) as Hlen by by eapply lookup_lt_Some.
  assert (∀ b st', b ≠ 0 → blockStates a2 !! b = Some st' →
            blockStates a0 !! b = Some st') as Hother.
  { intros b st' Hne. simpl. by rewrite list_lookup_insert_ne. }
  exists a2. split.
  - unfold solve, mbind, Run_bind, get_state, assert_, put_state.
    rewrite Hsolved. cbn [negb solveLoop].
    unfold mbind, Run_bind, get_state. fold a1.
    destruct (length (blockStates a1)) as [|n] eqn:Hn; [simpl in Hn; lia|].
    cbn [seq sweep]. rewrite (run_bind_done _ _ _ _ _ Hstep).
    rewrite sweep_idle; [done|].
    intros b [Hb1 Hb2]%elem_of_seq.
    assert (b < length (blockStates a2)) as Hlt.
    { simpl. rewrite length_insert. simpl in Hn. lia. }
    destruct (lookup_lt_is_Some_2 _ _ Hlt) as [st' Hst'].
    exists st'. split; [done|].
    apply Hother in Hst'; [|lia].
    destruct (newPartitionAnalysis_lookup fn a0 b st' Hnew Hst')
      as (_ & _ & _ & _ & _ & _ & _ & _ & -> & _).
    apply bool_decide_eq_false_2. lia.
  - intros b st' Hne Hst'%Hother; [|done].
    by destruct (newPartitionAnalysis_lookup fn a0 b st' Hnew Hst')
      as (_ & _ & _ & _ & ? & ? & ? & _).
Qed.
End SolverExtras.

(** X4 on [transferThenUse]. *)
Lemma solve_returns_sound_witness :
  ∃ a', (∃ a0, newPartitionAnalysis ExampleTwoBlocks.transferThenUse = Done a0
               ∧ solve 10 a0 = Done (tt, a'))
        ∧ solved a' = true ∧ noneNeedsUpdate a' ∧ sound a'
        ∧ map (λ st : BlockPartitionState SpecPartition.t, reached st)
            (blockStates a') = [true; true].
Proof.
  destruct (newPartitionAnalysis (P := SpecPartition.t)
              ExampleTwoBlocks.transferThenUse) as [a0| |] eqn:Hnew;
    [|by vm_compute in Hnew..].
  destruct (solve 10 a0) as [[[] a']| |] eqn:Hsolve.
  - exists a'. split; [by exists a0|].
    destruct (solve_returns_sound _ a0 10 tt a' Hnew Hsolve)
      as (Hsolved & Hnone & _ & Hsound).
    split_and!; [done..|].
    vm_compute in Hnew. injection Hnew as <-.
    vm_compute in Hsolve. by injection Hsolve as <-.
  - vm_compute in Hnew. injection Hnew as <-. by vm_compute in Hsolve.
  - vm_compute in Hnew. injection Hnew as <-. by vm_compute in Hsolve.
Defined.

(** X5 on [quietEntry]: the block that sends an object and then uses it is
    never reached, and the pass reports nothing. *)
Lemma solve_stops_at_quiet_entry_witness :
  (∃ a', (∃ a0, newPartitionAnalysis ExampleTwoBlocks.quietEntry = Done a0
                ∧ solve 1 (P := SpecPartition.t) a0 = Done (tt, a'))
         ∧ ∀ b st', b ≠ 0 → blockStates a' !! b = Some st' →
             reached st' = false ∧ blockPartitionOpsPopulated st' = false
             ∧ blockPartitionOps st' = [])
  ∧ diagnosticsOf (run (P := SpecPartition.t) 10 ExampleTwoBlocks.quietEntry)
    = [].
Proof.
  split; [|by vm_compute].
  destruct (newPartitionAnalysis (P := SpecPartition.t)
              ExampleTwoBlocks.quietEntry) as [a0| |] eqn:Hnew;
    [|by vm_compute in Hnew..].
  destruct (blockStates a0 !! 0) as [st|] eqn:Hst.
  2:{ vm_compute in Hnew. injection Hnew as <-. by vm_compute in Hst. }
  destruct (PartitionOpTranslator.translateSILBasicBlock
              [Example.inst 1 LiteralInst [] [9%N] false 0] (translator a0))
    as [[ops t']| |] eqn:Hops.
  2,3: vm_compute in Hnew; injection Hnew as <-; by vm_compute in Hops.
  destruct (solve_stops_at_quiet_entry ExampleTwoBlocks.quietEntry a0
              _ st ops t' 0 Hnew eq_refl eq_refl Hst Hops) as (a' & Hsolve & Hrest).
  - vm_compute in Hnew. injection Hnew as <-.
    vm_compute in Hst. injection Hst as <-.
    vm_compute in Hops. injection Hops as <- <-. by vm_compute.
  - exists a'. split; [by exists a0|done].
Defined.

(** The partitions over one ID form a lattice of height 2. *)
#[export] Instance OneID_lattice : @PartitionLattice OneID.t OneID.ops.
Proof.
  refine {| below := λ p q, OneID.rank p ≤ OneID.rank q;
            height := OneID.rank;
            maxHeight := 2 |}.
  - intros p. lia.
  - intros p q r. lia.
  - intros p. simpl. lia.
  - intros p q. simpl. unfold OneID.join. case_match; [apply Nat.ltb_lt in H|]; lia.
  - intros p q. simpl. unfold OneID.join.
    destruct (OneID.rank p <? OneID.rank q) eqn:Hpq; [lia|].
    apply Nat.ltb_ge in Hpq. lia.
  - intros p q r. simpl. unfold OneID.join. by case_match.
  - intros p q op Hpq. simpl.
    destruct op as [[|?] ?|? ? ?|? ? ?|[|?] ?|? ?], p, q; simpl in *; lia.
  - intros p q. simpl. rewrite bool_decide_eq_true. split.
    + intros ->. lia.
    + destruct p, q; simpl; intros [? ?]; (done || lia).
  - done.
  - intros p q. lia.
  - intros p. destruct p; simpl; lia.
Defined.

Section SolverLawful.
Context {P : Type} `{PartitionLattice P} `{SILOracles}.

(** X6: with partitions that form a lattice of height [maxHeight] (the
    empty partition least, [join] a least upper bound, every op monotone,
    [equals] the equivalence of the order), and an entry block that has no
    predecessor or starts from the least partition, [solve] ends within
    [blocks * maxHeight + 1] turns of its loop: with more fuel than
    [blocks * maxHeight] it stops on a failed assertion or lookup, or
    returns with no block left that needs an update. *)
Theorem solve_terminates fn (a0 : PartitionAnalysis P) fuel :
  newPartitionAnalysis fn = Done a0 →
  (∀ blk st, fnBlocks fn !! 0 = Some blk → blockStates a0 !! 0 = Some st →
             getPredecessorBlocks blk = [] ∨ isBottom (entryPartition st)) →
  length (fnBlocks fn) * maxHeight < fuel →
  match solve fuel a0 with
  | Done (_, a') => noneNeedsUpdate a'
  | Abort _ => True
  | OutOfFuel => False
  end.
Proof.
  intros Hnew Hentry Hfuel.
  assert (solver_ok a0) as Hok.
  { intros b st Hb.
    destruct (newPartitionAnalysis_lookup fn a0 b st Hnew Hb)
      as (Hfn & _ & _ & Hexit & _ & _ & _ & _ & _ & Hempty).
    split.
    - left. rewrite Hexit. intros q. apply empty_below.
    - intros blk Hblk. rewrite Hfn in Hblk.
      destruct (decide (b = 0)) as [->|Hne].
      + destruct (Hentry blk st Hblk Hb); [by left|right; by left].
      + right. left. rewrite (Hempty Hne). intros q. apply empty_below. }
  assert (length (blockStates a0) = length (fnBlocks fn)) as Hlen.
  { apply newPartitionAnalysis_inv in Hnew as (t & t1 & entry & _ & _ & _ & ->).
    simpl. by rewrite length_insert, length_map, length_seq. }
  unfold solve, mbind, Run_bind, get_state, assert_, put_state.
  destruct (negb (solved a0)); [|done].
  pose proof (solveLoop_ends (length (fnBlocks fn) * maxHeight)
                (set_solved true a0) fuel
                (solver_ok_set_solved _ _ Hok)) as Hends.
  simpl in Hends. rewrite Hlen in Hends.
  specialize (Hends ltac:(lia) Hfuel).
  destruct (solveLoop fuel (set_solved true a0)) as [[[] a']| |]; [|done..].
  apply Hends.
Qed.
End SolverLawful.

(** X6 on [transferThenUse], with the partitions over one ID. *)
Lemma solve_terminates_witness :
  ∃ a0, newPartitionAnalysis (P := OneID.t) (H := OneID.ops)
          ExampleTwoBlocks.transferThenUse = Done a0
        ∧ match solve (H := OneID.ops) 5 a0 with
          | Done (_, a') => noneNeedsUpdate a'
          | Abort _ => True
          | OutOfFuel => False
          end.
Proof.
  destruct (newPartitionAnalysis (P := OneID.t) (H := OneID.ops)
              ExampleTwoBlocks.transferThenUse) as [a0| |] eqn:Hnew;
    [|by vm_compute in Hnew..].
  exists a0. split; [done|].
  apply (solve_terminates ExampleTwoBlocks.transferThenUse a0 5 Hnew).
  - intros blk st [= <-] _. by left.
  - simpl. lia.
Defined.

(** X7: [solve] does not end on every function.  On [swapInLoop], whose
    entry block is a successor of the block of the loop, with the partitions
    of [SpecPartition], the analysis after four turns of the loop is the
    analysis after two, and [anyNeedUpdate] is set in each: no amount of
    fuel is enough. *)
Theorem solve_can_run_forever :
  ∃ a0, newPartitionAnalysis (P := SpecPartition.t)
          (H0 := ExampleLoop.slots) ExampleLoop.swapInLoop = Done a0
        ∧ ∀ fuel, solve (H0 := ExampleLoop.slots) fuel a0 = OutOfFuel.
Proof.
  destruct (newPartitionAnalysis (P := SpecPartition.t)
              (H0 := ExampleLoop.slots) ExampleLoop.swapInLoop)
    as [a0| |] eqn:Hnew; [|by vm_compute in Hnew..].
  exists a0. split; [done|]. intros fuel.
  unfold solve, mbind, Run_bind, get_state, assert_, put_state.
  assert (solved a0 = false) as Hsolved
    by (vm_compute in Hnew; by injection Hnew as <-).
  rewrite Hsolved. cbn [negb]. clear Hsolved.
  vm_compute in Hnew. injection Hnew as <-.
  match goal with |- solveLoop _ ?a = _ => set (a1 := a) end.
  destruct (ExampleLoop.afterRounds 2 a1) as [b|] eqn:H2;
    [|by vm_compute in H2].
  assert (ExampleLoop.afterRounds 2 b = Some b) as Hperiod.
  { assert (ExampleLoop.afterRounds 4 a1 = ExampleLoop.afterRounds 2 a1) as H4
      by (vm_compute; reflexivity).
    rewrite (afterRounds_add 2 2), H2 in H4. exact H4. }
  apply (afterRounds_exhausts (2 + fuel * 2)); [|lia].
  rewrite afterRounds_add, H2. simpl.
  rewrite (afterRounds_period 2 b b Hperiod fuel). by eexists.
Qed.

(** ** The translator *)

Section TranslatorExtras.
Context `{SILOracles}.
Import PartitionOpTranslator.
Implicit Types (s : TranslatorState).


(** X9: every op that the translation of a block emits names an instruction
    of that block as its source, and each ID it mentions is the ID of a
    value in the translator's map when the block is done. *)
Theorem translateSILBasicBlock_ops_from_block insts s ops s' :
  translateSILBasicBlock insts s = Done (ops, s') →
  Forall (λ op,
            (∃ inst, inst ∈ insts ∧ PartitionOp.sourceInst op = Some inst)
            ∧ ∀ i, i ∈ opIDs op → ∃ v, nodeIDMap s' !! v = Some i) ops.
Proof.
  intros (_ & _ & _ & Hops & _)%translateSILBasicBlock_keeps.
  eapply Forall_impl; [done|]. intros op (inst & Hin & Hsrc & Hids).
  split; [by exists inst|done].
Qed.

(** X10: an instruction whose operands and results are all Sendable emits
    no op and gives no value an ID, whatever its kind is. *)
Theorem translateSILInstruction_sendable_only inst s ops s' :
  Forall (λ v, isNonSendable v = false) (instOperands inst ++ instResults inst) →
  translateSILInstruction inst s = Done (ops, s') →
  ops = [] ∧ nodeIDMap s' = nodeIDMap s ∧ nextNodeID s' = nextNodeID s.
Proof.
  rewrite Forall_app, !Forall_forall. intros [Hoperands Hresults] Hrun.
  by apply translateSILInstruction_quiet in Hrun as (? & ? & ? & _).
Qed.

(** X11: the IDs are a numbering.  If in [s] the values with an ID are
    numbered 0, 1, ... without a gap and no two share an ID, then so they
    are after the translation of a block, as long as the values with an ID
    are then fewer than 2^32: beyond, [nextNodeID] wraps around. *)
Theorem translateSILBasicBlock_numbers insts s ops s' :
  translateSILBasicBlock insts s = Done (ops, s') →
  numbered s →
  (N.of_nat (size (nodeIDMap s')) < unsigned_max)%N →
  numbered s'.
Proof.
  intros (_ & _ & _ & _ & Hnum)%translateSILBasicBlock_keeps Hs Hsize.
  by apply Hnum.
Qed.

End TranslatorExtras.


(** X9 on the same block. *)
Lemma translateSILBasicBlock_ops_from_block_witness :
  ∃ s0 ops s',
    newTranslator ExampleFunctions.noDeclContext = Done s0
    ∧ PartitionOpTranslator.translateSILBasicBlock
        (concat (blockInstructions <$> fnBlocks ExampleFunctions.noDeclContext))
        s0 = Done (ops, s')
    ∧ Forall (λ op,
                (∃ inst,
                   inst ∈ concat (blockInstructions
                                    <$> fnBlocks ExampleFunctions.noDeclContext)
                   ∧ PartitionOp.sourceInst op = Some inst)
                ∧ ∀ i, i ∈ opIDs op → ∃ v, nodeIDMap s' !! v = Some i) ops.
Proof.
  destruct (newTranslator ExampleFunctions.noDeclContext) as [s0| |] eqn:Hnew;
    [|by vm_compute in Hnew..].
  destruct (PartitionOpTranslator.translateSILBasicBlock
              (concat (blockInstructions
                         <$> fnBlocks ExampleFunctions.noDeclContext)) s0)
    as [[ops s']| |] eqn:Hrun;
    [|vm_compute in Hnew; injection Hnew as <-; by vm_compute in Hrun..].
  exists s0, ops, s'. split; [done|]. split; [done|].
  exact (translateSILBasicBlock_ops_from_block _ _ _ _ Hrun).
Defined.

(** X10 on [%9 = integer_literal $Int, 0]. *)
Lemma translateSILInstruction_sendable_only_witness :
  ∃ ops s',
    PartitionOpTranslator.translateSILInstruction
      (Example.inst 1 LiteralInst [] [9%N] false 0) Example.met1
    = Done (ops, s')
    ∧ ops = [] ∧ nodeIDMap s' = nodeIDMap Example.met1
    ∧ nextNodeID s' = nextNodeID Example.met1.
Proof.
  destruct (PartitionOpTranslator.translateSILInstruction
              (Example.inst 1 LiteralInst [] [9%N] false 0) Example.met1)
    as [[ops s']| |] eqn:Hrun; [|by vm_compute in Hrun..].
  exists ops, s'. split; [done|].
  apply (translateSILInstruction_sendable_only
           (Example.inst 1 LiteralInst [] [9%N] false 0) Example.met1 ops s');
    [by repeat constructor|exact Hrun].
Defined.

(** X11 on the block of [noDeclContext], from the translator as built. *)
Lemma translateSILBasicBlock_numbers_witness :
  ∃ s0 ops s',
    newTranslator ExampleFunctions.noDeclContext = Done s0
    ∧ PartitionOpTranslator.translateSILBasicBlock
        (concat (blockInstructions <$> fnBlocks ExampleFunctions.noDeclContext))
        s0 = Done (ops, s')
    ∧ numbered s'.
Proof.
  destruct (newTranslator ExampleFunctions.noDeclContext) as [s0| |] eqn:Hnew;
    [|by vm_compute in Hnew..].
  destruct (PartitionOpTranslator.translateSILBasicBlock
              (concat (blockInstructions
                         <$> fnBlocks ExampleFunctions.noDeclContext)) s0)
    as [[ops s']| |] eqn:Hrun;
    [|vm_compute in Hnew; injection Hnew as <-; by vm_compute in Hrun..].
  exists s0, ops, s'. split; [done|]. split; [done|].
  apply (translateSILBasicBlock_numbers _ _ _ _ Hrun).
  - by eapply numbered_newTranslator.
  - vm_compute in Hnew. injection Hnew as <-.
    vm_compute in Hrun. injection Hrun as <- <-. by vm_compute.
Defined.


(** ** The pass *)

Section PassExtras.
Context {P : Type} `{PartitionLattice P} `{SILOracles} `{PartitionOpOrder}.

(** X13: the pass ends on every function whose entry block has no
    predecessor, when the partitions form a lattice of finite height (the
    empty partition least, [join] a least upper bound, every op monotone,
    [equals] the equivalence of the order): from some amount of fuel on,
    [run] gives one outcome, which is a return before the analysis, a failed
    assertion or lookup, or the analysis with its diagnostics.  The
    constructor, the solver, the replay of every block and the tracing of
    every failed requirement all end. *)
Theorem run_terminates fn :
  (∀ blk, fnBlocks fn !! 0 = Some blk → getPredecessorBlocks blk = []) →
  ∃ N r, r ≠ Some OutOfFuel ∧ ∀ fuel, N ≤ fuel → run fuel fn = r.
Proof using All.
  intros Hentry. unfold run.
  destruct (performForFunction_settles fn Hentry) as (N & r & Hr & Hrun).
  destruct (getDeclContext fn); [|by exists 0, None].
  destruct (negb (hasDeferredSendableChecking fn)); [by exists 0, None|].
  destruct (getSendableProtocol fn); [|by exists 0, None].
  exists N, (Some r). split; [congruence|].
  intros fuel Hfuel. by rewrite Hrun.
Qed.
End PassExtras.

(** X13 on [transferThenUse], with the partitions over one ID. *)
Lemma run_terminates_witness :
  ∃ N r, r ≠ Some OutOfFuel
         ∧ ∀ fuel, N ≤ fuel →
             run (P := OneID.t) (H := OneID.ops) fuel
               ExampleTwoBlocks.transferThenUse = r.
Proof.
  apply (@run_terminates OneID.t OneID.ops OneID_lattice Example.oracles
           Example.order ExampleTwoBlocks.transferThenUse).
  intros blk Hblk. injection Hblk as <-. reflexivity.
Defined.

(** ** Reasons *)

Section ReasonExtras.
Implicit Types (r other : ConsumedReason) (op : PartitionOp.t) (d : N).

(** X14: when [addOtherReasonAtDistance] returns, the reason holds its
    former ops at their former distances and every op of the other reason
    at its distance plus [distance] (as an [unsigned]), and nothing else;
    the ops of the other reason were all consume ops, distinct, and none
    was in the reason before. *)
Theorem addOtherReasonAtDistance_returns r other d r' :
  Reason.addOtherReasonAtDistance r other d = Done r' →
  allOps r' ≡ₚ allOps r ++ allOps other
  ∧ (∀ k op, atDistance r k op → atDistance r' k op)
  ∧ (∀ k op, atDistance other k op → atDistance r' (wrap32 (d + k)) op)
  ∧ Forall (λ op, PartitionOp.getKind op = KConsume ∧ (op ∉ allOps r))
      (allOps other)
  ∧ NoDup (allOps other).
Proof.
  unfold Reason.addOtherReasonAtDistance.
  intros (Hall & Hnodup & Hperm & Hat & Hkeep)%addEntries_inv.
  split; [done|]. split; [done|]. split; [|done].
  intros k op (vec & Hin & Hop). by eapply Hat.
Qed.

(** X15: [addOtherReasonAtDistance] fails its assertion whenever the two
    reasons have an op in common, whatever the distances are.  This is what
    happens in [findConsumedAtEntryReason] when the reasons of two
    predecessors go back to the same consume op, as where the two branches
    after that op meet. *)
Theorem addOtherReasonAtDistance_shared_op r other d op :
  Reason.containsOp r op = true →
  Reason.containsOp other op = true →
  Reason.addOtherReasonAtDistance r other d = Abort AssertionFailure.
Proof.
  intros Hr%containsOp_allOps Hother%containsOp_allOps.
  unfold Reason.addOtherReasonAtDistance.
  destruct (Reason.addEntries r (consumeOps other) d) as [r'|e|] eqn:Hadd.
  - apply addEntries_inv in Hadd as (Hall & _).
    rewrite Forall_forall in Hall. by destruct (Hall op Hother).
  - by apply addEntries_abort in Hadd as ->.
  - by apply addOtherReasonAtDistance_fuelfree in Hadd.
Qed.
End ReasonExtras.

(** X14 on the reason of a branch of [diamond], added at distance 1 to the
    empty reason. *)
Lemma addOtherReasonAtDistance_returns_witness :
  ∃ r',
    Reason.addOtherReasonAtDistance Reason.empty ExampleDiamond.branchReason 1
    = Done r'
    ∧ allOps r' ≡ₚ allOps Reason.empty ++ allOps ExampleDiamond.branchReason
    ∧ atDistance r' 1 ExampleDiamond.sendOp.
Proof.
  destruct (Reason.addOtherReasonAtDistance Reason.empty
              ExampleDiamond.branchReason 1) as [r'| |] eqn:Hadd;
    [|by vm_compute in Hadd..].
  exists r'. split; [done|].
  destruct (addOtherReasonAtDistance_returns _ _ _ _ Hadd)
    as (Hperm & _ & Hat & _).
  split; [exact Hperm|].
  apply (Hat 0%N ExampleDiamond.sendOp).
  exists [ExampleDiamond.sendOp]. split; by left.
Defined.

(** X15 on [diamond]: the tracer finds the same reason at the entry of
    each branch, the op of the call in bb0; adding the second to the first
    fails, and the pass stops on the assertion. *)
Lemma addOtherReasonAtDistance_shared_op_witness :
  ExampleDiamond.findsBranchReason 1 = true
  ∧ ExampleDiamond.findsBranchReason 2 = true
  ∧ Reason.addOtherReasonAtDistance ExampleDiamond.branchReason
      ExampleDiamond.branchReason 0 = Abort AssertionFailure
  ∧ run (P := SpecPartition.t) 30 ExampleDiamond.diamond
    = Some (Abort AssertionFailure).
Proof.
  split; [vm_compute; reflexivity|]. split; [vm_compute; reflexivity|]. split.
  - apply (addOtherReasonAtDistance_shared_op ExampleDiamond.branchReason
             ExampleDiamond.branchReason 0 ExampleDiamond.sendOp);
      reflexivity.
  - vm_compute. reflexivity.
Defined.

(** ** The breadth-first search *)

(** X16: when the breadth-first search of [findConsumedAtEntryReason]
    returns, the values that have a distance are the start value and the
    values joined to it through any number of single step joins, no more
    and no fewer, and the start value has distance 0.  (The distance of
    another value is the one of its last visit, not always the shortest.) *)
Theorem bfs_finds_connected (singleStepJoins : list (N * list N))
    (consumedVal : ID) fuel distancesFromTarget :
  bfs fuel singleStepJoins [(consumedVal, 0%N)] [] = Done distancesFromTarget →
  omap_lookup N.ltb consumedVal distancesFromTarget = Some 0%N
  ∧ ∀ x, x ∈ distancesFromTarget.*1 ↔ connected singleStepJoins consumedVal x.
Proof. by intros (_ & ? & ?)%bfs_finds. Qed.

(** X16 on the joins 1 - 2, 1 - 3, 2 - 3: value 3 is joined to 1 in one
    step and ends with distance 2. *)
Lemma bfs_finds_connected_witness :
  ∃ dist,
    bfs 10 [(1, [2; 3]); (2, [3])]%N [(1%N, 0%N)] [] = Done dist
    ∧ omap_lookup N.ltb 1%N dist = Some 0%N
    ∧ (∀ x, x ∈ dist.*1 ↔ connected [(1, [2; 3]); (2, [3])]%N 1%N x)
    ∧ omap_lookup N.ltb 3%N dist = Some 2%N.
Proof.
  destruct (bfs 10 [(1, [2; 3]); (2, [3])]%N [(1%N, 0%N)] []) as [dist| |]
    eqn:Hrun; [|by vm_compute in Hrun..].
  exists dist. split; [done|].
  destruct (bfs_finds_connected _ _ _ _ Hrun) as [Hstart Hkeys].
  split; [exact Hstart|]. split; [exact Hkeys|].
  vm_compute in Hrun. by injection Hrun as <-.
Defined.

(** ** The arguments *)

Section ArgumentExtras.
Context `{SILOracles}.
Implicit Types (s : TranslatorState).

(** X17: once [getArgIDs] has returned, in every later state of the
    translator that keeps the IDs given, [getArgIDs] returns the same IDs
    and [getNonConsumables] the first of them (or none), and neither
    changes the translator: the ID that [diagnoseFailures] protects is the
    first one of the region of the entry partition. *)
Theorem getNonConsumables_stable fn s argIDs s1 s2 :
  getArgIDs fn s = Done (argIDs, s1) →
  keepsIDs s1 s2 →
  getArgIDs fn s2 = Done (argIDs, s2)
  ∧ getNonConsumables fn s2 = Done (take 1 argIDs, s2).
Proof.
  intros Hargs Hkeep. split.
  - by destruct (getArgIDs_again fn s argIDs s1 s2 Hargs Hkeep).
  - by eapply getNonConsumables_again.
Qed.
End ArgumentExtras.

(** X17 on [oneArgument], from the translator as built. *)
Lemma getNonConsumables_stable_witness :
  ∃ s0 argIDs s1,
    newTranslator ExampleSolver.oneArgument = Done s0
    ∧ getArgIDs ExampleSolver.oneArgument s0 = Done (argIDs, s1)
    ∧ getArgIDs ExampleSolver.oneArgument s1 = Done (argIDs, s1)
    ∧ getNonConsumables ExampleSolver.oneArgument s1
      = Done (take 1 argIDs, s1).
Proof.
  destruct (newTranslator ExampleSolver.oneArgument) as [s0| |] eqn:Hnew;
    [|by vm_compute in Hnew..].
  destruct (getArgIDs ExampleSolver.oneArgument s0) as [[argIDs s1]| |]
    eqn:Hargs;
    [|vm_compute in Hnew; injection Hnew as <-; by vm_compute in Hargs..].
  exists s0, argIDs, s1. split; [done|]. split; [done|].
  apply (getNonConsumables_stable ExampleSolver.oneArgument s0 argIDs s1 s1
           Hargs).
  split; [intros k i Hk; exact Hk|reflexivity].
Defined.

(** ** The IDs at the end of the pass *)

Section NumberingExtras.
Context {P : Type} `{Partition.Ops P} `{SILOracles} `{PartitionOpOrder}.

(** X18: when the analysis of a function is done, the IDs in the
    translator are a numbering of the values met: they are 0, 1, ... up to
    [nextNodeID], and no two values share an ID, through the constructor,
    every translation of a block by the solver and every call of
    [getNonConsumables] by [diagnose]; as long as fewer than 2^32 values
    have an ID at the end. *)
Theorem performForFunction_numbers fuel fn a' :
  performForFunction fuel fn = Done a' →
  (N.of_nat (size (nodeIDMap (translator a'))) < unsigned_max)%N →
  numbered (translator a').
Proof.
  intros (s0 & Hs0 & _ & Hnum)%performForFunction_keeps Hsize.
  apply Hnum; [done|]. by eapply numbered_newTranslator.
Qed.
End NumberingExtras.

(** X18 on [transferThenUse], with the partitions of [SpecPartition]. *)
Lemma performForFunction_numbers_witness :
  ∃ a', performForFunction (P := SpecPartition.t) 10
          ExampleTwoBlocks.transferThenUse = Done a'
        ∧ numbered (translator a').
Proof.
  destruct (performForFunction (P := SpecPartition.t) 10
              ExampleTwoBlocks.transferThenUse) as [a'| |] eqn:Hrun;
    [|by vm_compute in Hrun..].
  exists a'. split; [done|].
  apply (performForFunction_numbers 10 ExampleTwoBlocks.transferThenUse a' Hrun).
  vm_compute in Hrun. injection Hrun as <-. by vm_compute.
Defined.

(** ** The result of the solver *)

Section FixpointExtras.
Context {P : Type} `{PartitionLattice P} `{SILOracles}.

(** X19: when [solve] returns, the block states are a solution of the data
    flow equations over the reached blocks.  For a function whose entry
    block has no predecessor and whose predecessor and successor lists
    agree, with partitions that form a lattice: the entry partition of every
    block that has predecessors equals the join of the exit partitions of
    its reached predecessors (the empty partition if none is reached); and
    every reached block holds the ops of its instructions, its exit
    partition being their replay from its entry partition. *)
Theorem solve_reaches_fixpoint fn a0 fuel u a' :
  newPartitionAnalysis fn = Done a0 →
  (∀ blk, fnBlocks fn !! 0 = Some blk → getPredecessorBlocks blk = []) →
  predecessorsMatch fn → successorsMatch fn →
  solve fuel a0 = Done (u, a') →
  ∀ c st blk, blockStates a' !! c = Some st → fnBlocks fn !! c = Some blk →
    (getPredecessorBlocks blk ≠ [] →
     Partition.equals (entryPartition st)
       (joinOfExits (blockStates a')
          (reachedPredecessors (blockStates a') (getPredecessorBlocks blk)))
     = true)
    ∧ (reached st = true →
       exitPartition st = replay (blockPartitionOps st) (entryPartition st)
       ∧ ∃ t t', PartitionOpTranslator.translateSILBasicBlock
                   (blockInstructions blk) t
                 = Done (blockPartitionOps st, t')).
Proof using All.
  intros Hnew Hentry Hpreds Hsuccs Hrun c st blk Hc Hblk. split.
  - by eapply solve_fix.
  - intros Hr.
    destruct (solve_reached fn a0 fuel u a' Hnew Hentry Hsuccs Hrun c st Hc Hr)
      as (Hexit & blk' & t & t' & Hblk' & Hops).
    assert (blk' = blk) as -> by congruence. eauto.
Qed.
End FixpointExtras.

(** X19 on [transferThenUse], with the partitions over one ID. *)
Lemma solve_reaches_fixpoint_witness :
  ∃ a0 a',
    newPartitionAnalysis (P := OneID.t) (H := OneID.ops)
      ExampleTwoBlocks.transferThenUse = Done a0
    ∧ solve (H := OneID.ops) 5 a0 = Done (tt, a')
    ∧ ∀ (c : BlockId) st blk,
        blockStates a' !! c = Some st →
        fnBlocks ExampleTwoBlocks.transferThenUse !! c = Some blk →
        (getPredecessorBlocks blk ≠ [] →
         Partition.equals (Ops := OneID.ops) (entryPartition st)
           (joinOfExits (H := OneID.ops) (blockStates a')
              (reachedPredecessors (blockStates a')
                 (getPredecessorBlocks blk))) = true)
        ∧ (reached st = true →
           exitPartition st
           = replay (H := OneID.ops) (blockPartitionOps st) (entryPartition st)
           ∧ ∃ t t', PartitionOpTranslator.translateSILBasicBlock
                       (H := Example.oracles) (blockInstructions blk) t
                     = Done (blockPartitionOps st, t')).
Proof.
  destruct (newPartitionAnalysis (P := OneID.t) (H := OneID.ops)
              ExampleTwoBlocks.transferThenUse) as [a0| |] eqn:Hnew;
    [|by vm_compute in Hnew..].
  destruct (solve (H := OneID.ops) 5 a0) as [[[] a']| |] eqn:Hrun;
    [|vm_compute in Hnew; injection Hnew as <-; by vm_compute in Hrun..].
  exists a0, a'. split; [done|]. split; [done|].
  apply (@solve_reaches_fixpoint OneID.t OneID.ops OneID_lattice
           Example.oracles ExampleTwoBlocks.transferThenUse a0 5 tt a' Hnew);
    [| | |exact Hrun].
  - intros blk Hblk. injection Hblk as <-. reflexivity.
  - intros c blk p Hc Hp. destruct c as [|[|c]]; simpl in Hc; [| |done].
    + injection Hc as <-. simpl in Hp. by apply elem_of_nil in Hp.
    + injection Hc as <-. simpl in Hp.
      apply list_elem_of_singleton in Hp as ->.
      eexists. split; [reflexivity|]. simpl. by left.
  - intros p pblk c Hp Hc. destruct p as [|[|p]]; simpl in Hp; [| |done].
    + injection Hp as <-. simpl in Hc.
      apply list_elem_of_singleton in Hc as ->.
      eexists. split; [reflexivity|]. simpl. by left.
    + injection Hp as <-. simpl in Hc. by apply elem_of_nil in Hc.
Defined.
